(** * Runic: lexer and recursive-descent parser

    A shallow embedding of the Go package [runic] (files [lex.go],
    [node.go] and the parser), together with the properties its
    specification states about it.

    Conventions of the embedding.
    - A Go [string] is a sequence of bytes: [list byte].
    - A Go [rune], and every Go [int] the lexer keeps (positions, line
      numbers, counters), is a [Z]; none of them can leave the 64-bit
      range on an input that fits in memory.
    - The lexer is a record that every operation takes and returns.
    - A run-time panic of the Go program (a slice bound out of range, a nil
      dereference) is the result [Panic]; loops and recursive calls are
      bounded by a [fuel] argument and give [OutOfFuel] when it is
      exhausted. *)

From Stdlib Require Import ZArith List Bool Lia.
From Stdlib Require Import Strings.String Strings.Ascii Strings.Byte.
Import ListNotations.
Open Scope Z_scope.

(** ** Results of partial computations *)

Inductive result (A : Type) : Type :=
| Ok (a : A)
| Panic
| OutOfFuel.
Arguments Ok {A} a.
Arguments Panic {A}.
Arguments OutOfFuel {A}.

Definition bind {A B : Type} (m : result A) (k : A -> result B) : result B :=
  match m with
  | Ok a => k a
  | Panic => Panic
  | OutOfFuel => OutOfFuel
  end.

Notation "x <- m ;; k" := (bind m (fun x => k))
  (at level 61, m at next level, right associativity).

(** ** Go strings *)

Definition gostring := list byte.

Definition str (s : string) : gostring := list_byte_of_string s.
Arguments str s%_string.

Definition b2z (b : byte) : Z := Z.of_N (Byte.to_N b).

Definition z2b (z : Z) : byte :=
  match Byte.of_N (Z.to_N (z mod 256)) with
  | Some b => b
  | None => x00
  end.

Definition len (s : gostring) : Z := Z.of_nat (List.length s).

(** [s[a:]], [s[:b]]: Go panics unless [0 <= a <= len s]. *)
Definition sliceFrom (s : gostring) (a : Z) : result gostring :=
  if (0 <=? a) && (a <=? len s) then Ok (skipn (Z.to_nat a) s) else Panic.

Definition sliceTo (s : gostring) (b : Z) : result gostring :=
  if (0 <=? b) && (b <=? len s) then Ok (firstn (Z.to_nat b) s) else Panic.

(** ** Package [unicode/utf8] of the Go standard library *)

Module utf8.

Definition RuneError : Z := 0xFFFD.
Definition RuneSelf : Z := 0x80.
Definition UTFMax : Z := 4.
Definition MaxRune : Z := 0x10FFFF.

Definition locb : Z := 0x80.
Definition hicb : Z := 0xBF.

(** The table [first]: for a leading byte, [None] when it is ASCII or
    invalid, otherwise the size of the sequence and the range accepted
    for its second byte. *)
Definition first (s0 : Z) : option (Z * (Z * Z)) :=
  if s0 <? 0xC2 then None
  else if s0 <? 0xE0 then Some (2, (locb, hicb))
  else if s0 =? 0xE0 then Some (3, (0xA0, hicb))
  else if s0 <? 0xED then Some (3, (locb, hicb))
  else if s0 =? 0xED then Some (3, (locb, 0x9F))
  else if s0 <? 0xF0 then Some (3, (locb, hicb))
  else if s0 =? 0xF0 then Some (4, (0x90, hicb))
  else if s0 <? 0xF4 then Some (4, (locb, hicb))
  else if s0 =? 0xF4 then Some (4, (locb, 0x8F))
  else None.

Definition DecodeRuneInString (s : gostring) : Z * Z :=
  match s with
  | [] => (RuneError, 0)
  | b0 :: t =>
    let s0 := b2z b0 in
    match first s0 with
    | None => if s0 <? RuneSelf then (s0, 1) else (RuneError, 1)
    | Some (sz, (lo, hi)) =>
      if len s <? sz then (RuneError, 1) else
      match t with
      | [] => (RuneError, 1)
      | b1 :: t1 =>
        let s1 := b2z b1 in
        if (s1 <? lo) || (hi <? s1) then (RuneError, 1)
        else if sz <=? 2 then
          (Z.lor (Z.shiftl (Z.land s0 0x1F) 6) (Z.land s1 0x3F), 2)
        else
        match t1 with
        | [] => (RuneError, 1)
        | b2 :: t2 =>
          let s2 := b2z b2 in
          if (s2 <? locb) || (hicb <? s2) then (RuneError, 1)
          else if sz <=? 3 then
            (Z.lor (Z.lor (Z.shiftl (Z.land s0 0x0F) 12)
                          (Z.shiftl (Z.land s1 0x3F) 6))
                   (Z.land s2 0x3F), 3)
          else
          match t2 with
          | [] => (RuneError, 1)
          | b3 :: _ =>
            let s3 := b2z b3 in
            if (s3 <? locb) || (hicb <? s3) then (RuneError, 1)
            else
              (Z.lor (Z.lor (Z.lor (Z.shiftl (Z.land s0 0x07) 18)
                                   (Z.shiftl (Z.land s1 0x3F) 12))
                            (Z.shiftl (Z.land s2 0x3F) 6))
                     (Z.land s3 0x3F), 4)
          end
        end
      end
    end
  end.

Definition RuneStart (b : Z) : bool := negb (Z.land b 0xC0 =? 0x80).

(** The backward scan of [DecodeLastRuneInString]: from [start], step
    down to [lim] until a byte that can start a rune. *)
Fixpoint scanStart (s : gostring) (n : nat) (start lim : Z) : Z :=
  match n with
  | O => start
  | S n' =>
    if start <? lim then start
    else if RuneStart (b2z (nth (Z.to_nat start) s x00)) then start
    else scanStart s n' (start - 1) lim
  end.

Definition DecodeLastRuneInString (s : gostring) : Z * Z :=
  let end_ := len s in
  if end_ =? 0 then (RuneError, 0) else
  let start := end_ - 1 in
  let r := b2z (nth (Z.to_nat start) s x00) in
  if r <? RuneSelf then (r, 1) else
  let lim := Z.max 0 (end_ - UTFMax) in
  let start := Z.max 0 (scanStart s 4 (start - 1) lim) in
  let '(r, size) := DecodeRuneInString (skipn (Z.to_nat start) s) in
  if start + size =? end_ then (r, size) else (RuneError, 1).

(** [string(r)]: the UTF-8 encoding of a rune; a rune that is not a
    Unicode scalar value encodes as [RuneError]. *)
Definition encode3 (r : Z) : gostring :=
  [z2b (Z.lor 0xE0 (Z.shiftr r 12));
   z2b (Z.lor 0x80 (Z.land (Z.shiftr r 6) 0x3F));
   z2b (Z.lor 0x80 (Z.land r 0x3F))].

Definition EncodeRune (r : Z) : gostring :=
  if (0 <=? r) && (r <? 0x80) then [z2b r]
  else if (0 <=? r) && (r <? 0x800) then
    [z2b (Z.lor 0xC0 (Z.shiftr r 6)); z2b (Z.lor 0x80 (Z.land r 0x3F))]
  else if (r <? 0) || (MaxRune <? r) || ((0xD800 <=? r) && (r <=? 0xDFFF))
  then encode3 RuneError
  else if r <? 0x10000 then encode3 r
  else
    [z2b (Z.lor 0xF0 (Z.shiftr r 18));
     z2b (Z.lor 0x80 (Z.land (Z.shiftr r 12) 0x3F));
     z2b (Z.lor 0x80 (Z.land (Z.shiftr r 6) 0x3F));
     z2b (Z.lor 0x80 (Z.land r 0x3F))].

End utf8.

(** ** Package [unicode] of the Go standard library *)

Module unicode.

Definition MaxLatin1 : Z := 0xFF.

(** [unicode.IsSpace]: the Latin-1 cases of the function and, above
    them, the table [White_Space]. *)
Definition IsSpace (r : Z) : bool :=
  if (0 <=? r) && (r <=? MaxLatin1) then
    ((0x09 <=? r) && (r <=? 0x0D)) || (r =? 0x20) || (r =? 0x85) || (r =? 0xA0)
  else
    (r =? 0x1680) || ((0x2000 <=? r) && (r <=? 0x200A)) ||
    (r =? 0x2028) || (r =? 0x2029) || (r =? 0x202F) || (r =? 0x205F) ||
    (r =? 0x3000).

(** The letters of Latin-1, from the table [properties]. *)
Definition latin1Letter (r : Z) : bool :=
  ((0x41 <=? r) && (r <=? 0x5A)) || ((0x61 <=? r) && (r <=? 0x7A)) ||
  (r =? 0xAA) || (r =? 0xB5) || (r =? 0xBA) ||
  ((0xC0 <=? r) && (r <=? 0xD6)) || ((0xD8 <=? r) && (r <=? 0xF6)) ||
  ((0xF8 <=? r) && (r <=? 0xFF)).

End unicode.

(** ** The lexer ([lex.go]) *)

Inductive tokenType : Type :=
| typeNone
| typeEOF
| typeText
| typeTerminator
| typeHeading
| typeTag
| typeOpeningSquare
| typeClosingSquare
| typeBulletpoint.

Definition tokenType_eqb (a b : tokenType) : bool :=
  match a, b with
  | typeNone, typeNone | typeEOF, typeEOF | typeText, typeText
  | typeTerminator, typeTerminator | typeHeading, typeHeading
  | typeTag, typeTag | typeOpeningSquare, typeOpeningSquare
  | typeClosingSquare, typeClosingSquare
  | typeBulletpoint, typeBulletpoint => true
  | _, _ => false
  end.

(** [token]: a single lexeme returned from the lexer. *)
Record token : Type := mkTok {
  Typ : tokenType;   (* type of token *)
  Val : gostring;    (* characters comprising the token *)
  Line : Z;          (* line where the token was found *)
  Pos : Z;           (* position in the input text where it was found *)
  indent : Z         (* number of spaces appearing before the token *)
}.

(** The zero value [token{}]. *)
Definition emptyToken : token := mkTok typeNone [] 0 0 0.

Definition eof : Z := -1.
Definition void : Z := -2.
Definition charNewline : Z := 10.
Definition charDot : Z := 46.
Definition charColon : Z := 58.
Definition charOpeningSquare : Z := 91.
Definition charClosingSquare : Z := 93.
Definition charBackslash : Z := 92.
Definition charHyphen : Z := 45.
Definition charSpace : Z := 32.

(** The lex functions a lexer can hold in its field [lexNext]. *)
Inductive lexFn : Type :=
| fnGlobal
| fnText
| fnHeading
| fnTerminator
| fnTag
| fnOpeningSquare
| fnClosingSquare
| fnHypen.

Definition ctxList : Z := 1.

(** [lexer]: the state machine processing the input text. The Go field
    [token] is [tok] here, the type being [token]. *)
Record lexer : Type := mkLexer {
  input : gostring;            (* input string containing markup *)
  line : Z;                    (* current line number *)
  pos : Z;                     (* current position in the input text *)
  tok : token;                 (* current token *)
  char : Z;                    (* current character *)
  lexNext : option lexFn;      (* next lex function, [None] for nil *)
  skippedNewlines : Z;         (* newlines skipped during [skipSpace] *)
  skippedSpace : Z;            (* spaces skipped during [skipSpace] *)
  tag : gostring;              (* current tag accumulated *)
  continuousNewline : bool;    (* a single newline is no terminator *)
  ctx : Z                      (* current context *)
}.

Definition set_input (l : lexer) (v : gostring) : lexer :=
  mkLexer v (line l) (pos l) (tok l) (char l) (lexNext l)
          (skippedNewlines l) (skippedSpace l) (tag l)
          (continuousNewline l) (ctx l).
Definition set_line (l : lexer) (v : Z) : lexer :=
  mkLexer (input l) v (pos l) (tok l) (char l) (lexNext l)
          (skippedNewlines l) (skippedSpace l) (tag l)
          (continuousNewline l) (ctx l).
Definition set_pos (l : lexer) (v : Z) : lexer :=
  mkLexer (input l) (line l) v (tok l) (char l) (lexNext l)
          (skippedNewlines l) (skippedSpace l) (tag l)
          (continuousNewline l) (ctx l).
Definition set_tok (l : lexer) (v : token) : lexer :=
  mkLexer (input l) (line l) (pos l) v (char l) (lexNext l)
          (skippedNewlines l) (skippedSpace l) (tag l)
          (continuousNewline l) (ctx l).
Definition set_char (l : lexer) (v : Z) : lexer :=
  mkLexer (input l) (line l) (pos l) (tok l) v (lexNext l)
          (skippedNewlines l) (skippedSpace l) (tag l)
          (continuousNewline l) (ctx l).
Definition set_lexNext (l : lexer) (v : option lexFn) : lexer :=
  mkLexer (input l) (line l) (pos l) (tok l) (char l) v
          (skippedNewlines l) (skippedSpace l) (tag l)
          (continuousNewline l) (ctx l).
Definition set_skippedNewlines (l : lexer) (v : Z) : lexer :=
  mkLexer (input l) (line l) (pos l) (tok l) (char l) (lexNext l)
          v (skippedSpace l) (tag l) (continuousNewline l) (ctx l).
Definition set_skippedSpace (l : lexer) (v : Z) : lexer :=
  mkLexer (input l) (line l) (pos l) (tok l) (char l) (lexNext l)
          (skippedNewlines l) v (tag l) (continuousNewline l) (ctx l).
Definition set_tag (l : lexer) (v : gostring) : lexer :=
  mkLexer (input l) (line l) (pos l) (tok l) (char l) (lexNext l)
          (skippedNewlines l) (skippedSpace l) v
          (continuousNewline l) (ctx l).
Definition set_continuousNewline (l : lexer) (v : bool) : lexer :=
  mkLexer (input l) (line l) (pos l) (tok l) (char l) (lexNext l)
          (skippedNewlines l) (skippedSpace l) (tag l) v (ctx l).
Definition set_ctx (l : lexer) (v : Z) : lexer :=
  mkLexer (input l) (line l) (pos l) (tok l) (char l) (lexNext l)
          (skippedNewlines l) (skippedSpace l) (tag l)
          (continuousNewline l) v.

Definition set_Typ (t : token) (v : tokenType) : token :=
  mkTok v (Val t) (Line t) (Pos t) (indent t).
Definition set_Val (t : token) (v : gostring) : token :=
  mkTok (Typ t) v (Line t) (Pos t) (indent t).
Definition set_indent (t : token) (v : Z) : token :=
  mkTok (Typ t) (Val t) (Line t) (Pos t) v.

(** [lex]: a lexer initialised to process the given input text. *)
Definition lex (input : gostring) : lexer :=
  mkLexer input 1 0 emptyToken 0 (Some fnGlobal) 0 0 [] false 0.

(** [mkToken]: a token of the given type and value at the current line
    and position. *)
Definition mkToken (l : lexer) (typ : tokenType) (val : gostring) : token :=
  mkTok typ val (line l) (pos l) 0.

Definition resetToken (l : lexer) : lexer :=
  set_ctx (set_continuousNewline (set_tok l emptyToken) false) 0.

(** [strings.TrimSpace]: leading, then trailing white space removed, one
    rune at a time. *)
Fixpoint trimLeft (n : nat) (s : gostring) : gostring :=
  match n with
  | O => s
  | S n' =>
    match s with
    | [] => s
    | _ :: _ =>
      let '(r, w) := utf8.DecodeRuneInString s in
      if unicode.IsSpace r then trimLeft n' (skipn (Z.to_nat w) s) else s
    end
  end.

Fixpoint trimRight (n : nat) (s : gostring) : gostring :=
  match n with
  | O => s
  | S n' =>
    match s with
    | [] => s
    | _ :: _ =>
      let '(r, w) := utf8.DecodeLastRuneInString s in
      if unicode.IsSpace r
      then trimRight n' (firstn (List.length s - Z.to_nat w) s)
      else s
    end
  end.

Definition TrimSpace (s : gostring) : gostring :=
  let s1 := trimLeft (List.length s) s in
  trimRight (List.length s1) s1.

(** ** The document tree ([node.go]) *)

#[local] Set Warnings "-register-all".

Inductive Node : Type :=
| mkNode (Typ : gostring) (Val : gostring) (Children : list Node).

Definition NodeTyp (n : Node) : gostring := let 'mkNode t _ _ := n in t.
Definition NodeVal (n : Node) : gostring := let 'mkNode _ v _ := n in v.
Definition Children (n : Node) : list Node := let 'mkNode _ _ c := n in c.

Definition INDENT_WIDTH : Z := 2.

Definition nodeRoot : gostring := str "Root".
Definition nodeError : gostring := str "ERROR".
Definition nodeHeadingOne : gostring := str "HeadingOne".
Definition nodeHeadingTwo : gostring := str "HeadingTwo".
Definition nodeHeadingThree : gostring := str "HeadingThree".
Definition nodeHeadingFour : gostring := str "HeadingFour".
Definition nodeHeadingFive : gostring := str "HeadingFive".
Definition nodeHeadingSix : gostring := str "HeadingSix".
Definition nodeParagraph : gostring := str "Paragraph".
Definition nodeText : gostring := str "Text".
Definition nodeBoldTag : gostring := str "BoldTag".
Definition nodeItalicTag : gostring := str "ItalicTag".
Definition nodeList : gostring := str "List".
Definition nodeListItem : gostring := str "ListItem".

Definition nodeHeadingOneValue : gostring := str ".".
Definition nodeHeadingTwoValue : gostring := str ":".
Definition nodeHeadingThreeValue : gostring := str ":.".
Definition nodeHeadingFourValue : gostring := str "::".
Definition nodeHeadingFiveValue : gostring := str "::.".
Definition nodeHeadingSixValue : gostring := str ":::".

Definition errInvalidTag : gostring := str "Invalid tag name".
Definition errInvalidHeading : gostring := str "Invalid heading value".

(** Equality of Go strings, [==]. *)
Fixpoint streq (a b : gostring) : bool :=
  match a, b with
  | [], [] => true
  | x :: a', y :: b' => Byte.eqb x y && streq a' b'
  | _, _ => false
  end.

(** Go's [/] on [int] truncates toward zero. *)
Definition getListItemDepth (listItem : token) : Z :=
  Z.quot (indent listItem) INDENT_WIDTH.

(** ** The HTML output ([html.go]) *)

Inductive htmlCtxType : Type :=
| htmlCtxNone
| htmlCtxParagraph.

(** The first [switch] of the loop of [toHtml]: what is written before
    the content of a child of the given kind. *)
Definition openingTag (typ : gostring) : gostring :=
  if streq typ nodeError then str "<span class='error'>"
  else if streq typ nodeHeadingOne then str "<h1>"
  else if streq typ nodeHeadingTwo then str "<h2>"
  else if streq typ nodeHeadingThree then str "<h3>"
  else if streq typ nodeHeadingFour then str "<h4>"
  else if streq typ nodeHeadingFive then str "<h5>"
  else if streq typ nodeHeadingSix then str "<h6>"
  else if streq typ nodeParagraph then str "<p>"
  else if streq typ nodeBoldTag then str "<b>"
  else if streq typ nodeItalicTag then str "<em>"
  else if streq typ nodeList then str "<ul>"
  else if streq typ nodeListItem then str "<li>"
  else [].

(** The second [switch]: what is written after the content. *)
Definition closingTag (typ : gostring) : gostring :=
  if streq typ nodeError then str "</span>"
  else if streq typ nodeHeadingOne then str "</h1>"
  else if streq typ nodeHeadingTwo then str "</h2>"
  else if streq typ nodeHeadingThree then str "</h3>"
  else if streq typ nodeHeadingFour then str "</h4>"
  else if streq typ nodeHeadingFive then str "</h5>"
  else if streq typ nodeHeadingSix then str "</h6>"
  else if streq typ nodeParagraph then str "</p>"
  else if streq typ nodeBoldTag then str "</b> "
  else if streq typ nodeItalicTag then str "</em> "
  else if streq typ nodeList then str "</ul>"
  else if streq typ nodeListItem then str "</li>"
  else [].

(** [toHtml] appends the HTML of the children of [currentNode] to the
    string that [htmlString] points to, and returns that string. The
    context is a local of each call: the first [switch] sets it on a
    Paragraph, the second one clears it. *)
Fixpoint toHtml (currentNode : Node) (htmlString : gostring)
         (htmlCtx : htmlCtxType) : gostring :=
  match currentNode with
  | mkNode _ _ children =>
    (fix loop (cs : list Node) (htmlString : gostring)
         (htmlCtx : htmlCtxType) : gostring :=
       match cs with
       | [] => htmlString
       | child :: cs' =>
         let htmlString := htmlString ++ openingTag (NodeTyp child) in
         let htmlCtx := if streq (NodeTyp child) nodeParagraph
                        then htmlCtxParagraph else htmlCtx in
         let htmlString :=
             if streq (NodeTyp child) nodeText
             then htmlString ++ (NodeVal child ++ str " ")
             else htmlString in
         let htmlString :=
             match Children child with
             | [] => htmlString
             | _ :: _ => TrimSpace (toHtml child htmlString htmlCtx)
             end in
         let htmlString := htmlString ++ closingTag (NodeTyp child) in
         let htmlCtx := if streq (NodeTyp child) nodeParagraph
                        then htmlCtxNone else htmlCtx in
         loop cs' htmlString htmlCtx
       end) children htmlString htmlCtx
  end.

(** The slice [s[a:b]]: Go panics unless [0 <= a <= b <= len s]. *)
Definition slice (s : gostring) (a b : Z) : result gostring :=
  if (0 <=? a) && (a <=? b) && (b <=? len s)
  then Ok (firstn (Z.to_nat (b - a)) (skipn (Z.to_nat a) s))
  else Panic.

(** [strings.ReplaceAll(s, old, new)] for an [old] of one byte. *)
Fixpoint ReplaceAll (s : gostring) (old : byte) (new : gostring)
  : gostring :=
  match s with
  | [] => []
  | b :: t =>
    (if Byte.eqb b old then new else [b]) ++ ReplaceAll t old new
  end.

(** [strings.Repeat]. *)
Fixpoint Repeat (s : gostring) (count : nat) : gostring :=
  match count with
  | O => []
  | S n => s ++ Repeat s n
  end.

(** The class [\s] of the package [regexp]: tab, newline, form feed,
    carriage return and space. *)
Definition reSpace (b : byte) : bool :=
  let z := b2z b in
  (z =? 9) || (z =? 10) || (z =? 12) || (z =? 13) || (z =? 32).

(** The length of the longest run of [\s] that [s] starts with: what
    the greedy [\s+] takes. *)
Fixpoint spaceRun (s : gostring) : nat :=
  match s with
  | b :: t => if reSpace b then S (spaceRun t) else O
  | [] => O
  end.

(** The match of the regular expression [^\s|\s\s+|\s$] that starts
    where [s] starts, as its length; [atStart] tells whether that is the
    beginning of the text. The alternatives are tried in their order:
    one [\s] at the beginning of the text, then two or more [\s], then
    one [\s] at the end of the text. *)
Definition matchAt (atStart : bool) (s : gostring) : option nat :=
  match s with
  | [] => None
  | b :: t =>
    if reSpace b then
      if atStart then Some 1%nat
      else match t with
           | c :: _ => if reSpace c then Some (spaceRun s) else None
           | [] => Some 1%nat
           end
    else None
  end.

(** [re.ReplaceAllStringFunc(s, repl)] for that expression: the matches
    are found from left to right, each one at the leftmost place where
    the expression matches after the match before, and each is replaced
    by what [repl] makes of it. *)
Fixpoint replaceAllSpace (fuel : nat) (atStart : bool) (s : gostring)
         (repl : gostring -> gostring) : gostring :=
  match fuel with
  | O => s
  | S fuel' =>
    match s with
    | [] => []
    | b :: t =>
      match matchAt atStart s with
      | Some n =>
        repl (firstn n s) ++ replaceAllSpace fuel' false (skipn n s) repl
      | None => b :: replaceAllSpace fuel' false t repl
      end
    end
  end.

Definition nbsp : gostring := str "&nbsp;".

(** [htmlSanitiseSlice], on the input the parser holds. *)
Definition htmlSanitiseSlice (input : gostring) (start end_ : Z)
  : result gostring :=
  s <- slice input start end_ ;;
  let s := ReplaceAll s x0a (str "<br>") in
  Ok (replaceAllSpace (List.length s) true s
        (fun m => Repeat nbsp (List.length m))).

(** The byte of the double quote. *)
Definition quote : gostring := [x22].

(** [<span class="runic__NAME">] ... [</span>]. *)
Definition span (name s : gostring) : gostring :=
  str "<span class=" ++ quote ++ str "runic__" ++ name ++ quote ++
  str ">" ++ s ++ str "</span>".

(** The [switch] of [HighlightText] on the type of the previous token. *)
Definition highlight (typ : tokenType) (s : gostring) : gostring :=
  match typ with
  | typeText => span (str "text") s
  | typeHeading => span (str "heading") s
  | typeTag => span (str "tag") s
  | typeOpeningSquare => span (str "osq") s
  | typeClosingSquare => span (str "csq") s
  | typeBulletpoint => span (str "bulletpoint") s
  | _ => s
  end.

Definition set_Pos (t : token) (v : Z) : token :=
  mkTok (Typ t) (Val t) (Line t) v (indent t).

Section Lexer.

(** [unicode.IsLetter] above Latin-1 reads the range table
    [unicode.Letter] of the Go standard library, which is taken as
    given. *)
Variable letterTable : Z -> bool.

Definition IsLetter (r : Z) : bool :=
  if (0 <=? r) && (r <=? unicode.MaxLatin1) then unicode.latin1Letter r
  else if r <? 0 then false
  else letterTable r.

(** [addToTag] stores the currently lexing tag in [tag]. *)
Definition addToTag (l : lexer) : lexer :=
  if negb (tokenType_eqb (Typ (tok l)) typeText) then l
  else if IsLetter (char l) then set_tag l (tag l ++ utf8.EncodeRune (char l))
  else if unicode.IsSpace (char l) then set_tag l []
  else l.

(** [peek] reads the following rune but does not progress the lexer. *)
Definition peek (l : lexer) : result Z :=
  if pos l =? len (input l) then Ok eof
  else
    rest <- sliceFrom (input l) (pos l) ;;
    Ok (fst (utf8.DecodeRuneInString rest)).

(** [next] progresses the lexer by a single character, and [skipSpace],
    which it ends with, goes on to the next one when the current and the
    following characters are both white space. *)
Fixpoint next (fuel : nat) (l : lexer) : result lexer :=
  match fuel with
  | O => OutOfFuel
  | S fuel' =>
    if (len (input l) <=? pos l) || (len (input l) =? 0)
    then Ok (set_char l eof)
    else
      rest <- sliceFrom (input l) (pos l) ;;
      let '(c, byteWidth) := utf8.DecodeRuneInString rest in
      let l := set_pos l (pos l + byteWidth) in
      let l := if c =? charNewline
               then set_skippedSpace (set_line l (line l + 1)) 0
               else l in
      let l := set_char l c in
      let l := addToTag l in
      skipSpace fuel' l
  end
with skipSpace (fuel : nat) (l : lexer) : result lexer :=
  match fuel with
  | O => OutOfFuel
  | S fuel' =>
    both <- (if unicode.IsSpace (char l)
             then (p <- peek l ;; Ok (unicode.IsSpace p))
             else Ok false) ;;
    if both : bool then
      let l := set_skippedSpace l (skippedSpace l + 1) in
      let l := if char l =? charNewline
               then set_skippedNewlines l (skippedNewlines l + 1)
               else l in
      next fuel' l
    else if (0 <? skippedNewlines l) && unicode.IsSpace (char l) then
      let l := if char l =? charNewline
               then set_skippedNewlines l (skippedNewlines l + 1)
               else l in
      before <- sliceTo (input l) (pos l - 1) ;;
      after <- sliceFrom (input l) (pos l) ;;
      let l := set_input l (before ++ [z2b charNewline] ++ after) in
      Ok (set_char l charNewline)
    else Ok (set_skippedNewlines l 0)
  end.

(** [backup] reverses the action of [next]. *)
Definition backup (l : lexer) : result lexer :=
  if pos l =? 0 then Ok (set_char l void)
  else
    let l := if char l =? charNewline then set_line l (line l - 1) else l in
    before <- sliceTo (input l) (pos l) ;;
    let '(c, byteWidth) := utf8.DecodeLastRuneInString before in
    Ok (set_char (set_pos l (pos l - byteWidth)) c).

Fixpoint nextN (fuel : nat) (n : nat) (l : lexer) : result lexer :=
  match n with
  | O => Ok l
  | S n' => l1 <- next fuel l ;; nextN fuel n' l1
  end.

Fixpoint backupN (n : nat) (l : lexer) : result lexer :=
  match n with
  | O => Ok l
  | S n' => l1 <- backup l ;; backupN n' l1
  end.

(** [peekBehind] reads the previous rune but does not backtrack. *)
Definition peekBehind (l : lexer) : result Z :=
  if pos l =? 0 then Ok void
  else if pos l =? len (input l)
  then Ok (fst (utf8.DecodeLastRuneInString (input l)))
  else
    before <- sliceTo (input l) (pos l - 1) ;;
    Ok (fst (utf8.DecodeLastRuneInString before)).

Definition peekNextNonSpace (l : lexer) : result Z :=
  if pos l =? len (input l) then Ok eof
  else
    rest <- sliceFrom (input l) (pos l) ;;
    Ok (fst (utf8.DecodeRuneInString (TrimSpace rest))).

Definition addToToken (l : lexer) (c : Z) : lexer :=
  set_tok l (set_Val (tok l) (Val (tok l) ++ utf8.EncodeRune c)).

Definition truncateToken (l : lexer) (n : Z) : result lexer :=
  v <- sliceTo (Val (tok l)) (len (Val (tok l)) - n) ;;
  Ok (set_tok l (set_Val (tok l) v)).

Definition trimTrailingSpace (l : lexer) : result lexer :=
  if len (Val (tok l)) =? 0 then Ok l
  else
    b <- peekBehind l ;;
    if unicode.IsSpace b
    then
      v <- sliceTo (Val (tok l)) (len (Val (tok l)) - 1) ;;
      Ok (set_tok l (set_Val (tok l) v))
    else Ok l.

Definition isHeadingChar (l : lexer) : bool :=
  (char l =? charDot) || (char l =? charColon).

(** [lexGlobal] is the starting state of the lexer. *)
Definition lexGlobal (fuel : nat) (l : lexer) : result lexer :=
  let l := resetToken l in
  l <- next fuel l ;;
  if char l =? eof then
    Ok (set_lexNext (set_tok l (mkToken l typeEOF [])) None)
  else if unicode.IsSpace (char l) then
    Ok (set_lexNext l (Some fnGlobal))
  else if char l =? charBackslash then
    l <- backup l ;;
    Ok (set_lexNext l (Some fnText))
  else if isHeadingChar l then
    l <- backup l ;;
    Ok (set_lexNext l (Some fnHeading))
  else if char l =? charHyphen then
    l <- backup l ;;
    Ok (set_lexNext l (Some fnHypen))
  else
    l <- backup l ;;
    Ok (set_lexNext (set_continuousNewline l true) (Some fnText)).

(** The loop of [lexText]. *)
Fixpoint lexTextLoop (fuel : nat) (l : lexer) : result lexer :=
  match fuel with
  | O => OutOfFuel
  | S fuel' =>
    l <- next fuel' l ;;
    if char l =? eof then
      l <- trimTrailingSpace l ;;
      Ok (set_lexNext l (Some fnGlobal))
    else
    escape <- (if char l =? charBackslash
               then (p <- peek l ;; Ok (negb (p =? charBackslash)))
               else Ok false) ;;
    if escape : bool then
      lexTextLoop fuel' (set_tag l [])
    else
    b <- peekBehind l ;;
    if b =? charBackslash then
      lexTextLoop fuel' (addToToken l (char l))
    else if (char l =? charNewline) && (ctx l =? ctxList) then
      q <- peekNextNonSpace l ;;
      if q =? charHyphen
      then Ok (set_lexNext l (Some fnHypen))
      else Ok (set_lexNext l (Some fnTerminator))
    else if (char l =? charNewline) &&
            (negb (continuousNewline l) || (2 <=? skippedNewlines l)) then
      Ok (set_lexNext l (Some fnTerminator))
    else if (char l =? charNewline) && continuousNewline l then
      lexTextLoop fuel' (addToToken l charSpace)
    else if char l =? charOpeningSquare then
      if len (tag l) =? 0 then
        l <- trimTrailingSpace l ;;
        l <- backup l ;;
        Ok (set_lexNext l (Some fnOpeningSquare))
      else
        l <- backupN (List.length (tag l)) l ;;
        l <- truncateToken l (len (tag l)) ;;
        l <- trimTrailingSpace l ;;
        l <- backup l ;;
        Ok (set_lexNext l (Some fnTag))
    else if (char l =? charClosingSquare) && negb (b =? charBackslash) then
      l <- trimTrailingSpace l ;;
      l <- backup l ;;
      Ok (set_lexNext l (Some fnClosingSquare))
    else if (len (Val (tok l)) =? 0) && unicode.IsSpace (char l) then
      lexTextLoop fuel' (set_tok l (mkToken l typeText []))
    else
      lexTextLoop fuel' (addToToken l (char l))
  end.

(** [lexText] is used to parse standard text. The deferred function runs
    when the loop returns: an empty token gets the type [typeNone]. *)
Definition lexText (fuel : nat) (l : lexer) : result lexer :=
  let l := set_tok l (mkToken l typeText []) in
  l <- lexTextLoop fuel l ;;
  if len (Val (tok l)) =? 0
  then Ok (set_tok l (set_Typ (tok l) typeNone))
  else Ok l.

(** The loop of [lexHeading]. *)
Fixpoint lexHeadingLoop (fuel : nat) (l : lexer) : result lexer :=
  match fuel with
  | O => OutOfFuel
  | S fuel' =>
    l <- next fuel' l ;;
    if char l =? eof then Ok (set_lexNext l (Some fnGlobal))
    else if negb (isHeadingChar l) || (len (Val (tok l)) =? 3) then
      l <- backup l ;;
      Ok (set_lexNext l (Some fnText))
    else
      lexHeadingLoop fuel'
        (set_tok l (set_Val (tok l) (Val (tok l) ++ utf8.EncodeRune (char l))))
  end.

(** [lexHeading] lexes the heading symbols and returns to [lexText]. *)
Definition lexHeading (fuel : nat) (l : lexer) : result lexer :=
  lexHeadingLoop fuel (set_tok l (mkToken l typeHeading [])).

(** [lexTerminator] produces a terminator token and returns to
    [lexGlobal]. *)
Definition lexTerminator (fuel : nat) (l : lexer) : result lexer :=
  l <- backup l ;;
  let l := set_tok l (mkToken l typeTerminator [z2b charNewline]) in
  l <- next fuel l ;;
  Ok (set_lexNext l (Some fnGlobal)).

Definition lexTag (fuel : nat) (l : lexer) : result lexer :=
  let l := set_tok l (mkToken l typeTag (tag l)) in
  l <- nextN fuel (List.length (tag l)) l ;;
  Ok (set_lexNext (set_tag l []) (Some fnOpeningSquare)).

Definition lexOpeningSquare (fuel : nat) (l : lexer) : result lexer :=
  let l := set_tok l (mkToken l typeOpeningSquare [z2b charOpeningSquare]) in
  l <- next fuel l ;;
  Ok (set_lexNext l (Some fnText)).

Definition lexClosingSquare (fuel : nat) (l : lexer) : result lexer :=
  let l := set_tok l (mkToken l typeClosingSquare [z2b charClosingSquare]) in
  l <- next fuel l ;;
  Ok (set_lexNext l (Some fnText)).

Definition lexHypen (fuel : nat) (l : lexer) : result lexer :=
  let l := set_tok l (mkToken l typeBulletpoint [z2b charHyphen]) in
  let l := set_tok l (set_indent (tok l) (skippedSpace l)) in
  l <- next fuel l ;;
  l <- (if unicode.IsSpace (char l) then next fuel l else Ok l) ;;
  Ok (set_lexNext (set_ctx l ctxList) (Some fnText)).

(** The call [l.lexNext()] for a lex function [f]. *)
Definition runLex (f : lexFn) (fuel : nat) (l : lexer) : result lexer :=
  match f with
  | fnGlobal => lexGlobal fuel l
  | fnText => lexText fuel l
  | fnHeading => lexHeading fuel l
  | fnTerminator => lexTerminator fuel l
  | fnTag => lexTag fuel l
  | fnOpeningSquare => lexOpeningSquare fuel l
  | fnClosingSquare => lexClosingSquare fuel l
  | fnHypen => lexHypen fuel l
  end.

(** [nextToken] progresses the lexer by a single token (or to eof); it
    returns [true] while the lexer is running. *)
Fixpoint nextToken (fuel : nat) (l : lexer) : result (bool * lexer) :=
  match fuel with
  | O => OutOfFuel
  | S fuel' =>
    match lexNext l with
    | Some f =>
      l <- runLex f fuel' l ;;
      if tokenType_eqb (Typ (tok l)) typeNone
      then nextToken fuel' l
      else Ok (true, l)
    | None => Ok (false, l)
    end
  end.

(** [collectTokens] runs the lexer and accumulates the lexed tokens. *)
Fixpoint collectLoop (fuel : nat) (l : lexer) (tokens : list token)
  : result (list token * lexer) :=
  match fuel with
  | O => OutOfFuel
  | S fuel' =>
    r <- nextToken fuel' l ;;
    let '(running, l) := r in
    if running : bool
    then collectLoop fuel' l (tokens ++ [tok l])
    else Ok (tokens, l)
  end.

Definition collectTokens (fuel : nat) (input : gostring)
  : result (list token) :=
  r <- collectLoop fuel (lex input) [] ;;
  Ok (fst r).

(** ** The parser *)

(** The parser holds [tree], the root, and [currentNode], the node under
    construction, and every node points to its parent. The nodes from
    [currentNode] up to [tree] along the parent pointers are the nodes
    still open; [path] lists them, [currentNode] first and [tree] last,
    each as a [frame] with the children it has that are complete. The
    child of a frame that is still open is the frame before it. After
    [returnNode] at the root [currentNode] is nil: [isNil]. *)
Record frame : Type := mkFrame {
  fTyp : gostring;
  fVal : gostring;
  fChildren : list Node
}.

Definition close (f : frame) : Node := mkNode (fTyp f) (fVal f) (fChildren f).

Definition addChild (f : frame) (n : Node) : frame :=
  mkFrame (fTyp f) (fVal f) (fChildren f ++ [n]).

Record parser : Type := mkParser {
  lexer_ : lexer;
  path : list frame;
  isNil : bool;
  tagDepth : Z;
  collectedTokens : list token
}.

Definition set_lexer (p : parser) (v : lexer) : parser :=
  mkParser v (path p) (isNil p) (tagDepth p) (collectedTokens p).
Definition set_path (p : parser) (v : list frame) : parser :=
  mkParser (lexer_ p) v (isNil p) (tagDepth p) (collectedTokens p).
Definition set_isNil (p : parser) (v : bool) : parser :=
  mkParser (lexer_ p) (path p) v (tagDepth p) (collectedTokens p).
Definition set_tagDepth (p : parser) (v : Z) : parser :=
  mkParser (lexer_ p) (path p) (isNil p) v (collectedTokens p).
Definition set_collectedTokens (p : parser) (v : list token) : parser :=
  mkParser (lexer_ p) (path p) (isNil p) (tagDepth p) v.

(** The tree [p.tree] points to: every open node holds, after its
    complete children, the open node below it. *)
Fixpoint plug (n : Node) (above : list frame) : Node :=
  match above with
  | [] => n
  | f :: rest => plug (close (addChild f n)) rest
  end.

Definition tree (p : parser) : Node :=
  match path p with
  | [] => mkNode [] [] []
  | f :: rest => plug (close f) rest
  end.

(** The current token of the parser's lexer, [p.lexer.token]. *)
Definition cur (p : parser) : token := tok (lexer_ p).

Definition addNewNode (p : parser) (typ val : gostring) : result parser :=
  if isNil p then Panic
  else Ok (set_path p (mkFrame typ val [] :: path p)).

Definition previousSibling (p : parser) : result Node :=
  if isNil p then Panic
  else match path p with
       | [] => Panic
       | f :: _ => Ok (last (fChildren f) (mkNode [] [] []))
       end.

Definition parser_nextToken (fuel : nat) (p : parser) : result parser :=
  r <- nextToken fuel (lexer_ p) ;;
  let l := snd r in
  Ok (set_collectedTokens (set_lexer p l) (collectedTokens p ++ [tok l])).

Definition returnNode (p : parser) : result parser :=
  if isNil p then Panic
  else match path p with
       | [] => Panic
       | [_] => Ok (set_isNil p true)
       | f :: g :: rest => Ok (set_path p (addChild g (close f) :: rest))
       end.

Definition isOneOf (p : parser) (t : list tokenType) : bool :=
  existsb (tokenType_eqb (Typ (cur p))) t.

(** The assignment [previousSibling.Val += v] on the last child. *)
Fixpoint appendToLastVal (cs : list Node) (v : gostring) : list Node :=
  match cs with
  | [] => []
  | [mkNode t x c] => [mkNode t (x ++ v) c]
  | n :: rest => n :: appendToLastVal rest v
  end.

Definition parseText (p : parser) : result parser :=
  prev <- previousSibling p ;;
  (* merge consecutive text nodes into one *)
  if streq (NodeTyp prev) nodeText then
    match path p with
    | [] => Panic
    | f :: rest =>
      Ok (set_path p
            (mkFrame (fTyp f) (fVal f)
               (appendToLastVal (fChildren f) (str " " ++ Val (cur p)))
             :: rest))
    end
  else
    p <- addNewNode p nodeText (Val (cur p)) ;;
    returnNode p.

Definition tagNode (p : parser) : gostring * gostring :=
  if streq (Val (cur p)) (str "bold") then (nodeBoldTag, [])
  else if streq (Val (cur p)) (str "italic") then (nodeItalicTag, [])
  else (nodeError, errInvalidTag ++ str ": " ++ Val (cur p)).

Fixpoint parseRichText (fuel : nat) (p : parser) : result parser :=
  match fuel with
  | O => OutOfFuel
  | S fuel' =>
    if isOneOf p [typeBulletpoint; typeTerminator; typeEOF] then Ok p
    else
      match Typ (cur p) with
      | typeText =>
        p <- parseText p ;;
        p <- parser_nextToken fuel' p ;;
        parseRichText fuel' p
      | typeTag =>
        p <- parseTag fuel' p ;;
        if (0 <? tagDepth p) && isOneOf p [typeBulletpoint; typeTerminator]
        then Ok p
        else
          p <- parser_nextToken fuel' p ;;
          parseRichText fuel' p
      | typeClosingSquare =>
        if 0 <? tagDepth p then Ok (set_tagDepth p (tagDepth p - 1))
        else
          p <- parser_nextToken fuel' p ;;
          parseRichText fuel' p
      | _ =>
        p <- parser_nextToken fuel' p ;;
        parseRichText fuel' p
      end
  end
with parseTag (fuel : nat) (p : parser) : result parser :=
  match fuel with
  | O => OutOfFuel
  | S fuel' =>
    p <- addNewNode p (fst (tagNode p)) (snd (tagNode p)) ;;
    (* skip over openSquare token *)
    p <- parser_nextToken fuel' p ;;
    let p := set_tagDepth p (tagDepth p + 1) in
    p <- parseRichText fuel' p ;;
    returnNode p
  end.

Definition parseParagraph (fuel : nat) (p : parser) : result parser :=
  p <- addNewNode p nodeParagraph [] ;;
  p <- parseRichText fuel p ;;
  returnNode p.

Definition headingNode (p : parser) : gostring * gostring :=
  let v := Val (cur p) in
  if streq v nodeHeadingOneValue then (nodeHeadingOne, nodeHeadingOneValue)
  else if streq v nodeHeadingTwoValue
  then (nodeHeadingTwo, nodeHeadingTwoValue)
  else if streq v nodeHeadingThreeValue
  then (nodeHeadingThree, nodeHeadingThreeValue)
  else if streq v nodeHeadingFourValue
  then (nodeHeadingFour, nodeHeadingFourValue)
  else if streq v nodeHeadingFiveValue
  then (nodeHeadingFive, nodeHeadingFiveValue)
  else if streq v nodeHeadingSixValue
  then (nodeHeadingSix, nodeHeadingSixValue)
  else (nodeError, errInvalidHeading ++ str ": " ++ v).

Definition parseHeading (fuel : nat) (p : parser) : result parser :=
  p <- addNewNode p (fst (headingNode p)) (snd (headingNode p)) ;;
  p <- parser_nextToken fuel p ;;
  p <- parseRichText fuel p ;;
  returnNode p.

Definition parseListItem (fuel : nat) (p : parser) : result parser :=
  p <- addNewNode p nodeListItem [] ;;
  p <- parseRichText fuel p ;;
  returnNode p.

(** [parseList], and its loop over the bullet points of one list; the
    loop ends the function, with [returnNode], on both of its exits. *)
Fixpoint parseList (fuel : nat) (currentListDepth : Z) (p : parser)
  : result parser :=
  match fuel with
  | O => OutOfFuel
  | S fuel' =>
    if isOneOf p [typeBulletpoint] &&
       (getListItemDepth (cur p) <? currentListDepth)
    then returnNode p
    else
      p <- addNewNode p nodeList [] ;;
      parseListLoop fuel' p
  end
with parseListLoop (fuel : nat) (p : parser) : result parser :=
  match fuel with
  | O => OutOfFuel
  | S fuel' =>
    if isOneOf p [typeBulletpoint] then
      let currentListDepth := getListItemDepth (cur p) in
      p <- parser_nextToken fuel' p ;;
      p <- parseListItem fuel' p ;;
      let p := set_tagDepth p 0 in
      (* bulletpoint is at a lower depth, create nested list *)
      p <- (if isOneOf p [typeBulletpoint] &&
               (currentListDepth <? getListItemDepth (cur p))
            then parseList fuel' (getListItemDepth (cur p)) p
            else Ok p) ;;
      (* bulletpoint is a higher depth, return until no longer shallower *)
      if isOneOf p [typeBulletpoint] &&
         (getListItemDepth (cur p) <? currentListDepth)
      then returnNode p
      else parseListLoop fuel' p
    else returnNode p
  end.

(** The loop of [parseGlobal]. *)
Fixpoint parseGlobalLoop (fuel : nat) (p : parser) : result parser :=
  match fuel with
  | O => OutOfFuel
  | S fuel' =>
    if isOneOf p [typeEOF] then Ok p
    else
      p <- match Typ (cur p) with
           | typeHeading => parseHeading fuel' p
           | typeBulletpoint => parseList fuel' 0 p
           | _ => parseParagraph fuel' p
           end ;;
      p <- parser_nextToken fuel' p ;;
      parseGlobalLoop fuel' p
  end.

Definition parseGlobal (fuel : nat) (p : parser) : result parser :=
  let p := set_tagDepth p 0 in
  p <- parser_nextToken fuel p ;;
  parseGlobalLoop fuel p.

Definition Parse (fuel : nat) (input : gostring) : result Node :=
  let p := mkParser (lex input) [mkFrame nodeRoot [] []] false 0 [] in
  p <- parseGlobal fuel p ;;
  Ok (tree p).

(** [Html]: the tree of the input as HTML. *)
Definition Html (fuel : nat) (input : gostring) : result gostring :=
  tree <- Parse fuel input ;;
  Ok (toHtml tree [] htmlCtxNone).

(** The loop of [HighlightText]: each token but the first one closes the
    piece of the input that starts at the token before it. *)
Fixpoint highlightLoop (fuel : nat) (input : gostring) (l : lexer)
         (prevToken : token) (highlightedText : gostring)
  : result gostring :=
  match fuel with
  | O => OutOfFuel
  | S fuel' =>
    r <- nextToken fuel' l ;;
    let '(running, l) := r in
    if running : bool then
      if tokenType_eqb (Typ prevToken) typeNone then
        highlightLoop fuel' input l (set_Pos (tok l) 0) highlightedText
      else
        piece <- htmlSanitiseSlice input (Pos prevToken) (Pos (tok l)) ;;
        highlightLoop fuel' input l (tok l)
          (highlightedText ++ highlight (Typ prevToken) piece)
    else Ok highlightedText
  end.

Definition HighlightText (fuel : nat) (input : gostring) : result gostring :=
  highlightLoop fuel input (lex input) emptyToken [].

Record editorData : Type := mkEditorData {
  edHtml : gostring;
  edHighlightText : gostring
}.

(** [EditorData]; the error it returns is always nil. *)
Definition EditorData (fuel : nat) (input : gostring) : result editorData :=
  h <- Html fuel input ;;
  t <- HighlightText fuel input ;;
  Ok (mkEditorData h t).

(** ** Statements about the lexer and the parser *)

(** The states the lexer goes through when its user keeps calling
    [nextToken]. *)
Inductive steps (l0 : lexer) : lexer -> Prop :=
| steps_refl : steps l0 l0
| steps_next (fuel : nat) (l l' : lexer) (running : bool) :
    steps l0 l -> nextToken fuel l = Ok (running, l') -> steps l0 l'.

(** A node of kind Text, and a list of siblings in which no two
    consecutive nodes are of kind Text. *)
Definition isText (n : Node) : bool := streq (NodeTyp n) nodeText.

Fixpoint noTextPair (cs : list Node) : bool :=
  match cs with
  | a :: ((b :: _) as rest) => negb (isText a && isText b) && noTextPair rest
  | _ => true
  end.

(** [merged n]: nowhere in the tree [n] are two consecutive siblings of
    kind Text. *)
Fixpoint merged (n : Node) : bool :=
  match n with
  | mkNode _ _ cs => noTextPair cs && forallb merged cs
  end.

(** The white space of ASCII, as a byte. *)
Definition asciiSpace (b : byte) : bool :=
  let z := b2z b in ((0x09 <=? z) && (z <=? 0x0D)) || (z =? 0x20).

Definition isNewline (b : byte) : bool := b2z b =? charNewline.

(** The number of newlines in a run of bytes. *)
Definition newlines (ws : gostring) : Z :=
  Z.of_nat (List.length (filter isNewline ws)).

(** The buffer of the lexer once the input is lexed to its end. *)
Definition canonicalBuffer (fuel : nat) (s : gostring) : result gostring :=
  r <- collectLoop fuel (lex s) [] ;;
  Ok (input (snd r)).

(** A buffer in which every run of white space has collapsed: no two
    consecutive bytes are white space. *)
Fixpoint collapsed (s : gostring) : bool :=
  match s with
  | a :: ((b :: _) as rest) =>
    negb (asciiSpace a && asciiSpace b) && collapsed rest
  | _ => true
  end.

(** The values of the Text nodes of a tree. *)
Fixpoint textValues (n : Node) : list gostring :=
  match n with
  | mkNode t v cs =>
    (if streq t nodeText then [v] else []) ++ flat_map textValues cs
  end.

(** The values of the Text tokens among the tokens read. *)
Definition textTokenValues (toks : list token) : list gostring :=
  map Val (filter (fun t => tokenType_eqb (Typ t) typeText) toks).

(** [joined vals v]: [v] is one of the strings [vals], or several of
    them joined by single spaces. *)
Inductive joined (vals : list gostring) : gostring -> Prop :=
| joined_one (v : gostring) : In v vals -> joined vals v
| joined_more (v w : gostring) :
    joined vals v -> In w vals -> joined vals (v ++ str " " ++ w).

(** A byte of plain text: printable ASCII that is neither a space, nor a
    backslash, nor a square bracket. *)
Definition plainByte (b : byte) : bool :=
  let z := b2z b in
  (0x21 <=? z) && (z <=? 0x7E) && negb (z =? charBackslash) &&
  negb (z =? charOpeningSquare) && negb (z =? charClosingSquare).

(** A rest of the buffer that does not start with white space; the
    empty rest is one. *)
Definition nonSpaceStart (post : gostring) : Prop :=
  unicode.IsSpace (fst (utf8.DecodeRuneInString post)) = false.

(** The six heading literals of the grammar. *)
Definition validHeading (v : gostring) : bool :=
  streq v nodeHeadingOneValue || streq v nodeHeadingTwoValue ||
  streq v nodeHeadingThreeValue || streq v nodeHeadingFourValue ||
  streq v nodeHeadingFiveValue || streq v nodeHeadingSixValue.

(** The state a computation ends in, for the examples. *)
Definition okOr {A : Type} (r : result A) (d : A) : A :=
  match r with
  | Ok a => a
  | _ => d
  end.

(** The parser as [Parse] sets it up. *)
Definition newParser (s : gostring) : parser :=
  mkParser (lex s) [mkFrame nodeRoot [] []] false 0 [].

(** A concrete table for inputs that hold no letter above Latin-1, on
    which the table is not consulted. *)
Definition noLetterAboveLatin1 : Z -> bool := fun _ => false.

(** The newline as a Go string. *)
Definition nl : gostring := [x0a].

(** *** Relations between states that the proofs use *)

(** [same l l']: the two states agree on the token, the next lex
    function, the newline policy and the context, and their buffers have
    the same length. *)
Definition same (l l' : lexer) : Prop :=
  tok l' = tok l /\ lexNext l' = lexNext l /\
  continuousNewline l' = continuousNewline l /\ ctx l' = ctx l /\
  List.length (input l') = List.length (input l).

Definition noNode : Node := mkNode [] [] [].

(** An open node is fine when it is not of kind Text and its complete
    children are merged. *)
Definition frameOK (f : frame) : Prop :=
  streq (fTyp f) nodeText = false /\
  noTextPair (fChildren f) = true /\
  forallb merged (fChildren f) = true.

Definition pathOK (p : parser) : Prop := Forall frameOK (path p).

(** [grows f rest p']: in [p'] the current node is still the node [f]
    was, with some list of complete children, below the same open
    ancestors. *)
Definition grows (f : frame) (rest : list frame) (p' : parser) : Prop :=
  isNil p' = false /\
  exists cs, path p' = mkFrame (fTyp f) (fVal f) cs :: rest.

(** [appended typ val f rest p']: the current node of [p'] is [f] with
    one more complete child, of the given kind and value. *)
Definition appended (typ val : gostring) (f : frame) (rest : list frame)
           (p' : parser) : Prop :=
  isNil p' = false /\
  exists cs, path p' = addChild f (mkNode typ val cs) :: rest.

(** The outcome of passing over a run of white space [w :: ws] that
    starts after [pre] and ends before [post], [k] being the number of
    newlines counted before the last character of the run is looked
    at. *)
Definition passedRun (pre : gostring) (w : byte) (ws post : gostring)
           (l l' : lexer) : Prop :=
  same l l' /\
  pos l' = len pre + 1 + len ws /\
  let k := skippedNewlines l + newlines (removelast (w :: ws)) in
  (0 < k ->
   input l' = pre ++ removelast (w :: ws) ++ nl ++ post /\
   char l' = charNewline /\
   skippedNewlines l' = skippedNewlines l + newlines (w :: ws)) /\
  (k = 0 ->
   input l' = input l /\
   char l' = b2z (last (w :: ws) w) /\
   skippedNewlines l' = 0).

(** What the loop of [lexText] leaves when it has run to the end of the
    input: the token with its value [v], the buffer and the line as they
    were. *)
Definition textDone (l : lexer) (v : gostring) (l' : lexer) : Prop :=
  tok l' = set_Val (tok l) v /\ input l' = input l /\
  pos l' = len (input l) /\ line l' = line l /\
  lexNext l' = Some fnGlobal.

(** The current token is among the tokens read, no open node is of kind
    Text, and the Text nodes below the open nodes hold joined values of
    Text tokens. *)
Definition textsJoined (p : parser) : Prop :=
  In (cur p) (collectedTokens p) /\
  Forall (fun f =>
            streq (fTyp f) nodeText = false /\
            Forall (joined (textTokenValues (collectedTokens p)))
                   (flat_map textValues (fChildren f)))
         (path p).

(** [rewritten s s']: the buffer [s'] has the length of [s], and each of
    its bytes is the byte of [s] at that place or a newline. *)
Definition rewritten (s s' : gostring) : Prop :=
  List.length s' = List.length s /\
  forall i, nth i s' x00 = nth i s x00 \/ nth i s' x00 = x0a.

(** The last of the open nodes is the root. *)
Definition rooted (p : parser) : Prop :=
  exists fs cs, path p = fs ++ [mkFrame nodeRoot [] cs].

(** *** The states and tokens of the lexer *)

(** The position lies within the buffer. *)
Definition inBounds (l : lexer) : Prop := 0 <= pos l <= len (input l).

(** [safe r P]: the computation [r] did not panic, and its result, when
    it has one, satisfies [P]. *)
Definition safe {A : Type} (r : result A) (P : A -> Prop) : Prop :=
  match r with
  | Ok a => P a
  | Panic => False
  | OutOfFuel => True
  end.

(** A byte of a heading literal: a dot or a colon. *)
Definition headingByte (b : byte) : bool :=
  (b2z b =? charDot) || (b2z b =? charColon).

(** What the value and the indent of a token are by its type. *)
Definition tokenShape (t : token) : bool :=
  match Typ t with
  | typeNone => false
  | typeEOF => streq (Val t) [] && (indent t =? 0)
  | typeText => negb (streq (Val t) []) && (indent t =? 0)
  | typeTerminator => streq (Val t) nl && (indent t =? 0)
  | typeHeading =>
    (len (Val t) <=? 3) && forallb headingByte (Val t) && (indent t =? 0)
  | typeTag => indent t =? 0
  | typeOpeningSquare => streq (Val t) (str "[") && (indent t =? 0)
  | typeClosingSquare => streq (Val t) (str "]") && (indent t =? 0)
  | typeBulletpoint => streq (Val t) (str "-")
  end.

(** The position and the position of the token lie within the buffer. *)
Definition within (l : lexer) : Prop :=
  inBounds l /\ 0 <= Pos (tok l) <= len (input l).

(** *** The grammar of the document tree *)

(** [outcome r P E]: the result of [r], when it has one, satisfies [P],
    and [E] holds when [r] panicked. *)
Definition outcome {A : Type} (r : result A) (P : A -> Prop) (E : Prop)
  : Prop :=
  match r with
  | Ok a => P a
  | Panic => E
  | OutOfFuel => True
  end.

(** Some call of [nextToken], among the calls made one after the other
    from [lex s], panics. *)
Definition lexerPanics (s : gostring) : Prop :=
  exists l fuel, steps (lex s) l /\ nextToken fuel l = Panic.

Definition isPrefixOf (a b : gostring) : bool :=
  streq a (firstn (List.length a) b).

(** A node of rich text: a Text leaf with a value that is not empty, a
    bold or italic tag without value, or the Error node of an unknown
    tag name; what a tag or such an Error node holds is rich text. *)
Fixpoint inlineNode (n : Node) : bool :=
  match n with
  | mkNode t v cs =>
    if streq t nodeText
    then negb (streq v []) && match cs with [] => true | _ :: _ => false end
    else if streq t nodeBoldTag || streq t nodeItalicTag
    then streq v [] && forallb inlineNode cs
    else streq t nodeError && isPrefixOf (errInvalidTag ++ str ": ") v &&
         forallb inlineNode cs
  end.

Definition firstIsItem (cs : list Node) : bool :=
  match cs with
  | c :: _ => streq (NodeTyp c) nodeListItem
  | [] => false
  end.

(** A list item, which holds rich text, or a List, whose children are
    list items and Lists, the first one a list item. *)
Fixpoint listNode (n : Node) : bool :=
  match n with
  | mkNode t v cs =>
    if streq t nodeListItem then streq v [] && forallb inlineNode cs
    else streq t nodeList && streq v [] && firstIsItem cs &&
         forallb listNode cs
  end.

(** The kind and the value of the six heading nodes. *)
Definition headingOf (t v : gostring) : bool :=
  (streq t nodeHeadingOne && streq v nodeHeadingOneValue) ||
  (streq t nodeHeadingTwo && streq v nodeHeadingTwoValue) ||
  (streq t nodeHeadingThree && streq v nodeHeadingThreeValue) ||
  (streq t nodeHeadingFour && streq v nodeHeadingFourValue) ||
  (streq t nodeHeadingFive && streq v nodeHeadingFiveValue) ||
  (streq t nodeHeadingSix && streq v nodeHeadingSixValue).

(** A block: a List, or a heading, the Error node of an invalid heading
    or a Paragraph, which hold rich text. *)
Definition blockNode (n : Node) : bool :=
  match n with
  | mkNode t v cs =>
    if streq t nodeList then listNode n
    else (headingOf t v ||
          (streq t nodeError &&
           isPrefixOf (errInvalidHeading ++ str ": ") v) ||
          (streq t nodeParagraph && streq v [])) &&
         forallb inlineNode cs
  end.

(** A document: the Root node, without value, over blocks. *)
Definition document (n : Node) : bool :=
  match n with
  | mkNode t v cs => streq t nodeRoot && streq v [] && forallb blockNode cs
  end.

(** [building s good f rest p]: the parser is at work on the children of
    the open node [f], which are [good] so far, reading from a lexer
    that was started on [s]. *)
Definition building (s : gostring) (good : Node -> bool) (f : frame)
           (rest : list frame) (p : parser) : Prop :=
  isNil p = false /\ steps (lex s) (lexer_ p) /\
  exists cs, path p = mkFrame (fTyp f) (fVal f) cs :: rest /\
             forallb good cs = true.

(** [added s good f rest p]: the open node is [f] with one more child, a
    [good] one. *)
Definition added (s : gostring) (good : Node -> bool) (f : frame)
           (rest : list frame) (p : parser) : Prop :=
  isNil p = false /\ steps (lex s) (lexer_ p) /\
  exists n, path p = addChild f n :: rest /\ good n = true.

(** A List node that is a well-formed list. *)
Definition isListNode (n : Node) : bool :=
  listNode n && streq (NodeTyp n) nodeList.

(** *** Statements about the HTML output *)

(** A string without a newline. *)
Definition oneLine (s : gostring) : bool :=
  forallb (fun b => negb (Byte.eqb b x0a)) s.

(** No two white-space characters side by side. *)
Fixpoint singleSpaced (s : gostring) : bool :=
  match s with
  | a :: ((b :: _) as t) => negb (reSpace a && reSpace b) && singleSpaced t
  | _ => true
  end.

(** A string that neither starts nor ends with white space and has no
    two white-space characters side by side. *)
Definition tidy (s : gostring) : bool :=
  singleSpaced s && negb (reSpace (hd x00 s)) &&
  negb (reSpace (last s x00)).

(** A string without white space. *)
Definition spaceless (s : gostring) : bool :=
  forallb (fun b => negb (reSpace b)) s.

(** What one turn of the loop of [toHtml] makes of the string, for the
    child [child] and the context [htmlCtx] the turn starts with. *)
Definition renderChild (child : Node) (htmlString : gostring)
           (htmlCtx : htmlCtxType) : gostring :=
  let htmlString := htmlString ++ openingTag (NodeTyp child) in
  let htmlCtx := if streq (NodeTyp child) nodeParagraph
                 then htmlCtxParagraph else htmlCtx in
  let htmlString :=
      if streq (NodeTyp child) nodeText
      then htmlString ++ (NodeVal child ++ str " ")
      else htmlString in
  let htmlString :=
      match Children child with
      | [] => htmlString
      | _ :: _ => TrimSpace (toHtml child htmlString htmlCtx)
      end in
  htmlString ++ closingTag (NodeTyp child).

(** *** Plain sentences *)

(** A byte that starts a block of its own: a heading character or a
    hyphen. *)
Definition markerByte (b : byte) : bool :=
  (b2z b =? charDot) || (b2z b =? charColon) || (b2z b =? charHyphen).

(** Plain words with single spaces between them and none at the end. *)
Fixpoint spacedWords (s : gostring) : bool :=
  match s with
  | [] => true
  | b :: t =>
    if plainByte b then spacedWords t
    else (b2z b =? charSpace) &&
         match t with
         | c :: _ => plainByte c
         | [] => false
         end && spacedWords t
  end.

(** A sentence: plain words with single spaces between them, the first
    of which does not start with a heading character or a hyphen. *)
Definition sentence (s : gostring) : bool :=
  match s with
  | b :: _ => plainByte b && negb (markerByte b) && spacedWords s
  | [] => false
  end.

(** *** Termination *)

(** A string of ASCII: every byte is below [utf8.RuneSelf]. *)
Definition ascii (s : gostring) : bool :=
  forallb (fun b => b2z b <? utf8.RuneSelf) s.

(** The number of bytes between the position and the end of the
    buffer. *)
Definition bytesLeft (l : lexer) : nat :=
  Z.to_nat (len (input l) - pos l).

(** [finishes r P]: the computation [r] came to an end, with a result
    that satisfies [P] or with a panic. *)
Definition finishes {A : Type} (r : result A) (P : A -> Prop) : Prop :=
  match r with
  | Ok a => P a
  | Panic => True
  | OutOfFuel => False
  end.

(** How far the lexer has come: its position, and for [lexTag], which
    first reads the tag again, the position behind the tag. *)
Definition reach (l : lexer) : Z :=
  match lexNext l with
  | Some fnTag => Z.min (len (input l)) (pos l + len (tag l))
  | _ => pos l
  end.

(** The lex functions in the order in which they follow one another
    without the lexer moving on, before the end of the input and at the
    end of it. *)
Definition rankOf (f : lexFn) (atEnd : bool) : Z :=
  if atEnd then
    match f with
    | fnGlobal => 1
    | fnText | fnHeading | fnTerminator => 2
    | fnOpeningSquare | fnClosingSquare | fnHypen => 3
    | fnTag => 4
    end
  else
    match f with
    | fnOpeningSquare | fnClosingSquare | fnHypen => 3
    | fnTag => 4
    | fnText => 5
    | fnHeading => 6
    | fnGlobal => 7
    | fnTerminator => 8
    end.

(** A bound on the number of lex functions the lexer still runs. *)
Definition stepsLeft (l : lexer) : Z :=
  match lexNext l with
  | None => 0
  | Some f =>
    9 * (len (input l) - reach l) + rankOf f (reach l =? len (input l))
  end.

(** The position lies in the buffer, and the buffer is ASCII. *)
Definition asciiBuffer (l : lexer) : Prop :=
  inBounds l /\ ascii (input l) = true.

(** The states of the lexer on an input of ASCII: a lexer that has
    stopped has delivered the end-of-input token. *)
Definition asciiState (l : lexer) : Prop :=
  asciiBuffer l /\ (lexNext l = None -> Typ (tok l) = typeEOF).

(** The parser on an input of ASCII that is [n] bytes long, with at
    most [m] lex functions still to run. *)
Definition withinSteps (n : nat) (m : Z) (p : parser) : Prop :=
  asciiState (lexer_ p) /\ List.length (input (lexer_ p)) = n /\
  stepsLeft (lexer_ p) <= m.

(** The position below which no token starts any more: the position of
    the lexer, and one byte before it when [lexTerminator], which
    starts with [backup], runs next. *)
Definition tokenFloor (l : lexer) : Z :=
  match lexNext l with
  | Some fnTerminator => Z.max 0 (pos l - 1)
  | _ => pos l
  end.

(** ** Proofs *)

Lemma bind_Ok {A B : Type} (m : result A) (k : A -> result B) (r : B) :
  bind m k = Ok r -> exists a, m = Ok a /\ k a = Ok r.
Proof.
  destruct m as [a| |]; simpl; intros H; try discriminate.
  exists a; split; [reflexivity | exact H].
Qed.

Ltac inv_bind H :=
  let a := fresh "x" in
  let Ha := fresh "H" in
  apply bind_Ok in H; destruct H as [a [Ha H]].

Ltac inv_ok H := injection H as H; subst.

Tactic Notation "bind_inv" hyp(H) "as" ident(a) ident(Ha) :=
  apply bind_Ok in H; destruct H as [a [Ha H]].

Ltac split_if H :=
  match type of H with
  | (if ?c then _ else _) = _ => destruct c eqn:?
  end.

(** *** What the character-level operations leave alone *)

Lemma same_refl (l : lexer) : same l l.
Proof. unfold same; auto. Qed.

Lemma same_trans (a b c : lexer) : same a b -> same b c -> same a c.
Proof.
  unfold same; intros (H1 & H2 & H3 & H4 & H5) (K1 & K2 & K3 & K4 & K5).
  repeat split; congruence.
Qed.

Lemma sliceTo_Ok (s : gostring) (b : Z) (r : gostring) :
  sliceTo s b = Ok r -> 0 <= b <= len s /\ r = firstn (Z.to_nat b) s.
Proof.
  unfold sliceTo. destruct (0 <=? b) eqn:E1; simpl; try discriminate.
  destruct (b <=? len s) eqn:E2; simpl; try discriminate.
  intros H; inv_ok H. split; [lia | reflexivity].
Qed.

Lemma sliceFrom_Ok (s : gostring) (a : Z) (r : gostring) :
  sliceFrom s a = Ok r -> 0 <= a <= len s /\ r = skipn (Z.to_nat a) s.
Proof.
  unfold sliceFrom. destruct (0 <=? a) eqn:E1; simpl; try discriminate.
  destruct (a <=? len s) eqn:E2; simpl; try discriminate.
  intros H; inv_ok H. split; [lia | reflexivity].
Qed.

Lemma rewrite_length (s before after : gostring) (p : Z) (b : byte) :
  sliceTo s (p - 1) = Ok before -> sliceFrom s p = Ok after ->
  List.length (before ++ [b] ++ after) = List.length s.
Proof.
  intros H1 H2. apply sliceTo_Ok in H1. apply sliceFrom_Ok in H2.
  destruct H1 as [B1 ->], H2 as [B2 ->]. unfold len in *.
  rewrite !length_app, length_firstn, length_skipn. simpl. lia.
Qed.

Lemma addToTag_same (l : lexer) : same l (addToTag l).
Proof.
  unfold addToTag.
  destruct (negb _); [apply same_refl|].
  destruct (IsLetter _); [unfold same; simpl; auto|].
  destruct (unicode.IsSpace _); unfold same; simpl; auto.
Qed.

Lemma addToTag_fields (l : lexer) :
  input (addToTag l) = input l /\ pos (addToTag l) = pos l /\
  char (addToTag l) = char l /\
  skippedNewlines (addToTag l) = skippedNewlines l /\
  line (addToTag l) = line l /\ skippedSpace (addToTag l) = skippedSpace l.
Proof.
  unfold addToTag.
  destruct (negb _); [repeat split|].
  destruct (IsLetter _); [repeat split|].
  destruct (unicode.IsSpace _); repeat split.
Qed.

Lemma next_skipSpace_same (fuel : nat) :
  forall l l',
    (next fuel l = Ok l' -> same l l') /\
    (skipSpace fuel l = Ok l' -> same l l').
Proof.
  induction fuel as [|fuel IH]; intros l l'; split; simpl; try discriminate.
  - destruct (_ || _).
    + intros H; inv_ok H. unfold same; simpl; auto.
    + intros H. inv_bind H.
      destruct (utf8.DecodeRuneInString x) as [c w].
      apply (IH _ l') in H. eapply same_trans; [|exact H].
      eapply same_trans; [|apply addToTag_same].
      destruct (c =? charNewline); unfold same; simpl; auto.
  - intros H. inv_bind H. destruct x.
    + apply (IH _ l') in H. eapply same_trans; [|exact H].
      destruct (char l =? charNewline); unfold same; simpl; auto.
    + destruct (_ && _).
      * destruct (char l =? charNewline); simpl in H;
          inv_bind H; inv_bind H; inv_ok H;
          unfold same; simpl; repeat split; auto;
          eapply rewrite_length; eauto.
      * inv_ok H. unfold same; simpl; auto.
Qed.

Lemma next_same (fuel : nat) (l l' : lexer) :
  next fuel l = Ok l' -> same l l'.
Proof. apply next_skipSpace_same. Qed.

Lemma backup_same (l l' : lexer) : backup l = Ok l' -> same l l'.
Proof.
  unfold backup. destruct (pos l =? 0).
  - intros H; inv_ok H. unfold same; simpl; auto.
  - intros H. inv_bind H.
    destruct (utf8.DecodeLastRuneInString x) as [c w]. inv_ok H.
    destruct (char l =? charNewline); unfold same; simpl; auto.
Qed.

Lemma backupN_same (n : nat) :
  forall l l', backupN n l = Ok l' -> same l l'.
Proof.
  induction n as [|n IH]; simpl; intros l l' H.
  - inv_ok H. apply same_refl.
  - inv_bind H. eapply same_trans; [eapply backup_same; eauto | eauto].
Qed.

Lemma nextN_same (fuel n : nat) :
  forall l l', nextN fuel n l = Ok l' -> same l l'.
Proof.
  induction n as [|n IH]; simpl; intros l l' H.
  - inv_ok H. apply same_refl.
  - inv_bind H. eapply same_trans; [eapply next_same; eauto | eauto].
Qed.

(** *** The type of the token a lex function leaves *)

Lemma same_Typ (l l' : lexer) : same l l' -> Typ (tok l') = Typ (tok l).
Proof. intros (H & _). now rewrite H. Qed.

Lemma trimTrailingSpace_Typ (l l' : lexer) :
  trimTrailingSpace l = Ok l' ->
  Typ (tok l') = Typ (tok l) /\ lexNext l' = lexNext l.
Proof.
  unfold trimTrailingSpace. destruct (len _ =? 0).
  - intros H; inv_ok H; auto.
  - intros H. inv_bind H. destruct (unicode.IsSpace x).
    + inv_bind H. inv_ok H. simpl; auto.
    + inv_ok H; auto.
Qed.

Lemma truncateToken_Typ (l l' : lexer) (n : Z) :
  truncateToken l n = Ok l' -> Typ (tok l') = Typ (tok l).
Proof.
  unfold truncateToken. intros H. inv_bind H. inv_ok H. reflexivity.
Qed.

Lemma lexTextLoop_Typ (fuel : nat) :
  forall l l', lexTextLoop fuel l = Ok l' ->
    Typ (tok l) = typeText ->
    Typ (tok l') = typeText /\ lexNext l' <> None.
Proof.
  induction fuel as [|fuel IH]; simpl; intros l l' H T; try discriminate.
  bind_inv H as l1 N. apply next_same, same_Typ in N. rewrite T in N. clear T.
  split_if H.
  { bind_inv H as l2 K. inv_ok H. apply trimTrailingSpace_Typ in K.
    simpl. split; [destruct K; congruence | discriminate]. }
  bind_inv H as esc E. split_if H.
  { apply IH in H; auto. }
  bind_inv H as b B. split_if H.
  { apply IH in H; auto. }
  split_if H.
  { bind_inv H as q Q. split_if H; inv_ok H; simpl;
      (split; [assumption | discriminate]). }
  split_if H.
  { inv_ok H; simpl; (split; [assumption | discriminate]). }
  split_if H.
  { apply IH in H; auto. }
  split_if H.
  { split_if H.
    - bind_inv H as l2 K2. bind_inv H as l3 K3. inv_ok H.
      apply trimTrailingSpace_Typ in K2. apply backup_same, same_Typ in K3.
      simpl. split; [destruct K2; congruence | discriminate].
    - bind_inv H as l2 K2. bind_inv H as l3 K3.
      bind_inv H as l4 K4. bind_inv H as l5 K5. inv_ok H.
      apply backupN_same, same_Typ in K2. apply truncateToken_Typ in K3.
      apply trimTrailingSpace_Typ in K4. apply backup_same, same_Typ in K5.
      simpl. split; [destruct K4; congruence | discriminate]. }
  split_if H.
  { bind_inv H as l2 K2. bind_inv H as l3 K3. inv_ok H.
    apply trimTrailingSpace_Typ in K2. apply backup_same, same_Typ in K3.
    simpl. split; [destruct K2; congruence | discriminate]. }
  split_if H; apply IH in H; auto.
Qed.

Lemma lexHeadingLoop_Typ (fuel : nat) :
  forall l l', lexHeadingLoop fuel l = Ok l' ->
    Typ (tok l) = typeHeading ->
    Typ (tok l') = typeHeading /\ lexNext l' <> None.
Proof.
  induction fuel as [|fuel IH]; simpl; intros l l' H T; try discriminate.
  inv_bind H. apply next_same, same_Typ in H0. rewrite T in H0. clear T.
  destruct (char x =? eof).
  { inv_ok H. simpl. split; [assumption | discriminate]. }
  destruct (_ || _).
  { inv_bind H. inv_ok H. apply backup_same, same_Typ in H1.
    simpl. split; [congruence | discriminate]. }
  apply IH in H; auto.
Qed.

(** A lex function that ran either produced the end-of-input token and
    cleared [lexNext], or produced a token of another type and set
    [lexNext]. *)
Lemma runLex_eof (f : lexFn) (fuel : nat) (l l' : lexer) :
  runLex f fuel l = Ok l' ->
  (Typ (tok l') = typeEOF /\ lexNext l' = None) \/
  (Typ (tok l') <> typeEOF /\ lexNext l' <> None).
Proof.
  destruct f; simpl; intros H.
  - (* lexGlobal *)
    unfold lexGlobal in H. inv_bind H.
    apply next_same, same_Typ in H0. simpl in H0.
    destruct (char x =? eof).
    { inv_ok H. left. simpl; auto. }
    right.
    destruct (unicode.IsSpace _).
    { inv_ok H. simpl. split; [congruence | discriminate]. }
    destruct (_ =? _); [|destruct (isHeadingChar _); [|destruct (_ =? _)]];
      inv_bind H; inv_ok H; apply backup_same, same_Typ in H1; simpl;
      (split; [congruence | discriminate]).
  - (* lexText *)
    unfold lexText in H. inv_bind H. apply lexTextLoop_Typ in H0; auto.
    destruct H0 as [T N]. right.
    destruct (len _ =? 0); inv_ok H; simpl;
      (split; [congruence | assumption]).
  - (* lexHeading *)
    unfold lexHeading in H. apply lexHeadingLoop_Typ in H; auto.
    right. destruct H as [T N]. split; [congruence | assumption].
  - (* lexTerminator *)
    unfold lexTerminator in H. inv_bind H. inv_bind H. inv_ok H.
    apply next_same, same_Typ in H1. simpl in H1.
    right. simpl. split; [congruence | discriminate].
  - (* lexTag *)
    unfold lexTag in H. inv_bind H. inv_ok H.
    apply nextN_same, same_Typ in H0. simpl in H0.
    right. simpl. split; [congruence | discriminate].
  - (* lexOpeningSquare *)
    unfold lexOpeningSquare in H. inv_bind H. inv_ok H.
    apply next_same, same_Typ in H0. simpl in H0.
    right. simpl. split; [congruence | discriminate].
  - (* lexClosingSquare *)
    unfold lexClosingSquare in H. inv_bind H. inv_ok H.
    apply next_same, same_Typ in H0. simpl in H0.
    right. simpl. split; [congruence | discriminate].
  - (* lexHypen *)
    unfold lexHypen in H. inv_bind H. inv_bind H. inv_ok H.
    apply next_same, same_Typ in H0. simpl in H0.
    assert (Typ (tok x0) = Typ (tok x)) as E.
    { destruct (unicode.IsSpace _).
      - apply next_same, same_Typ in H1. exact H1.
      - inv_ok H1. reflexivity. }
    right. simpl. split; [congruence | discriminate].
Qed.

(** Once a call of [nextToken] has run a lex function, the token is the
    end-of-input token exactly when no lex function is left. *)
Lemma nextToken_eof (fuel : nat) :
  forall l l' running,
    nextToken fuel l = Ok (running, l') ->
    (running = true /\
     ((Typ (tok l') = typeEOF /\ lexNext l' = None) \/
      (Typ (tok l') <> typeEOF /\ lexNext l' <> None))) \/
    (running = false /\ l' = l /\ lexNext l = None).
Proof.
  induction fuel as [|fuel IH]; simpl; intros l l' running H;
    try discriminate.
  destruct (lexNext l) as [f|] eqn:N.
  - inv_bind H. destruct (tokenType_eqb _ _) eqn:E.
    + apply IH in H. destruct H as [H | (-> & -> & N')]; [left; exact H|].
      apply runLex_eof in H0. destruct H0 as [[T _] | [_ N'']].
      * rewrite T in E. discriminate.
      * contradiction.
    + inv_ok H. left. split; [reflexivity|].
      eapply runLex_eof; eauto.
  - inv_ok H. right. auto.
Qed.

(** Along the calls of [nextToken] from the initial state, the token is
    the end-of-input token only when [lexNext] is nil. *)
Lemma steps_eof (input : gostring) (l : lexer) :
  steps (lex input) l -> Typ (tok l) = typeEOF -> lexNext l = None.
Proof.
  induction 1 as [|fuel l l' running S IH H]; intros T.
  - discriminate.
  - apply nextToken_eof in H.
    destruct H as [(_ & [[_ N] | [T' _]]) | (_ & -> & N)]; auto.
    contradiction.
Qed.

(** *** End of input *)

(** C9. Once the lexer, started on any input, has produced the
    end-of-input token, every further call of [nextToken] returns (with
    [false], the lexer not running any more) and leaves the lexer as it
    is, so that the current token stays the end-of-input token however
    often the caller calls again; no call fails. *)
Theorem nextToken_after_eof (input : gostring) (l : lexer) :
  steps (lex input) l -> Typ (tok l) = typeEOF ->
  (forall fuel, nextToken (S fuel) l = Ok (false, l)) /\
  (forall l', steps l l' -> l' = l /\ Typ (tok l') = typeEOF).
Proof.
  intros S T. pose proof (steps_eof _ _ S T) as N. split.
  - intros fuel. simpl. rewrite N. reflexivity.
  - intros l' S'. induction S' as [|fuel l1 l2 running S1 IH H].
    + auto.
    + destruct IH as [-> _]. destruct fuel as [|fuel]; simpl in H.
      * discriminate.
      * rewrite N in H. inv_ok H. auto.
Qed.

(** *** Siblings of kind Text *)

Lemma last_snoc {A : Type} (l : list A) (x d : A) : last (l ++ [x]) d = x.
Proof.
  induction l as [|a l IH]; simpl; [reflexivity|].
  destruct (l ++ [x]) eqn:E; [destruct l; discriminate | exact IH].
Qed.

Lemma noTextPair_snoc (cs : list Node) (n : Node) :
  noTextPair cs = true ->
  isText (last cs noNode) && isText n = false ->
  noTextPair (cs ++ [n]) = true.
Proof.
  induction cs as [|a cs IH]; simpl; intros H L; [reflexivity|].
  destruct cs as [|b cs]; simpl in *.
  - rewrite L. reflexivity.
  - apply andb_true_iff in H. destruct H as [H1 H2].
    rewrite H1. simpl. apply IH; assumption.
Qed.

Lemma appendToLastVal_snoc (cs : list Node) (t v : gostring)
      (c : list Node) (s : gostring) :
  appendToLastVal (cs ++ [mkNode t v c]) s = cs ++ [mkNode t (v ++ s) c].
Proof.
  induction cs as [|a cs IH]; simpl; [reflexivity|].
  rewrite IH. destruct (cs ++ [mkNode t v c]) eqn:E.
  - destruct cs; discriminate.
  - destruct a; reflexivity.
Qed.

Lemma appendToLastVal_isText (cs : list Node) (s : gostring) :
  map isText (appendToLastVal cs s) = map isText cs /\
  forallb merged (appendToLastVal cs s) = forallb merged cs.
Proof.
  induction cs as [|a cs [IH1 IH2]]; simpl; [auto|].
  destruct cs as [|b cs].
  - destruct a; simpl; auto.
  - destruct a. change (appendToLastVal (b :: cs) s) with
      (appendToLastVal (b :: cs) s) in *.
    simpl map in *. simpl forallb in *.
    rewrite IH1, IH2. auto.
Qed.

Lemma noTextPair_map (cs cs' : list Node) :
  map isText cs = map isText cs' -> noTextPair cs = noTextPair cs'.
Proof.
  revert cs'. induction cs as [|a cs IH]; intros [|a' cs'] H;
    try discriminate; [reflexivity|].
  simpl in H. injection H as Ha Hcs.
  destruct cs as [|b cs], cs' as [|b' cs']; try discriminate;
    [reflexivity|].
  simpl in Hcs. pose proof Hcs as Hcs'. injection Hcs' as Hb _.
  change (negb (isText a && isText b) && noTextPair (b :: cs) =
          negb (isText a' && isText b') && noTextPair (b' :: cs')).
  rewrite Ha, Hb. f_equal. apply IH. exact Hcs.
Qed.

Lemma close_merged (f : frame) :
  frameOK f -> merged (close f) = true /\ isText (close f) = false.
Proof.
  intros (T & N & M). unfold close, isText. simpl.
  rewrite N, M. auto.
Qed.

Lemma addChild_OK (g : frame) (n : Node) :
  frameOK g -> merged n = true -> isText n = false ->
  frameOK (addChild g n).
Proof.
  intros (T & N & M) Mn Tn. unfold frameOK, addChild; simpl.
  split; [exact T|]. split.
  - apply noTextPair_snoc; [exact N|]. rewrite Tn. apply andb_false_r.
  - rewrite forallb_app. simpl. rewrite M, Mn. reflexivity.
Qed.

Lemma plug_merged (above : list frame) :
  forall n, merged n = true -> isText n = false ->
    Forall frameOK above -> merged (plug n above) = true.
Proof.
  induction above as [|f above IH]; simpl; intros n M T F; [exact M|].
  inversion F as [|? ? Ff Fa]; subst.
  pose proof (addChild_OK f n Ff M T) as A.
  apply close_merged in A. destruct A as [A1 A2].
  apply IH; assumption.
Qed.

Lemma tree_merged (p : parser) : pathOK p -> merged (tree p) = true.
Proof.
  unfold pathOK, tree. destruct (path p) as [|f rest]; intros F.
  - reflexivity.
  - inversion F as [|? ? Ff Fa]; subst.
    destruct (close_merged f Ff). apply plug_merged; assumption.
Qed.

Lemma addNewNode_OK (p p' : parser) (typ val : gostring) :
  pathOK p -> streq typ nodeText = false ->
  addNewNode p typ val = Ok p' -> pathOK p'.
Proof.
  unfold addNewNode, pathOK. intros F T H.
  destruct (isNil p); [discriminate|]. inv_ok H. simpl.
  constructor; [|exact F]. unfold frameOK; simpl; auto.
Qed.

Lemma returnNode_OK (p p' : parser) :
  pathOK p -> returnNode p = Ok p' -> pathOK p'.
Proof.
  unfold returnNode, pathOK. intros F H.
  destruct (isNil p); [discriminate|].
  destruct (path p) as [|f [|g rest]] eqn:P; [discriminate| |];
    inv_ok H; simpl.
  - rewrite P. exact F.
  - inversion F as [|? ? Ff F']; subst.
    inversion F' as [|? ? Fg Fr]; subst.
    destruct (close_merged f Ff).
    constructor; [apply addChild_OK; assumption | exact Fr].
Qed.

Lemma parseText_OK (p p' : parser) :
  pathOK p -> parseText p = Ok p' -> pathOK p'.
Proof.
  unfold parseText, previousSibling, pathOK. intros F H.
  destruct (isNil p) eqn:Nil; [discriminate|].
  destruct (path p) as [|f rest] eqn:P; [discriminate|]. simpl in H.
  inversion F as [|? ? Ff Fr]; subst.
  destruct (streq (NodeTyp (last (fChildren f) noNode)) nodeText) eqn:L;
    fold noNode in H; rewrite L in H.
  - inv_ok H. simpl. constructor; [|exact Fr].
    destruct Ff as (T & N & M). unfold frameOK; simpl.
    match goal with
    | |- context [appendToLastVal ?a ?b] =>
      destruct (appendToLastVal_isText a b) as [E1 E2]
    end.
    rewrite (noTextPair_map _ _ E1), E2. auto.
  - unfold addNewNode, returnNode in H. rewrite Nil in H. simpl in H.
    rewrite Nil, P in H. inv_ok H. simpl.
    constructor; [|exact Fr].
    destruct Ff as (T & N & M). unfold frameOK, addChild; simpl.
    split; [exact T|]. split.
    + apply noTextPair_snoc; [exact N|].
      unfold isText at 1. rewrite L. reflexivity.
    + rewrite forallb_app, M. reflexivity.
Qed.

Lemma parser_nextToken_path (fuel : nat) (p p' : parser) :
  parser_nextToken fuel p = Ok p' ->
  path p' = path p /\ isNil p' = isNil p /\ tagDepth p' = tagDepth p.
Proof.
  unfold parser_nextToken. intros H. inv_bind H. inv_ok H. simpl. auto.
Qed.

Lemma parser_nextToken_OK (fuel : nat) (p p' : parser) :
  pathOK p -> parser_nextToken fuel p = Ok p' -> pathOK p'.
Proof.
  intros F H. apply parser_nextToken_path in H. destruct H as [E _].
  unfold pathOK. rewrite E. exact F.
Qed.

Lemma tagNode_notText (p : parser) : streq (fst (tagNode p)) nodeText = false.
Proof.
  unfold tagNode.
  repeat match goal with
         | |- context [if ?c then _ else _] => destruct c
         end; reflexivity.
Qed.

Lemma headingNode_notText (p : parser) :
  streq (fst (headingNode p)) nodeText = false.
Proof.
  unfold headingNode. cbv zeta.
  repeat match goal with
         | |- context [if ?c then _ else _] => destruct c
         end; reflexivity.
Qed.

(** A property of the parser state that the five operations on the tree
    and on the token stream keep is kept by every parse function. *)
Section ParserInvariant.

Variable Inv : parser -> Prop.

Hypothesis Inv_next : forall fuel p p',
  Inv p -> parser_nextToken fuel p = Ok p' -> Inv p'.
Hypothesis Inv_add : forall p p' typ val,
  Inv p -> streq typ nodeText = false ->
  addNewNode p typ val = Ok p' -> Inv p'.
Hypothesis Inv_return : forall p p',
  Inv p -> returnNode p = Ok p' -> Inv p'.
Hypothesis Inv_text : forall p p',
  Inv p -> Typ (cur p) = typeText -> parseText p = Ok p' -> Inv p'.
Hypothesis Inv_depth : forall p d, Inv p -> Inv (set_tagDepth p d).

Lemma richText_inv (fuel : nat) :
  forall p p', Inv p ->
    (parseRichText fuel p = Ok p' -> Inv p') /\
    (parseTag fuel p = Ok p' -> Inv p').
Proof.
  induction fuel as [|fuel IH]; intros p p' F; split; simpl;
    try discriminate; intros H.
  - split_if H; [inv_ok H; exact F|].
    assert (forall q, Inv q ->
              (q1 <- parser_nextToken fuel q ;; parseRichText fuel q1)
              = Ok p' -> Inv p') as Cont.
    { intros q Fq K. bind_inv K as q1 K1.
      apply Inv_next in K1; [|exact Fq].
      destruct (IH q1 p' K1) as [R _]. apply R. exact K. }
    destruct (Typ (cur p)) eqn:T; try (eapply Cont; [exact F | exact H]).
    + bind_inv H as p1 K1. apply Inv_text in K1; [|exact F|exact T].
      eapply Cont; [exact K1 | exact H].
    + bind_inv H as p1 K1.
      destruct (IH p p1 F) as [_ R]. apply R in K1.
      split_if H; [inv_ok H; exact K1|]. eapply Cont; [exact K1 | exact H].
    + split_if H; [inv_ok H; apply Inv_depth; exact F|].
      eapply Cont; [exact F | exact H].
  - bind_inv H as p1 K1.
    apply Inv_add in K1; [|exact F|apply tagNode_notText].
    bind_inv H as p2 K2. apply Inv_next in K2; [|exact K1].
    bind_inv H as p3 K3.
    destruct (IH (set_tagDepth p2 (tagDepth p2 + 1)) p3
                 (Inv_depth _ _ K2)) as [R _].
    apply R in K3. eapply Inv_return; eauto.
Qed.

Lemma wrapped_inv (fuel : nat) (typ val : gostring) (p p' : parser) :
  Inv p -> streq typ nodeText = false ->
  (q <- addNewNode p typ val ;; q <- parseRichText fuel q ;; returnNode q)
  = Ok p' ->
  Inv p'.
Proof.
  intros F T H. bind_inv H as p1 K1. apply Inv_add in K1; auto.
  bind_inv H as p2 K2.
  destruct (richText_inv fuel p1 p2 K1) as [R _]. apply R in K2.
  eapply Inv_return; eauto.
Qed.

Lemma parseHeading_inv (fuel : nat) (p p' : parser) :
  Inv p -> parseHeading fuel p = Ok p' -> Inv p'.
Proof.
  unfold parseHeading. intros F H. bind_inv H as p1 K1.
  apply Inv_add in K1; [|exact F|apply headingNode_notText].
  bind_inv H as p2 K2. apply Inv_next in K2; [|exact K1].
  bind_inv H as p3 K3.
  destruct (richText_inv fuel p2 p3 K2) as [R _]. apply R in K3.
  eapply Inv_return; eauto.
Qed.

Lemma parseList_inv (fuel : nat) :
  forall d p p', Inv p ->
    (parseList fuel d p = Ok p' -> Inv p') /\
    (parseListLoop fuel p = Ok p' -> Inv p').
Proof.
  induction fuel as [|fuel IH]; intros d p p' F; split; simpl;
    try discriminate; intros H.
  - split_if H; [eapply Inv_return; eauto|].
    bind_inv H as p1 K1. apply Inv_add in K1; [|exact F|reflexivity].
    destruct (IH 0 p1 p' K1) as [_ R]. apply R. exact H.
  - split_if H; [|eapply Inv_return; eauto].
    bind_inv H as p1 K1. apply Inv_next in K1; [|exact F].
    bind_inv H as p2 K2. apply wrapped_inv in K2; [|exact K1|reflexivity].
    bind_inv H as p3 K3.
    assert (Inv p3) as F3.
    { split_if K3.
      - pose proof (Inv_depth p2 0 K2) as F2.
        destruct (IH (getListItemDepth (cur (set_tagDepth p2 0)))
                     (set_tagDepth p2 0) p3 F2) as [R _].
        apply R. exact K3.
      - inv_ok K3. apply Inv_depth. exact K2. }
    split_if H; [eapply Inv_return; eauto|].
    destruct (IH 0 p3 p' F3) as [_ R]. apply R. exact H.
Qed.

Lemma parseGlobalLoop_inv (fuel : nat) :
  forall p p', Inv p -> parseGlobalLoop fuel p = Ok p' -> Inv p'.
Proof.
  induction fuel as [|fuel IH]; intros p p' F H; simpl in H;
    try discriminate.
  split_if H; [inv_ok H; exact F|].
  bind_inv H as p1 K1. bind_inv H as p2 K2.
  assert (Inv p1) as F1.
  { destruct (Typ (cur p));
      try (apply wrapped_inv in K1; [exact K1|exact F|reflexivity]).
    - eapply parseHeading_inv; eauto.
    - destruct (parseList_inv fuel 0 p p1 F) as [R _]. apply R. exact K1. }
  apply Inv_next in K2; [|exact F1].
  exact (IH p2 p' K2 H).
Qed.

(** [parseGlobal] reads the first token before its loop: the property
    has to hold from there. *)
Lemma parseGlobal_inv (fuel : nat) (p p' : parser) :
  (forall p1, parser_nextToken fuel (set_tagDepth p 0) = Ok p1 -> Inv p1) ->
  parseGlobal fuel p = Ok p' -> Inv p'.
Proof.
  unfold parseGlobal. intros F H. bind_inv H as p1 K1.
  eapply parseGlobalLoop_inv; [|exact H]. apply F. exact K1.
Qed.

End ParserInvariant.

Lemma Parse_merged (fuel : nat) (input : gostring) (t : Node) :
  Parse fuel input = Ok t -> merged t = true.
Proof.
  unfold Parse. intros H. bind_inv H as p1 K1. inv_ok H.
  apply tree_merged. revert K1.
  apply (parseGlobal_inv pathOK parser_nextToken_OK); auto.
  - intros p p' typ val F T. apply addNewNode_OK; assumption.
  - exact returnNode_OK.
  - intros p p' F _. apply parseText_OK. exact F.
  - intros q K. eapply parser_nextToken_OK; [|exact K].
    unfold pathOK; simpl. constructor; [|constructor].
    unfold frameOK; simpl; auto.
Qed.

(** C2. The tree [Parse] returns never has two consecutive siblings of
    kind Text; and [parseText], called when the last child of the
    current node is a Text node, adds no node and appends to that
    child's value a single space and the value of the token. *)
Theorem no_consecutive_Text_siblings :
  (forall fuel input t, Parse fuel input = Ok t -> merged t = true) /\
  (forall p f rest cs v c,
     isNil p = false -> path p = f :: rest ->
     fChildren f = cs ++ [mkNode nodeText v c] ->
     parseText p =
     Ok (set_path p
           (mkFrame (fTyp f) (fVal f)
              (cs ++ [mkNode nodeText (v ++ str " " ++ Val (cur p)) c])
            :: rest))).
Proof.
  split.
  - exact Parse_merged.
  - intros p f rest cs v c Nil P C.
    unfold parseText, previousSibling. rewrite Nil, P, C. simpl bind.
    rewrite last_snoc. simpl NodeTyp.
    change (streq nodeText nodeText) with true. cbv iota.
    rewrite appendToLastVal_snoc. reflexivity.
Qed.

(** *** The open nodes across a parse function *)

Lemma appended_grows (typ val : gostring) (f : frame) (rest : list frame)
      (p' : parser) :
  appended typ val f rest p' -> grows f rest p'.
Proof.
  intros (N & cs & P). split; [exact N|].
  eexists. rewrite P. reflexivity.
Qed.

Lemma parseText_grows (p p' : parser) (f : frame) (rest : list frame) :
  isNil p = false -> path p = f :: rest ->
  parseText p = Ok p' -> grows f rest p'.
Proof.
  unfold parseText, previousSibling, addNewNode, returnNode.
  intros N P H. rewrite N, P in H. simpl in H.
  split_if H.
  - inv_ok H. split; [exact N|]. eexists. reflexivity.
  - rewrite N in H. simpl in H. inv_ok H. split; [exact N|].
    eexists. reflexivity.
Qed.

Lemma returnNode_appended (p p' : parser) (g f : frame)
      (rest : list frame) :
  isNil p = false -> path p = g :: f :: rest ->
  returnNode p = Ok p' ->
  appended (fTyp g) (fVal g) f rest p' /\
  p' = set_path p (addChild f (close g) :: rest).
Proof.
  unfold returnNode. intros N P H. rewrite N, P in H. inv_ok H.
  split; [|reflexivity]. split; [exact N|].
  exists (fChildren g). reflexivity.
Qed.

Lemma richText_grows (fuel : nat) :
  forall p p' f rest,
    isNil p = false -> path p = f :: rest ->
    (parseRichText fuel p = Ok p' -> grows f rest p') /\
    (parseTag fuel p = Ok p' ->
     appended (fst (tagNode p)) (snd (tagNode p)) f rest p').
Proof.
  induction fuel as [|fuel IH]; intros p p' f rest N P; split; simpl;
    try discriminate; intros H.
  - assert (grows f rest p) as G0.
    { split; [exact N|]. exists (fChildren f). rewrite P.
      destruct f; reflexivity. }
    split_if H; [inv_ok H; exact G0|].
    assert (forall q, grows f rest q ->
              (q1 <- parser_nextToken fuel q ;; parseRichText fuel q1)
              = Ok p' -> grows f rest p') as Cont.
    { intros q (Nq & cs & Pq) K. bind_inv K as q1 K1.
      apply parser_nextToken_path in K1. destruct K1 as (E1 & E2 & _).
      rewrite <- E1 in Pq. rewrite <- E2 in Nq.
      destruct (IH q1 p' _ rest Nq Pq) as [R _]. apply R in K.
      destruct K as (N' & cs' & P'). split; [exact N'|].
      exists cs'. exact P'. }
    destruct (Typ (cur p)); try (eapply Cont; [exact G0 | exact H]).
    + bind_inv H as p1 K1. apply (parseText_grows _ _ _ _ N P) in K1.
      eapply Cont; [exact K1 | exact H].
    + bind_inv H as p1 K1.
      destruct (IH p p1 f rest N P) as [_ R]. apply R in K1.
      apply appended_grows in K1.
      split_if H; [inv_ok H; exact K1|]. eapply Cont; [exact K1 | exact H].
    + split_if H; [inv_ok H; exact G0|]. eapply Cont; [exact G0 | exact H].
  - unfold addNewNode in H. rewrite N in H. simpl in H.
    bind_inv H as p2 K2. apply parser_nextToken_path in K2.
    simpl in K2. destruct K2 as (E1 & E2 & _).
    bind_inv H as p3 K3.
    assert (isNil (set_tagDepth p2 (tagDepth p2 + 1)) = false) as N2
        by (simpl; congruence).
    assert (path (set_tagDepth p2 (tagDepth p2 + 1)) =
            mkFrame (fst (tagNode p)) (snd (tagNode p)) [] :: path p) as P2
        by (simpl; congruence).
    destruct (IH _ p3 _ _ N2 P2) as [R _]. apply R in K3.
    destruct K3 as (N3 & cs & P3). rewrite P in P3.
    apply (returnNode_appended _ _ _ _ _ N3 P3) in H.
    destruct H as [H _]. exact H.
Qed.

Lemma wrapped_appended (fuel : nat) (typ val : gostring) (p p' : parser)
      (f : frame) (rest : list frame) :
  isNil p = false -> path p = f :: rest ->
  (q <- addNewNode p typ val ;; q <- parseRichText fuel q ;; returnNode q)
  = Ok p' ->
  appended typ val f rest p'.
Proof.
  intros N P H. unfold addNewNode in H. rewrite N in H. simpl in H.
  bind_inv H as p2 K2.
  assert (isNil (set_path p (mkFrame typ val [] :: path p)) = false) as N1
      by exact N.
  destruct (richText_grows fuel _ p2 _ _ N1 eq_refl) as [R _].
  apply R in K2. destruct K2 as (N2 & cs & P2). rewrite P in P2.
  apply (returnNode_appended _ _ _ _ _ N2 P2) in H. destruct H as [H _].
  exact H.
Qed.

Lemma parseList_appended (fuel : nat) :
  forall d p p',
    isNil p = false ->
    (forall f rest,
       path p = f :: rest ->
       isOneOf p [typeBulletpoint] &&
         (getListItemDepth (cur p) <? d) = false ->
       parseList fuel d p = Ok p' -> appended nodeList [] f rest p') /\
    (forall L f rest,
       path p = L :: f :: rest ->
       parseListLoop fuel p = Ok p' ->
       appended (fTyp L) (fVal L) f rest p').
Proof.
  induction fuel as [|fuel IH]; intros d p p' N; split; simpl;
    try discriminate.
  - intros f rest P C H. rewrite C in H.
    unfold addNewNode in H. rewrite N in H. simpl in H.
    destruct (IH 0 (set_path p (mkFrame nodeList [] [] :: path p)) p' N)
      as [_ R].
    rewrite P in H, R. exact (R _ _ _ eq_refl H).
  - intros L f rest P H. split_if H.
    + bind_inv H as p1 K1. apply parser_nextToken_path in K1.
      destruct K1 as (E1 & E2 & _).
      bind_inv H as p2 K2.
      assert (isNil p1 = false) as N1 by congruence.
      rewrite P in E1.
      apply (wrapped_appended _ _ _ _ _ _ _ N1 E1) in K2.
      destruct K2 as (N2 & cs & P2).
      bind_inv H as p3 K3.
      assert (isNil p3 = false /\
              exists L', path p3 = L' :: f :: rest /\
                         fTyp L' = fTyp L /\ fVal L' = fVal L) as G3.
      { split_if K3.
        - destruct (IH (getListItemDepth (cur (set_tagDepth p2 0)))
                       (set_tagDepth p2 0) p3 N2) as [R _].
          apply andb_true_iff in Heqb0. destruct Heqb0 as [B _].
          assert (isOneOf (set_tagDepth p2 0) [typeBulletpoint] &&
                  (getListItemDepth (cur (set_tagDepth p2 0)) <?
                   getListItemDepth (cur (set_tagDepth p2 0))) = false) as C.
          { rewrite Z.ltb_irrefl. apply andb_false_r. }
          apply (R _ _ P2 C) in K3. destruct K3 as (N3 & cs3 & P3).
          split; [exact N3|]. eexists. split; [exact P3|]. auto.
        - inv_ok K3. split; [exact N2|]. eexists. split; [exact P2|]. auto. }
      destruct G3 as (N3 & L' & P3 & T3 & V3).
      split_if H.
      * apply (returnNode_appended _ _ _ _ _ N3 P3) in H.
        destruct H as [H _]. rewrite T3, V3 in H. exact H.
      * destruct (IH 0 p3 p' N3) as [_ R].
        apply (R _ _ _ P3) in H. rewrite T3, V3 in H. exact H.
    + apply (returnNode_appended _ _ _ _ _ N P) in H.
      destruct H as [H _]. exact H.
Qed.

(** *** Headings *)

Lemma headingNode_invalid (p : parser) :
  validHeading (Val (cur p)) = false ->
  headingNode p = (nodeError, errInvalidHeading ++ str ": " ++ Val (cur p)).
Proof.
  unfold validHeading, headingNode. intros H. cbv zeta.
  repeat (apply orb_false_iff in H; destruct H as [H ?]).
  repeat match goal with
         | E : streq _ _ = false |- _ => rewrite E; clear E
         end.
  reflexivity.
Qed.

(** C6. For a Heading token whose literal is none of the six heading
    values, [parseHeading] opens an Error node whose value is the message
    [Invalid heading value: ] followed by the literal, parses the rich
    text after the token into that node, and closes it as one more child
    of the current node. So [..], newline, [a] gives an Error node without
    content and a paragraph, and [.. a] an Error node holding the text. *)
Theorem invalid_heading_yields_Error :
  (forall fuel p p' f rest,
     isNil p = false -> path p = f :: rest ->
     Typ (cur p) = typeHeading -> validHeading (Val (cur p)) = false ->
     parseHeading fuel p = Ok p' ->
     let msg := errInvalidHeading ++ str ": " ++ Val (cur p) in
     exists p1 p2 cs,
       parser_nextToken fuel
         (set_path p (mkFrame nodeError msg [] :: f :: rest)) = Ok p1 /\
       parseRichText fuel p1 = Ok p2 /\
       path p2 = mkFrame nodeError msg cs :: f :: rest /\
       path p' = addChild f (mkNode nodeError msg cs) :: rest) /\
  (forall fuel,
     Parse (32 + fuel) (str ".." ++ nl ++ str "a") =
     Ok (mkNode nodeRoot []
           [mkNode nodeError (str "Invalid heading value: ..") [];
            mkNode nodeParagraph [] [mkNode nodeText (str "a") []]])) /\
  (forall fuel,
     Parse (32 + fuel) (str ".. a") =
     Ok (mkNode nodeRoot []
           [mkNode nodeError (str "Invalid heading value: ..")
              [mkNode nodeText (str "a") []]])).
Proof.
  split; [|split; intros fuel; vm_compute; reflexivity].
  intros fuel p p' f rest N P T V H msg.
  unfold parseHeading in H. rewrite (headingNode_invalid p V) in H.
  cbn [fst snd] in H. fold msg in H.
  unfold addNewNode in H. rewrite N, P in H. cbn [bind] in H.
  bind_inv H as p1 K1. bind_inv H as p2 K2.
  pose proof (parser_nextToken_path _ _ _ K1) as (E1 & E2 & _).
  cbn [path isNil set_path] in E1, E2.
  assert (isNil p1 = false) as N1 by congruence.
  destruct (richText_grows fuel p1 p2 _ _ N1 E1) as [R _].
  pose proof (R K2) as (N2 & cs & P2). cbn [fTyp fVal] in P2.
  apply (returnNode_appended _ _ _ _ _ N2 P2) in H. destruct H as [_ ->].
  exists p1, p2, cs. repeat split; assumption.
Qed.

(** *** Inline tags left open *)

(** C7. When [parseTag] comes back inside a tag ([tagDepth] above zero)
    on a Bulletpoint or Terminator token, the enclosing [parseRichText]
    returns at once, in the state [parseTag] left: the tag node is
    closed, a complete child of the node it was opened in, of the kind
    its name selects and with the content collected so far, and nothing
    else is added. [parseListItem] leaves the list item closed in the
    same way, and the list loop goes on from a state whose [tagDepth] is
    zero; a tag left open in an item holds nothing of the next item. *)
Theorem unterminated_tag_closes_implicitly :
  (forall fuel p p1 f rest,
     isNil p = false -> path p = f :: rest ->
     Typ (cur p) = typeTag -> parseTag fuel p = Ok p1 ->
     0 < tagDepth p1 ->
     isOneOf p1 [typeBulletpoint; typeTerminator] = true ->
     parseRichText (S fuel) p = Ok p1 /\
     appended (fst (tagNode p)) (snd (tagNode p)) f rest p1 /\
     (streq (Val (cur p)) (str "bold") = true ->
      tagNode p = (nodeBoldTag, []))) /\
  (forall fuel p p1 p2 L rest,
     isNil p = false -> path p = L :: rest ->
     isOneOf p [typeBulletpoint] = true ->
     parser_nextToken fuel p = Ok p1 -> parseListItem fuel p1 = Ok p2 ->
     appended nodeListItem [] L rest p2 /\
     let d := getListItemDepth (cur p) in
     let q := set_tagDepth p2 0 in
     parseListLoop (S fuel) p =
     (p3 <- (if isOneOf q [typeBulletpoint] &&
                (d <? getListItemDepth (cur q))
             then parseList fuel (getListItemDepth (cur q)) q
             else Ok q) ;;
      if isOneOf p3 [typeBulletpoint] && (getListItemDepth (cur p3) <? d)
      then returnNode p3
      else parseListLoop fuel p3)) /\
  (forall fuel,
     Parse (32 + fuel)
       (str "- The bold[quick" ++ nl ++ str "- brown fox] jumps") =
     Ok (mkNode nodeRoot []
           [mkNode nodeList []
              [mkNode nodeListItem []
                 [mkNode nodeText (str "The") [];
                  mkNode nodeBoldTag [] [mkNode nodeText (str "quick") []]];
               mkNode nodeListItem []
                 [mkNode nodeText (str "brown fox jumps") []]]])) /\
  (forall fuel,
     Parse (32 + fuel) (str "bold[a" ++ nl ++ nl ++ str "b") =
     Ok (mkNode nodeRoot []
           [mkNode nodeParagraph []
              [mkNode nodeBoldTag [] [mkNode nodeText (str "a") []]];
            mkNode nodeParagraph [] [mkNode nodeText (str "b") []]])).
Proof.
  split; [|split; [|split; intros fuel; vm_compute; reflexivity]].
  - intros fuel p p1 f rest N P T H D B. split; [|split].
    + cbn [parseRichText]. unfold isOneOf at 1. rewrite T.
      cbn [existsb tokenType_eqb orb]. rewrite H. cbn [bind].
      apply Z.ltb_lt in D. rewrite D, B. reflexivity.
    + destruct (richText_grows fuel p p1 f rest N P) as [_ R].
      exact (R H).
    + intros E. unfold tagNode. rewrite E. reflexivity.
  - intros fuel p p1 p2 L rest N P B K1 K2. split.
    + pose proof (parser_nextToken_path _ _ _ K1) as (E1 & E2 & _).
      rewrite P in E1. assert (isNil p1 = false) as N1 by congruence.
      exact (wrapped_appended _ _ _ _ _ _ _ N1 E1 K2).
    + intros d q. cbn [parseListLoop]. rewrite B, K1. cbn [bind].
      rewrite K2. reflexivity.
Qed.

(** *** The root of the tree, and a panic of the lexer *)

Lemma rooted_top (p : parser) (f : frame) (rest : list frame)
      (cs : list Node) :
  rooted p -> path p = f :: rest ->
  rooted (set_path p (mkFrame (fTyp f) (fVal f) cs :: rest)).
Proof.
  intros (fs & rc & E) P. rewrite P in E. unfold rooted. cbn [path set_path].
  destruct fs as [|g fs]; cbn [app] in E; injection E as -> ->.
  - exists [], cs. reflexivity.
  - exists (mkFrame (fTyp g) (fVal g) cs :: fs), rc. reflexivity.
Qed.

Lemma rooted_add (p p' : parser) (typ val : gostring) :
  rooted p -> addNewNode p typ val = Ok p' -> rooted p'.
Proof.
  intros (fs & rc & E) H. unfold addNewNode in H.
  destruct (isNil p); [discriminate|]. inv_ok H.
  exists (mkFrame typ val [] :: fs), rc. cbn. rewrite E. reflexivity.
Qed.

Lemma rooted_return (p p' : parser) :
  rooted p -> returnNode p = Ok p' -> rooted p'.
Proof.
  intros R H. unfold returnNode in H.
  destruct (isNil p); [discriminate|].
  destruct (path p) as [|f [|g rest]] eqn:P; [discriminate| |]; inv_ok H.
  - destruct R as (fs & rc & E). exists fs, rc. exact E.
  - destruct R as (fs & rc & E). rewrite P in E.
    destruct fs as [|f' fs]; [discriminate|]. cbn [app] in E.
    injection E as Ef E. subst f'.
    assert (rooted (set_path p (g :: rest))) as R'
        by (exists fs, rc; exact E).
    apply (rooted_top _ g rest (fChildren g ++ [close f]) R' eq_refl).
Qed.

Lemma rooted_text (p p' : parser) :
  rooted p -> parseText p = Ok p' -> rooted p'.
Proof.
  intros R H. unfold parseText, previousSibling in H.
  destruct (isNil p) eqn:Nil; [discriminate|].
  destruct (path p) as [|f rest] eqn:P; [discriminate|]. cbn [bind] in H.
  split_if H.
  - inv_ok H. apply rooted_top; assumption.
  - bind_inv H as p1 K. apply (rooted_add _ _ _ _ R) in K.
    exact (rooted_return _ _ K H).
Qed.

Lemma plug_root (above : list frame) (r : frame) :
  forall n, NodeTyp (plug n (above ++ [r])) = fTyp r /\
            NodeVal (plug n (above ++ [r])) = fVal r.
Proof.
  induction above as [|f above IH]; intros n; cbn [app plug].
  - split; reflexivity.
  - apply IH.
Qed.

Lemma Parse_rooted (fuel : nat) (s : gostring) (t : Node) :
  Parse fuel s = Ok t -> NodeTyp t = nodeRoot /\ NodeVal t = [].
Proof.
  unfold Parse. intros H. bind_inv H as p K. inv_ok H.
  assert (rooted p) as (fs & rc & E).
  { revert K. apply (parseGlobal_inv rooted).
    - intros f q q' R N. apply parser_nextToken_path in N.
      destruct N as (N & _). destruct R as (fs & rc & E).
      exists fs, rc. congruence.
    - intros q q' typ val R _. apply rooted_add. exact R.
    - exact rooted_return.
    - intros q q' R _. apply rooted_text. exact R.
    - intros q d R. exact R.
    - intros p1 N. apply parser_nextToken_path in N.
      destruct N as (N & _). exists [], []. rewrite N. reflexivity. }
  unfold tree. rewrite E. destruct fs as [|f fs]; cbn [app].
  - split; reflexivity.
  - apply (plug_root fs (mkFrame nodeRoot [] rc)).
Qed.

(** C1. [Parse] does not return on every input: on [a]b[] the lexer
    keeps the tag [a] of the first text run, extends it to [ab] in the
    second, whose token holds [b] only, and [truncateToken] slices the
    token value at a negative bound. Two tags that touch, as in
    [italic[a]bold[b]], run into the same panic. (When [Parse] returns,
    the tree is rooted at a node of kind Root: [Parse_rooted].) *)
Theorem Parse_panics_on_stale_tag (fuel : nat) :
  Parse (8 + fuel) (str "a]b[") = Panic /\
  Parse (16 + fuel) (str "italic[a]bold[b]") = Panic /\
  collectTokens (8 + fuel) (str "a]b[") = Panic.
Proof. repeat split; vm_compute; reflexivity. Qed.

(** *** Where the text of the tree comes from *)

Lemma joined_incl (vals vals' : list gostring) (v : gostring) :
  incl vals vals' -> joined vals v -> joined vals' v.
Proof.
  intros I J. induction J as [v H | v w J IH H].
  - apply joined_one. apply I. exact H.
  - apply joined_more; [exact IH | apply I; exact H].
Qed.

Lemma textTokenValues_app (a b : list token) :
  textTokenValues (a ++ b) = textTokenValues a ++ textTokenValues b.
Proof. unfold textTokenValues. rewrite filter_app, map_app. reflexivity. Qed.

Lemma textTokenValues_In (toks : list token) (t : token) :
  In t toks -> Typ t = typeText -> In (Val t) (textTokenValues toks).
Proof.
  intros H T. unfold textTokenValues. apply in_map. apply filter_In.
  split; [exact H|]. rewrite T. reflexivity.
Qed.

Lemma textValues_plug (P : gostring -> Prop) (above : list frame) :
  forall n,
    Forall P (textValues n) ->
    Forall (fun f => streq (fTyp f) nodeText = false /\
                     Forall P (flat_map textValues (fChildren f))) above ->
    Forall P (textValues (plug n above)).
Proof.
  induction above as [|f above IH]; intros n Hn F; [exact Hn|].
  inversion F as [|? ? (T & C) Fa]; subst. cbn [plug]. apply IH; [|exact Fa].
  unfold close, addChild. cbn [textValues fTyp fVal fChildren].
  rewrite T. cbn [app]. rewrite flat_map_app. apply Forall_app.
  split; [exact C|]. cbn [flat_map]. rewrite app_nil_r. exact Hn.
Qed.

Lemma textsJoined_tree (p : parser) :
  textsJoined p ->
  Forall (joined (textTokenValues (collectedTokens p)))
         (textValues (tree p)).
Proof.
  intros (_ & F). unfold tree. destruct (path p) as [|f rest].
  - constructor.
  - inversion F as [|? ? (T & C) Fr]; subst.
    apply textValues_plug; [|exact Fr].
    unfold close. cbn [textValues]. rewrite T. exact C.
Qed.

Lemma textsJoined_next (fuel : nat) (p p' : parser) :
  Forall (fun f =>
            streq (fTyp f) nodeText = false /\
            Forall (joined (textTokenValues (collectedTokens p)))
                   (flat_map textValues (fChildren f)))
         (path p) ->
  parser_nextToken fuel p = Ok p' -> textsJoined p'.
Proof.
  intros F H. unfold parser_nextToken in H. bind_inv H as r K.
  inv_ok H. unfold textsJoined, cur.
  cbn [lexer_ collectedTokens path set_collectedTokens set_lexer].
  split.
  - apply in_or_app. right. left. reflexivity.
  - eapply Forall_impl; [|exact F]. intros f (T & C).
    split; [exact T|]. eapply Forall_impl; [|exact C].
    intros v. apply joined_incl. rewrite textTokenValues_app.
    apply incl_appl, incl_refl.
Qed.

Lemma textsJoined_add (p p' : parser) (typ val : gostring) :
  textsJoined p -> streq typ nodeText = false ->
  addNewNode p typ val = Ok p' -> textsJoined p'.
Proof.
  intros (C & F) T H. unfold addNewNode in H.
  destruct (isNil p); [discriminate|]. inv_ok H.
  split; [exact C|]. cbn. constructor; [|exact F].
  split; [exact T | constructor].
Qed.

Lemma textsJoined_return (p p' : parser) :
  textsJoined p -> returnNode p = Ok p' -> textsJoined p'.
Proof.
  intros (C & F) H. unfold returnNode in H.
  destruct (isNil p); [discriminate|].
  destruct (path p) as [|f [|g rest]] eqn:P; [discriminate| |];
    inv_ok H; (split; [exact C|]); cbn.
  - rewrite P. exact F.
  - inversion F as [|? ? (Tf & Cf) F']; subst.
    inversion F' as [|? ? (Tg & Cg) Fr]; subst.
    constructor; [|exact Fr]. split; [exact Tg|].
    cbn [addChild fChildren]. rewrite flat_map_app. apply Forall_app.
    split; [exact Cg|]. cbn [flat_map close textValues].
    rewrite Tf, app_nil_r. exact Cf.
Qed.

Lemma last_Text_split (cs : list Node) :
  streq (NodeTyp (last cs noNode)) nodeText = true ->
  exists cs0 t v c,
    cs = cs0 ++ [mkNode t v c] /\ streq t nodeText = true.
Proof.
  intros H. destruct cs as [|a cs]; [discriminate|].
  assert (a :: cs <> []) as N by discriminate.
  destruct (exists_last N) as (cs0 & [t v c] & E).
  rewrite E, last_snoc in H. exists cs0, t, v, c. split; assumption.
Qed.

Lemma textsJoined_text (p p' : parser) :
  textsJoined p -> Typ (cur p) = typeText ->
  parseText p = Ok p' -> textsJoined p'.
Proof.
  intros (C & F) T H.
  pose proof (textTokenValues_In _ _ C T) as V.
  unfold parseText, previousSibling in H.
  destruct (isNil p) eqn:Nil; [discriminate|].
  destruct (path p) as [|f rest] eqn:P; [discriminate|]. cbn [bind] in H.
  inversion F as [|? ? (Tf & Cf) Fr]; subst.
  fold noNode in H.
  destruct (streq (NodeTyp (last (fChildren f) noNode)) nodeText) eqn:L.
  - inv_ok H. split; [exact C|].
    cbn [path set_path collectedTokens]. constructor; [|exact Fr].
    cbn [fTyp fChildren]. split; [exact Tf|].
    destruct (last_Text_split _ L) as (cs0 & t & v & c & E & Tt).
    rewrite E in Cf |- *. rewrite appendToLastVal_snoc.
    rewrite flat_map_app in Cf |- *. apply Forall_app in Cf.
    destruct Cf as [C0 C1]. apply Forall_app. split; [exact C0|].
    cbn [flat_map textValues] in C1 |- *. rewrite Tt in C1 |- *.
    cbn [app] in C1 |- *. inversion C1 as [|? ? Jv Jc]; subst.
    constructor; [|exact Jc]. apply joined_more; assumption.
  - unfold addNewNode, returnNode in H. rewrite Nil in H. simpl in H.
    rewrite Nil, P in H. inv_ok H. split; [exact C|].
    cbn [path set_path collectedTokens]. constructor; [|exact Fr].
    cbn [addChild close fTyp fVal fChildren]. split; [exact Tf|].
    rewrite flat_map_app. apply Forall_app. split; [exact Cf|].
    cbn [flat_map textValues]. change (streq nodeText nodeText) with true.
    cbn [app]. constructor; [|constructor]. apply joined_one. exact V.
Qed.

Lemma parseGlobal_textsJoined (fuel : nat) (s : gostring) (p : parser) :
  parseGlobal fuel (newParser s) = Ok p -> textsJoined p.
Proof.
  apply (parseGlobal_inv textsJoined).
  - intros f q q' (C & F). apply textsJoined_next. exact F.
  - exact textsJoined_add.
  - exact textsJoined_return.
  - exact textsJoined_text.
  - intros q d J. exact J.
  - intros p1 K. eapply textsJoined_next; [|exact K].
    cbn. constructor; [|constructor]. split; [reflexivity | constructor].
Qed.

(** *** Brackets outside a tag *)

(** C10. In rich text an OpeningSquare token (the one after a Tag token
    is taken by [parseTag] and does not come here), and a ClosingSquare
    token while [tagDepth] is zero, have [parseRichText] do nothing but
    advance to the next token, which changes neither the open nodes nor
    [tagDepth]: no node, no Error. In every tree [Parse] returns, the value
    of each Text node is the value of a Text token, or of several joined
    by single spaces: nothing of a bracket token is in it. So
    [the [quick] fox] is a paragraph with the single text
    [the quick fox]. (A bracket that is the first token of a block finds
    the Paragraph of the block opened by [parseGlobal], as any token
    does: [[] alone leaves that paragraph empty.) *)
Theorem stray_brackets_are_discarded :
  (forall fuel p,
     Typ (cur p) = typeOpeningSquare ->
     parseRichText (S fuel) p =
     (q <- parser_nextToken fuel p ;; parseRichText fuel q)) /\
  (forall fuel p,
     Typ (cur p) = typeClosingSquare -> tagDepth p = 0 ->
     parseRichText (S fuel) p =
     (q <- parser_nextToken fuel p ;; parseRichText fuel q)) /\
  (forall fuel p q,
     parser_nextToken fuel p = Ok q ->
     path q = path p /\ isNil q = isNil p /\ tagDepth q = tagDepth p) /\
  (forall fuel s t,
     Parse fuel s = Ok t ->
     exists p,
       parseGlobal fuel (newParser s) = Ok p /\ t = tree p /\
       Forall (joined (textTokenValues (collectedTokens p)))
              (textValues t)) /\
  (forall fuel,
     Parse (32 + fuel) (str "the [quick] fox") =
     Ok (mkNode nodeRoot []
           [mkNode nodeParagraph []
              [mkNode nodeText (str "the quick fox") []]])) /\
  (forall fuel,
     Parse (32 + fuel) (str "[") =
     Ok (mkNode nodeRoot [] [mkNode nodeParagraph [] []])).
Proof.
  split; [|split; [|split; [|split]]].
  - intros fuel p T. cbn [parseRichText]. unfold isOneOf. rewrite T.
    reflexivity.
  - intros fuel p T D. cbn [parseRichText]. unfold isOneOf. rewrite T, D.
    reflexivity.
  - exact parser_nextToken_path.
  - intros fuel s t H. unfold Parse in H. bind_inv H as p K. inv_ok H.
    exists p. split; [exact K|]. split; [reflexivity|].
    apply textsJoined_tree. eapply parseGlobal_textsJoined. exact K.
  - split; intros fuel; vm_compute; reflexivity.
Qed.

(** *** Lists *)

(** C5. The depth of a bullet is its indent divided by 2, rounded down.
    After an item of depth [d], on a bullet of greater depth [parseList]
    opens a List node that becomes a child of the current List, after
    the item just closed; on a bullet of smaller depth the current List
    is closed and the function returns to the list above; on a bullet of
    the same depth the loop goes on in the current List. Bullets of
    indent 0, 2 and 0 give a List of an item, a nested List of one item,
    and an item. *)
Theorem list_nesting_by_depth :
  (forall t, 0 <= indent t ->
     getListItemDepth t = indent t / 2 /\
     2 * getListItemDepth t <= indent t < 2 * getListItemDepth t + 2) /\
  (forall fuel p p1 p2 L rest,
     isNil p = false -> path p = L :: rest ->
     isOneOf p [typeBulletpoint] = true ->
     parser_nextToken fuel p = Ok p1 -> parseListItem fuel p1 = Ok p2 ->
     let d := getListItemDepth (cur p) in
     let q := set_tagDepth p2 0 in
     isOneOf q [typeBulletpoint] = true ->
     (exists item,
        path q = addChild L (mkNode nodeListItem [] item) :: rest) /\
     (d < getListItemDepth (cur q) ->
      parseListLoop (S fuel) p =
      (p3 <- parseList fuel (getListItemDepth (cur q)) q ;;
       if isOneOf p3 [typeBulletpoint] && (getListItemDepth (cur p3) <? d)
       then returnNode p3
       else parseListLoop fuel p3) /\
      forall p3 L' rest',
        path q = L' :: rest' ->
        parseList fuel (getListItemDepth (cur q)) q = Ok p3 ->
        appended nodeList [] L' rest' p3) /\
     (getListItemDepth (cur q) < d ->
      parseListLoop (S fuel) p = returnNode q) /\
     (getListItemDepth (cur q) = d ->
      parseListLoop (S fuel) p = parseListLoop fuel q)) /\
  (forall fuel,
     collectTokens (32 + fuel)
       (str "- a" ++ nl ++ str "  - b" ++ nl ++ str "- c")
     = Ok [mkTok typeBulletpoint (str "-") 1 0 0;
           mkTok typeText (str "a") 1 2 0;
           mkTok typeBulletpoint (str "-") 2 6 2;
           mkTok typeText (str "b") 2 8 0;
           mkTok typeBulletpoint (str "-") 3 10 0;
           mkTok typeText (str "c") 3 12 0;
           mkTok typeEOF [] 3 13 0]) /\
  (forall fuel,
     Parse (32 + fuel) (str "- a" ++ nl ++ str "  - b" ++ nl ++ str "- c") =
     Ok (mkNode nodeRoot []
           [mkNode nodeList []
              [mkNode nodeListItem [] [mkNode nodeText (str "a") []];
               mkNode nodeList []
                 [mkNode nodeListItem [] [mkNode nodeText (str "b") []]];
               mkNode nodeListItem [] [mkNode nodeText (str "c") []]]])).
Proof.
  split; [|split; [|split; intros fuel; vm_compute; reflexivity]].
  - intros t I. unfold getListItemDepth, INDENT_WIDTH.
    rewrite Z.quot_div_nonneg by lia. split; [reflexivity|].
    pose proof (Z.div_mod (indent t) 2 ltac:(lia)).
    pose proof (Z.mod_pos_bound (indent t) 2 ltac:(lia)). lia.
  - intros fuel p p1 p2 L rest N P B K1 K2 d q Bq.
    pose proof (parser_nextToken_path _ _ _ K1) as (E1 & E2 & _).
    rewrite P in E1. assert (isNil p1 = false) as N1 by congruence.
    pose proof (wrapped_appended _ _ _ _ _ _ _ N1 E1 K2) as (N2 & cs & P2).
    split; [exists cs; exact P2|].
    assert (parseListLoop (S fuel) p =
            (p3 <- (if isOneOf q [typeBulletpoint] &&
                       (d <? getListItemDepth (cur q))
                    then parseList fuel (getListItemDepth (cur q)) q
                    else Ok q) ;;
             if isOneOf p3 [typeBulletpoint] &&
                (getListItemDepth (cur p3) <? d)
             then returnNode p3
             else parseListLoop fuel p3)) as E.
    { cbn [parseListLoop]. rewrite B, K1. cbn [bind]. rewrite K2.
      reflexivity. }
    rewrite E, Bq. cbn [andb]. split; [|split].
    + intros D. apply Z.ltb_lt in D. rewrite D. split; [reflexivity|].
      intros p3 L' rest' P' K3.
      destruct (parseList_appended fuel (getListItemDepth (cur q)) q p3 N2)
        as [R _].
      apply (R _ _ P'); [|exact K3].
      rewrite Z.ltb_irrefl. apply andb_false_r.
    + intros D. assert ((d <? getListItemDepth (cur q)) = false) as D1
          by (apply Z.ltb_ge; lia).
      rewrite D1. cbn [bind]. rewrite Bq. apply Z.ltb_lt in D. rewrite D.
      reflexivity.
    + intros D. rewrite D. rewrite Z.ltb_irrefl. cbn [bind].
      rewrite Bq, D, Z.ltb_irrefl. reflexivity.
Qed.

(** *** Runs of white space *)

Lemma first_ascii (z : Z) : z < 0x80 -> utf8.first z = None.
Proof.
  intros H. unfold utf8.first.
  destruct (z <? 0xC2) eqn:E; [reflexivity|]. apply Z.ltb_ge in E. lia.
Qed.

Lemma decode_ascii (b : byte) (t : gostring) :
  b2z b < 0x80 -> utf8.DecodeRuneInString (b :: t) = (b2z b, 1).
Proof.
  intros H. unfold utf8.DecodeRuneInString.
  rewrite (first_ascii _ H). unfold utf8.RuneSelf.
  destruct (b2z b <? 0x80) eqn:E; [reflexivity|]. apply Z.ltb_ge in E. lia.
Qed.

Lemma decodeLast_ascii (s : gostring) (b : byte) :
  b2z b < 0x80 -> utf8.DecodeLastRuneInString (s ++ [b]) = (b2z b, 1).
Proof.
  intros H. unfold utf8.DecodeLastRuneInString, len.
  rewrite length_app. simpl List.length.
  destruct (Z.of_nat (List.length s + 1) =? 0) eqn:E;
    [apply Z.eqb_eq in E; lia|].
  replace (Z.to_nat (Z.of_nat (List.length s + 1) - 1))
    with (List.length s) by lia.
  rewrite app_nth2 by lia. rewrite Nat.sub_diag. simpl nth.
  unfold utf8.RuneSelf.
  destruct (b2z b <? 0x80) eqn:E'; [reflexivity|]. apply Z.ltb_ge in E'. lia.
Qed.

Lemma asciiSpace_IsSpace (b : byte) :
  asciiSpace b = true -> b2z b < 0x80 /\ unicode.IsSpace (b2z b) = true.
Proof.
  unfold asciiSpace, unicode.IsSpace, unicode.MaxLatin1. cbv zeta.
  intros H. apply orb_true_iff in H.
  assert (0x09 <= b2z b <= 0x0D \/ b2z b = 0x20) as R.
  { destruct H as [H | H].
    - apply andb_true_iff in H. destruct H as [H1 H2].
      apply Z.leb_le in H1, H2. left; lia.
    - apply Z.eqb_eq in H. right; exact H. }
  split; [lia|].
  replace ((0 <=? b2z b) && (b2z b <=? 255)) with true
    by (symmetry; apply andb_true_iff; split; apply Z.leb_le; lia).
  destruct R as [R | R].
  - replace ((9 <=? b2z b) && (b2z b <=? 13)) with true
      by (symmetry; apply andb_true_iff; split; apply Z.leb_le; lia).
    reflexivity.
  - rewrite R. reflexivity.
Qed.

Lemma len_app (a b : gostring) : len (a ++ b) = len a + len b.
Proof. unfold len. rewrite length_app. lia. Qed.

Lemma len_nonneg (a : gostring) : 0 <= len a.
Proof. unfold len. lia. Qed.

Lemma len_cons (x : byte) (a : gostring) : len (x :: a) = 1 + len a.
Proof. unfold len. simpl List.length. lia. Qed.

Lemma sliceFrom_app (a b : gostring) : sliceFrom (a ++ b) (len a) = Ok b.
Proof.
  unfold sliceFrom. rewrite len_app.
  pose proof (len_nonneg a). pose proof (len_nonneg b).
  replace (0 <=? len a) with true by (symmetry; apply Z.leb_le; lia).
  replace (len a <=? len a + len b) with true
    by (symmetry; apply Z.leb_le; lia).
  simpl. unfold len. rewrite Nat2Z.id.
  rewrite skipn_app, Nat.sub_diag, skipn_all. reflexivity.
Qed.

Lemma sliceTo_app (a b : gostring) : sliceTo (a ++ b) (len a) = Ok a.
Proof.
  unfold sliceTo. rewrite len_app.
  pose proof (len_nonneg a). pose proof (len_nonneg b).
  replace (0 <=? len a) with true by (symmetry; apply Z.leb_le; lia).
  replace (len a <=? len a + len b) with true
    by (symmetry; apply Z.leb_le; lia).
  simpl. unfold len. rewrite Nat2Z.id.
  rewrite firstn_app, Nat.sub_diag, firstn_all. simpl.
  rewrite app_nil_r. reflexivity.
Qed.

Lemma peek_app (l : lexer) (a b : gostring) :
  input l = a ++ b -> pos l = len a ->
  peek l = Ok (match b with
               | [] => eof
               | _ :: _ => fst (utf8.DecodeRuneInString b)
               end).
Proof.
  intros I P. unfold peek. rewrite I, P, len_app.
  destruct b as [|x b].
  - replace (len a =? len a + len []) with true
      by (symmetry; apply Z.eqb_eq; unfold len; simpl; lia).
    reflexivity.
  - replace (len a =? len a + len (x :: b)) with false
      by (symmetry; apply Z.eqb_neq; rewrite len_cons;
          pose proof (len_nonneg b); lia).
    rewrite sliceFrom_app. reflexivity.
Qed.

Lemma peek_nonSpace (l : lexer) (a b : gostring) :
  input l = a ++ b -> pos l = len a -> nonSpaceStart b ->
  exists c, peek l = Ok c /\ unicode.IsSpace c = false.
Proof.
  intros I P N. rewrite (peek_app l a b I P). destruct b.
  - exists eof. split; reflexivity.
  - eexists. split; [reflexivity | exact N].
Qed.

Lemma newlines_cons (w : byte) (ws : gostring) :
  newlines (w :: ws) = (if isNewline w then 1 else 0) + newlines ws.
Proof.
  unfold newlines. simpl. destruct (isNewline w); simpl List.length; lia.
Qed.

Lemma newlines_nonneg (ws : gostring) : 0 <= newlines ws.
Proof. unfold newlines. lia. Qed.

(** [next] on an ASCII byte at the current position. *)
Lemma next_ascii (fuel : nat) (l : lexer) (pre post : gostring) (b : byte) :
  input l = pre ++ b :: post -> pos l = len pre -> b2z b < 0x80 ->
  next (S fuel) l =
  skipSpace fuel
    (addToTag
       (set_char
          (if b2z b =? charNewline
           then set_skippedSpace
                  (set_line (set_pos l (len pre + 1)) (line l + 1)) 0
           else set_pos l (len pre + 1))
          (b2z b))).
Proof.
  intros I P A. cbn [next]. rewrite I, P, len_app, len_cons.
  pose proof (len_nonneg pre). pose proof (len_nonneg post).
  replace (len pre + (1 + len post) <=? len pre) with false
    by (symmetry; apply Z.leb_gt; lia).
  replace (len pre + (1 + len post) =? 0) with false
    by (symmetry; apply Z.eqb_neq; lia).
  cbn [orb]. rewrite sliceFrom_app. cbn [bind].
  rewrite (decode_ascii _ _ A). rewrite <- P. reflexivity.
Qed.

Lemma last_default {A : Type} (l : list A) :
  forall x d d', last (x :: l) d = last (x :: l) d'.
Proof.
  induction l as [|y l IH]; intros x d d'; [reflexivity|].
  change (last (y :: l) d = last (y :: l) d'). apply IH.
Qed.

Lemma skipSpace_run (ws : gostring) :
  forall (w : byte) (pre post : gostring) (l : lexer) (fuel : nat),
    Forall (fun b => asciiSpace b = true) (w :: ws) ->
    nonSpaceStart post ->
    input l = pre ++ (w :: ws) ++ post ->
    pos l = len pre + 1 -> char l = b2z w ->
    0 <= skippedNewlines l ->
    (2 * List.length ws + 1 <= fuel)%nat ->
    exists l', skipSpace fuel l = Ok l' /\ passedRun pre w ws post l l'.
Proof.
  induction ws as [|w2 ws IH]; intros w pre post l fuel F NS I P C SN Fu.
  - (* the last character of the run *)
    destruct fuel as [|fuel]; [simpl in Fu; lia|]. clear Fu.
    inversion F as [|? ? Fw _]; subst.
    destruct (asciiSpace_IsSpace w Fw) as [Aw Sw].
    assert (input l = (pre ++ [w]) ++ post) as I'
        by (rewrite I, <- app_assoc; reflexivity).
    assert (pos l = len (pre ++ [w])) as P'
        by (rewrite len_app, P; reflexivity).
    destruct (peek_nonSpace l _ _ I' P' NS) as (c & Pk & Sc).
    assert (sliceTo (input l) (pos l - 1) = Ok pre) as ST.
    { rewrite I, P. replace (len pre + 1 - 1) with (len pre) by lia.
      apply sliceTo_app. }
    assert (sliceFrom (input l) (pos l) = Ok post) as SF.
    { rewrite I', P'. apply sliceFrom_app. }
    cbn [skipSpace]. rewrite C, Sw, Pk. cbn [bind]. rewrite Sc.
    destruct (0 <? skippedNewlines l) eqn:K; cbn [andb].
    + apply Z.ltb_lt in K. unfold passedRun.
      cbn [removelast last]. rewrite newlines_cons.
      change (newlines []) with 0. change (len []) with 0.
      unfold isNewline. rewrite !Z.add_0_r.
      destruct (b2z w =? charNewline) eqn:Nw;
        cbn [input pos set_skippedNewlines]; rewrite ST, SF; cbn [bind];
        (eexists; split; [reflexivity|]);
        (split; [unfold same; simpl; repeat split; auto;
                 rewrite I, !length_app; simpl; lia|]);
        (split; [simpl; lia|]); simpl;
        (split; [intros _; repeat split; auto; lia | intros K0; lia]).
    + apply Z.ltb_ge in K. assert (skippedNewlines l = 0) as K0 by lia.
      eexists. split; [reflexivity|].
      unfold passedRun. cbn [removelast last].
      change (newlines []) with 0. change (len []) with 0.
      rewrite !Z.add_0_r.
      split; [unfold same; simpl; auto|]. split; [simpl; lia|].
      split; [intros; lia|]. intros _. simpl. auto.
  - (* a character of the run that another one follows *)
    destruct fuel as [|[|fuel]]; [simpl in Fu; lia|simpl in Fu; lia|].
    inversion F as [|? ? Fw F2]; subst.
    inversion F2 as [|? ? Fw2 _]; subst.
    destruct (asciiSpace_IsSpace w Fw) as [Aw Sw].
    destruct (asciiSpace_IsSpace w2 Fw2) as [Aw2 Sw2].
    assert (input l = (pre ++ [w]) ++ w2 :: ws ++ post) as I'
        by (rewrite I, <- app_assoc; reflexivity).
    assert (pos l = len (pre ++ [w])) as P'
        by (rewrite len_app, P; reflexivity).
    pose proof (peek_app l _ _ I' P') as Pk.
    rewrite (decode_ascii _ _ Aw2) in Pk. cbn [fst] in Pk.
    cbn [skipSpace]. rewrite C, Sw, Pk. cbn [bind]. rewrite Sw2.
    change (char (set_skippedSpace l (skippedSpace l + 1))) with (char l).
    rewrite C.
    set (l2 := if b2z w =? charNewline
               then set_skippedNewlines
                      (set_skippedSpace l (skippedSpace l + 1))
                      (skippedNewlines
                         (set_skippedSpace l (skippedSpace l + 1)) + 1)
               else set_skippedSpace l (skippedSpace l + 1)).
    assert (input l2 = input l /\ pos l2 = pos l /\ same l l2 /\
            skippedNewlines l2 =
            skippedNewlines l + (if isNewline w then 1 else 0)) as E2.
    { unfold l2, isNewline. destruct (b2z w =? charNewline);
        unfold same; simpl; repeat split; auto; lia. }
    destruct E2 as (I2 & P2 & S2 & N2).
    rewrite <- I2 in I'. rewrite <- P2 in P'.
    rewrite (next_ascii fuel l2 _ _ _ I' P' Aw2).
    match goal with
    | |- exists l', skipSpace fuel ?x = Ok l' /\ _ => set (l3 := x)
    end.
    assert (input l3 = input l /\ pos l3 = len (pre ++ [w]) + 1 /\
            char l3 = b2z w2 /\ same l2 l3 /\
            skippedNewlines l3 = skippedNewlines l2) as E3.
    { unfold l3.
      match goal with
      | |- context [addToTag ?x] =>
        destruct (addToTag_fields x) as (A1 & A2 & A3 & A4 & _);
          pose proof (addToTag_same x) as A5
      end.
      rewrite A1, A2, A3, A4.
      split; [destruct (b2z w2 =? charNewline); simpl; congruence|].
      split; [destruct (b2z w2 =? charNewline); reflexivity|].
      split; [reflexivity|].
      split; [|destruct (b2z w2 =? charNewline); reflexivity].
      eapply same_trans; [|exact A5].
      destruct (b2z w2 =? charNewline); unfold same; simpl; auto. }
    destruct E3 as (I3 & P3 & C3 & S3 & N3).
    assert (input l3 = (pre ++ [w]) ++ (w2 :: ws) ++ post) as I3'
        by (rewrite I3, I, <- app_assoc; reflexivity).
    assert (0 <= skippedNewlines l3) as SN3
        by (rewrite N3, N2; destruct (isNewline w); lia).
    assert (2 * List.length ws + 1 <= fuel)%nat as Fu3
        by (simpl in Fu; lia).
    destruct (IH w2 (pre ++ [w]) post l3 fuel F2 NS I3' P3 C3 SN3 Fu3)
      as (l' & R & S' & Pl & Hk & H0).
    exists l'. split; [exact R|].
    unfold passedRun.
    change (removelast (w :: w2 :: ws)) with (w :: removelast (w2 :: ws)).
    change (last (w :: w2 :: ws) w) with (last (w2 :: ws) w).
    rewrite (newlines_cons w (removelast (w2 :: ws))).
    rewrite (newlines_cons w (w2 :: ws)).
    rewrite N3, N2 in Hk, H0.
    split; [eapply same_trans; [exact S2|];
            eapply same_trans; [exact S3 | exact S']|].
    split; [rewrite Pl, len_app, !len_cons; change (len []) with 0; lia|].
    split.
    + intros K. destruct Hk as (Hi & Hc & Hn); [lia|].
      split; [rewrite Hi, <- app_assoc; reflexivity|].
      split; [exact Hc | lia].
    + intros K. destruct H0 as (Hi & Hc & Hn); [lia|].
      split; [congruence|]. split; [|exact Hn].
      rewrite Hc. f_equal. apply last_default.
Qed.

Lemma next_run (w : byte) (ws pre post : gostring) (l : lexer)
      (fuel : nat) :
  Forall (fun b => asciiSpace b = true) (w :: ws) ->
  nonSpaceStart post ->
  input l = pre ++ (w :: ws) ++ post -> pos l = len pre ->
  0 <= skippedNewlines l ->
  (2 * List.length ws + 2 <= fuel)%nat ->
  exists l', next fuel l = Ok l' /\ passedRun pre w ws post l l'.
Proof.
  intros F NS I P SN Fu.
  destruct fuel as [|fuel]; [lia|].
  inversion F as [|? ? Fw _]; subst.
  destruct (asciiSpace_IsSpace w Fw) as [Aw _].
  rewrite (next_ascii fuel l pre (ws ++ post) w I P Aw).
  match goal with
  | |- exists l', skipSpace fuel ?x = Ok l' /\ _ => set (l1 := x)
  end.
  assert (input l1 = input l /\ pos l1 = len pre + 1 /\
          char l1 = b2z w /\ same l l1 /\
          skippedNewlines l1 = skippedNewlines l) as E.
  { unfold l1.
    match goal with
    | |- context [addToTag ?x] =>
      destruct (addToTag_fields x) as (A1 & A2 & A3 & A4 & _);
        pose proof (addToTag_same x) as A5
    end.
    rewrite A1, A2, A3, A4.
    split; [destruct (b2z w =? charNewline); reflexivity|].
    split; [destruct (b2z w =? charNewline); reflexivity|].
    split; [reflexivity|].
    split; [|destruct (b2z w =? charNewline); reflexivity].
    eapply same_trans; [|exact A5].
    destruct (b2z w =? charNewline); unfold same; simpl; auto. }
  destruct E as (I1 & P1 & C1 & S1 & N1).
  assert (input l1 = pre ++ (w :: ws) ++ post) as I1' by congruence.
  assert (0 <= skippedNewlines l1) as SN1 by lia.
  assert (2 * List.length ws + 1 <= fuel)%nat as Fu1 by lia.
  destruct (skipSpace_run ws w pre post l1 fuel F NS I1' P1 C1 SN1 Fu1)
    as (l' & R & S' & Pl & Hk & H0).
  exists l'. split; [exact R|]. unfold passedRun.
  rewrite N1 in Hk, H0. rewrite I1 in H0.
  split; [eapply same_trans; eauto|]. split; [exact Pl|].
  split; assumption.
Qed.

(** *** The bytes of the buffer *)

Lemma rewritten_refl (s : gostring) : rewritten s s.
Proof. split; [reflexivity | intros i; left; reflexivity]. Qed.

Lemma rewritten_trans (a b c : gostring) :
  rewritten a b -> rewritten b c -> rewritten a c.
Proof.
  intros (L1 & N1) (L2 & N2). split; [congruence|].
  intros i. destruct (N2 i) as [E | E]; [|right; exact E].
  rewrite E. apply N1.
Qed.

Lemma rewritten_one (s before after : gostring) (p : Z) :
  sliceTo s (p - 1) = Ok before -> sliceFrom s p = Ok after ->
  rewritten s (before ++ [z2b charNewline] ++ after).
Proof.
  intros H1 H2. split; [eapply rewrite_length; eauto|].
  apply sliceTo_Ok in H1. apply sliceFrom_Ok in H2.
  destruct H1 as [B1 ->], H2 as [B2 ->]. unfold len in *.
  set (k := Z.to_nat (p - 1)).
  replace (Z.to_nat p) with (S k) by (unfold k; lia).
  assert (k < List.length s)%nat as K by (unfold k; lia).
  intros i. destruct (Nat.lt_trichotomy i k) as [L | [E | G]].
  - left. rewrite app_nth1 by (rewrite length_firstn; lia).
    rewrite nth_firstn. apply Nat.ltb_lt in L. rewrite L. reflexivity.
  - right. subst i. rewrite app_nth2 by (rewrite length_firstn; lia).
    rewrite length_firstn.
    replace (k - Nat.min k (List.length s))%nat with O by lia.
    reflexivity.
  - left. rewrite app_nth2 by (rewrite length_firstn; lia).
    rewrite length_firstn.
    replace (i - Nat.min k (List.length s))%nat with (S (i - S k)) by lia.
    cbn [app nth]. rewrite nth_skipn. f_equal. lia.
Qed.

Lemma addToTag_input (l : lexer) : input (addToTag l) = input l.
Proof. apply addToTag_fields. Qed.

Lemma next_skipSpace_rewritten (fuel : nat) :
  forall l l',
    (next fuel l = Ok l' -> rewritten (input l) (input l')) /\
    (skipSpace fuel l = Ok l' -> rewritten (input l) (input l')).
Proof.
  induction fuel as [|fuel IH]; intros l l'; split; simpl;
    try discriminate.
  - destruct (_ || _).
    + intros H; inv_ok H. apply rewritten_refl.
    + intros H. inv_bind H.
      destruct (utf8.DecodeRuneInString x) as [c w].
      apply (IH _ l') in H. rewrite addToTag_input in H.
      destruct (c =? charNewline); exact H.
  - intros H. inv_bind H. destruct x.
    + apply (IH _ l') in H.
      destruct (char l =? charNewline); exact H.
    + destruct (_ && _).
      * destruct (char l =? charNewline); simpl in H;
          inv_bind H; inv_bind H; inv_ok H; simpl;
          eapply rewritten_one; eauto.
      * inv_ok H. apply rewritten_refl.
Qed.

Lemma next_rewritten (fuel : nat) (l l' : lexer) :
  next fuel l = Ok l' -> rewritten (input l) (input l').
Proof. apply next_skipSpace_rewritten. Qed.

Lemma nextN_rewritten (fuel n : nat) :
  forall l l', nextN fuel n l = Ok l' -> rewritten (input l) (input l').
Proof.
  induction n as [|n IH]; simpl; intros l l' H.
  - inv_ok H. apply rewritten_refl.
  - inv_bind H. eapply rewritten_trans; [eapply next_rewritten; eauto|].
    eauto.
Qed.

Lemma backup_input (l l' : lexer) : backup l = Ok l' -> input l' = input l.
Proof.
  unfold backup. destruct (pos l =? 0).
  - intros H; inv_ok H. reflexivity.
  - intros H. inv_bind H.
    destruct (utf8.DecodeLastRuneInString x) as [c w]. inv_ok H.
    destruct (char l =? charNewline); reflexivity.
Qed.

Lemma backupN_input (n : nat) :
  forall l l', backupN n l = Ok l' -> input l' = input l.
Proof.
  induction n as [|n IH]; simpl; intros l l' H.
  - inv_ok H. reflexivity.
  - inv_bind H. apply IH in H. apply backup_input in H0. congruence.
Qed.

Lemma trimTrailingSpace_input (l l' : lexer) :
  trimTrailingSpace l = Ok l' -> input l' = input l.
Proof.
  unfold trimTrailingSpace. intros H. split_if H; [inv_ok H; reflexivity|].
  inv_bind H. split_if H; [inv_bind H|]; inv_ok H; reflexivity.
Qed.

Lemma truncateToken_input (l l' : lexer) (n : Z) :
  truncateToken l n = Ok l' -> input l' = input l.
Proof. unfold truncateToken. intros H. inv_bind H. inv_ok H. reflexivity. Qed.

(** Turns what is known about the steps of a lex function into facts
    about the buffers, and chains them. *)
Ltac buffer_facts :=
  repeat match goal with
         | H : next _ _ = Ok _ |- _ => apply next_rewritten in H
         | H : nextN _ _ _ = Ok _ |- _ => apply nextN_rewritten in H
         | H : backup _ = Ok _ |- _ => apply backup_input in H
         | H : backupN _ _ = Ok _ |- _ => apply backupN_input in H
         | H : trimTrailingSpace _ = Ok _ |- _ =>
           apply trimTrailingSpace_input in H
         | H : truncateToken _ _ = Ok _ |- _ =>
           apply truncateToken_input in H
         end;
  simpl in *;
  repeat match goal with
         | H : input ?a = input ?b |- _ => rewrite H in *; clear H
         end;
  repeat match goal with
         | H : rewritten ?a ?b |- rewritten ?a _ =>
           apply (rewritten_trans a b); [exact H|]; clear H
         end;
  try apply rewritten_refl; try assumption.

Lemma lexTextLoop_rewritten (fuel : nat) :
  forall l l', lexTextLoop fuel l = Ok l' ->
    rewritten (input l) (input l').
Proof.
  induction fuel as [|fuel IH]; simpl; intros l l' H; try discriminate.
  bind_inv H as l1 N. split_if H.
  { bind_inv H as l2 K. inv_ok H. buffer_facts. }
  bind_inv H as esc E. split_if H.
  { apply IH in H. buffer_facts. }
  bind_inv H as b B. split_if H.
  { apply IH in H. buffer_facts. }
  split_if H.
  { bind_inv H as q Q. split_if H; inv_ok H; buffer_facts. }
  split_if H.
  { inv_ok H. buffer_facts. }
  split_if H.
  { apply IH in H. buffer_facts. }
  split_if H.
  { split_if H.
    - bind_inv H as l2 K2. bind_inv H as l3 K3. inv_ok H. buffer_facts.
    - bind_inv H as l2 K2. bind_inv H as l3 K3.
      bind_inv H as l4 K4. bind_inv H as l5 K5. inv_ok H. buffer_facts. }
  split_if H.
  { bind_inv H as l2 K2. bind_inv H as l3 K3. inv_ok H. buffer_facts. }
  split_if H; apply IH in H; buffer_facts.
Qed.

Lemma lexHeadingLoop_rewritten (fuel : nat) :
  forall l l', lexHeadingLoop fuel l = Ok l' ->
    rewritten (input l) (input l').
Proof.
  induction fuel as [|fuel IH]; simpl; intros l l' H; try discriminate.
  bind_inv H as l1 N. split_if H.
  { inv_ok H. buffer_facts. }
  split_if H.
  { bind_inv H as l2 K. inv_ok H. buffer_facts. }
  apply IH in H. buffer_facts.
Qed.

Lemma runLex_rewritten (f : lexFn) (fuel : nat) (l l' : lexer) :
  runLex f fuel l = Ok l' -> rewritten (input l) (input l').
Proof.
  destruct f; simpl; intros H.
  - unfold lexGlobal in H. bind_inv H as l1 N.
    repeat split_if H; try (bind_inv H as l2 K); inv_ok H; buffer_facts.
  - unfold lexText in H. bind_inv H as l1 N.
    apply lexTextLoop_rewritten in N. split_if H; inv_ok H; exact N.
  - unfold lexHeading in H. apply lexHeadingLoop_rewritten in H. exact H.
  - unfold lexTerminator in H. bind_inv H as l1 K1. bind_inv H as l2 K2.
    inv_ok H. buffer_facts.
  - unfold lexTag in H. bind_inv H as l1 K1. inv_ok H. buffer_facts.
  - unfold lexOpeningSquare in H. bind_inv H as l1 K1. inv_ok H.
    buffer_facts.
  - unfold lexClosingSquare in H. bind_inv H as l1 K1. inv_ok H.
    buffer_facts.
  - unfold lexHypen in H. bind_inv H as l1 K1. bind_inv H as l2 K2.
    inv_ok H. split_if K2; [|inv_ok K2]; buffer_facts.
Qed.

Lemma nextToken_rewritten (fuel : nat) :
  forall l l' running, nextToken fuel l = Ok (running, l') ->
    rewritten (input l) (input l').
Proof.
  induction fuel as [|fuel IH]; simpl; intros l l' running H;
    try discriminate.
  destruct (lexNext l) as [f|]; [|inv_ok H; apply rewritten_refl].
  bind_inv H as l1 K. apply runLex_rewritten in K.
  split_if H; [apply IH in H | inv_ok H]; buffer_facts.
Qed.

Lemma steps_rewritten (l0 l : lexer) :
  steps l0 l -> rewritten (input l0) (input l).
Proof.
  induction 1 as [|fuel l l' running S IH H]; [apply rewritten_refl|].
  apply nextToken_rewritten in H. eapply rewritten_trans; eauto.
Qed.

Lemma rewritten_newline (s s' : gostring) (i : nat) :
  rewritten s s' -> nth i s x00 = x0a -> nth i s' x00 = x0a.
Proof. intros (_ & N) E. destruct (N i) as [H | H]; congruence. Qed.

(** C3, as the lexer has it. Lexing never changes the length of the
    buffer, and a byte of the buffer is only ever changed into a newline,
    which then stays: a run of white space is not collapsed in the
    buffer, it is passed over by a single [next]. When the run (of ASCII
    white space, met with no newline counted so far) holds a newline
    before its last character, that last character is rewritten to a
    newline in the buffer, and the newline is the current character;
    otherwise the buffer stays as it is and the current character is the
    last character of the run. *)
Theorem whitespace_runs_are_passed_over :
  (forall s l, steps (lex s) l ->
     List.length (input l) = List.length s /\
     forall i, nth i (input l) x00 = nth i s x00 \/
               nth i (input l) x00 = x0a) /\
  (forall l l' i, steps l l' ->
     nth i (input l) x00 = x0a -> nth i (input l') x00 = x0a) /\
  (forall w ws pre post l fuel,
     Forall (fun b => asciiSpace b = true) (w :: ws) ->
     nonSpaceStart post ->
     input l = pre ++ (w :: ws) ++ post -> pos l = len pre ->
     skippedNewlines l = 0 ->
     (2 * List.length ws + 2 <= fuel)%nat ->
     exists l',
       next fuel l = Ok l' /\
       pos l' = len pre + len (w :: ws) /\
       (0 < newlines (removelast (w :: ws)) ->
        input l' = pre ++ removelast (w :: ws) ++ nl ++ post /\
        char l' = charNewline) /\
       (newlines (removelast (w :: ws)) = 0 ->
        input l' = input l /\ char l' = b2z (last (w :: ws) w))).
Proof.
  split; [|split].
  - intros s l S. exact (steps_rewritten _ _ S).
  - intros l l' i S. apply rewritten_newline. exact (steps_rewritten _ _ S).
  - intros w ws pre post l fuel F NS I P SN Fu.
    assert (0 <= skippedNewlines l) as SN' by lia.
    destruct (next_run w ws pre post l fuel F NS I P SN' Fu)
      as (l' & R & _ & Pl & Hk & H0).
    rewrite SN in Hk, H0. rewrite Z.add_0_l in Hk, H0.
    exists l'. split; [exact R|]. split; [rewrite Pl, len_cons; lia|].
    split.
    + intros K. destruct (Hk K) as (Hi & Hc & _). auto.
    + intros K. destruct (H0 K) as (Hi & Hc & _). auto.
Qed.

(** *** Newlines in running text *)

Lemma Forall_removelast {A : Type} (P : A -> Prop) (l : list A) :
  Forall P l -> Forall P (removelast l).
Proof.
  induction 1 as [|x l Hx Hl IH]; [constructor|].
  destruct l as [|y l]; [constructor|].
  change (Forall P (x :: removelast (y :: l))). constructor; assumption.
Qed.

Lemma newlines_app (a b : gostring) :
  newlines (a ++ b) = newlines a + newlines b.
Proof. unfold newlines. rewrite filter_app, length_app. lia. Qed.

Lemma run_split (w : byte) (ws : gostring) :
  w :: ws = removelast (w :: ws) ++ [last (w :: ws) w].
Proof. apply app_removelast_last. discriminate. Qed.

Lemma run_last_space (w : byte) (ws : gostring) :
  Forall (fun b => asciiSpace b = true) (w :: ws) ->
  asciiSpace (last (w :: ws) w) = true.
Proof.
  intros F. rewrite Forall_forall in F. apply F.
  rewrite (run_split w ws) at 2. apply in_or_app. right. left. reflexivity.
Qed.

(** The buffer and the counters after a run met with no newline counted
    so far. *)
Lemma run_outcome (w : byte) (ws pre post : gostring) (l l' : lexer) :
  Forall (fun b => asciiSpace b = true) (w :: ws) ->
  input l = pre ++ (w :: ws) ++ post -> skippedNewlines l = 0 ->
  passedRun pre w ws post l l' ->
  exists c,
    input l' = (pre ++ removelast (w :: ws)) ++ [c] ++ post /\
    asciiSpace c = true /\ char l' = b2z c /\
    (0 < newlines (w :: ws) -> char l' = charNewline) /\
    ((2 <=? skippedNewlines l') = (2 <=? newlines (w :: ws))).
Proof.
  intros F I SN (_ & _ & Hk & H0). rewrite SN, Z.add_0_l in Hk, H0.
  pose proof (newlines_nonneg (removelast (w :: ws))) as NN.
  pose proof (run_split w ws) as Sp.
  assert (newlines (w :: ws) =
          newlines (removelast (w :: ws)) +
          (if isNewline (last (w :: ws) w) then 1 else 0)) as Cnt.
  { rewrite Sp at 1. rewrite newlines_app, newlines_cons.
    change (newlines []) with 0. lia. }
  destruct (Z.eq_dec (newlines (removelast (w :: ws))) 0) as [K | K].
  - destruct (H0 K) as (Hi & Hc & Hn).
    exists (last (w :: ws) w).
    split; [rewrite Hi, I, Sp at 1; rewrite <- !app_assoc; reflexivity|].
    split; [apply run_last_space; exact F|].
    split; [exact Hc|]. split.
    + intros N. rewrite Hc. unfold isNewline in Cnt.
      destruct (b2z (last (w :: ws) w) =? charNewline) eqn:E;
        [apply Z.eqb_eq in E; exact E | lia].
    + rewrite Hn. destruct (isNewline _) in Cnt;
        symmetry; apply Z.leb_gt; lia.
  - destruct Hk as (Hi & Hc & Hn); [lia|].
    exists x0a.
    split; [rewrite Hi, <- !app_assoc; reflexivity|].
    split; [reflexivity|]. split; [exact Hc|]. split; [auto|].
    rewrite Hn. reflexivity.
Qed.

Lemma decodeLast_after_spaces (pre X : gostring) :
  Forall (fun b => asciiSpace b = true) X -> X <> [] ->
  fst (utf8.DecodeLastRuneInString (pre ++ X)) <> charBackslash.
Proof.
  intros F N. destruct (exists_last N) as (X' & x & ->).
  rewrite app_assoc. apply Forall_app in F. destruct F as [_ F].
  inversion F as [|? ? Fx _]; subst.
  destruct (asciiSpace_IsSpace x Fx) as [A S].
  rewrite (decodeLast_ascii _ _ A). cbn [fst]. intros E. rewrite E in S.
  discriminate.
Qed.

Lemma peekBehind_after (l : lexer) (A post : gostring) (c : byte) :
  input l = A ++ [c] ++ post -> pos l = len A + 1 ->
  b2z c < 0x80 -> b2z c <> charBackslash ->
  fst (utf8.DecodeLastRuneInString A) <> charBackslash ->
  exists b, peekBehind l = Ok b /\ (b =? charBackslash) = false.
Proof.
  intros I P Ac Nc NB. unfold peekBehind. rewrite I, P.
  pose proof (len_nonneg A). pose proof (len_nonneg post).
  replace (len A + 1 =? 0) with false by (symmetry; apply Z.eqb_neq; lia).
  destruct post as [|x post].
  - rewrite !len_app. change (len []) with 0. change (len [c]) with 1.
    replace (len A + 1 =? len A + (1 + 0)) with true
      by (symmetry; apply Z.eqb_eq; lia).
    rewrite app_nil_r, (decodeLast_ascii _ _ Ac). cbn [fst].
    eexists. split; [reflexivity|]. apply Z.eqb_neq. exact Nc.
  - pose proof (len_nonneg post).
    replace (len A + 1 =? len (A ++ [c] ++ x :: post)) with false
      by (symmetry; apply Z.eqb_neq; cbn [app];
          rewrite len_app, !len_cons; lia).
    replace (len A + 1 - 1) with (len A) by lia.
    rewrite sliceTo_app. cbn [bind].
    eexists. split; [reflexivity|]. apply Z.eqb_neq. exact NB.
Qed.

Lemma len_removelast (w : byte) (ws : gostring) :
  len (removelast (w :: ws)) = len ws.
Proof.
  pose proof (f_equal len (run_split w ws)) as E.
  rewrite len_app, len_cons in E. change (len [last (w :: ws) w]) with 1 in E.
  lia.
Qed.

(** One turn of the loop of [lexText] on a run of white space that holds
    a newline, outside a list item. *)
Lemma lexTextLoop_newline (w : byte) (ws pre post : gostring) (l : lexer)
      (fuel : nat) :
  Forall (fun b => asciiSpace b = true) (w :: ws) ->
  nonSpaceStart post ->
  input l = pre ++ (w :: ws) ++ post -> pos l = len pre ->
  skippedNewlines l = 0 ->
  0 < newlines (w :: ws) ->
  fst (utf8.DecodeLastRuneInString pre) <> charBackslash ->
  ctx l <> ctxList ->
  (2 * List.length ws + 2 <= fuel)%nat ->
  exists l1,
    next fuel l = Ok l1 /\ char l1 = charNewline /\
    lexTextLoop (S fuel) l =
    if negb (continuousNewline l) || (2 <=? newlines (w :: ws))
    then Ok (set_lexNext l1 (Some fnTerminator))
    else lexTextLoop fuel (addToToken l1 charSpace).
Proof.
  intros F NS I P SN NL NB CX Fu.
  assert (0 <= skippedNewlines l) as SN' by lia.
  destruct (next_run w ws pre post l fuel F NS I P SN' Fu) as (l1 & R & PR).
  destruct (run_outcome w ws pre post l l1 F I SN PR)
    as (c & I1 & Sc & C1 & Hnl & Hsn).
  destruct PR as ((_ & _ & CN & CX1 & _) & P1 & _).
  specialize (Hnl NL).
  assert (exists b, peekBehind l1 = Ok b /\ (b =? charBackslash) = false)
    as (b & PB & Hb).
  { destruct (asciiSpace_IsSpace c Sc) as [Ac Spc].
    apply (peekBehind_after l1 (pre ++ removelast (w :: ws)) post c I1).
    - rewrite P1, len_app, len_removelast. lia.
    - exact Ac.
    - intros E. rewrite E in Spc. discriminate.
    - destruct ws as [|w2 ws].
      + cbn [removelast]. rewrite app_nil_r. exact NB.
      + apply decodeLast_after_spaces.
        * apply Forall_removelast. exact F.
        * discriminate. }
  exists l1. split; [exact R|]. split; [exact Hnl|].
  cbn [lexTextLoop]. rewrite R. cbn [bind]. rewrite Hnl.
  change (charNewline =? eof) with false.
  change (charNewline =? charBackslash) with false.
  cbn [bind]. rewrite PB. cbn [bind]. rewrite Hb.
  change (charNewline =? charNewline) with true. cbn [andb].
  replace (ctx l1 =? ctxList) with false
    by (symmetry; apply Z.eqb_neq; congruence).
  rewrite CN, Hsn.
  destruct (continuousNewline l); cbn [negb orb];
    destruct (2 <=? newlines (w :: ws)); reflexivity.
Qed.

Lemma lexTerminator_token (fuel : nat) (l l' : lexer) :
  lexTerminator fuel l = Ok l' ->
  Typ (tok l') = typeTerminator /\ lexNext l' = Some fnGlobal.
Proof.
  unfold lexTerminator. intros H. bind_inv H as l1 K1. bind_inv H as l2 K2.
  inv_ok H. apply next_same, same_Typ in K2. simpl in K2. auto.
Qed.

(** C4, as the lexer has it. Outside a list item, when the loop of
    [lexText] meets a run of white space that holds a newline (and is not
    escaped), then, in a text run that started a block on an ordinary
    character, for which [continuousNewline] is set, one space is added
    to the token and the loop goes on with the same token when the run
    holds a single newline, and the text run ends with [lexTerminator]
    as next lex function when it holds two or more; in the text after a
    heading marker, where [continuousNewline] is not set, the text run
    ends with a Terminator on every newline. [lexTerminator] leaves a
    token of type Terminator. *)
Theorem newline_in_running_text :
  (forall w ws pre post l fuel,
     Forall (fun b => asciiSpace b = true) (w :: ws) ->
     nonSpaceStart post ->
     input l = pre ++ (w :: ws) ++ post -> pos l = len pre ->
     skippedNewlines l = 0 ->
     0 < newlines (w :: ws) ->
     fst (utf8.DecodeLastRuneInString pre) <> charBackslash ->
     ctx l <> ctxList ->
     (2 * List.length ws + 2 <= fuel)%nat ->
     exists l1,
       next fuel l = Ok l1 /\ char l1 = charNewline /\
       (continuousNewline l = true -> newlines (w :: ws) < 2 ->
        lexTextLoop (S fuel) l = lexTextLoop fuel (addToToken l1 charSpace)) /\
       (continuousNewline l = true -> 2 <= newlines (w :: ws) ->
        lexTextLoop (S fuel) l = Ok (set_lexNext l1 (Some fnTerminator))) /\
       (continuousNewline l = false ->
        lexTextLoop (S fuel) l = Ok (set_lexNext l1 (Some fnTerminator)))) /\
  (forall fuel l l',
     lexTerminator fuel l = Ok l' ->
     Typ (tok l') = typeTerminator /\ lexNext l' = Some fnGlobal) /\
  (forall fuel,
     collectTokens (32 + fuel) (str "a" ++ nl ++ str "b") =
     Ok [mkTok typeText (str "a b") 1 0 0; mkTok typeEOF [] 2 3 0]) /\
  (forall fuel,
     collectTokens (32 + fuel) (str "a" ++ nl ++ nl ++ str "b") =
     Ok [mkTok typeText (str "a") 1 0 0;
         mkTok typeTerminator nl 2 2 0;
         mkTok typeText (str "b") 3 3 0;
         mkTok typeEOF [] 3 4 0]) /\
  (forall fuel,
     collectTokens (32 + fuel) (str ". h" ++ nl ++ str "p") =
     Ok [mkTok typeHeading (str ".") 1 0 0;
         mkTok typeText (str "h") 1 2 0;
         mkTok typeTerminator nl 1 3 0;
         mkTok typeText (str "p") 2 4 0;
         mkTok typeEOF [] 2 5 0]).
Proof.
  split; [|split; [exact lexTerminator_token|
                   repeat split; intros fuel; vm_compute; reflexivity]].
  intros w ws pre post l fuel F NS I P SN NL NB CX Fu.
  destruct (lexTextLoop_newline w ws pre post l fuel F NS I P SN NL NB CX Fu)
    as (l1 & R & C & E).
  exists l1. split; [exact R|]. split; [exact C|]. rewrite E.
  split; [|split].
  - intros CN N2. rewrite CN. cbn [negb orb].
    replace (2 <=? newlines (w :: ws)) with false
      by (symmetry; apply Z.leb_gt; lia).
    reflexivity.
  - intros CN N2. rewrite CN. cbn [negb orb].
    replace (2 <=? newlines (w :: ws)) with true
      by (symmetry; apply Z.leb_le; lia).
    reflexivity.
  - intros CN. rewrite CN. reflexivity.
Qed.

(** *** Plain text *)

Lemma z2b_b2z (b : byte) : z2b (b2z b) = b.
Proof.
  unfold z2b, b2z. pose proof (Byte.to_N_bounded b) as B.
  rewrite Z.mod_small by lia. rewrite N2Z.id, Byte.of_to_N. reflexivity.
Qed.

Lemma EncodeRune_ascii (b : byte) :
  b2z b < 0x80 -> utf8.EncodeRune (b2z b) = [b].
Proof.
  intros H. unfold utf8.EncodeRune.
  assert (0 <= b2z b) as N by (unfold b2z; lia).
  replace ((0 <=? b2z b) && (b2z b <? 128)) with true
    by (symmetry; apply andb_true_iff; split;
        [apply Z.leb_le | apply Z.ltb_lt]; lia).
  rewrite z2b_b2z. reflexivity.
Qed.

Lemma plainByte_facts (b : byte) :
  plainByte b = true ->
  0x21 <= b2z b <= 0x7E /\ b2z b <> charBackslash /\
  b2z b <> charOpeningSquare /\ b2z b <> charClosingSquare /\
  unicode.IsSpace (b2z b) = false.
Proof.
  unfold plainByte. cbv zeta. intros H.
  repeat (apply andb_true_iff in H; destruct H as [H ?]).
  repeat match goal with
         | E : negb _ = true |- _ =>
           apply negb_true_iff in E; apply Z.eqb_neq in E
         end.
  apply Z.leb_le in H, H3.
  repeat split; try assumption.
  unfold unicode.IsSpace, unicode.MaxLatin1.
  replace ((0 <=? b2z b) && (b2z b <=? 255)) with true
    by (symmetry; apply andb_true_iff; split; apply Z.leb_le; lia).
  repeat (apply orb_false_iff; split);
    try (apply Z.eqb_neq; lia).
  apply andb_false_iff. right. apply Z.leb_gt. lia.
Qed.

Lemma skipSpace_nonspace (fuel : nat) (l : lexer) :
  unicode.IsSpace (char l) = false ->
  skipSpace (S fuel) l = Ok (set_skippedNewlines l 0).
Proof.
  intros H. cbn [skipSpace]. rewrite H. cbn [bind].
  rewrite andb_false_r. reflexivity.
Qed.

(** [next] on an ASCII byte that is no white space. *)
Lemma next_nonspace (fuel : nat) (l : lexer) (pre post : gostring)
      (c : byte) :
  input l = pre ++ c :: post -> pos l = len pre ->
  b2z c < 0x80 -> unicode.IsSpace (b2z c) = false ->
  next (S (S fuel)) l =
  Ok (set_skippedNewlines
        (addToTag (set_char (set_pos l (len pre + 1)) (b2z c))) 0).
Proof.
  intros I P A S. rewrite (next_ascii _ l pre post c I P A).
  assert ((b2z c =? charNewline) = false) as N.
  { apply Z.eqb_neq. intros E. rewrite E in S. discriminate. }
  rewrite N. apply skipSpace_nonspace.
  destruct (addToTag_fields (set_char (set_pos l (len pre + 1)) (b2z c)))
    as (_ & _ & C & _).
  rewrite C. exact S.
Qed.

Lemma next_eof (fuel : nat) (l : lexer) :
  pos l = len (input l) -> next (S fuel) l = Ok (set_char l eof).
Proof.
  intros P. cbn [next]. rewrite P, Z.leb_refl. reflexivity.
Qed.

Lemma backup_ascii (l : lexer) (pre post : gostring) (c : byte) :
  input l = pre ++ c :: post -> pos l = len pre + 1 ->
  b2z c < 0x80 -> char l <> charNewline ->
  backup l = Ok (set_char (set_pos l (len pre)) (b2z c)).
Proof.
  intros I P A N. unfold backup.
  pose proof (len_nonneg pre).
  replace (pos l =? 0) with false
    by (symmetry; apply Z.eqb_neq; lia).
  replace (char l =? charNewline) with false
    by (symmetry; apply Z.eqb_neq; exact N).
  replace (sliceTo (input l) (pos l)) with (Ok (pre ++ [c])).
  - cbn [bind]. rewrite (decodeLast_ascii _ _ A), P.
    replace (len pre + 1 - 1) with (len pre) by lia. reflexivity.
  - symmetry. rewrite I, P.
    replace (pre ++ c :: post) with ((pre ++ [c]) ++ post)
      by (rewrite <- app_assoc; reflexivity).
    replace (len pre + 1) with (len (pre ++ [c]))
      by (rewrite len_app; reflexivity).
    apply sliceTo_app.
Qed.

Lemma lexTextLoop_end (fuel : nat) (l : lexer) :
  pos l = len (input l) ->
  (Val (tok l) <> [] ->
   unicode.IsSpace (fst (utf8.DecodeLastRuneInString (input l))) = false) ->
  exists l', lexTextLoop (S (S fuel)) l = Ok l' /\
             textDone l (Val (tok l)) l'.
Proof.
  intros P NS. cbn [lexTextLoop]. rewrite (next_eof _ l P). cbn [bind].
  cbn [char set_char]. change (eof =? eof) with true. cbv iota.
  unfold trimTrailingSpace. cbn [tok set_char].
  destruct (len (Val (tok l)) =? 0) eqn:E.
  - cbn [bind]. eexists. split; [reflexivity|].
    unfold textDone. cbn. destruct (tok l); repeat split; auto.
  - assert (Val (tok l) <> []) as NE.
    { intros V. rewrite V in E. discriminate. }
    specialize (NS NE). unfold peekBehind. cbn [pos input set_char].
    rewrite P. destruct (len (input l) =? 0) eqn:Z0.
    + cbn [bind]. change (unicode.IsSpace void) with false. cbv iota.
      cbn [bind]. eexists. split; [reflexivity|].
      unfold textDone. cbn. destruct (tok l); repeat split; auto.
    + rewrite Z.eqb_refl. cbn [bind]. rewrite NS. cbn [bind].
      eexists. split; [reflexivity|].
      unfold textDone. cbn. destruct (tok l); repeat split; auto.
Qed.

Lemma lexTextLoop_plain (rest : gostring) :
  forall (pre : gostring) (l : lexer) (fuel : nat),
    Forall (fun b => plainByte b = true) rest ->
    input l = pre ++ rest -> pos l = len pre ->
    (rest <> [] ->
     fst (utf8.DecodeLastRuneInString pre) <> charBackslash) ->
    (Val (tok l) ++ rest <> [] ->
     unicode.IsSpace (fst (utf8.DecodeLastRuneInString (pre ++ rest)))
     = false) ->
    (List.length rest + 3 <= fuel)%nat ->
    exists l', lexTextLoop fuel l = Ok l' /\
               textDone l (Val (tok l) ++ rest) l'.
Proof.
  induction rest as [|c rest IH]; intros pre l fuel F I P NB NS Fu.
  - rewrite app_nil_r in I. rewrite (app_nil_r (Val (tok l))) in NS.
    rewrite (app_nil_r pre) in NS. rewrite app_nil_r.
    destruct fuel as [|[|fuel]]; [simpl in Fu; lia | simpl in Fu; lia|].
    apply lexTextLoop_end.
    + rewrite P, I. reflexivity.
    + rewrite I. exact NS.
  - destruct fuel as [|[|[|fuel]]]; try (simpl in Fu; lia).
    inversion F as [|? ? Fc F']; subst.
    destruct (plainByte_facts c Fc) as (Rg & N1 & N2 & N3 & Sp).
    assert (b2z c < 0x80) as Ac by lia.
    pose proof (next_nonspace fuel l pre rest c I P Ac Sp) as R.
    set (l2 := set_skippedNewlines
                 (addToTag (set_char (set_pos l (len pre + 1)) (b2z c))) 0)
      in R.
    assert (char l2 = b2z c /\ pos l2 = len pre + 1 /\
            input l2 = input l /\ tok l2 = tok l /\ line l2 = line l) as E.
    { unfold l2. cbn [char pos input tok line set_skippedNewlines].
      destruct (addToTag_fields
                  (set_char (set_pos l (len pre + 1)) (b2z c)))
        as (A1 & A2 & A3 & _ & A5 & _).
      destruct (addToTag_same
                  (set_char (set_pos l (len pre + 1)) (b2z c)))
        as (A6 & _).
      rewrite A1, A2, A3, A5, A6. repeat split. }
    destruct E as (C2 & P2 & I2 & T2 & L2).
    assert (exists b, peekBehind l2 = Ok b /\ (b =? charBackslash) = false)
      as (b & PB & Hb).
    { apply (peekBehind_after l2 pre rest c).
      - rewrite I2, I. reflexivity.
      - exact P2.
      - exact Ac.
      - exact N1.
      - apply NB. discriminate. }
    set (l3 := addToToken l2 (b2z c)).
    assert (lexTextLoop (S (S (S fuel))) l = lexTextLoop (S (S fuel)) l3)
      as Step.
    { cbn [lexTextLoop]. rewrite R. cbn [bind]. rewrite C2.
      replace (b2z c =? eof) with false
        by (symmetry; apply Z.eqb_neq; unfold eof; lia).
      replace (b2z c =? charBackslash) with false
        by (symmetry; apply Z.eqb_neq; exact N1).
      cbn [bind]. rewrite PB. cbn [bind]. rewrite Hb.
      replace (b2z c =? charNewline) with false
        by (symmetry; apply Z.eqb_neq; unfold charNewline; lia).
      cbn [andb].
      replace (b2z c =? charOpeningSquare) with false
        by (symmetry; apply Z.eqb_neq; exact N2).
      replace (b2z c =? charClosingSquare) with false
        by (symmetry; apply Z.eqb_neq; exact N3).
      cbn [andb]. rewrite Sp, andb_false_r. reflexivity. }
    assert (tok l3 = set_Val (tok l) (Val (tok l) ++ [c]) /\
            input l3 = input l /\ pos l3 = len (pre ++ [c]) /\
            line l3 = line l) as E3.
    { unfold l3, addToToken. cbn [tok input pos line set_tok].
      rewrite T2, I2, P2, L2, (EncodeRune_ascii c Ac), len_app.
      repeat split. }
    destruct E3 as (T3 & I3 & P3 & L3).
    assert (input l3 = (pre ++ [c]) ++ rest) as I3'
        by (rewrite I3, I, <- app_assoc; reflexivity).
    destruct (IH (pre ++ [c]) l3 (S (S fuel)) F' I3' P3) as (l' & R' & D).
    + intros _. rewrite (decodeLast_ascii _ _ Ac). exact N1.
    + intros _. rewrite <- app_assoc. apply NS.
      destruct (Val (tok l)); discriminate.
    + simpl in Fu. simpl. lia.
    + exists l'. split; [rewrite Step; exact R'|].
      destruct D as (D1 & D2 & D3 & D4 & D5).
      unfold textDone. rewrite T3 in D1. cbn [Val set_Val] in D1.
      rewrite <- app_assoc in D1. rewrite D1, D2, D3, D4, I3, L3.
      destruct (tok l); repeat split; auto.
Qed.

Lemma plain_last_nonspace (pre rest : gostring) :
  Forall (fun b => plainByte b = true) rest -> rest <> [] ->
  unicode.IsSpace (fst (utf8.DecodeLastRuneInString (pre ++ rest))) = false.
Proof.
  intros F N. destruct (exists_last N) as (r & x & ->).
  apply Forall_app in F. destruct F as [_ F].
  inversion F as [|? ? Fx _]; subst.
  destruct (plainByte_facts x Fx) as (Rg & _ & _ & _ & Sp).
  rewrite app_assoc, decodeLast_ascii by lia. exact Sp.
Qed.

(** [lexGlobal] on an input that starts with a backslash. *)
Lemma lexGlobal_backslash (fuel : nat) (t : gostring) :
  lexGlobal (S (S fuel)) (lex (x5c :: t)) =
  Ok (mkLexer (x5c :: t) 1 0 emptyToken charBackslash (Some fnText)
              0 0 [] false 0).
Proof.
  unfold lexGlobal.
  rewrite (next_nonspace fuel (resetToken (lex (x5c :: t))) [] t x5c)
    by (try reflexivity; vm_compute; reflexivity).
  cbn [bind]. cbn -[backup].
  rewrite (backup_ascii _ [] t x5c)
    by (try reflexivity; try discriminate; vm_compute; reflexivity).
  reflexivity.
Qed.

(** [lexGlobal] at the end of the input. *)
Lemma lexGlobal_eof (fuel : nat) (l : lexer) :
  pos l = len (input l) ->
  exists l', lexGlobal (S fuel) l = Ok l' /\
             tok l' = mkTok typeEOF [] (line l) (pos l) 0 /\
             lexNext l' = None.
Proof.
  intros P. unfold lexGlobal.
  rewrite (next_eof fuel (resetToken l)) by exact P.
  cbn [bind]. eexists. split; [reflexivity|]. split; reflexivity.
Qed.

(** [lexText] after [lexGlobal] on a backslash, a dot and plain text. *)
Lemma lexText_escaped_dot (fuel : nat) (rest : gostring) :
  Forall (fun b => plainByte b = true) rest ->
  (List.length rest + 3 <= fuel)%nat ->
  exists l',
    lexText (S (S fuel))
      (mkLexer (x5c :: x2e :: rest) 1 0 emptyToken charBackslash
               (Some fnText) 0 0 [] false 0) = Ok l' /\
    tok l' = mkTok typeText (x2e :: rest) 1 0 0 /\
    input l' = x5c :: x2e :: rest /\
    pos l' = len (x5c :: x2e :: rest) /\
    line l' = 1 /\ lexNext l' = Some fnGlobal.
Proof.
  intros F Fu. set (s := x5c :: x2e :: rest).
  set (tk := mkTok typeText [] 1 0 0).
  set (X1 := mkLexer s 1 1 tk charBackslash (Some fnText) 0 0 [] false 0).
  set (X2 := mkLexer s 1 2 tk charDot (Some fnText) 0 0 [] false 0).
  set (X3 := mkLexer s 1 2 (mkTok typeText [x2e] 1 0 0) charDot
                     (Some fnText) 0 0 [] false 0).
  destruct fuel as [|[|[|fuel]]]; try (simpl in Fu; lia).
  assert (lexTextLoop (S (S (S fuel))) X3 =
          lexTextLoop (S (S (S (S (S fuel)))))
            (mkLexer s 1 0 tk charBackslash (Some fnText) 0 0 [] false 0))
    as Steps.
  { symmetry. cbn [lexTextLoop].
    (* the backslash *)
    rewrite (next_nonspace _ _ [] (x2e :: rest) x5c)
      by (try reflexivity; vm_compute; reflexivity).
    match goal with
    | |- context [bind (Ok ?y) _] => change y with X1
    end.
    cbn [bind].
    change (char X1 =? eof) with false.
    change (char X1 =? charBackslash) with true. cbv iota.
    rewrite (peek_app X1 [x5c] (x2e :: rest)) by reflexivity.
    rewrite decode_ascii by (vm_compute; reflexivity).
    cbn [bind fst]. change (negb (b2z x2e =? charBackslash)) with true.
    cbv iota. change (set_tag X1 []) with X1.
    (* the dot *)
    rewrite (next_nonspace _ X1 [x5c] rest x2e)
      by (try reflexivity; vm_compute; reflexivity).
    match goal with
    | |- context [bind (Ok ?y) _] => change y with X2
    end.
    cbn [bind].
    change (char X2 =? eof) with false.
    change (char X2 =? charBackslash) with false. cbv iota. cbn [bind].
    change (addToToken X2 (char X2)) with X3.
    destruct rest as [|r rest'].
    - reflexivity.
    - assert (peekBehind X2 = Ok charBackslash) as PB.
      { unfold peekBehind. change (pos X2) with (len [x5c] + 1).
        change (input X2) with ([x5c] ++ x2e :: r :: rest').
        replace (len [x5c] + 1 =? 0) with false by reflexivity.
        replace (len [x5c] + 1 =? len ([x5c] ++ x2e :: r :: rest'))
          with false
          by (symmetry; apply Z.eqb_neq; rewrite len_app, !len_cons;
              pose proof (len_nonneg rest'); change (len []) with 0; lia).
        replace (len [x5c] + 1 - 1) with (len [x5c]) by reflexivity.
        rewrite sliceTo_app. reflexivity. }
      rewrite PB. reflexivity. }
  destruct (lexTextLoop_plain rest [x5c; x2e] X3 (S (S (S fuel))) F)
    as (l' & R & D1 & D2 & D3 & D4 & D5).
  - reflexivity.
  - reflexivity.
  - intros _. vm_compute. discriminate.
  - intros _. destruct rest as [|r rest'].
    + reflexivity.
    + apply plain_last_nonspace; [exact F | discriminate].
  - simpl in Fu. simpl. lia.
  - exists l'. unfold lexText.
    change (set_tok _ (mkToken _ typeText []))
      with (mkLexer s 1 0 tk charBackslash (Some fnText) 0 0 [] false 0).
    rewrite <- Steps, R. cbn [bind]. rewrite D1. cbn [Val set_Val tok X3].
    split; [reflexivity|]. repeat split; assumption.
Qed.

Lemma collectTokens_escaped_dot (rest : gostring) (fuel : nat) :
  Forall (fun b => plainByte b = true) rest ->
  (List.length rest + 9 <= fuel)%nat ->
  collectTokens fuel (x5c :: x2e :: rest) =
  Ok [mkTok typeText (x2e :: rest) 1 0 0;
      mkTok typeEOF [] 1 (2 + len rest) 0].
Proof.
  intros F Fu.
  do 9 (destruct fuel as [|fuel]; [simpl in Fu; lia|]).
  assert (List.length rest + 3 <= S (S (S (S fuel))))%nat as Fu'
      by (simpl in Fu; lia).
  destruct (lexText_escaped_dot (S (S (S (S fuel)))) rest F Fu')
    as (l1 & R1 & T1 & I1 & P1 & L1 & N1).
  assert (pos l1 = len (input l1)) as E1 by congruence.
  destruct (lexGlobal_eof (S (S (S (S (S fuel))))) l1 E1)
    as (l2 & R2 & T2 & N2).
  unfold collectTokens. cbn [collectLoop nextToken]. cbn [lexNext lex].
  cbn [runLex]. rewrite lexGlobal_backslash. cbn [bind].
  cbn [tok Typ emptyToken tokenType_eqb lexNext runLex].
  rewrite R1. cbn [bind]. rewrite T1. cbn [Typ tokenType_eqb bind].
  rewrite N1. cbn [runLex]. rewrite R2. cbn [bind]. rewrite T2.
  cbn [Typ tokenType_eqb bind]. rewrite N2. cbn [bind fst app].
  rewrite T1, T2, L1, P1, !len_cons.
  replace (1 + (1 + len rest)) with (2 + len rest) by lia.
  reflexivity.
Qed.

(** C8. A backslash and a dot, followed by any plain text (printable
    ASCII without space, backslash and square brackets), lex to one Text
    token that holds the dot and the plain text, and no Heading token;
    the line of the test suite, which has spaces, does so as well. Two
    backslashes lex to one Text token holding one backslash. The
    end-of-input token follows behind all characters of the input. *)
Theorem escaped_characters_are_literal :
  (forall rest fuel,
     Forall (fun b => plainByte b = true) rest ->
     (List.length rest + 9 <= fuel)%nat ->
     collectTokens fuel (str "\." ++ rest) =
     Ok [mkTok typeText (str "." ++ rest) 1 0 0;
         mkTok typeEOF [] 1 (2 + len rest) 0]) /\
  (forall fuel,
     collectTokens (64 + fuel) (str "\. This is a level one heading") =
     Ok [mkTok typeText (str ". This is a level one heading") 1 0 0;
         mkTok typeEOF [] 1 30 0]) /\
  (forall fuel,
     collectTokens (32 + fuel) (str "\\") =
     Ok [mkTok typeText (str "\") 1 0 0; mkTok typeEOF [] 1 2 0]).
Proof.
  split; [exact collectTokens_escaped_dot|].
  split; intros fuel; vm_compute; reflexivity.
Qed.

(** *** Slices and decoded runes *)

Lemma bind_Panic {A B : Type} (m : result A) (k : A -> result B) :
  bind m k = Panic -> m = Panic \/ exists a, m = Ok a /\ k a = Panic.
Proof.
  destruct m as [a| |]; simpl; intros H; try discriminate.
  - right. exists a. split; [reflexivity | exact H].
  - left. reflexivity.
Qed.

Lemma safe_bind {A B : Type} (m : result A) (k : A -> result B)
      (Q : A -> Prop) (P : B -> Prop) :
  safe m Q -> (forall a, Q a -> safe (k a) P) -> safe (bind m k) P.
Proof. destruct m as [a| |]; simpl; auto. Qed.

Lemma safe_impl {A : Type} (r : result A) (P Q : A -> Prop) :
  safe r P -> (forall a, P a -> Q a) -> safe r Q.
Proof. destruct r as [a| |]; simpl; auto. Qed.

Lemma safe_Ok {A : Type} (r : result A) (P : A -> Prop) (a : A) :
  safe r P -> r = Ok a -> P a.
Proof. intros S E. rewrite E in S. exact S. Qed.

Lemma streq_eq (a b : gostring) : streq a b = true <-> a = b.
Proof.
  revert b. induction a as [|x a IH]; intros [|y b]; simpl;
    try (split; [discriminate | discriminate]); [tauto|].
  rewrite andb_true_iff, IH. split.
  - intros [E ->]. apply Byte.byte_dec_bl in E. subst y. reflexivity.
  - intros E. injection E as -> ->. split; [|reflexivity].
    apply Byte.byte_dec_lb. reflexivity.
Qed.

Lemma sliceFrom_in (s : gostring) (a : Z) :
  0 <= a <= len s -> sliceFrom s a = Ok (skipn (Z.to_nat a) s).
Proof.
  intros H. unfold sliceFrom.
  replace (0 <=? a) with true by (symmetry; apply Z.leb_le; lia).
  replace (a <=? len s) with true by (symmetry; apply Z.leb_le; lia).
  reflexivity.
Qed.

Lemma sliceTo_in (s : gostring) (b : Z) :
  0 <= b <= len s -> sliceTo s b = Ok (firstn (Z.to_nat b) s).
Proof.
  intros H. unfold sliceTo.
  replace (0 <=? b) with true by (symmetry; apply Z.leb_le; lia).
  replace (b <=? len s) with true by (symmetry; apply Z.leb_le; lia).
  reflexivity.
Qed.

Lemma len_skipn (s : gostring) (a : Z) :
  0 <= a <= len s -> len (skipn (Z.to_nat a) s) = len s - a.
Proof. intros H. unfold len in *. rewrite length_skipn. lia. Qed.

Lemma len_firstn (s : gostring) (a : Z) :
  0 <= a <= len s -> len (firstn (Z.to_nat a) s) = a.
Proof. intros H. unfold len in *. rewrite length_firstn. lia. Qed.

Lemma b2z_nonneg (b : byte) : 0 <= b2z b.
Proof. unfold b2z. lia. Qed.

Ltac rune_nonneg :=
  cbn [fst];
  first [ apply b2z_nonneg
        | discriminate
        | repeat (apply Z.lor_nonneg; split);
          try apply Z.shiftl_nonneg; apply Z.land_nonneg; right; lia ].

(** A decoded rune is not negative, and on a string that is not empty
    its width is at least one byte and at most the string. *)
Lemma decode_facts (s : gostring) :
  0 <= fst (utf8.DecodeRuneInString s) /\
  (s <> [] -> 1 <= snd (utf8.DecodeRuneInString s) <= len s).
Proof.
  unfold utf8.DecodeRuneInString.
  destruct s as [|b0 t]; [split; [discriminate | congruence]|].
  pose proof (len_nonneg t) as L0.
  destruct (utf8.first (b2z b0)) as [[sz [lo hi]]|].
  2:{ destruct (_ <? _); (split; [rune_nonneg|]); intros _;
        cbn [snd]; rewrite len_cons; lia. }
  destruct (len (b0 :: t) <? sz);
    [split; [rune_nonneg | intros _; cbn [snd]; rewrite len_cons; lia]|].
  destruct t as [|b1 t1];
    [split; [rune_nonneg | intros _; cbn [snd]; rewrite len_cons; lia]|].
  pose proof (len_nonneg t1) as L1.
  destruct (_ || _);
    [split; [rune_nonneg | intros _; cbn [snd]; rewrite !len_cons; lia]|].
  destruct (sz <=? 2);
    [split; [rune_nonneg | intros _; cbn [snd]; rewrite !len_cons; lia]|].
  destruct t1 as [|b2 t2];
    [split; [rune_nonneg | intros _; cbn [snd]; rewrite !len_cons; lia]|].
  pose proof (len_nonneg t2) as L2.
  destruct (_ || _);
    [split; [rune_nonneg | intros _; cbn [snd]; rewrite !len_cons; lia]|].
  destruct (sz <=? 3);
    [split; [rune_nonneg | intros _; cbn [snd]; rewrite !len_cons; lia]|].
  destruct t2 as [|b3 t3];
    [split; [rune_nonneg | intros _; cbn [snd]; rewrite !len_cons; lia]|].
  pose proof (len_nonneg t3) as L3.
  destruct (_ || _);
    split; try rune_nonneg; intros _; cbn [snd]; rewrite !len_cons; lia.
Qed.

Lemma scanStart_le (s : gostring) (n : nat) :
  forall start lim, utf8.scanStart s n start lim <= start.
Proof.
  induction n as [|n IH]; intros start lim; simpl; [lia|].
  destruct (start <? lim); [lia|].
  destruct (utf8.RuneStart _); [lia|].
  specialize (IH (start - 1) lim). lia.
Qed.

Lemma decodeLast_facts (s : gostring) :
  0 <= fst (utf8.DecodeLastRuneInString s) /\
  (s <> [] -> 1 <= snd (utf8.DecodeLastRuneInString s) <= len s).
Proof.
  unfold utf8.DecodeLastRuneInString.
  destruct (len s =? 0) eqn:E0.
  { split; [discriminate|]. intros N. apply Z.eqb_eq in E0.
    destruct s; [congruence|]. rewrite len_cons in E0.
    pose proof (len_nonneg s). lia. }
  apply Z.eqb_neq in E0. pose proof (len_nonneg s) as L.
  destruct (_ <? utf8.RuneSelf).
  { split; [apply b2z_nonneg | intros _; cbn [snd]; lia]. }
  set (start := Z.max 0 _).
  assert (0 <= start <= len s - 1) as B.
  { unfold start.
    pose proof (scanStart_le s 4 (len s - 1 - 1)
                  (Z.max 0 (len s - utf8.UTFMax))). lia. }
  pose proof (decode_facts (skipn (Z.to_nat start) s)) as [D1 D2].
  destruct (utf8.DecodeRuneInString (skipn (Z.to_nat start) s))
    as [r size].
  cbn [fst snd] in D1, D2.
  destruct (start + size =? len s) eqn:E.
  - apply Z.eqb_eq in E. split; [exact D1|]. intros _. cbn [snd]. lia.
  - split; [discriminate|]. intros _. cbn [snd]. lia.
Qed.

(** *** The character-level operations stay within the buffer *)

Lemma peek_total (l : lexer) :
  inBounds l ->
  exists c, peek l = Ok c /\ (pos l = len (input l) -> c = eof) /\
            (pos l < len (input l) -> 0 <= c).
Proof.
  unfold peek, inBounds. intros B.
  destruct (pos l =? len (input l)) eqn:E.
  - apply Z.eqb_eq in E. exists eof. split; [reflexivity|].
    split; [reflexivity | lia].
  - apply Z.eqb_neq in E. rewrite sliceFrom_in by lia. cbn [bind].
    eexists. split; [reflexivity|]. split; [lia|].
    intros _. apply decode_facts.
Qed.

Lemma IsSpace_nonneg (c : Z) : unicode.IsSpace c = true -> 0 <= c.
Proof.
  unfold unicode.IsSpace. intros H.
  destruct (0 <=? c) eqn:E; [apply Z.leb_le in E; exact E|].
  apply Z.leb_gt in E. cbn [andb] in H.
  repeat (apply orb_true_iff in H; destruct H as [H | H]);
    try (apply andb_true_iff in H; destruct H as [H _]; apply Z.leb_le in H);
    try apply Z.eqb_eq in H; lia.
Qed.

Lemma next_skipSpace_safe (fuel : nat) :
  forall l,
    (inBounds l ->
     safe (next fuel l)
          (fun l' => inBounds l' /\ pos l <= pos l' /\
                     (pos l < len (input l) -> 0 <= char l') /\
                     (pos l = len (input l) -> l' = set_char l eof))) /\
    (1 <= pos l <= len (input l) -> 0 <= char l ->
     safe (skipSpace fuel l)
          (fun l' => 1 <= pos l' <= len (input l') /\ pos l <= pos l' /\
                     0 <= char l')).
Proof.
  induction fuel as [|fuel IH]; intros l; [split; intros; exact I|].
  split.
  - intros B. unfold inBounds in B. cbn [next].
    destruct ((len (input l) <=? pos l) || (len (input l) =? 0)) eqn:C.
    + cbn [safe]. unfold inBounds. cbn [pos input char set_char].
      apply orb_true_iff in C.
      assert (pos l = len (input l)) as E.
      { destruct C as [C | C]; [apply Z.leb_le in C | apply Z.eqb_eq in C];
          lia. }
      repeat split; try lia. 
    + apply orb_false_iff in C. destruct C as [C1 C2].
      apply Z.leb_gt in C1.
      rewrite sliceFrom_in by lia. cbn [bind].
      pose proof (decode_facts (skipn (Z.to_nat (pos l)) (input l)))
        as [D1 D2].
      assert (1 <= snd (utf8.DecodeRuneInString
                          (skipn (Z.to_nat (pos l)) (input l)))
              <= len (input l) - pos l) as W.
      { rewrite <- len_skipn by lia. apply D2. intros E.
        pose proof (len_skipn (input l) (pos l) ltac:(lia)) as L.
        rewrite E in L. change (len []) with 0 in L. lia. }
      destruct (utf8.DecodeRuneInString _) as [c w].
      cbn [fst snd] in D1, W. cbv zeta.
      match goal with
      | |- safe (skipSpace fuel (addToTag ?y)) _ => set (x := y)
      end.
      destruct (addToTag_fields x) as (A1 & A2 & A3 & _).
      assert (input x = input l /\ pos x = pos l + w /\ char x = c)
        as (E1 & E2 & E3)
          by (unfold x; destruct (c =? charNewline); repeat split).
      destruct (IH (addToTag x)) as [_ K].
      eapply safe_impl;
        [apply K; rewrite ?A1, ?A2, ?A3, ?E1, ?E2, ?E3; lia|].
      intros l' (B1 & B2 & B3). rewrite A2, E2 in B2.
      unfold inBounds. repeat split; try lia.
  - intros B Cn. cbn [skipSpace].
    assert (inBounds l) as B' by (unfold inBounds; lia).
    destruct (peek_total l B') as (p & Pk & Pe & _).
    assert ((if unicode.IsSpace (char l)
             then p0 <- peek l;; Ok (unicode.IsSpace p0)
             else Ok false) =
            Ok (unicode.IsSpace (char l) && unicode.IsSpace p)) as E.
    { rewrite Pk. destruct (unicode.IsSpace (char l)); reflexivity. }
    rewrite E. cbn [bind]. clear E.
    destruct (unicode.IsSpace (char l) && unicode.IsSpace p) eqn:Both.
    + apply andb_true_iff in Both. destruct Both as [_ Sp].
      assert (pos l < len (input l)) as Lt.
      { destruct (Z.eq_dec (pos l) (len (input l))) as [E | E]; [|lia].
        rewrite (Pe E) in Sp. discriminate. }
      cbv zeta.
      match goal with
      | |- safe (next fuel ?x) _ =>
        destruct (IH x) as [K _];
          assert (input x = input l /\ pos x = pos l) as [E1 E2]
            by (destruct (char (set_skippedSpace l (skippedSpace l + 1))
                          =? charNewline); split; reflexivity)
      end.
      eapply safe_impl; [apply K; unfold inBounds; rewrite E1, E2; lia|].
      intros l' (B1 & B2 & B3 & _). unfold inBounds in B1.
      rewrite E1, E2 in *. repeat split; try lia; apply B3; exact Lt.
    + destruct ((0 <? skippedNewlines l) && unicode.IsSpace (char l)).
      * cbv zeta.
        match goal with
        | |- safe (bind (sliceTo (input ?x) _) _) _ =>
          assert (input x = input l /\ pos x = pos l) as [E1 E2]
            by (destruct (char l =? charNewline); split; reflexivity)
        end.
        rewrite E1, E2.
        pose proof (sliceTo_in (input l) (pos l - 1) ltac:(lia)) as S1.
        pose proof (sliceFrom_in (input l) (pos l) ltac:(lia)) as S2.
        rewrite S1, S2. cbn [bind safe].
        cbn [pos input char set_char set_input]. rewrite E2.
        pose proof (rewrite_length _ _ _ _ (z2b charNewline) S1 S2) as L.
        unfold len. rewrite L. fold (len (input l)).
        repeat split; try lia. discriminate.
      * cbn [safe pos input char set_skippedNewlines]. lia.
Qed.

Lemma next_safe (fuel : nat) (l : lexer) :
  inBounds l ->
  safe (next fuel l)
       (fun l' => inBounds l' /\ pos l <= pos l' /\
                  (pos l < len (input l) -> 0 <= char l') /\
                  (pos l = len (input l) -> l' = set_char l eof)).
Proof. apply next_skipSpace_safe. Qed.

Lemma backup_total (l : lexer) :
  inBounds l ->
  exists l', backup l = Ok l' /\ inBounds l' /\ pos l' <= pos l /\
             input l' = input l /\ tok l' = tok l /\ tag l' = tag l /\
             skippedSpace l' = skippedSpace l /\ lexNext l' = lexNext l.
Proof.
  unfold backup, inBounds. intros B.
  destruct (pos l =? 0) eqn:E.
  - eexists. split; [reflexivity|]. cbn. repeat split; lia.
  - apply Z.eqb_neq in E.
    assert (input (if char l =? charNewline
                   then set_line l (line l - 1) else l) = input l /\
            pos (if char l =? charNewline
                 then set_line l (line l - 1) else l) = pos l) as [E1 E2]
        by (destruct (char l =? charNewline); split; reflexivity).
    cbv zeta. rewrite E1, E2. rewrite sliceTo_in by lia. cbn [bind].
    pose proof (decodeLast_facts (firstn (Z.to_nat (pos l)) (input l)))
      as [_ D].
    rewrite len_firstn in D by lia.
    assert (firstn (Z.to_nat (pos l)) (input l) <> []) as NE.
    { intros X. pose proof (len_firstn (input l) (pos l) ltac:(lia)) as L.
      rewrite X in L. change (len []) with 0 in L. lia. }
    specialize (D NE).
    destruct (utf8.DecodeLastRuneInString _) as [c w]. cbn [snd] in D.
    eexists. split; [reflexivity|].
    destruct (char l =? charNewline); cbn; repeat split; lia.
Qed.

Lemma backupN_total (n : nat) :
  forall l, inBounds l ->
    exists l', backupN n l = Ok l' /\ inBounds l' /\ pos l' <= pos l /\
               input l' = input l /\ tok l' = tok l /\ tag l' = tag l /\
               skippedSpace l' = skippedSpace l /\ lexNext l' = lexNext l.
Proof.
  induction n as [|n IH]; intros l B; cbn [backupN].
  - exists l. repeat split; try reflexivity; try apply B; lia.
  - destruct (backup_total l B) as (l1 & E & B1 & P1 & I1 & T1 & G1 & S1 & N1).
    rewrite E. cbn [bind].
    destruct (IH l1 B1) as (l2 & E2 & B2 & P2 & I2 & T2 & G2 & S2 & N2).
    exists l2. split; [exact E2|]. split; [exact B2|].
    repeat split; try congruence; lia.
Qed.

Lemma peekBehind_total (l : lexer) :
  inBounds l -> exists c, peekBehind l = Ok c.
Proof.
  unfold peekBehind, inBounds. intros B.
  destruct (pos l =? 0) eqn:E; [eexists; reflexivity|].
  apply Z.eqb_neq in E.
  destruct (pos l =? len (input l)); [eexists; reflexivity|].
  rewrite sliceTo_in by lia. eexists; reflexivity.
Qed.

Lemma peekNextNonSpace_total (l : lexer) :
  inBounds l -> exists c, peekNextNonSpace l = Ok c.
Proof.
  unfold peekNextNonSpace, inBounds. intros B.
  destruct (pos l =? len (input l)); [eexists; reflexivity|].
  rewrite sliceFrom_in by lia. eexists; reflexivity.
Qed.

Lemma trimTrailingSpace_total (l : lexer) :
  inBounds l ->
  exists v, trimTrailingSpace l = Ok (set_tok l (set_Val (tok l) v)) /\
            len v <= len (Val (tok l)) /\
            (Val (tok l) = [] -> v = []).
Proof.
  unfold trimTrailingSpace. intros B.
  assert (set_tok l (set_Val (tok l) (Val (tok l))) = l) as Id
      by (destruct l as [? ? ? []]; reflexivity).
  destruct (len (Val (tok l)) =? 0) eqn:E.
  - exists (Val (tok l)). rewrite Id. split; [reflexivity|].
    split; [lia | auto].
  - apply Z.eqb_neq in E. destruct (peekBehind_total l B) as (c & Pc).
    rewrite Pc. cbn [bind]. pose proof (len_nonneg (Val (tok l))).
    destruct (unicode.IsSpace c).
    + rewrite sliceTo_in by lia. cbn [bind]. eexists.
      split; [reflexivity|]. rewrite len_firstn by lia.
      split; [lia|]. intros V. rewrite V in E. contradiction E. reflexivity.
    + exists (Val (tok l)). rewrite Id. split; [reflexivity|].
      split; [lia | auto].
Qed.

Lemma nextN_safe (fuel n : nat) :
  forall l, inBounds l ->
    safe (nextN fuel n l) (fun l' => inBounds l' /\ pos l <= pos l').
Proof.
  induction n as [|n IH]; intros l B; cbn [nextN].
  - cbn [safe]. split; [exact B | lia].
  - eapply safe_bind; [apply next_safe; exact B|].
    intros l1 (B1 & P1 & _). cbv beta.
    eapply safe_impl; [apply IH; exact B1|].
    intros l2 (B2 & P2). split; [exact B2 | lia].
Qed.

(** *** The positions of the lexer and of its tokens *)

Lemma same_len (l l' : lexer) : same l l' -> len (input l') = len (input l).
Proof. intros (_ & _ & _ & _ & H). unfold len. rewrite H. reflexivity. Qed.

Lemma within_next (fuel : nat) (l l1 : lexer) :
  within l -> next fuel l = Ok l1 -> within l1.
Proof.
  intros (B & T) H.
  pose proof (safe_Ok _ _ _ (next_safe fuel l B) H) as (B1 & _).
  pose proof (next_same _ _ _ H) as S. pose proof (same_len _ _ S) as L.
  destruct S as (S & _). split; [exact B1|]. rewrite S, L. exact T.
Qed.

Lemma backup_Ok (l l1 : lexer) :
  inBounds l -> backup l = Ok l1 ->
  inBounds l1 /\ pos l1 <= pos l /\ input l1 = input l /\ tok l1 = tok l /\
  tag l1 = tag l /\ skippedSpace l1 = skippedSpace l.
Proof.
  intros B H. destruct (backup_total l B) as (l2 & E & F).
  rewrite E in H. inv_ok H. tauto.
Qed.

Lemma backupN_Ok (n : nat) (l l1 : lexer) :
  inBounds l -> backupN n l = Ok l1 ->
  inBounds l1 /\ pos l1 <= pos l /\ input l1 = input l /\ tok l1 = tok l /\
  tag l1 = tag l /\ skippedSpace l1 = skippedSpace l.
Proof.
  intros B H. destruct (backupN_total n l B) as (l2 & E & F).
  rewrite E in H. inv_ok H. tauto.
Qed.

Lemma within_backup (l l1 : lexer) :
  within l -> backup l = Ok l1 -> within l1.
Proof.
  intros (B & T) H. destruct (backup_Ok _ _ B H) as (B1 & _ & I & K & _).
  split; [exact B1|]. rewrite K, I. exact T.
Qed.

Lemma within_backupN (n : nat) (l l1 : lexer) :
  within l -> backupN n l = Ok l1 -> within l1.
Proof.
  intros (B & T) H. destruct (backupN_Ok _ _ _ B H) as (B1 & _ & I & K & _).
  split; [exact B1|]. rewrite K, I. exact T.
Qed.

Lemma within_set_Val (l : lexer) (v : gostring) :
  within l -> within (set_tok l (set_Val (tok l) v)).
Proof. intros H. exact H. Qed.

Lemma within_trim (l l1 : lexer) :
  within l -> trimTrailingSpace l = Ok l1 -> within l1.
Proof.
  intros W H. destruct (trimTrailingSpace_total l (proj1 W)) as (v & E & _).
  rewrite E in H. inv_ok H. apply within_set_Val. exact W.
Qed.

Lemma within_truncate (l l1 : lexer) (n : Z) :
  within l -> truncateToken l n = Ok l1 -> within l1.
Proof.
  unfold truncateToken. intros W H. bind_inv H as v K. inv_ok H.
  apply within_set_Val. exact W.
Qed.

Lemma within_mkToken (l : lexer) (typ : tokenType) (v : gostring) :
  inBounds l -> within (set_tok l (mkToken l typ v)).
Proof. intros B. split; exact B. Qed.

Lemma within_nextN (fuel n : nat) :
  forall l l1, within l -> nextN fuel n l = Ok l1 -> within l1.
Proof.
  induction n as [|n IH]; cbn [nextN]; intros l l1 W H.
  - inv_ok H. exact W.
  - bind_inv H as l2 K. eapply IH; [|exact H]. eapply within_next; eauto.
Qed.

Create HintDb lexq.
#[local] Hint Resolve within_next within_backup within_backupN within_trim
  within_truncate within_nextN : lexq.

(** Every state on the way through a lex function is [within]. *)
Ltac within_facts :=
  repeat match goal with
         | W : within ?l, H : next _ ?l = Ok ?l1 |- _ =>
           lazymatch goal with
           | _ : within l1 |- _ => fail
           | _ => pose proof (within_next _ _ _ W H)
           end
         | W : within ?l, H : nextN _ _ ?l = Ok ?l1 |- _ =>
           lazymatch goal with
           | _ : within l1 |- _ => fail
           | _ => pose proof (within_nextN _ _ _ _ W H)
           end
         | W : within ?l, H : backup ?l = Ok ?l1 |- _ =>
           lazymatch goal with
           | _ : within l1 |- _ => fail
           | _ => pose proof (within_backup _ _ W H)
           end
         | W : within ?l, H : backupN _ ?l = Ok ?l1 |- _ =>
           lazymatch goal with
           | _ : within l1 |- _ => fail
           | _ => pose proof (within_backupN _ _ _ W H)
           end
         | W : within ?l, H : trimTrailingSpace ?l = Ok ?l1 |- _ =>
           lazymatch goal with
           | _ : within l1 |- _ => fail
           | _ => pose proof (within_trim _ _ W H)
           end
         | W : within ?l, H : truncateToken ?l _ = Ok ?l1 |- _ =>
           lazymatch goal with
           | _ : within l1 |- _ => fail
           | _ => pose proof (within_truncate _ _ _ W H)
           end
         end.

Lemma lexTextLoop_within (fuel : nat) :
  forall l l', within l -> lexTextLoop fuel l = Ok l' -> within l'.
Proof.
  induction fuel as [|fuel IH]; simpl; intros l l' W H; try discriminate.
  bind_inv H as l1 N. within_facts. split_if H.
  { bind_inv H as l2 K. inv_ok H. within_facts. assumption. }
  bind_inv H as esc E. split_if H.
  { apply IH in H; assumption. }
  bind_inv H as b B. split_if H.
  { apply IH in H; [assumption|]. apply within_set_Val. assumption. }
  split_if H.
  { bind_inv H as q Q. split_if H; inv_ok H; assumption. }
  split_if H.
  { inv_ok H. assumption. }
  split_if H.
  { apply IH in H; [assumption|]. apply within_set_Val. assumption. }
  split_if H.
  { split_if H.
    - bind_inv H as l2 K2. bind_inv H as l3 K3. inv_ok H.
      within_facts. assumption.
    - bind_inv H as l2 K2. bind_inv H as l3 K3.
      bind_inv H as l4 K4. bind_inv H as l5 K5. inv_ok H.
      within_facts. assumption. }
  split_if H.
  { bind_inv H as l2 K2. bind_inv H as l3 K3. inv_ok H.
    within_facts. assumption. }
  split_if H; apply IH in H; try assumption.
  apply within_mkToken. apply H0.
Qed.

Lemma lexHeadingLoop_within (fuel : nat) :
  forall l l', within l -> lexHeadingLoop fuel l = Ok l' -> within l'.
Proof.
  induction fuel as [|fuel IH]; simpl; intros l l' W H; try discriminate.
  bind_inv H as l1 N. within_facts. split_if H.
  { inv_ok H. assumption. }
  split_if H.
  { bind_inv H as l2 K. inv_ok H. within_facts. assumption. }
  apply IH in H; [assumption|]. apply within_set_Val. assumption.
Qed.

Lemma runLex_within (f : lexFn) (fuel : nat) (l l' : lexer) :
  inBounds l -> runLex f fuel l = Ok l' -> within l'.
Proof.
  intros B. destruct f; simpl; intros H.
  - unfold lexGlobal in H. bind_inv H as l1 N.
    assert (within (resetToken l)) as W0.
    { split; [exact B|]. cbn. pose proof (len_nonneg (input l)). lia. }
    within_facts.
    split_if H; [inv_ok H; apply within_mkToken; apply H0|].
    repeat split_if H; try (bind_inv H as l2 K); inv_ok H; within_facts;
      assumption.
  - unfold lexText in H. bind_inv H as l1 N.
    apply lexTextLoop_within in N; [|apply within_mkToken; exact B].
    split_if H; inv_ok H; exact N.
  - unfold lexHeading in H. apply lexHeadingLoop_within in H; [exact H|].
    apply within_mkToken; exact B.
  - unfold lexTerminator in H. bind_inv H as l1 K1. bind_inv H as l2 K2.
    inv_ok H. destruct (backup_Ok _ _ B K1) as (B1 & _).
    pose proof (within_mkToken l1 typeTerminator [z2b charNewline] B1) as W1.
    within_facts. assumption.
  - unfold lexTag in H. bind_inv H as l1 K1. inv_ok H.
    pose proof (within_mkToken l typeTag (tag l) B) as W1.
    within_facts. assumption.
  - unfold lexOpeningSquare in H. bind_inv H as l1 K1. inv_ok H.
    pose proof (within_mkToken l typeOpeningSquare [z2b charOpeningSquare] B)
      as W1.
    within_facts. assumption.
  - unfold lexClosingSquare in H. bind_inv H as l1 K1. inv_ok H.
    pose proof (within_mkToken l typeClosingSquare [z2b charClosingSquare] B)
      as W1.
    within_facts. assumption.
  - unfold lexHypen in H. bind_inv H as l1 K1. bind_inv H as l2 K2.
    inv_ok H.
    assert (within (set_tok (set_tok l (mkToken l typeBulletpoint
                                          [z2b charHyphen]))
                      (set_indent
                         (tok (set_tok l (mkToken l typeBulletpoint
                                            [z2b charHyphen])))
                         (skippedSpace
                            (set_tok l (mkToken l typeBulletpoint
                                          [z2b charHyphen])))))) as W1
        by (split; exact B).
    within_facts. split_if K2; [|inv_ok K2]; within_facts; assumption.
Qed.

(** The end-of-input token stands at the end of the buffer. *)
Lemma runLex_eof_pos (f : lexFn) (fuel : nat) (l l' : lexer) :
  inBounds l -> runLex f fuel l = Ok l' -> Typ (tok l') = typeEOF ->
  Pos (tok l') = len (input l') /\ pos l' = len (input l').
Proof.
  intros B H T. destruct f; simpl in H.
  - unfold lexGlobal in H. bind_inv H as l1 N.
    assert (inBounds (resetToken l)) as B0 by exact B.
    pose proof (safe_Ok _ _ _ (next_safe fuel _ B0) N) as (B1 & _ & C & E).
    cbn [pos input resetToken set_ctx set_continuousNewline set_tok] in C, E.
    pose proof (next_same _ _ _ N) as S. apply same_Typ in S.
    cbn in S.
    split_if H.
    + inv_ok H. cbn. apply Z.eqb_eq in Heqb.
      destruct (Z.eq_dec (pos l) (len (input l))) as [Q | Q].
      * rewrite (E Q). cbn. auto.
      * unfold inBounds in B. assert (pos l < len (input l)) as Lt by lia.
        specialize (C Lt). rewrite Heqb in C. unfold eof in C. lia.
    + exfalso.
      repeat split_if H; try (bind_inv H as l2 K); inv_ok H;
        try (apply backup_same, same_Typ in K); cbn in T; congruence.
  - exfalso. unfold lexText in H. bind_inv H as l1 N.
    apply lexTextLoop_Typ in N; [|reflexivity]. destruct N as [N _].
    split_if H; inv_ok H; cbn in T; congruence.
  - exfalso. unfold lexHeading in H.
    apply lexHeadingLoop_Typ in H; [|reflexivity]. destruct H; congruence.
  - exfalso. apply lexTerminator_token in H. destruct H; congruence.
  - exfalso. unfold lexTag in H. bind_inv H as l1 K1. inv_ok H.
    apply nextN_same, same_Typ in K1. cbn in *. congruence.
  - exfalso. unfold lexOpeningSquare in H. bind_inv H as l1 K1. inv_ok H.
    apply next_same, same_Typ in K1. cbn in *. congruence.
  - exfalso. unfold lexClosingSquare in H. bind_inv H as l1 K1. inv_ok H.
    apply next_same, same_Typ in K1. cbn in *. congruence.
  - exfalso. unfold lexHypen in H. bind_inv H as l1 K1. bind_inv H as l2 K2.
    inv_ok H. apply next_same, same_Typ in K1. cbn in K1.
    split_if K2; [apply next_same, same_Typ in K2 | inv_ok K2];
      cbn in *; congruence.
Qed.

Lemma nextToken_within (fuel : nat) :
  forall l l' running,
    within l ->
    (Typ (tok l) = typeEOF ->
     Pos (tok l) = len (input l) /\ pos l = len (input l)) ->
    nextToken fuel l = Ok (running, l') ->
    within l' /\
    (Typ (tok l') = typeEOF ->
     Pos (tok l') = len (input l') /\ pos l' = len (input l')).
Proof.
  induction fuel as [|fuel IH]; simpl; intros l l' running W E H;
    try discriminate.
  destruct (lexNext l) as [f|]; [|inv_ok H; auto].
  bind_inv H as l1 K.
  pose proof (runLex_within _ _ _ _ (proj1 W) K) as W1.
  pose proof (runLex_eof_pos _ _ _ _ (proj1 W) K) as E1.
  split_if H; [eapply IH; eauto | inv_ok H; auto].
Qed.

Lemma steps_within (s : gostring) (l : lexer) :
  steps (lex s) l ->
  within l /\
  (Typ (tok l) = typeEOF ->
   Pos (tok l) = len (input l) /\ pos l = len (input l)).
Proof.
  induction 1 as [|fuel l l' running S IH H].
  - split; [|discriminate]. pose proof (len_nonneg s).
    unfold within, inBounds. cbn. lia.
  - destruct IH as [W E]. eapply nextToken_within; eauto.
Qed.

(** *** The value of a token by its type *)

Lemma trimTrailingSpace_tok (l l' : lexer) :
  trimTrailingSpace l = Ok l' ->
  exists v, l' = set_tok l (set_Val (tok l) v) /\
            (Val (tok l) = [] -> v = []).
Proof.
  unfold trimTrailingSpace. intros H.
  assert (set_tok l (set_Val (tok l) (Val (tok l))) = l) as Id
      by (destruct l as [? ? ? []]; reflexivity).
  split_if H; [inv_ok H; exists (Val (tok l')); auto|].
  bind_inv H as b K. split_if H.
  - bind_inv H as v K2. inv_ok H. exists v. split; [reflexivity|].
    intros V. rewrite V in Heqb. discriminate.
  - inv_ok H. exists (Val (tok l')). auto.
Qed.

Lemma truncateToken_tok (l l' : lexer) (n : Z) :
  truncateToken l n = Ok l' ->
  exists v, l' = set_tok l (set_Val (tok l) v).
Proof.
  unfold truncateToken. intros H. bind_inv H as v K. inv_ok H.
  exists v. reflexivity.
Qed.

(** Replaces the states a lex function went through by what is known of
    their tokens. *)
Ltac tok_facts :=
  repeat match goal with
         | H : next _ _ = Ok _ |- _ =>
           apply next_same in H; destruct H as (H & _)
         | H : nextN _ _ _ = Ok _ |- _ =>
           apply nextN_same in H; destruct H as (H & _)
         | H : backup _ = Ok _ |- _ =>
           apply backup_same in H; destruct H as (H & _)
         | H : backupN _ _ = Ok _ |- _ =>
           apply backupN_same in H; destruct H as (H & _)
         | H : trimTrailingSpace _ = Ok _ |- _ =>
           apply trimTrailingSpace_tok in H;
           let v := fresh "v" in destruct H as (v & H & _); subst
         | H : truncateToken _ _ = Ok _ |- _ =>
           apply truncateToken_tok in H;
           let v := fresh "v" in destruct H as (v & H); subst
         end;
  cbn [tok set_tok set_lexNext set_tag Typ Val Line Pos indent set_Val
       set_Typ set_indent mkToken addToToken] in *.

Ltac tok_solve :=
  tok_facts;
  repeat first
         [ progress cbn [tok set_tok Typ Val Line Pos indent set_Val set_Typ
                         set_indent mkToken resetToken set_ctx
                         set_continuousNewline set_lexNext set_tag
                         emptyToken]
         | match goal with
           | H : tok _ = _ |- _ => rewrite H
           end ];
  congruence.

Lemma lexTextLoop_indent (fuel : nat) :
  forall l l', lexTextLoop fuel l = Ok l' ->
    indent (tok l) = 0 -> indent (tok l') = 0.
Proof.
  induction fuel as [|fuel IH]; simpl; intros l l' H T; try discriminate.
  bind_inv H as l1 N. split_if H.
  { bind_inv H as l2 K. inv_ok H. tok_solve. }
  bind_inv H as esc E. split_if H.
  { apply IH in H; [exact H|]. tok_solve. }
  bind_inv H as b B. split_if H.
  { apply IH in H; [exact H|]. tok_solve. }
  split_if H.
  { bind_inv H as q Q. split_if H; inv_ok H; tok_solve. }
  split_if H.
  { inv_ok H. tok_solve. }
  split_if H.
  { apply IH in H; [exact H|]. tok_solve. }
  split_if H.
  { split_if H.
    - bind_inv H as l2 K2. bind_inv H as l3 K3. inv_ok H. tok_solve.
    - bind_inv H as l2 K2. bind_inv H as l3 K3.
      bind_inv H as l4 K4. bind_inv H as l5 K5. inv_ok H. tok_solve. }
  split_if H.
  { bind_inv H as l2 K2. bind_inv H as l3 K3. inv_ok H. tok_solve. }
  split_if H; apply IH in H; try exact H; tok_solve.
Qed.

Lemma len_zero (s : gostring) : len s = 0 <-> s = [].
Proof.
  split; [|intros ->; reflexivity]. destruct s; [reflexivity|].
  rewrite len_cons. pose proof (len_nonneg s). lia.
Qed.

Lemma streq_nil_false (s : gostring) : s <> [] -> streq s [] = false.
Proof. destruct s; [congruence | reflexivity]. Qed.

Lemma headingChar_encoded (c : Z) :
  (c =? charDot) || (c =? charColon) = true ->
  exists b, utf8.EncodeRune c = [b] /\ headingByte b = true.
Proof.
  intros H. apply orb_true_iff in H.
  destruct H as [H | H]; apply Z.eqb_eq in H; subst c;
    eexists; split; reflexivity.
Qed.

Lemma lexHeadingLoop_value (fuel : nat) :
  forall l l', lexHeadingLoop fuel l = Ok l' ->
    indent (tok l) = 0 -> len (Val (tok l)) <= 3 ->
    forallb headingByte (Val (tok l)) = true ->
    indent (tok l') = 0 /\ len (Val (tok l')) <= 3 /\
    forallb headingByte (Val (tok l')) = true.
Proof.
  induction fuel as [|fuel IH]; simpl; intros l l' H T L F;
    try discriminate.
  bind_inv H as l1 N. split_if H.
  { inv_ok H. tok_facts. rewrite N. auto. }
  split_if H.
  { bind_inv H as l2 K. inv_ok H. tok_facts. rewrite K, N. auto. }
  apply orb_false_iff in Heqb0. destruct Heqb0 as [C3 L3].
  apply negb_false_iff in C3. unfold isHeadingChar in C3.
  destruct (headingChar_encoded _ C3) as (b & E & Hb).
  apply Z.eqb_neq in L3. pose proof N as N'. tok_facts.
  apply IH in H; [exact H| | |]; cbn; rewrite ?E, ?N in *.
  - exact T.
  - rewrite len_app. change (len [b]) with 1. lia.
  - rewrite forallb_app, F. cbn. rewrite Hb. reflexivity.
Qed.

(** A lex function leaves no token (the type [typeNone]) or a token
    whose value is the one of its type. *)
Lemma runLex_shape (f : lexFn) (fuel : nat) (l l' : lexer) :
  runLex f fuel l = Ok l' ->
  Typ (tok l') = typeNone \/ tokenShape (tok l') = true.
Proof.
  destruct f; simpl; intros H.
  - unfold lexGlobal in H. bind_inv H as l1 N.
    split_if H; [inv_ok H; right; reflexivity|]. left.
    repeat split_if H; try (bind_inv H as l2 K); inv_ok H; tok_solve.
  - unfold lexText in H. bind_inv H as l1 N.
    pose proof (lexTextLoop_Typ _ _ _ N eq_refl) as [T _].
    pose proof (lexTextLoop_indent _ _ _ N eq_refl) as I.
    split_if H; inv_ok H; [left; reflexivity|]. right.
    unfold tokenShape. rewrite T, I. apply Z.eqb_neq in Heqb.
    rewrite streq_nil_false; [reflexivity|].
    intros E. apply Heqb. rewrite E. reflexivity.
  - unfold lexHeading in H.
    pose proof (lexHeadingLoop_Typ _ _ _ H eq_refl) as [T _].
    apply lexHeadingLoop_value in H; try reflexivity;
      [|cbn; lia].
    destruct H as (I & L & F). right. unfold tokenShape.
    rewrite T, I, F. apply Z.leb_le in L. rewrite L. reflexivity.
  - unfold lexTerminator in H. bind_inv H as l1 K1. bind_inv H as l2 K2.
    inv_ok H. tok_facts. right. rewrite K2. reflexivity.
  - unfold lexTag in H. bind_inv H as l1 K1. inv_ok H. tok_facts.
    right. rewrite K1. reflexivity.
  - unfold lexOpeningSquare in H. bind_inv H as l1 K1. inv_ok H.
    tok_facts. right. rewrite K1. reflexivity.
  - unfold lexClosingSquare in H. bind_inv H as l1 K1. inv_ok H.
    tok_facts. right. rewrite K1. reflexivity.
  - unfold lexHypen in H. bind_inv H as l1 K1. bind_inv H as l2 K2.
    inv_ok H. right.
    assert (tok l2 = tok l1) as E
        by (split_if K2; [tok_facts; exact K2 | inv_ok K2; reflexivity]).
    tok_facts. cbn [tok set_ctx set_lexNext]. rewrite E, K1. reflexivity.
Qed.

Lemma nextToken_shape (fuel : nat) :
  forall l l', nextToken fuel l = Ok (true, l') ->
    tokenShape (tok l') = true.
Proof.
  induction fuel as [|fuel IH]; simpl; intros l l' H; try discriminate.
  destruct (lexNext l) as [f|]; [|discriminate].
  bind_inv H as l1 K. split_if H; [apply IH in H; exact H|].
  inv_ok H. destruct (runLex_shape _ _ _ _ K) as [T | S]; [|exact S].
  rewrite T in Heqb. discriminate.
Qed.

(** *** Where the lexer can panic *)

Section StaleTag.

(** No white-space character is a letter in the tables of Unicode. *)
Hypothesis letters_not_space :
  forall r, unicode.IsSpace r = true -> letterTable r = false.

Lemma IsLetter_not_space (r : Z) :
  unicode.IsSpace r = true -> IsLetter r = false.
Proof.
  intros H. unfold IsLetter.
  destruct ((0 <=? r) && (r <=? unicode.MaxLatin1)) eqn:L.
  - unfold unicode.IsSpace in H. rewrite L in H.
    assert (r <= 13 \/ r = 32 \/ r = 133 \/ r = 160) as R.
    { repeat (apply orb_true_iff in H; destruct H as [H | H]);
        try (apply Z.eqb_eq in H; lia).
      apply andb_true_iff in H. destruct H as [_ H].
      apply Z.leb_le in H. lia. }
    destruct R as [R | [-> | [-> | ->]]]; try reflexivity.
    unfold unicode.latin1Letter.
    repeat match goal with
           | |- context [?k <=? r] =>
             replace (k <=? r) with false
               by (symmetry; apply Z.leb_gt; lia)
           | |- context [r =? ?k] =>
             replace (r =? k) with false
               by (symmetry; apply Z.eqb_neq; lia)
           end.
    reflexivity.
  - destruct (r <? 0); [reflexivity|]. apply letters_not_space. exact H.
Qed.

Lemma peek_Ok (l : lexer) (c : Z) :
  peek l = Ok c -> pos l <> len (input l) ->
  0 <= pos l < len (input l) /\
  sliceFrom (input l) (pos l) = Ok (skipn (Z.to_nat (pos l)) (input l)) /\
  c = fst (utf8.DecodeRuneInString (skipn (Z.to_nat (pos l)) (input l))).
Proof.
  unfold peek. intros H N.
  replace (pos l =? len (input l)) with false in H
    by (symmetry; apply Z.eqb_neq; exact N).
  bind_inv H as rest R. inv_ok H. pose proof (sliceFrom_Ok _ _ _ R) as [B ->].
  split; [lia|]. split; [exact R | reflexivity].
Qed.

Lemma addToTag_text (x : lexer) :
  Typ (tok x) = typeText ->
  Typ (tok (addToTag x)) = typeText /\ char (addToTag x) = char x /\
  tag (addToTag x) =
  (if IsLetter (char x) then tag x ++ utf8.EncodeRune (char x)
   else if unicode.IsSpace (char x) then [] else tag x).
Proof.
  intros T. unfold addToTag. rewrite T. cbn [tokenType_eqb negb].
  destruct (IsLetter (char x)); [cbn; auto|].
  destruct (unicode.IsSpace (char x)); cbn; auto.
Qed.

(** What [next] does to the tag while a Text token is being lexed: on
    white space the tag is emptied, on a letter the letter is added. *)
Lemma next_skipSpace_tag (fuel : nat) :
  forall l l1,
    Typ (tok l) = typeText ->
    (next fuel l = Ok l1 ->
     forall c, peek l = Ok c -> pos l <> len (input l) ->
       (unicode.IsSpace c = true ->
        unicode.IsSpace (char l1) = true /\ tag l1 = []) /\
       (unicode.IsSpace c = false ->
        char l1 = c /\
        tag l1 = if IsLetter c then tag l ++ utf8.EncodeRune c else tag l)) /\
    (skipSpace fuel l = Ok l1 ->
     (unicode.IsSpace (char l) = true -> tag l = [] ->
      unicode.IsSpace (char l1) = true /\ tag l1 = []) /\
     (unicode.IsSpace (char l) = false ->
      char l1 = char l /\ tag l1 = tag l)).
Proof.
  induction fuel as [|fuel IH]; intros l l1 T; split;
    [discriminate | discriminate | |]; intros H.
  - intros c Pk Ne. destruct (peek_Ok _ _ Pk Ne) as (B & R & ->).
    cbn [next] in H.
    replace ((len (input l) <=? pos l) || (len (input l) =? 0)) with false
      in H
      by (symmetry; apply orb_false_iff; split;
          [apply Z.leb_gt | apply Z.eqb_neq]; lia).
    rewrite R in H. cbn [bind] in H.
    destruct (utf8.DecodeRuneInString _) as [c w]. cbn [fst]. cbv zeta in H.
    match type of H with
    | skipSpace fuel (addToTag ?y) = _ => set (x := y) in H
    end.
    assert (Typ (tok x) = typeText /\ char x = c /\ tag x = tag l)
      as (Tx & Cx & Gx)
        by (unfold x; destruct (c =? charNewline); repeat split; exact T).
    destruct (addToTag_text x Tx) as (Ty & Cy & Gy).
    rewrite Cx, Gx in Gy. rewrite Cx in Cy.
    destruct (IH (addToTag x) l1 Ty) as [_ K]. specialize (K H).
    destruct K as [K1 K2]. rewrite Cy, Gy in K1, K2. split.
    + intros Sp. rewrite (IsLetter_not_space c Sp), Sp in K1. auto.
    + intros Sp. rewrite Sp in K2. destruct (K2 eq_refl) as [E1 E2].
      split; [exact E1|]. rewrite E2. destruct (IsLetter c); reflexivity.
  - cbn [skipSpace] in H. bind_inv H as both E. destruct both.
    + assert (unicode.IsSpace (char l) = true /\
              exists p, peek l = Ok p /\ unicode.IsSpace p = true)
        as (Sc & p & Pk & Sp).
      { destruct (unicode.IsSpace (char l)); [|discriminate].
        split; [reflexivity|]. bind_inv E as p Pk. inv_ok E.
        exists p. auto. }
      cbv zeta in H.
      match type of H with
      | next fuel ?y = _ => set (x := y) in H
      end.
      assert (Typ (tok x) = typeText /\ peek x = peek l /\ pos x = pos l /\
              input x = input l /\ tag x = tag l) as (Tx & Px & Ex & Ix & Gx)
          by (unfold x;
              destruct (char (set_skippedSpace l (skippedSpace l + 1))
                        =? charNewline); repeat split; exact T).
      destruct (IH x l1 Tx) as [K _]. specialize (K H p).
      rewrite Px, Ex, Ix in K.
      assert (pos l <> len (input l)) as Ne.
      { intros Q. unfold peek in Pk. rewrite Q, Z.eqb_refl in Pk.
        inv_ok Pk. discriminate. }
      destruct (K Pk Ne) as [K1 _]. split.
      * intros _ _. apply K1. exact Sp.
      * intros F. rewrite F in Sc. discriminate.
    + split_if H.
      * cbv zeta in H. bind_inv H as before S1. bind_inv H as after S2.
        inv_ok H. apply andb_true_iff in Heqb. destruct Heqb as [_ Sc].
        split.
        -- intros _ G. split; [reflexivity|].
           destruct (char l =? charNewline); exact G.
        -- intros F. rewrite F in Sc. discriminate.
      * inv_ok H. split; intros; auto.
Qed.

Lemma next_text (fuel : nat) (l l1 : lexer) :
  inBounds l -> Typ (tok l) = typeText -> next fuel l = Ok l1 ->
  inBounds l1 /\ tok l1 = tok l /\
  (char l1 = eof \/
   (unicode.IsSpace (char l1) = true /\ tag l1 = []) \/
   (unicode.IsSpace (char l1) = false /\
    tag l1 = if IsLetter (char l1)
             then tag l ++ utf8.EncodeRune (char l1) else tag l)).
Proof.
  intros B T H.
  pose proof (safe_Ok _ _ _ (next_safe fuel l B) H) as (B1 & _ & _ & E).
  pose proof (next_same _ _ _ H) as (S & _).
  split; [exact B1|]. split; [exact S|].
  destruct (Z.eq_dec (pos l) (len (input l))) as [Q | Q].
  - left. rewrite (E Q). reflexivity.
  - right. destruct (peek_total l B) as (c & Pk & _).
    destruct (next_skipSpace_tag fuel l l1 T) as [K _].
    destruct (K H c Pk Q) as [K1 K2].
    destruct (unicode.IsSpace c) eqn:Sp.
    + left. apply K1. reflexivity.
    + right. destruct (K2 eq_refl) as [-> G]. auto.
Qed.

(** Adding the current character to the token keeps the tag no longer
    than the token. *)
Lemma tag_step (l l1 : lexer) (c : Z) :
  tok l1 = tok l ->
  (unicode.IsSpace (char l1) = true /\ tag l1 = []) \/
  (unicode.IsSpace (char l1) = false /\
   tag l1 = if IsLetter (char l1)
            then tag l ++ utf8.EncodeRune (char l1) else tag l) ->
  (c = char l1 \/ IsLetter (char l1) = false) ->
  len (Val (tok l1) ++ utf8.EncodeRune c) < len (tag l1) ->
  len (Val (tok l)) < len (tag l).
Proof.
  intros E Cs Cc H. rewrite E, len_app in H.
  pose proof (len_nonneg (utf8.EncodeRune c)).
  pose proof (len_nonneg (Val (tok l))).
  destruct Cs as [[_ G] | [_ G]]; rewrite G in H.
  - change (len []) with 0 in H. lia.
  - destruct (IsLetter (char l1)).
    + destruct Cc as [-> | Cc]; [|discriminate].
      rewrite len_app in H. lia.
    + lia.
Qed.

Lemma lexTextLoop_panic (fuel : nat) :
  forall l, inBounds l -> Typ (tok l) = typeText ->
    lexTextLoop fuel l = Panic -> len (Val (tok l)) < len (tag l).
Proof.
  induction fuel as [|fuel IH]; intros l B T H; [discriminate|].
  cbn [lexTextLoop] in H.
  pose proof (next_safe fuel l B) as Sf.
  destruct (next fuel l) as [l1| |] eqn:N; cbn [bind safe] in H, Sf;
    [|contradiction|discriminate].
  destruct (next_text fuel l l1 B T N) as (B1 & K1 & Cs).
  assert (Typ (tok l1) = typeText) as T1 by congruence.
  destruct (trimTrailingSpace_total l1 B1) as (vt & Et & _).
  assert (forall v, inBounds (set_tok l1 (set_Val (tok l1) v))) as Bv
      by (intros v; exact B1).
  destruct (char l1 =? eof) eqn:Ee.
  { rewrite Et in H. discriminate. }
  assert ((unicode.IsSpace (char l1) = true /\ tag l1 = []) \/
          (unicode.IsSpace (char l1) = false /\
           tag l1 = if IsLetter (char l1)
                    then tag l ++ utf8.EncodeRune (char l1) else tag l))
    as Cs'.
  { destruct Cs as [Cs | Cs]; [|exact Cs].
    rewrite Cs in Ee. discriminate. }
  clear Cs.
  destruct (peek_total l1 B1) as (p & Pk & _).
  assert (exists e,
            (if char l1 =? charBackslash
             then p0 <- peek l1;; Ok (negb (p0 =? charBackslash))
             else Ok false) = Ok e) as (e & Ex).
  { rewrite Pk. destruct (char l1 =? charBackslash); eexists; reflexivity. }
  rewrite Ex in H. cbn [bind] in H. destruct e.
  { apply IH in H; [|exact B1|exact T1]. cbn in H.
    pose proof (len_nonneg (Val (tok l1))). change (len []) with 0 in H.
    lia. }
  destruct (peekBehind_total l1 B1) as (b & Pb).
  rewrite Pb in H. cbn [bind] in H.
  destruct (b =? charBackslash).
  { apply IH in H; [|exact B1|exact T1].
    apply (tag_step l l1 (char l1) K1 Cs'); [left; reflexivity | exact H]. }
  destruct ((char l1 =? charNewline) && (ctx l1 =? ctxList)).
  { destruct (peekNextNonSpace_total l1 B1) as (q & Pq).
    rewrite Pq in H. cbn [bind] in H.
    destruct (q =? charHyphen); discriminate. }
  destruct ((char l1 =? charNewline) &&
            (negb (continuousNewline l1) || (2 <=? skippedNewlines l1)));
    [discriminate|].
  destruct ((char l1 =? charNewline) && continuousNewline l1) eqn:Nl.
  { apply IH in H; [|exact B1|exact T1].
    apply andb_true_iff in Nl. destruct Nl as [Nl _].
    apply Z.eqb_eq in Nl.
    apply (tag_step l l1 charSpace K1 Cs'); [|exact H].
    right. rewrite Nl. reflexivity. }
  destruct (char l1 =? charOpeningSquare) eqn:Sq.
  { apply Z.eqb_eq in Sq.
    destruct (len (tag l1) =? 0).
    - rewrite Et in H. cbn [bind] in H.
      destruct (backup_total _ (Bv vt)) as (l3 & E3 & _).
      rewrite E3 in H. discriminate.
    - destruct (backupN_total (List.length (tag l1)) l1 B1)
        as (l2 & E2 & B2 & _ & _ & K2 & G2 & _).
      rewrite E2 in H. cbn [bind] in H. unfold truncateToken in H.
      rewrite K2, G2 in H.
      destruct (Z_lt_dec (len (Val (tok l1))) (len (tag l1))) as [Lt | Ge].
      + destruct Cs' as [[Sp _] | [_ G]].
        * rewrite Sq in Sp. discriminate.
        * rewrite Sq in G. change (IsLetter charOpeningSquare) with false in G.
          rewrite <- K1, <- G. exact Lt.
      + pose proof (len_nonneg (tag l1)).
        rewrite sliceTo_in in H by lia. cbn [bind] in H.
        match type of H with
        | context [trimTrailingSpace ?y] =>
          assert (inBounds y) as By by exact B2;
            destruct (trimTrailingSpace_total y By) as (v4 & E4 & _)
        end.
        rewrite E4 in H. cbn [bind] in H.
        match type of H with
        | context [backup ?y] =>
          assert (inBounds y) as By' by exact B2;
            destruct (backup_total y By') as (l5 & E5 & _)
        end.
        rewrite E5 in H. discriminate. }
  destruct ((char l1 =? charClosingSquare) && _).
  { rewrite Et in H. cbn [bind] in H.
    destruct (backup_total _ (Bv vt)) as (l3 & E3 & _).
    rewrite E3 in H. discriminate. }
  destruct ((len (Val (tok l1)) =? 0) && unicode.IsSpace (char l1)) eqn:Rs.
  { apply IH in H; [|exact B1|reflexivity]. cbn in H.
    apply andb_true_iff in Rs. destruct Rs as [_ Sp].
    destruct Cs' as [[_ G] | [Sp' _]].
    - rewrite G in H. change (len []) with 0 in H. lia.
    - rewrite Sp in Sp'. discriminate. }
  apply IH in H; [|exact B1|exact T1].
  apply (tag_step l l1 (char l1) K1 Cs'); [left; reflexivity | exact H].
Qed.

Lemma lexHeadingLoop_safe (fuel : nat) :
  forall l, inBounds l -> lexHeadingLoop fuel l <> Panic.
Proof.
  induction fuel as [|fuel IH]; intros l B H; [discriminate|].
  cbn [lexHeadingLoop] in H.
  pose proof (next_safe fuel l B) as Sf.
  destruct (next fuel l) as [l1| |] eqn:N; cbn [bind safe] in H, Sf;
    [|contradiction|discriminate].
  destruct Sf as (B1 & _).
  destruct (char l1 =? eof); [discriminate|].
  destruct (negb (isHeadingChar l1) || (len (Val (tok l1)) =? 3)).
  - destruct (backup_total l1 B1) as (l2 & E & _). rewrite E in H.
    discriminate.
  - apply IH in H; [exact H | exact B1].
Qed.

(** A lex function that panics is [lexText], entered with a tag left
    over from an earlier text run. *)
Lemma runLex_panic (f : lexFn) (fuel : nat) (l : lexer) :
  inBounds l -> runLex f fuel l = Panic -> f = fnText /\ tag l <> [].
Proof.
  intros B H. destruct f; cbn [runLex] in H.
  - exfalso. unfold lexGlobal in H.
    assert (inBounds (resetToken l)) as B0 by exact B.
    pose proof (next_safe fuel _ B0) as Sf.
    destruct (next fuel (resetToken l)) as [l1| |] eqn:N;
      cbn [bind safe] in H, Sf; [|contradiction|discriminate].
    destruct Sf as (B1 & _).
    destruct (backup_total l1 B1) as (l2 & E & _). rewrite E in H.
    cbn [bind] in H.
    repeat match type of H with
           | (if ?c then _ else _) = _ => destruct c
           end; discriminate.
  - split; [reflexivity|]. unfold lexText in H.
    destruct (lexTextLoop fuel (set_tok l (mkToken l typeText [])))
      as [l1| |] eqn:N; cbn [bind] in H.
    + destruct (len (Val (tok l1)) =? 0); discriminate.
    + apply lexTextLoop_panic in N; [|exact B|reflexivity].
      cbn in N. intros G. rewrite G in N. change (len []) with 0 in N. lia.
    + discriminate.
  - exfalso. unfold lexHeading in H.
    apply lexHeadingLoop_safe in H; [exact H | exact B].
  - exfalso. unfold lexTerminator in H.
    destruct (backup_total l B) as (l1 & E & B1 & _). rewrite E in H.
    cbn [bind] in H.
    match type of H with
    | context [next fuel ?y] =>
      assert (inBounds y) as By by exact B1;
        pose proof (next_safe fuel y By) as Sf;
        destruct (next fuel y) as [l2| |]
    end; cbn [bind safe] in H, Sf; [discriminate|contradiction|discriminate].
  - exfalso. unfold lexTag in H.
    match type of H with
    | context [nextN fuel ?n ?y] =>
      assert (inBounds y) as By by exact B;
        pose proof (nextN_safe fuel n y By) as Sf;
        destruct (nextN fuel n y) as [l2| |]
    end; cbn [bind safe] in H, Sf; [discriminate|contradiction|discriminate].
  - exfalso. unfold lexOpeningSquare in H.
    match type of H with
    | context [next fuel ?y] =>
      assert (inBounds y) as By by exact B;
        pose proof (next_safe fuel y By) as Sf;
        destruct (next fuel y) as [l2| |]
    end; cbn [bind safe] in H, Sf; [discriminate|contradiction|discriminate].
  - exfalso. unfold lexClosingSquare in H.
    match type of H with
    | context [next fuel ?y] =>
      assert (inBounds y) as By by exact B;
        pose proof (next_safe fuel y By) as Sf;
        destruct (next fuel y) as [l2| |]
    end; cbn [bind safe] in H, Sf; [discriminate|contradiction|discriminate].
  - exfalso. unfold lexHypen in H.
    match type of H with
    | context [next fuel ?y] =>
      assert (inBounds y) as By by exact B;
        pose proof (next_safe fuel y By) as Sf;
        destruct (next fuel y) as [l2| |]
    end; cbn [bind safe] in H, Sf; [|contradiction|discriminate].
    destruct Sf as (B2 & _).
    destruct (unicode.IsSpace (char l2)).
    + pose proof (next_safe fuel l2 B2) as Sf.
      destruct (next fuel l2) as [l3| |]; cbn [bind safe] in H, Sf;
        [discriminate|contradiction|discriminate].
    + discriminate.
Qed.

End StaleTag.

(** X1. The position of the lexer and the position of its current token
    never leave the input, however often [nextToken] is called, and the
    end-of-input token stands at the end of the input, with the lexer
    positioned there. *)
Theorem positions_stay_within_the_input (s : gostring) (l : lexer) :
  steps (lex s) l ->
  0 <= pos l <= len s /\ 0 <= Pos (tok l) <= len s /\
  (Typ (tok l) = typeEOF -> Pos (tok l) = len s /\ pos l = len s).
Proof.
  intros S. destruct (steps_within s l S) as ((B & T) & E).
  pose proof (steps_rewritten _ _ S) as (L & _). cbn [input lex] in L.
  unfold inBounds in B. unfold len in *. rewrite L in *. auto.
Qed.

(** X2. A token that [nextToken] delivers is never of type [typeNone]; the
    end-of-input token is empty, the Terminator, OpeningSquare,
    ClosingSquare and Bulletpoint tokens hold their one character, and
    only a Bulletpoint token carries an indent. *)
Theorem delivered_tokens_have_their_values (fuel : nat) (l l' : lexer) :
  nextToken fuel l = Ok (true, l') ->
  Typ (tok l') <> typeNone /\
  (Typ (tok l') = typeEOF -> Val (tok l') = []) /\
  (Typ (tok l') = typeTerminator -> Val (tok l') = nl) /\
  (Typ (tok l') = typeOpeningSquare -> Val (tok l') = str "[") /\
  (Typ (tok l') = typeClosingSquare -> Val (tok l') = str "]") /\
  (Typ (tok l') = typeBulletpoint -> Val (tok l') = str "-") /\
  (Typ (tok l') <> typeBulletpoint -> indent (tok l') = 0).
Proof.
  intros H. apply nextToken_shape in H. unfold tokenShape in H.
  destruct (Typ (tok l')); try discriminate;
    repeat (apply andb_true_iff in H; destruct H as [H ?]);
    repeat match goal with
           | E : streq _ _ = true |- _ => apply streq_eq in E
           | E : (_ =? _) = true |- _ => apply Z.eqb_eq in E
           end;
    repeat split; try discriminate; try congruence; auto.
Qed.

(** X3. A Text token that [nextToken] delivers is never empty, and a
    Heading token holds at most three characters, each a dot or a
    colon. *)
Theorem text_tokens_are_not_empty (fuel : nat) (l l' : lexer) :
  nextToken fuel l = Ok (true, l') ->
  (Typ (tok l') = typeText -> Val (tok l') <> []) /\
  (Typ (tok l') = typeHeading ->
   len (Val (tok l')) <= 3 /\
   Forall (fun b => b = x2e \/ b = x3a) (Val (tok l'))).
Proof.
  intros H. apply nextToken_shape in H. unfold tokenShape in H.
  split; intros T; rewrite T in H.
  - apply andb_true_iff in H. destruct H as [H _].
    apply negb_true_iff in H. intros E. rewrite E in H. discriminate.
  - apply andb_true_iff in H. destruct H as [H _].
    apply andb_true_iff in H. destruct H as [L F].
    apply Z.leb_le in L. split; [exact L|].
    rewrite forallb_forall in F. apply Forall_forall. intros b Hb.
    specialize (F b Hb). unfold headingByte in F.
    apply orb_true_iff in F.
    destruct F as [F | F]; apply Z.eqb_eq in F;
      apply (f_equal z2b) in F; rewrite z2b_b2z in F; subst b; auto.
Qed.

(** X4. The lexer panics in one place only. When no white-space character
    counts as a letter, a lex function run in a state reached from
    [lex s] panics only if it is [lexText] and the tag is not empty on
    entry, that is, left over from an earlier text run. The other
    seven lex functions never panic, and neither does [lexText] when it
    starts with an empty tag. *)
Theorem lexer_panics_only_on_a_stale_tag :
  (forall r, unicode.IsSpace r = true -> letterTable r = false) ->
  forall s l f fuel,
    steps (lex s) l -> runLex f fuel l = Panic ->
    f = fnText /\ tag l <> [].
Proof.
  intros D s l f fuel S H.
  destruct (steps_within s l S) as ((B & _) & _).
  exact (runLex_panic D f fuel l B H).
Qed.

(** *** Properties of the lexer state that every lex function keeps *)

Section LexerInvariant.

Variable Q : lexer -> Prop.

Hypothesis Q_next : forall fuel l l', Q l -> next fuel l = Ok l' -> Q l'.
Hypothesis Q_backup : forall l l', Q l -> backup l = Ok l' -> Q l'.
Hypothesis Q_tok : forall l t, Q l -> Q (set_tok l t).
Hypothesis Q_tag : forall l, Q l -> Q (set_tag l []).
Hypothesis Q_lexNext : forall l n, Q l -> Q (set_lexNext l n).
Hypothesis Q_ctx : forall l c, Q l -> Q (set_ctx l c).
Hypothesis Q_newline : forall l b, Q l -> Q (set_continuousNewline l b).

Lemma Q_nextN (fuel n : nat) :
  forall l l', Q l -> nextN fuel n l = Ok l' -> Q l'.
Proof.
  induction n as [|n IH]; cbn [nextN]; intros l l' q H.
  - inv_ok H. exact q.
  - bind_inv H as l1 K. eapply IH; [|exact H]. eapply Q_next; eauto.
Qed.

Lemma Q_backupN (n : nat) :
  forall l l', Q l -> backupN n l = Ok l' -> Q l'.
Proof.
  induction n as [|n IH]; cbn [backupN]; intros l l' q H.
  - inv_ok H. exact q.
  - bind_inv H as l1 K. eapply IH; [|exact H]. eapply Q_backup; eauto.
Qed.

Lemma Q_trim (l l' : lexer) : Q l -> trimTrailingSpace l = Ok l' -> Q l'.
Proof.
  intros q H. apply trimTrailingSpace_tok in H. destruct H as (v & -> & _).
  apply Q_tok. exact q.
Qed.

Lemma Q_truncate (l l' : lexer) (n : Z) :
  Q l -> truncateToken l n = Ok l' -> Q l'.
Proof.
  intros q H. apply truncateToken_tok in H. destruct H as (v & ->).
  apply Q_tok. exact q.
Qed.

Ltac q_facts :=
  repeat match goal with
         | W : Q ?l, H : next _ ?l = Ok ?l1 |- _ =>
           lazymatch goal with
           | _ : Q l1 |- _ => fail
           | _ => pose proof (Q_next _ _ _ W H)
           end
         | W : Q ?l, H : nextN _ _ ?l = Ok ?l1 |- _ =>
           lazymatch goal with
           | _ : Q l1 |- _ => fail
           | _ => pose proof (Q_nextN _ _ _ _ W H)
           end
         | W : Q ?l, H : backup ?l = Ok ?l1 |- _ =>
           lazymatch goal with
           | _ : Q l1 |- _ => fail
           | _ => pose proof (Q_backup _ _ W H)
           end
         | W : Q ?l, H : backupN _ ?l = Ok ?l1 |- _ =>
           lazymatch goal with
           | _ : Q l1 |- _ => fail
           | _ => pose proof (Q_backupN _ _ _ W H)
           end
         | W : Q ?l, H : trimTrailingSpace ?l = Ok ?l1 |- _ =>
           lazymatch goal with
           | _ : Q l1 |- _ => fail
           | _ => pose proof (Q_trim _ _ W H)
           end
         | W : Q ?l, H : truncateToken ?l _ = Ok ?l1 |- _ =>
           lazymatch goal with
           | _ : Q l1 |- _ => fail
           | _ => pose proof (Q_truncate _ _ _ W H)
           end
         end;
  try assumption;
  try (apply Q_lexNext; try apply Q_newline; assumption).

Lemma lexTextLoop_Q (fuel : nat) :
  forall l l', Q l -> lexTextLoop fuel l = Ok l' -> Q l'.
Proof.
  induction fuel as [|fuel IH]; simpl; intros l l' W H; try discriminate.
  bind_inv H as l1 N. q_facts. split_if H.
  { bind_inv H as l2 K. inv_ok H. q_facts. }
  bind_inv H as esc E. split_if H.
  { apply IH in H; [assumption|]. apply Q_tag. assumption. }
  bind_inv H as b B. split_if H.
  { apply IH in H; [assumption|]. apply Q_tok. assumption. }
  split_if H.
  { bind_inv H as q Qq. split_if H; inv_ok H; q_facts. }
  split_if H.
  { inv_ok H. q_facts. }
  split_if H.
  { apply IH in H; [assumption|]. apply Q_tok. assumption. }
  split_if H.
  { split_if H.
    - bind_inv H as l2 K2. bind_inv H as l3 K3. inv_ok H. q_facts.
    - bind_inv H as l2 K2. bind_inv H as l3 K3.
      bind_inv H as l4 K4. bind_inv H as l5 K5. inv_ok H. q_facts. }
  split_if H.
  { bind_inv H as l2 K2. bind_inv H as l3 K3. inv_ok H. q_facts. }
  split_if H; apply IH in H; try assumption; apply Q_tok; assumption.
Qed.

Lemma lexHeadingLoop_Q (fuel : nat) :
  forall l l', Q l -> lexHeadingLoop fuel l = Ok l' -> Q l'.
Proof.
  induction fuel as [|fuel IH]; simpl; intros l l' W H; try discriminate.
  bind_inv H as l1 N. q_facts. split_if H.
  { inv_ok H. q_facts. }
  split_if H.
  { bind_inv H as l2 K. inv_ok H. q_facts. }
  apply IH in H; [assumption|]. apply Q_tok. assumption.
Qed.

Lemma runLex_Q (f : lexFn) (fuel : nat) (l l' : lexer) :
  Q l -> runLex f fuel l = Ok l' -> Q l'.
Proof.
  intros W. destruct f; simpl; intros H.
  - unfold lexGlobal in H. bind_inv H as l1 N.
    assert (Q (resetToken l)) as W0
        by (unfold resetToken; apply Q_ctx, Q_newline, Q_tok; exact W).
    q_facts.
    split_if H; [inv_ok H; apply Q_lexNext, Q_tok; assumption|].
    repeat split_if H; try (bind_inv H as l2 K); inv_ok H; q_facts.
  - unfold lexText in H. bind_inv H as l1 N.
    apply lexTextLoop_Q in N; [|apply Q_tok; exact W].
    split_if H; inv_ok H; [apply Q_tok|]; exact N.
  - unfold lexHeading in H. apply lexHeadingLoop_Q in H; [exact H|].
    apply Q_tok; exact W.
  - unfold lexTerminator in H. bind_inv H as l1 K1. bind_inv H as l2 K2.
    inv_ok H. q_facts.
    apply Q_lexNext. eapply Q_next; [|exact K2]. apply Q_tok. assumption.
  - unfold lexTag in H. bind_inv H as l1 K1. inv_ok H.
    apply Q_lexNext, Q_tag. eapply Q_nextN; [|exact K1].
    apply Q_tok. exact W.
  - unfold lexOpeningSquare in H. bind_inv H as l1 K1. inv_ok H.
    apply Q_lexNext. eapply Q_next; [|exact K1]. apply Q_tok. exact W.
  - unfold lexClosingSquare in H. bind_inv H as l1 K1. inv_ok H.
    apply Q_lexNext. eapply Q_next; [|exact K1]. apply Q_tok. exact W.
  - unfold lexHypen in H. bind_inv H as l1 K1. bind_inv H as l2 K2.
    inv_ok H. apply Q_lexNext, Q_ctx.
    assert (Q l1) as W1
        by (eapply Q_next; [|exact K1]; apply Q_tok, Q_tok; exact W).
    split_if K2; [eapply Q_next; eauto | inv_ok K2; exact W1].
Qed.

Lemma nextToken_Q (fuel : nat) :
  forall l l' running, Q l -> nextToken fuel l = Ok (running, l') -> Q l'.
Proof.
  induction fuel as [|fuel IH]; simpl; intros l l' running W H;
    try discriminate.
  destruct (lexNext l) as [f|]; [|inv_ok H; exact W].
  bind_inv H as l1 K. apply (runLex_Q _ _ _ _ W) in K.
  split_if H; [eapply IH; eauto | inv_ok H; exact K].
Qed.

Lemma steps_Q (l0 l : lexer) : Q l0 -> steps l0 l -> Q l.
Proof.
  intros W. induction 1 as [|fuel l l' running S IH H]; [exact W|].
  eapply nextToken_Q; eauto.
Qed.

End LexerInvariant.

(** *** The indent of a bullet point *)

Lemma next_skipSpace_skipped (fuel : nat) :
  forall l l',
    0 <= skippedSpace l ->
    (next fuel l = Ok l' -> 0 <= skippedSpace l') /\
    (skipSpace fuel l = Ok l' -> 0 <= skippedSpace l').
Proof.
  induction fuel as [|fuel IH]; intros l l' W; split; simpl;
    try discriminate; intros H.
  - split_if H; [inv_ok H; exact W|].
    bind_inv H as rest R. destruct (utf8.DecodeRuneInString rest) as [c w].
    cbv zeta in H.
    match type of H with
    | skipSpace fuel (addToTag ?y) = _ => set (x := y) in H
    end.
    destruct (IH (addToTag x) l') as [_ K]; [|exact (K H)].
    destruct (addToTag_fields x) as (_ & _ & _ & _ & _ & A).
    rewrite A. unfold x. destruct (c =? charNewline); cbn; lia.
  - bind_inv H as both E. destruct both.
    + match type of H with
      | next fuel ?y = _ => destruct (IH y l') as [K _]; [|exact (K H)]
      end.
      destruct (char l =? charNewline); cbn; lia.
    + split_if H.
      * bind_inv H as before S1. bind_inv H as after S2. inv_ok H.
        destruct (char l =? charNewline); cbn; exact W.
      * inv_ok H. exact W.
Qed.

Lemma steps_skipped (s : gostring) (l : lexer) :
  steps (lex s) l -> 0 <= skippedSpace l.
Proof.
  apply (steps_Q (fun l => 0 <= skippedSpace l)); try (intros; assumption).
  - intros fuel x x' W H.
    destruct (next_skipSpace_skipped fuel x x' W) as [K _]. exact (K H).
  - intros x x' W H. unfold backup in H. split_if H; [inv_ok H; exact W|].
    bind_inv H as before S1.
    destruct (utf8.DecodeLastRuneInString before) as [c w]. inv_ok H.
    destruct (char x =? charNewline); exact W.
  - cbn. lia.
Qed.

(** The indent of the token a lex function leaves is not negative when
    the count of skipped spaces is not. *)
Lemma runLex_indent (f : lexFn) (fuel : nat) (l l' : lexer) :
  0 <= skippedSpace l -> runLex f fuel l = Ok l' -> 0 <= indent (tok l').
Proof.
  intros W H. destruct f.
  - destruct (runLex_shape _ _ _ _ H) as [T | S].
    + cbn [runLex] in H. unfold lexGlobal in H. bind_inv H as l1 N.
      split_if H; [inv_ok H; cbn; lia|].
      assert (indent (tok l') = 0) as E
          by (repeat split_if H; try (bind_inv H as l2 K); inv_ok H;
              tok_solve).
      lia.
    + cbn [runLex] in H. unfold lexGlobal in H. bind_inv H as l1 N.
      split_if H; [inv_ok H; cbn; lia|].
      assert (indent (tok l') = 0) as E
          by (repeat split_if H; try (bind_inv H as l2 K); inv_ok H;
              tok_solve).
      lia.
  - cbn [runLex] in H. unfold lexText in H. bind_inv H as l1 N.
    pose proof (lexTextLoop_indent _ _ _ N eq_refl) as I.
    split_if H; inv_ok H; cbn; lia.
  - cbn [runLex] in H. unfold lexHeading in H.
    apply lexHeadingLoop_value in H; try reflexivity; [|cbn; lia].
    destruct H as (I & _). lia.
  - cbn [runLex] in H. unfold lexTerminator in H.
    bind_inv H as l1 K1. bind_inv H as l2 K2. inv_ok H. tok_facts.
    rewrite K2. cbn. lia.
  - cbn [runLex] in H. unfold lexTag in H. bind_inv H as l1 K1. inv_ok H.
    tok_facts. rewrite K1. cbn. lia.
  - cbn [runLex] in H. unfold lexOpeningSquare in H. bind_inv H as l1 K1.
    inv_ok H. tok_facts. rewrite K1. cbn. lia.
  - cbn [runLex] in H. unfold lexClosingSquare in H. bind_inv H as l1 K1.
    inv_ok H. tok_facts. rewrite K1. cbn. lia.
  - cbn [runLex] in H. unfold lexHypen in H.
    bind_inv H as l1 K1. bind_inv H as l2 K2. inv_ok H.
    assert (tok l2 = tok l1) as E
        by (split_if K2; [tok_facts; exact K2 | inv_ok K2; reflexivity]).
    tok_facts. cbn [tok set_ctx set_lexNext]. rewrite E, K1. cbn. exact W.
Qed.

Lemma steps_indent (s : gostring) (l : lexer) :
  steps (lex s) l -> 0 <= indent (tok l).
Proof.
  intros S.
  enough (0 <= skippedSpace l /\ 0 <= indent (tok l)) as [_ H] by exact H.
  induction S as [|fuel l l' running S IH H].
  - cbn. lia.
  - destruct IH as [W I].
    assert (forall fuel l l' running,
              0 <= skippedSpace l -> 0 <= indent (tok l) ->
              nextToken fuel l = Ok (running, l') ->
              0 <= skippedSpace l' /\ 0 <= indent (tok l')) as G.
    { clear. induction fuel as [|fuel IHf]; simpl; intros l l' running W I H;
        try discriminate.
      destruct (lexNext l) as [f|]; [|inv_ok H; auto].
      bind_inv H as l1 K.
      pose proof (runLex_indent _ _ _ _ W K) as I1.
      assert (0 <= skippedSpace l1) as W1.
      { revert K. apply (runLex_Q (fun l => 0 <= skippedSpace l));
          try (intros; assumption).
        - intros fu x x' Wx Hx.
          destruct (next_skipSpace_skipped fu x x' Wx) as [Kx _].
          exact (Kx Hx).
        - intros x x' Wx Hx. unfold backup in Hx.
          split_if Hx; [inv_ok Hx; exact Wx|].
          bind_inv Hx as before S1.
          destruct (utf8.DecodeLastRuneInString before) as [c w].
          inv_ok Hx. destruct (char x =? charNewline); exact Wx. }
      split_if H; [eapply IHf; eauto | inv_ok H; auto]. }
    eapply G; eauto.
Qed.

(** *** The parser builds documents, and panics in the lexer only *)

Lemma outcome_bind {A B : Type} (m : result A) (k : A -> result B)
      (Q : A -> Prop) (P : B -> Prop) (E : Prop) :
  outcome m Q E -> (forall a, Q a -> outcome (k a) P E) ->
  outcome (bind m k) P E.
Proof. destruct m as [a| |]; simpl; auto. Qed.

Lemma outcome_impl {A : Type} (r : result A) (P Q : A -> Prop) (E : Prop) :
  outcome r P E -> (forall a, P a -> Q a) -> outcome r Q E.
Proof. destruct r as [a| |]; simpl; auto. Qed.

Lemma isPrefixOf_app (a b : gostring) : isPrefixOf a (a ++ b) = true.
Proof.
  unfold isPrefixOf. rewrite firstn_app, Nat.sub_diag, firstn_all.
  cbn [firstn]. rewrite app_nil_r. apply streq_eq. reflexivity.
Qed.

Lemma firstIsItem_app (cs : list Node) (n : Node) :
  (cs <> [] -> firstIsItem cs = true) ->
  (cs = [] -> streq (NodeTyp n) nodeListItem = true) ->
  firstIsItem (cs ++ [n]) = true.
Proof.
  destruct cs as [|c cs]; cbn; intros H1 H2.
  - apply H2. reflexivity.
  - apply H1. discriminate.
Qed.

Lemma tagNode_inline (p : parser) (cs : list Node) :
  forallb inlineNode cs = true ->
  inlineNode (mkNode (fst (tagNode p)) (snd (tagNode p)) cs) = true.
Proof.
  intros F. unfold tagNode.
  destruct (streq (Val (cur p)) (str "bold"));
    [cbn [fst snd inlineNode]; rewrite F; reflexivity|].
  destruct (streq (Val (cur p)) (str "italic"));
    [cbn [fst snd inlineNode]; rewrite F; reflexivity|].
  cbn [fst snd inlineNode]. change (streq nodeError nodeText) with false.
  change (streq nodeError nodeBoldTag || streq nodeError nodeItalicTag)
    with false.
  cbv iota. rewrite (app_assoc errInvalidTag), isPrefixOf_app, F.
  reflexivity.
Qed.

Lemma headingNode_block (p : parser) (cs : list Node) :
  forallb inlineNode cs = true ->
  blockNode (mkNode (fst (headingNode p)) (snd (headingNode p)) cs) = true.
Proof.
  intros F. unfold headingNode. cbv zeta.
  repeat match goal with
         | |- context [if streq (Val (cur p)) ?v then _ else _] =>
           destruct (streq (Val (cur p)) v);
             [cbn [fst snd blockNode]; rewrite F; reflexivity|]
         end.
  cbn [fst snd]. unfold blockNode.
  change (streq nodeError nodeList) with false. cbv iota.
  rewrite F, (app_assoc errInvalidHeading), isPrefixOf_app. reflexivity.
Qed.

Lemma isListNode_block (n : Node) : isListNode n = true -> blockNode n = true.
Proof.
  unfold isListNode. intros H. apply andb_true_iff in H.
  destruct H as [L T]. destruct n as [t v cs]. cbn [NodeTyp] in T.
  unfold blockNode. rewrite T. exact L.
Qed.

Lemma isListNode_list (n : Node) : isListNode n = true -> listNode n = true.
Proof.
  unfold isListNode. intros H. apply andb_true_iff in H. apply H.
Qed.

Lemma list_closed (cs : list Node) :
  forallb listNode cs = true -> firstIsItem cs = true ->
  isListNode (mkNode nodeList [] cs) = true.
Proof.
  intros F I. unfold isListNode. cbn [NodeTyp listNode].
  change (streq nodeList nodeListItem) with false. cbv iota.
  rewrite F, I. reflexivity.
Qed.

Lemma inline_merge (cs : list Node) (x : gostring) :
  forallb inlineNode cs = true ->
  streq (NodeTyp (last cs noNode)) nodeText = true ->
  forallb inlineNode (appendToLastVal cs x) = true.
Proof.
  intros F L. destruct (last_Text_split _ L) as (cs0 & t & v & c & -> & T).
  rewrite appendToLastVal_snoc. rewrite forallb_app in F |- *.
  apply andb_true_iff in F. destruct F as [F0 F1]. rewrite F0.
  cbn [forallb inlineNode andb] in F1 |- *. rewrite T in F1 |- *.
  rewrite andb_true_r in F1 |- *. apply andb_true_iff in F1.
  destruct F1 as [V C]. rewrite C, andb_true_r.
  apply negb_true_iff. apply negb_true_iff in V.
  destruct v; [discriminate | reflexivity].
Qed.

Lemma isOneOf_one (p : parser) (t : tokenType) :
  isOneOf p [t] = true <-> Typ (cur p) = t.
Proof.
  unfold isOneOf. cbn [existsb]. rewrite orb_false_r.
  destruct (Typ (cur p)), t; cbn; split; congruence.
Qed.

Section Building.

Variable s : gostring.

Lemma steps_shape (l : lexer) :
  steps (lex s) l -> Typ (tok l) = typeNone \/ tokenShape (tok l) = true.
Proof.
  induction 1 as [|fuel l l' running S IH H]; [left; reflexivity|].
  destruct (nextToken_eof _ _ _ _ H) as [(R & _) | (R & E & _)]; subst.
  - right. eapply nextToken_shape; eauto.
  - exact IH.
Qed.

Lemma parser_nextToken_outcome (fuel : nat) (p : parser) :
  steps (lex s) (lexer_ p) ->
  outcome (parser_nextToken fuel p)
          (fun p' => steps (lex s) (lexer_ p') /\ path p' = path p /\
                     isNil p' = isNil p)
          (lexerPanics s).
Proof.
  intros S. unfold parser_nextToken.
  destruct (nextToken fuel (lexer_ p)) as [[r l']| |] eqn:N; cbn.
  - split; [eapply steps_next; eauto | auto].
  - exists (lexer_ p), fuel. auto.
  - exact I.
Qed.

Lemma next_building (fuel : nat) (good : Node -> bool) (f : frame)
      (rest : list frame) (p : parser) :
  building s good f rest p ->
  outcome (parser_nextToken fuel p) (building s good f rest) (lexerPanics s).
Proof.
  intros (N & S & cs & P & F).
  eapply outcome_impl; [apply parser_nextToken_outcome; exact S|].
  intros p' (S' & P' & N'). split; [congruence|]. split; [exact S'|].
  exists cs. rewrite P'. auto.
Qed.

Lemma parseText_inline (p : parser) (f : frame) (rest : list frame) :
  building s inlineNode f rest p -> Typ (cur p) = typeText ->
  exists p', parseText p = Ok p' /\ building s inlineNode f rest p'.
Proof.
  intros (N & S & cs & P & F) T.
  unfold parseText, previousSibling. rewrite N, P. cbn [bind fChildren].
  fold noNode.
  destruct (streq (NodeTyp (last cs noNode)) nodeText) eqn:L.
  - eexists. split; [reflexivity|]. split; [exact N|]. split; [exact S|].
    eexists. split; [reflexivity|]. apply inline_merge; assumption.
  - unfold addNewNode, returnNode. rewrite N. cbn [bind].
    cbn [isNil set_path path]. rewrite N, P.
    eexists. split; [reflexivity|]. split; [exact N|]. split; [exact S|].
    eexists. split; [reflexivity|]. unfold addChild.
    cbn [fChildren fTyp fVal]. rewrite forallb_app, F.
    unfold close. cbn [fChildren fTyp fVal forallb inlineNode andb].
    change (streq nodeText nodeText) with true. cbv iota.
    rewrite !andb_true_r. apply negb_true_iff.
    destruct (steps_shape _ S) as [K | K]; unfold cur in T;
      [congruence|].
    unfold tokenShape in K. rewrite T in K.
    apply andb_true_iff in K. destruct K as [K _].
    apply negb_true_iff in K. exact K.
Qed.

Lemma added_building (good : Node -> bool) (f : frame) (rest : list frame)
      (cs : list Node) (p : parser) :
  forallb good cs = true ->
  added s good (mkFrame (fTyp f) (fVal f) cs) rest p ->
  building s good f rest p.
Proof.
  intros F (N & S & n & P & G). split; [exact N|]. split; [exact S|].
  exists (cs ++ [n]). split; [exact P|].
  rewrite forallb_app, F. cbn. rewrite G. reflexivity.
Qed.

Lemma returnNode_added (good : Node -> bool) (typ val : gostring)
      (f : frame) (rest : list frame) (p : parser) :
  building s inlineNode (mkFrame typ val []) (f :: rest) p ->
  (forall cs, forallb inlineNode cs = true ->
              good (mkNode typ val cs) = true) ->
  exists p', returnNode p = Ok p' /\ added s good f rest p'.
Proof.
  intros (N & S & cs & P & F) G. unfold returnNode. rewrite N, P.
  eexists. split; [reflexivity|]. split; [exact N|]. split; [exact S|].
  eexists. split; [reflexivity|]. apply G. exact F.
Qed.

Lemma richText_outcome (fuel : nat) :
  forall p f rest,
    building s inlineNode f rest p ->
    outcome (parseRichText fuel p) (building s inlineNode f rest)
            (lexerPanics s) /\
    outcome (parseTag fuel p) (building s inlineNode f rest)
            (lexerPanics s).
Proof.
  induction fuel as [|fuel IH]; intros p f rest Bd;
    [split; exact I|].
  split.
  - cbn [parseRichText].
    destruct (isOneOf p [typeBulletpoint; typeTerminator; typeEOF]);
      [exact Bd|].
    assert (forall q, building s inlineNode f rest q ->
              outcome (q1 <- parser_nextToken fuel q ;;
                       parseRichText fuel q1)
                      (building s inlineNode f rest) (lexerPanics s))
      as Cont.
    { intros q Bq. eapply outcome_bind; [apply next_building; exact Bq|].
      intros q1 B1. apply IH. exact B1. }
    destruct (Typ (cur p)) eqn:T; try (apply Cont; exact Bd).
    + destruct (parseText_inline p f rest Bd T) as (p1 & E & B1).
      rewrite E. cbn [bind]. apply Cont. exact B1.
    + eapply outcome_bind; [apply IH; exact Bd|].
      intros p1 B1. cbv beta.
      destruct ((0 <? tagDepth p1) &&
                isOneOf p1 [typeBulletpoint; typeTerminator]);
        [exact B1 | apply Cont; exact B1].
    + destruct (0 <? tagDepth p); [exact Bd | apply Cont; exact Bd].
  - cbn [parseTag]. destruct Bd as (N & S & cs & P & F).
    unfold addNewNode. rewrite N. cbn [bind].
    set (p1 := set_path p
                 (mkFrame (fst (tagNode p)) (snd (tagNode p)) [] :: path p)).
    assert (building s inlineNode
              (mkFrame (fst (tagNode p)) (snd (tagNode p)) [])
              (mkFrame (fTyp f) (fVal f) cs :: rest) p1) as B1.
    { split; [exact N|]. split; [exact S|]. exists [].
      unfold p1. cbn. rewrite P. auto. }
    eapply outcome_bind; [apply next_building; exact B1|].
    intros p2 B2. cbv beta.
    assert (building s inlineNode
              (mkFrame (fst (tagNode p)) (snd (tagNode p)) [])
              (mkFrame (fTyp f) (fVal f) cs :: rest)
              (set_tagDepth p2 (tagDepth p2 + 1))) as B2' by exact B2.
    eapply outcome_bind; [apply IH; exact B2'|].
    intros p3 B3. cbv beta.
    destruct (returnNode_added inlineNode _ _ _ _ _ B3 (tagNode_inline p))
      as (p4 & E & A).
    rewrite E. cbn [outcome].
    apply (added_building inlineNode f rest cs p4 F). exact A.
Qed.

Lemma wrapped_outcome (fuel : nat) (good : Node -> bool)
      (typ val : gostring) (p : parser) (f : frame) (rest : list frame) :
  isNil p = false -> steps (lex s) (lexer_ p) -> path p = f :: rest ->
  (forall cs, forallb inlineNode cs = true ->
              good (mkNode typ val cs) = true) ->
  outcome (q <- addNewNode p typ val ;; q <- parseRichText fuel q ;;
           returnNode q)
          (added s good f rest) (lexerPanics s).
Proof.
  intros N S P G. unfold addNewNode. rewrite N. cbn [bind].
  assert (building s inlineNode (mkFrame typ val []) (f :: rest)
            (set_path p (mkFrame typ val [] :: path p))) as B1.
  { split; [exact N|]. split; [exact S|]. exists []. cbn. rewrite P. auto. }
  eapply outcome_bind; [apply richText_outcome; exact B1|].
  intros p2 B2. cbv beta.
  destruct (returnNode_added good _ _ _ _ _ B2 G) as (p3 & E & A).
  rewrite E. exact A.
Qed.

Lemma parseHeading_outcome (fuel : nat) (p : parser) (f : frame)
      (rest : list frame) :
  isNil p = false -> steps (lex s) (lexer_ p) -> path p = f :: rest ->
  outcome (parseHeading fuel p) (added s blockNode f rest) (lexerPanics s).
Proof.
  intros N S P. unfold parseHeading, addNewNode. rewrite N. cbn [bind].
  assert (building s inlineNode
            (mkFrame (fst (headingNode p)) (snd (headingNode p)) [])
            (f :: rest)
            (set_path p
               (mkFrame (fst (headingNode p)) (snd (headingNode p)) []
                :: path p))) as B1.
  { split; [exact N|]. split; [exact S|]. exists []. cbn. rewrite P. auto. }
  eapply outcome_bind; [apply next_building; exact B1|].
  intros p2 B2. cbv beta.
  eapply outcome_bind; [apply richText_outcome; exact B2|].
  intros p3 B3. cbv beta.
  destruct (returnNode_added blockNode _ _ _ _ _ B3 (headingNode_block p))
    as (p4 & E & A).
  rewrite E. exact A.
Qed.

Lemma listItem_good (cs : list Node) :
  forallb inlineNode cs = true ->
  (fun n => listNode n && streq (NodeTyp n) nodeListItem)
    (mkNode nodeListItem [] cs) = true.
Proof.
  intros F. cbn [listNode NodeTyp].
  change (streq nodeListItem nodeListItem) with true. cbv iota.
  rewrite F. reflexivity.
Qed.

Lemma returnNode_list (p : parser) (cs : list Node) (f : frame)
      (rest : list frame) :
  isNil p = false -> steps (lex s) (lexer_ p) ->
  path p = mkFrame nodeList [] cs :: f :: rest ->
  forallb listNode cs = true -> firstIsItem cs = true ->
  outcome (returnNode p) (added s isListNode f rest) (lexerPanics s).
Proof.
  intros N S P F I. unfold returnNode. rewrite N, P. cbn [outcome].
  split; [exact N|]. split; [exact S|]. eexists.
  split; [reflexivity|]. apply list_closed; assumption.
Qed.

Lemma parseList_outcome (fuel : nat) :
  forall p,
    isNil p = false -> steps (lex s) (lexer_ p) ->
    (forall d f rest,
       path p = f :: rest ->
       Typ (cur p) = typeBulletpoint -> d <= getListItemDepth (cur p) ->
       outcome (parseList fuel d p) (added s isListNode f rest)
               (lexerPanics s)) /\
    (forall cs f rest,
       path p = mkFrame nodeList [] cs :: f :: rest ->
       forallb listNode cs = true ->
       (cs = [] -> Typ (cur p) = typeBulletpoint) ->
       (cs <> [] -> firstIsItem cs = true) ->
       outcome (parseListLoop fuel p) (added s isListNode f rest)
               (lexerPanics s)).
Proof.
  induction fuel as [|fuel IH]; intros p N S; [split; intros; exact I|].
  split.
  - intros d f rest P T D. cbn [parseList].
    replace (getListItemDepth (cur p) <? d) with false
      by (symmetry; apply Z.ltb_ge; exact D).
    rewrite andb_false_r. unfold addNewNode. rewrite N. cbn [bind].
    destruct (IH (set_path p (mkFrame nodeList [] [] :: path p)) N S)
      as [_ K].
    apply (K [] f rest).
    + cbn. rewrite P. reflexivity.
    + reflexivity.
    + intros _. exact T.
    + intros C. contradiction C. reflexivity.
  - intros cs f rest P F E1 E2. cbn [parseListLoop].
    destruct (isOneOf p [typeBulletpoint]) eqn:B.
    + eapply outcome_bind; [apply parser_nextToken_outcome; exact S|].
      intros p1 (S1 & P1 & N1). cbv beta.
      rewrite P in P1. rewrite N in N1.
      eapply outcome_bind;
        [apply (wrapped_outcome fuel
                  (fun n => listNode n && streq (NodeTyp n) nodeListItem)
                  nodeListItem [] p1 _ _ N1 S1 P1 listItem_good)|].
      intros p2 (N2 & S2 & n & P2 & G2). cbv beta.
      apply andb_true_iff in G2. destruct G2 as [G2 G2'].
      set (q := set_tagDepth p2 0).
      set (d := getListItemDepth (cur p)).
      assert (isNil q = false) as Nq by exact N2.
      assert (steps (lex s) (lexer_ q)) as Sq by exact S2.
      assert (path q = mkFrame nodeList [] (cs ++ [n]) :: f :: rest) as Pq
          by exact P2.
      assert (forallb listNode (cs ++ [n]) = true) as Fq
          by (rewrite forallb_app, F; cbn; rewrite G2; reflexivity).
      assert (firstIsItem (cs ++ [n]) = true) as Iq
          by (apply firstIsItem_app; auto).
      assert (outcome
                (if isOneOf q [typeBulletpoint] &&
                    (d <? getListItemDepth (cur q))
                 then parseList fuel (getListItemDepth (cur q)) q
                 else Ok q)
                (fun p3 =>
                   isNil p3 = false /\ steps (lex s) (lexer_ p3) /\
                   exists cs3, path p3 = mkFrame nodeList [] cs3 :: f :: rest
                               /\ forallb listNode cs3 = true /\
                               firstIsItem cs3 = true)
                (lexerPanics s)) as Mid.
      { destruct (isOneOf q [typeBulletpoint] &&
                  (d <? getListItemDepth (cur q))) eqn:C.
        - apply andb_true_iff in C. destruct C as [C _].
          apply isOneOf_one in C.
          destruct (IH q Nq Sq) as [K _].
          eapply outcome_impl;
            [apply (K _ _ _ Pq C); lia|].
          intros p3 (N3 & S3 & m & P3 & G3).
          split; [exact N3|]. split; [exact S3|].
          exists ((cs ++ [n]) ++ [m]). split; [exact P3|]. split.
          + rewrite forallb_app, Fq. cbn.
            rewrite (isListNode_list _ G3). reflexivity.
          + apply firstIsItem_app; [intros _; exact Iq|].
            intros C0. destruct cs; discriminate.
        - cbn [outcome]. split; [exact Nq|]. split; [exact Sq|].
          exists (cs ++ [n]). auto. }
      eapply outcome_bind; [exact Mid|].
      intros p3 (N3 & S3 & cs3 & P3 & F3 & I3). cbv beta.
      destruct (isOneOf p3 [typeBulletpoint] &&
                (getListItemDepth (cur p3) <? d)).
      * eapply returnNode_list; eauto.
      * destruct (IH p3 N3 S3) as [_ K].
        apply (K cs3 f rest P3 F3).
        -- intros C0. rewrite C0 in I3. discriminate.
        -- intros _. exact I3.
    + destruct cs as [|c cs].
      * specialize (E1 eq_refl). apply isOneOf_one in E1.
        rewrite E1 in B. discriminate.
      * eapply returnNode_list; eauto. apply E2. discriminate.
Qed.

Lemma depth_nonneg (l : lexer) :
  steps (lex s) l -> 0 <= getListItemDepth (tok l).
Proof.
  intros S. pose proof (steps_indent s l S) as I.
  unfold getListItemDepth, INDENT_WIDTH. apply Z.quot_pos; lia.
Qed.

Lemma parseGlobalLoop_outcome (fuel : nat) :
  forall p,
    building s blockNode (mkFrame nodeRoot [] []) [] p ->
    outcome (parseGlobalLoop fuel p)
            (fun p' => building s blockNode (mkFrame nodeRoot [] []) [] p' /\
                       Typ (cur p') = typeEOF)
            (lexerPanics s).
Proof.
  induction fuel as [|fuel IH]; intros p Bd; [exact I|].
  cbn [parseGlobalLoop].
  destruct (isOneOf p [typeEOF]) eqn:E.
  { cbn [outcome]. split; [exact Bd|]. apply isOneOf_one. exact E. }
  pose proof Bd as (N & S & cs & P & F).
  assert (outcome
            match Typ (cur p) with
            | typeHeading => parseHeading fuel p
            | typeBulletpoint => parseList fuel 0 p
            | _ => parseParagraph fuel p
            end
            (building s blockNode (mkFrame nodeRoot [] []) [])
            (lexerPanics s)) as Block.
  { assert (outcome (parseParagraph fuel p)
              (building s blockNode (mkFrame nodeRoot [] []) [])
              (lexerPanics s)) as Par.
    { eapply outcome_impl;
        [apply (wrapped_outcome fuel blockNode nodeParagraph [] p _ _
                  N S P)|].
      - intros cs0 F0. unfold blockNode.
        change (streq nodeParagraph nodeList) with false. cbv iota.
        rewrite F0. reflexivity.
      - intros p1 A.
        apply (added_building blockNode (mkFrame nodeRoot [] []) [] cs p1 F).
        exact A. }
    destruct (Typ (cur p)) eqn:T; try exact Par.
    - eapply outcome_impl; [apply (parseHeading_outcome fuel p _ _ N S P)|].
      intros p1 A.
      apply (added_building blockNode (mkFrame nodeRoot [] []) [] cs p1 F).
      exact A.
    - destruct (parseList_outcome fuel p N S) as [K _].
      eapply outcome_impl;
        [apply (K 0 _ _ P T); unfold cur; apply depth_nonneg; exact S|].
      intros p1 (N1 & S1 & n & P1 & G1).
      apply (added_building blockNode (mkFrame nodeRoot [] []) [] cs p1 F).
      split; [exact N1|]. split; [exact S1|]. exists n.
      split; [exact P1|]. apply isListNode_block. exact G1. }
  eapply outcome_bind; [exact Block|].
  intros p1 B1. cbv beta.
  eapply outcome_bind; [apply next_building; exact B1|].
  intros p2 B2. apply IH. exact B2.
Qed.

Lemma parseGlobal_outcome (fuel : nat) :
  outcome (parseGlobal fuel (newParser s))
          (fun p' => building s blockNode (mkFrame nodeRoot [] []) [] p' /\
                     Typ (cur p') = typeEOF)
          (lexerPanics s).
Proof.
  unfold parseGlobal.
  assert (building s blockNode (mkFrame nodeRoot [] []) []
            (set_tagDepth (newParser s) 0)) as B0.
  { split; [reflexivity|]. split; [apply steps_refl|]. exists []. auto. }
  eapply outcome_bind; [apply next_building; exact B0|].
  intros p1 B1. apply parseGlobalLoop_outcome. exact B1.
Qed.

End Building.

(** X5. Every tree [Parse] returns is a document of the grammar: the Root,
    without value, over blocks; a block is a heading with its literal as
    value, an Error node with the message for an invalid heading, a
    Paragraph or a List; headings, paragraphs, list items and tags hold
    rich text, that is Text leaves whose value is not empty, bold and
    italic tags and Error nodes with the message for an unknown tag; a
    List holds list items and Lists and starts with a list item. *)
Theorem Parse_builds_documents (fuel : nat) (s : gostring) (t : Node) :
  Parse fuel s = Ok t -> document t = true.
Proof.
  intros H. unfold Parse in H. fold (newParser s) in H.
  pose proof (parseGlobal_outcome s fuel) as O.
  destruct (parseGlobal fuel (newParser s)) as [p| |]; try discriminate.
  cbn [bind] in H. inv_ok H.
  destruct O as ((N & S & cs & P & F) & _).
  unfold tree. rewrite P. cbn. exact F.
Qed.

(** X6. The parser itself never panics: when [Parse] panics, a call of
    [nextToken] has panicked, in a state of the lexer reached from
    [lex s] by the calls before it. No operation on the tree fails. *)
Theorem Parse_panics_in_the_lexer_only (fuel : nat) (s : gostring) :
  Parse fuel s = Panic ->
  exists l fuel', steps (lex s) l /\ nextToken fuel' l = Panic.
Proof.
  intros H. unfold Parse in H. fold (newParser s) in H.
  pose proof (parseGlobal_outcome s fuel) as O.
  destruct (parseGlobal fuel (newParser s)) as [p| |]; try discriminate.
  exact O.
Qed.

(** X7. [Parse] returns only when the lexer has delivered the end-of-input
    token: the parser's current token is that token, and it stands at
    the end of the input, where the lexer is as well. *)
Theorem Parse_reads_the_input_to_its_end (fuel : nat) (s : gostring)
        (t : Node) :
  Parse fuel s = Ok t ->
  exists p,
    parseGlobal fuel (newParser s) = Ok p /\ t = tree p /\
    Typ (cur p) = typeEOF /\ Pos (cur p) = len s /\
    pos (lexer_ p) = len s.
Proof.
  intros H. unfold Parse in H. fold (newParser s) in H.
  pose proof (parseGlobal_outcome s fuel) as O.
  destruct (parseGlobal fuel (newParser s)) as [p| |]; try discriminate.
  cbn [bind] in H. inv_ok H. exists p.
  destruct O as ((N & S & _) & T).
  destruct (steps_within s _ S) as (_ & E).
  pose proof (steps_rewritten _ _ S) as (L & _). cbn [input lex] in L.
  destruct (E T) as [E1 E2]. unfold cur, len in *. rewrite L in *. auto.
Qed.

(** *** The sanitised slices of the highlighter *)

Lemma Repeat_spaceless (n : nat) : spaceless (Repeat nbsp n) = true.
Proof.
  induction n as [|n IH]; [reflexivity|].
  cbn [Repeat]. unfold spaceless in *. rewrite forallb_app, IH. reflexivity.
Qed.

Lemma Repeat_oneLine (n : nat) : oneLine (Repeat nbsp n) = true.
Proof.
  induction n as [|n IH]; [reflexivity|].
  cbn [Repeat]. unfold oneLine in *. rewrite forallb_app, IH. reflexivity.
Qed.

Lemma Repeat_nonempty (n : nat) : (1 <= n)%nat -> Repeat nbsp n <> [].
Proof. destruct n; [lia | discriminate]. Qed.

Lemma singleSpaced_cons (a : byte) (o : gostring) :
  reSpace a = false \/ reSpace (hd x00 o) = false ->
  singleSpaced o = true -> singleSpaced (a :: o) = true.
Proof.
  intros H S. destruct o as [|b o]; [reflexivity|].
  cbn [singleSpaced hd] in *. rewrite S, andb_true_r.
  apply negb_true_iff, andb_false_iff. exact H.
Qed.

Lemma singleSpaced_app (x o : gostring) :
  spaceless x = true -> singleSpaced o = true ->
  singleSpaced (x ++ o) = true.
Proof.
  intros X S. induction x as [|a x IH]; [exact S|].
  cbn [spaceless forallb] in X. apply andb_true_iff in X.
  destruct X as [A X]. apply negb_true_iff in A.
  cbn [app]. apply singleSpaced_cons; [left; exact A | apply IH; exact X].
Qed.

Lemma last_app_spaceless (x o : gostring) :
  spaceless x = true -> reSpace (last o x00) = false ->
  reSpace (last (x ++ o) x00) = false.
Proof.
  intros X L. induction x as [|a x IH]; [exact L|].
  cbn [spaceless forallb] in X. apply andb_true_iff in X.
  destruct X as [A X]. apply negb_true_iff in A. specialize (IH X).
  cbn [app]. destruct (x ++ o) eqn:E; [exact A | exact IH].
Qed.

Lemma hd_app_spaceless (x o : gostring) :
  spaceless x = true -> x <> [] -> reSpace (hd x00 (x ++ o)) = false.
Proof.
  intros X N. destruct x as [|a x]; [congruence|].
  cbn [spaceless forallb] in X. apply andb_true_iff in X.
  destruct X as [A _]. apply negb_true_iff in A. exact A.
Qed.

Lemma spaceRun_bounds (s : gostring) : (spaceRun s <= List.length s)%nat.
Proof.
  induction s as [|b s IH]; cbn; [lia|]. destruct (reSpace b); cbn; lia.
Qed.

Lemma matchAt_Some (atStart : bool) (b : byte) (t : gostring) (n : nat) :
  matchAt atStart (b :: t) = Some n ->
  (1 <= n <= List.length (b :: t))%nat.
Proof.
  unfold matchAt. destruct (reSpace b) eqn:B; [|discriminate].
  destruct atStart.
  - intros H. inv_ok H. cbn. lia.
  - destruct t as [|c t].
    + intros H. inv_ok H. cbn. lia.
    + destruct (reSpace c) eqn:C; [|discriminate]. intros H. inv_ok H.
      pose proof (spaceRun_bounds (b :: c :: t)) as L.
      cbn [spaceRun] in *. rewrite B in *. lia.
Qed.

Lemma matchAt_None (atStart : bool) (b : byte) (t : gostring) :
  matchAt atStart (b :: t) = None -> reSpace b = true ->
  atStart = false /\ t <> [] /\ reSpace (hd x00 t) = false.
Proof.
  unfold matchAt. intros H B. rewrite B in H.
  destruct atStart; [discriminate|]. split; [reflexivity|].
  destruct t as [|c t]; [discriminate|]. split; [discriminate|].
  cbn [hd]. destruct (reSpace c); [discriminate | reflexivity].
Qed.

(** What replacing the matches leaves: white space only as single
    characters inside the string. *)
Lemma replaceAllSpace_tidy (fuel : nat) :
  forall atStart s,
    (List.length s <= fuel)%nat ->
    let o := replaceAllSpace fuel atStart s
               (fun m => Repeat nbsp (List.length m)) in
    singleSpaced o = true /\ reSpace (last o x00) = false /\
    (s <> [] -> o <> []) /\
    (reSpace (hd x00 s) = false \/ atStart = true ->
     reSpace (hd x00 o) = false).
Proof.
  induction fuel as [|fuel IH]; intros atStart s L o.
  - destruct s; [|cbn in L; lia]. subst o. cbn. repeat split; auto.
  - destruct s as [|b t]; [subst o; cbn; repeat split; auto|].
    subst o. cbn [replaceAllSpace].
    destruct (matchAt atStart (b :: t)) as [n|] eqn:M.
    + pose proof (matchAt_Some _ _ _ _ M) as Bn.
      assert (List.length (firstn n (b :: t)) = n) as Ln
          by (rewrite length_firstn; lia).
      rewrite Ln.
      destruct (IH false (skipn n (b :: t))) as (S1 & S2 & _ & _).
      { rewrite length_skipn. cbn [List.length] in *. lia. }
      pose proof (Repeat_spaceless n) as C.
      pose proof (Repeat_nonempty n ltac:(lia)) as NE.
      split; [apply singleSpaced_app; assumption|].
      split; [apply last_app_spaceless; assumption|].
      split.
      * intros _ E. apply app_eq_nil in E. destruct E as [E _].
        contradiction.
      * intros _. apply hd_app_spaceless; assumption.
    + destruct (IH false t) as (S1 & S2 & S3 & S4).
      { cbn [List.length] in L. lia. }
      destruct (reSpace b) eqn:B.
      * destruct (matchAt_None _ _ _ M B) as (A & Nt & Ht).
        specialize (S3 Nt). specialize (S4 (or_introl Ht)).
        split; [apply singleSpaced_cons; auto|].
        split.
        { cbn [last].
          destruct (replaceAllSpace fuel false t _) eqn:E;
            [contradiction S3; reflexivity | exact S2]. }
        split; [discriminate|].
        intros [F | F]; [cbn in F; congruence | congruence].
      * split; [apply singleSpaced_cons; auto|].
        split.
        { cbn [last].
          destruct (replaceAllSpace fuel false t _) eqn:E;
            [exact B | exact S2]. }
        split; [discriminate|]. intros _. exact B.
Qed.

Lemma oneLine_firstn (n : nat) (s : gostring) :
  oneLine s = true -> oneLine (firstn n s) = true.
Proof.
  revert n. induction s as [|b s IH]; intros [|n] H; try reflexivity.
  cbn [firstn oneLine forallb] in *. apply andb_true_iff in H.
  destruct H as [H1 H2]. rewrite H1. apply IH. exact H2.
Qed.

Lemma oneLine_skipn (n : nat) (s : gostring) :
  oneLine s = true -> oneLine (skipn n s) = true.
Proof.
  revert n. induction s as [|b s IH]; intros [|n] H; try reflexivity;
    [exact H|].
  cbn [skipn]. apply IH. cbn [oneLine forallb] in H.
  apply andb_true_iff in H. apply H.
Qed.

Lemma oneLine_app (a b : gostring) :
  oneLine (a ++ b) = oneLine a && oneLine b.
Proof. apply forallb_app. Qed.

Lemma replaceAllSpace_oneLine (fuel : nat) :
  forall atStart s,
    oneLine s = true ->
    oneLine (replaceAllSpace fuel atStart s
               (fun m => Repeat nbsp (List.length m))) = true.
Proof.
  induction fuel as [|fuel IH]; intros atStart s H; [exact H|].
  destruct s as [|b t]; [reflexivity|]. cbn [replaceAllSpace].
  destruct (matchAt atStart (b :: t)) as [n|].
  - rewrite oneLine_app, Repeat_oneLine. apply IH.
    apply oneLine_skipn. exact H.
  - cbn [oneLine forallb] in *. apply andb_true_iff in H.
    destruct H as [H1 H2]. rewrite H1. apply IH. exact H2.
Qed.

Lemma ReplaceAll_oneLine (s : gostring) :
  oneLine (ReplaceAll s x0a (str "<br>")) = true.
Proof.
  induction s as [|b s IH]; [reflexivity|]. cbn [ReplaceAll].
  rewrite oneLine_app, IH, andb_true_r.
  destruct (Byte.eqb b x0a) eqn:E; [reflexivity|].
  cbn. rewrite E. reflexivity.
Qed.

Lemma slice_cases (s : gostring) (a b : Z) :
  (0 <= a <= b /\ b <= len s ->
   slice s a b = Ok (firstn (Z.to_nat (b - a)) (skipn (Z.to_nat a) s))) /\
  (~ (0 <= a <= b /\ b <= len s) -> slice s a b = Panic).
Proof.
  unfold slice. split; intros H.
  - replace (0 <=? a) with true by (symmetry; apply Z.leb_le; lia).
    replace (a <=? b) with true by (symmetry; apply Z.leb_le; lia).
    replace (b <=? len s) with true by (symmetry; apply Z.leb_le; lia).
    reflexivity.
  - destruct ((0 <=? a) && (a <=? b) && (b <=? len s)) eqn:E;
      [|reflexivity].
    exfalso. apply H.
    repeat (apply andb_true_iff in E; destruct E as [E ?]).
    apply Z.leb_le in E. apply Z.leb_le in H0. apply Z.leb_le in H1. lia.
Qed.

(** X8. [htmlSanitiseSlice] panics exactly when the bounds are not a slice
    of the input; otherwise it returns one line of text in which white
    space is left only as single characters between other characters:
    the result has no newline, neither starts nor ends with a
    white-space character, and has no two of them side by side. *)
Theorem htmlSanitiseSlice_tidies (input : gostring) (a b : Z) :
  (0 <= a <= b /\ b <= len input ->
   exists o, htmlSanitiseSlice input a b = Ok o /\
             oneLine o = true /\ tidy o = true) /\
  (~ (0 <= a <= b /\ b <= len input) ->
   htmlSanitiseSlice input a b = Panic).
Proof.
  destruct (slice_cases input a b) as [S1 S2]. unfold htmlSanitiseSlice.
  split; intros H.
  - rewrite (S1 H). cbn [bind]. eexists. split; [reflexivity|].
    split; [apply replaceAllSpace_oneLine, ReplaceAll_oneLine|].
    match goal with
    | |- tidy (replaceAllSpace ?n true ?s _) = true =>
      destruct (replaceAllSpace_tidy n true s (Nat.le_refl _))
        as (T1 & T2 & _ & T4)
    end.
    unfold tidy. rewrite T1, T2, T4; auto.
  - rewrite (S2 H). reflexivity.
Qed.

(** *** The highlighted text *)

Lemma htmlSanitiseSlice_oneLine (input : gostring) (a b : Z) (o : gostring) :
  htmlSanitiseSlice input a b = Ok o -> oneLine o = true.
Proof.
  unfold htmlSanitiseSlice. intros H. bind_inv H as x K. inv_ok H.
  apply replaceAllSpace_oneLine, ReplaceAll_oneLine.
Qed.

Lemma highlight_oneLine (typ : tokenType) (x : gostring) :
  oneLine x = true -> oneLine (highlight typ x) = true.
Proof.
  intros H. unfold highlight, span.
  destruct typ; try exact H; rewrite !oneLine_app, H; reflexivity.
Qed.

Lemma highlightLoop_oneLine (fuel : nat) (input : gostring) :
  forall l prev acc o,
    oneLine acc = true -> highlightLoop fuel input l prev acc = Ok o ->
    oneLine o = true.
Proof.
  induction fuel as [|fuel IH]; intros l prev acc o A H; [discriminate|].
  cbn [highlightLoop] in H. bind_inv H as r K. destruct r as [running l1].
  destruct running; [|inv_ok H; exact A].
  split_if H; [eapply IH; eauto|].
  bind_inv H as piece Pc. apply htmlSanitiseSlice_oneLine in Pc.
  eapply IH; [|exact H].
  rewrite oneLine_app, A. apply highlight_oneLine. exact Pc.
Qed.

(** X9. The highlighted text is one line: whatever the input, the text
    [HighlightText] returns holds no newline (each newline of a piece
    of the input is written as [<br>]). *)
Theorem HighlightText_is_one_line (fuel : nat) (input o : gostring) :
  HighlightText fuel input = Ok o -> oneLine o = true.
Proof.
  unfold HighlightText. apply highlightLoop_oneLine. reflexivity.
Qed.

(** *** The HTML of a tree *)

Lemma Node_induction (P : Node -> Prop) :
  (forall t v cs, Forall P cs -> P (mkNode t v cs)) -> forall n, P n.
Proof.
  intros H. fix IH 1. intros [t v cs]. apply H.
  revert cs. fix IHcs 1. intros [|c cs].
  - constructor.
  - constructor; [apply IH | apply IHcs].
Qed.

Lemma toHtml_nil (t v : gostring) (s : gostring) (c : htmlCtxType) :
  toHtml (mkNode t v []) s c = s.
Proof. reflexivity. Qed.

Lemma toHtml_cons (t v : gostring) (child : Node) (cs : list Node)
      (s : gostring) (c : htmlCtxType) :
  toHtml (mkNode t v (child :: cs)) s c =
  toHtml (mkNode t v cs) (renderChild child s c)
         (if streq (NodeTyp child) nodeParagraph then htmlCtxNone
          else if streq (NodeTyp child) nodeParagraph then htmlCtxParagraph
               else c).
Proof. reflexivity. Qed.

Lemma toHtml_any_context (n : Node) :
  forall s c c', toHtml n s c = toHtml n s c'.
Proof.
  induction n as [t v cs F] using Node_induction.
  induction F as [|child cs Hc F IH]; intros s c c'; [reflexivity|].
  rewrite !toHtml_cons.
  assert (renderChild child s c = renderChild child s c') as E.
  { unfold renderChild. cbv zeta.
    destruct (Children child); [reflexivity|].
    f_equal. f_equal. apply Hc. }
  rewrite E. apply IH.
Qed.

Lemma toHtml_any_parent (t v t' v' : gostring) (cs : list Node) :
  forall s c, toHtml (mkNode t v cs) s c = toHtml (mkNode t' v' cs) s c.
Proof.
  induction cs as [|child cs IH]; intros s c; [reflexivity|].
  rewrite !toHtml_cons. apply IH.
Qed.

(** X10. [toHtml] writes the children of a node one after the other, each
    one onto what the ones before it have left, and nothing else: the
    kind and the value of the node itself, and the context, do not
    show in the output. A child without children adds its opening tag,
    its value and a space when it is of kind Text, and its closing tag;
    a child with children adds its opening tag, then the HTML of its
    children, then all white space at both ends of the whole string is
    trimmed away, and the closing tag is added. *)
Theorem toHtml_writes_the_children_in_order :
  (forall t v t' v' a b s c c',
     toHtml (mkNode t v (a ++ b)) s c =
     toHtml (mkNode t' v' b) (toHtml (mkNode t v a) s c) c') /\
  (forall t v k x s c,
     toHtml (mkNode t v [mkNode k x []]) s c =
     s ++ openingTag k ++
     (if streq k nodeText then x ++ str " " else []) ++ closingTag k) /\
  (forall t v k x d ds s c c',
     toHtml (mkNode t v [mkNode k x (d :: ds)]) s c =
     TrimSpace
       (toHtml (mkNode k x (d :: ds))
          (s ++ openingTag k ++
           (if streq k nodeText then x ++ str " " else [])) c')
     ++ closingTag k).
Proof.
  split; [|split].
  - intros t v t' v' a. induction a as [|child a IH]; intros b s c c'.
    + cbn [app]. rewrite toHtml_nil.
      rewrite (toHtml_any_parent t v t' v'). apply toHtml_any_context.
    + cbn [app]. rewrite !toHtml_cons. apply IH.
  - intros t v k x s c. rewrite toHtml_cons, toHtml_nil.
    unfold renderChild. cbn [NodeTyp NodeVal Children].
    destruct (streq k nodeText); rewrite <- ?app_assoc;
      rewrite ?app_nil_l; reflexivity.
  - intros t v k x d ds s c c'. rewrite toHtml_cons, toHtml_nil.
    unfold renderChild. cbn [NodeTyp NodeVal Children]. cbv zeta.
    f_equal. f_equal.
    destruct (streq k nodeText); rewrite <- ?app_assoc;
      rewrite ?app_nil_r; apply toHtml_any_context.
Qed.

(** *** Inputs of white space only *)

Lemma blank_first_token (s : gostring) (a : nat) :
  Forall (fun b => asciiSpace b = true) s ->
  (2 * List.length s + 2 <= a)%nat ->
  exists l3 ln,
    nextToken (S a) (lex s) = Ok (true, l3) /\
    tok l3 = mkTok typeEOF [] ln (len s) 0 /\ lexNext l3 = None.
Proof.
  intros F Fu. destruct s as [|w ws].
  - destruct a as [|a]; [cbn in Fu; lia|].
    destruct (lexGlobal_eof a (lex []) eq_refl) as (l3 & R & T & N).
    exists l3, 1. cbn [nextToken lexNext lex runLex]. rewrite R. cbn [bind].
    rewrite T. cbn [Typ tokenType_eqb]. auto.
  - assert (2 * List.length ws + 2 <= a)%nat as Fu1
        by (cbn [List.length] in Fu; lia).
    assert (nonSpaceStart []) as NS by reflexivity.
    assert (input (resetToken (lex (w :: ws))) = [] ++ (w :: ws) ++ [])
      as I by (cbn [app]; rewrite app_nil_r; reflexivity).
    destruct (next_run w ws [] [] (resetToken (lex (w :: ws))) a F NS I
                eq_refl ltac:(cbn; lia) Fu1) as (l1 & R1 & PR).
    destruct (run_outcome w ws [] [] _ l1 F I eq_refl PR)
      as (c & _ & Sc & C1 & _).
    destruct PR as ((T1 & N1 & _ & _ & L1) & P1 & _).
    destruct (asciiSpace_IsSpace c Sc) as [_ Sp].
    set (l2 := set_lexNext l1 (Some fnGlobal)).
    assert (lexGlobal a (lex (w :: ws)) = Ok l2) as G1.
    { unfold lexGlobal. rewrite R1. cbn [bind]. rewrite C1.
      replace (b2z c =? eof) with false
        by (symmetry; apply Z.eqb_neq; pose proof (b2z_nonneg c);
            unfold eof; lia).
      rewrite Sp. reflexivity. }
    assert (pos l2 = len (input l2)) as E2.
    { unfold l2. cbn [pos input set_lexNext]. rewrite P1. unfold len.
      rewrite L1. cbn [input lex resetToken set_ctx set_continuousNewline
                       set_tok List.length].
      change (List.length []) with O. lia. }
    destruct a as [|[|a]]; try (cbn in Fu; lia).
    destruct (lexGlobal_eof a l2 E2) as (l3 & R3 & T3 & N3).
    exists l3, (line l2). cbn [nextToken lexNext lex runLex].
    rewrite G1. cbn [bind]. unfold l2 at 1. cbn [tok set_lexNext].
    rewrite T1. cbn [tok resetToken set_ctx set_continuousNewline set_tok
                     emptyToken Typ tokenType_eqb].
    unfold l2 at 1. cbn [lexNext set_lexNext runLex]. rewrite R3.
    cbn [bind]. rewrite T3. cbn [Typ tokenType_eqb].
    split; [reflexivity|]. split; [|exact N3].
    f_equal. unfold l2. cbn [pos set_lexNext]. rewrite P1.
    rewrite len_cons. change (len []) with 0. lia.
Qed.

(** X11. An input that is empty or holds only white space (of ASCII) lexes
    to the end-of-input token alone, which stands behind the input, and
    parses to the bare Root; its HTML and its highlighted text are
    empty. *)
Theorem blank_input_is_an_empty_document (s : gostring) (fuel : nat) :
  Forall (fun b => asciiSpace b = true) s ->
  (2 * List.length s + 4 <= fuel)%nat ->
  (exists ln, collectTokens fuel s = Ok [mkTok typeEOF [] ln (len s) 0]) /\
  Parse fuel s = Ok (mkNode nodeRoot [] []) /\
  Html fuel s = Ok [] /\
  HighlightText fuel s = Ok [].
Proof.
  intros F Fu.
  destruct fuel as [|[|a]]; try lia.
  assert (2 * List.length s + 2 <= a)%nat as Fa by lia.
  destruct (blank_first_token s a F Fa) as (l3 & ln & R & T & N).
  destruct (blank_first_token s (S a) F ltac:(lia))
    as (l4 & ln' & R' & T' & N').
  assert (nextToken a l3 = Ok (false, l3)) as R2
      by (destruct a as [|a']; [lia|]; cbn [nextToken]; rewrite N;
          reflexivity).
  assert (Parse (S (S a)) s = Ok (mkNode nodeRoot [] [])) as PE.
  { unfold Parse, parseGlobal, parser_nextToken.
    cbn [lexer_ set_tagDepth]. rewrite R'. cbn [bind snd].
    cbn [parseGlobalLoop]. unfold isOneOf, cur.
    cbn [lexer_ set_collectedTokens set_lexer]. rewrite T'.
    cbn [Typ existsb tokenType_eqb orb bind]. reflexivity. }
  split; [|split; [exact PE|split]].
  - exists ln. unfold collectTokens. cbn [collectLoop]. rewrite R.
    cbn [bind]. rewrite R2. cbn [bind fst app]. rewrite T. reflexivity.
  - unfold Html. rewrite PE. reflexivity.
  - unfold HighlightText. cbn [highlightLoop]. rewrite R. cbn [bind].
    cbn [Typ emptyToken tokenType_eqb]. rewrite R2. reflexivity.
Qed.

(** *** Plain sentences *)

(** [next] on a single space that a character of plain text follows. *)
Lemma next_single_space (fuel : nat) (l : lexer) (pre post : gostring)
      (c : byte) :
  input l = pre ++ x20 :: c :: post -> pos l = len pre ->
  plainByte c = true -> skippedNewlines l = 0 ->
  next (S (S fuel)) l =
  Ok (set_skippedNewlines
        (addToTag (set_char (set_pos l (len pre + 1)) (b2z x20))) 0).
Proof.
  intros I P Pc SN.
  rewrite (next_ascii _ l pre (c :: post) x20 I P) by (vm_compute; reflexivity).
  change (b2z x20 =? charNewline) with false. cbv iota.
  set (x := addToTag (set_char (set_pos l (len pre + 1)) (b2z x20))).
  destruct (addToTag_fields (set_char (set_pos l (len pre + 1)) (b2z x20)))
    as (A1 & A2 & A3 & A4 & _).
  fold x in A1, A2, A3, A4. cbn [input pos char skippedNewlines set_char
                                 set_pos] in A1, A2, A3, A4.
  destruct (plainByte_facts c Pc) as (Rg & _ & _ & _ & Sp).
  assert (peek x = Ok (b2z c)) as Pk.
  { rewrite (peek_app x (pre ++ [x20]) (c :: post)).
    - rewrite decode_ascii by lia. reflexivity.
    - rewrite A1, I, <- app_assoc. reflexivity.
    - rewrite A2, len_app. reflexivity. }
  cbn [skipSpace]. rewrite A3, Pk.
  change (unicode.IsSpace (b2z x20)) with true. cbn [bind]. rewrite Sp.
  rewrite A4, SN. reflexivity.
Qed.

Lemma spacedWords_last (pre rest : gostring) :
  spacedWords rest = true -> rest <> [] ->
  unicode.IsSpace (fst (utf8.DecodeLastRuneInString (pre ++ rest))) = false.
Proof.
  revert pre. induction rest as [|b t IH]; intros pre W N; [congruence|].
  destruct t as [|c t].
  - cbn [spacedWords] in W. destruct (plainByte b) eqn:Pb.
    + destruct (plainByte_facts b Pb) as (Rg & _ & _ & _ & Sp).
      rewrite decodeLast_ascii by lia. exact Sp.
    + rewrite andb_false_r in W. discriminate.
  - replace (pre ++ b :: c :: t) with ((pre ++ [b]) ++ c :: t)
      by (rewrite <- app_assoc; reflexivity).
    apply IH; [|discriminate].
    cbn [spacedWords] in W. destruct (plainByte b); [exact W|].
    apply andb_true_iff in W. apply W.
Qed.

Lemma lexTextLoop_words (rest : gostring) :
  forall (pre : gostring) (l : lexer) (fuel : nat),
    spacedWords rest = true ->
    input l = pre ++ rest -> pos l = len pre ->
    skippedNewlines l = 0 ->
    (rest <> [] ->
     fst (utf8.DecodeLastRuneInString pre) <> charBackslash) ->
    (Val (tok l) ++ rest <> [] ->
     unicode.IsSpace (fst (utf8.DecodeLastRuneInString (pre ++ rest)))
     = false) ->
    (Val (tok l) = [] -> plainByte (hd x21 rest) = true) ->
    (List.length rest + 3 <= fuel)%nat ->
    exists l', lexTextLoop fuel l = Ok l' /\
               textDone l (Val (tok l) ++ rest) l'.
Proof.
  induction rest as [|c rest IH]; intros pre l fuel W I P SN NB NS V0 Fu.
  - rewrite app_nil_r in I. rewrite (app_nil_r (Val (tok l))) in NS.
    rewrite (app_nil_r pre) in NS. rewrite app_nil_r.
    destruct fuel as [|[|fuel]]; [simpl in Fu; lia | simpl in Fu; lia|].
    apply lexTextLoop_end.
    + rewrite P, I. reflexivity.
    + rewrite I. exact NS.
  - destruct fuel as [|[|[|fuel]]]; try (simpl in Fu; lia).
    assert (b2z c < 0x80 /\ b2z c <> charBackslash /\
            b2z c <> charOpeningSquare /\ b2z c <> charClosingSquare /\
            b2z c <> charNewline /\ b2z c <> eof /\
            (len (Val (tok l)) =? 0) && unicode.IsSpace (b2z c) = false /\
            spacedWords rest = true /\
            (plainByte c = false -> plainByte (hd x21 rest) = true) /\
            next (S (S fuel)) l =
            Ok (set_skippedNewlines
                  (addToTag (set_char (set_pos l (len pre + 1)) (b2z c))) 0))
      as (Ac & N1 & N2 & N3 & N4 & N5 & Rs & W' & Hp & R).
    { cbn [spacedWords] in W. destruct (plainByte c) eqn:Pc.
      - destruct (plainByte_facts c Pc) as (Rg & M1 & M2 & M3 & Sp).
        unfold charNewline, eof. repeat split; try assumption; try lia.
        + rewrite Sp. apply andb_false_r.
        + apply next_nonspace with (post := rest); try assumption. lia.
      - apply andb_true_iff in W. destruct W as [W W'].
        apply andb_true_iff in W. destruct W as [E Pn].
        apply Z.eqb_eq in E. destruct rest as [|c2 rest]; [discriminate|].
        assert (c = x20) as ->
            by (apply (f_equal z2b) in E; rewrite z2b_b2z in E; exact E).
        split; [reflexivity|]. split; [discriminate|].
        split; [discriminate|]. split; [discriminate|].
        split; [discriminate|]. split; [discriminate|].
        split.
        { destruct (len (Val (tok l)) =? 0) eqn:Lv; [|reflexivity].
          apply Z.eqb_eq, len_zero in Lv. specialize (V0 Lv).
          cbn in V0. discriminate. }
        split; [exact W'|]. split; [intros _; exact Pn|].
        apply next_single_space with (post := rest) (c := c2);
          assumption. }
    set (l2 := set_skippedNewlines
                 (addToTag (set_char (set_pos l (len pre + 1)) (b2z c))) 0)
      in R.
    assert (char l2 = b2z c /\ pos l2 = len pre + 1 /\
            input l2 = input l /\ tok l2 = tok l /\ line l2 = line l /\
            skippedNewlines l2 = 0) as E.
    { unfold l2. cbn [char pos input tok line set_skippedNewlines
                      skippedNewlines].
      destruct (addToTag_fields
                  (set_char (set_pos l (len pre + 1)) (b2z c)))
        as (A1 & A2 & A3 & _ & A5 & _).
      destruct (addToTag_same
                  (set_char (set_pos l (len pre + 1)) (b2z c)))
        as (A6 & _).
      rewrite A1, A2, A3, A5, A6. repeat split. }
    destruct E as (C2 & P2 & I2 & T2 & L2 & S2).
    assert (exists b, peekBehind l2 = Ok b /\ (b =? charBackslash) = false)
      as (b & PB & Hb).
    { apply (peekBehind_after l2 pre rest c).
      - rewrite I2, I. reflexivity.
      - exact P2.
      - exact Ac.
      - exact N1.
      - apply NB. discriminate. }
    set (l3 := addToToken l2 (b2z c)).
    assert (lexTextLoop (S (S (S fuel))) l = lexTextLoop (S (S fuel)) l3)
      as Step.
    { cbn [lexTextLoop]. rewrite R. cbn [bind]. rewrite C2.
      replace (b2z c =? eof) with false
        by (symmetry; apply Z.eqb_neq; exact N5).
      replace (b2z c =? charBackslash) with false
        by (symmetry; apply Z.eqb_neq; exact N1).
      cbn [bind]. rewrite PB. cbn [bind]. rewrite Hb.
      replace (b2z c =? charNewline) with false
        by (symmetry; apply Z.eqb_neq; exact N4).
      cbn [andb].
      replace (b2z c =? charOpeningSquare) with false
        by (symmetry; apply Z.eqb_neq; exact N2).
      replace (b2z c =? charClosingSquare) with false
        by (symmetry; apply Z.eqb_neq; exact N3).
      cbn [andb]. rewrite T2, Rs. reflexivity. }
    assert (tok l3 = set_Val (tok l) (Val (tok l) ++ [c]) /\
            input l3 = input l /\ pos l3 = len (pre ++ [c]) /\
            line l3 = line l /\ skippedNewlines l3 = 0) as E3.
    { unfold l3, addToToken. cbn [tok input pos line set_tok skippedNewlines].
      rewrite T2, I2, P2, L2, S2, (EncodeRune_ascii c Ac), len_app.
      repeat split. }
    destruct E3 as (T3 & I3 & P3 & L3 & S3).
    assert (input l3 = (pre ++ [c]) ++ rest) as I3'
        by (rewrite I3, I, <- app_assoc; reflexivity).
    destruct (IH (pre ++ [c]) l3 (S (S fuel)) W' I3' P3 S3) as (l' & R' & D).
    + intros _. rewrite (decodeLast_ascii _ _ Ac). exact N1.
    + intros _. rewrite <- app_assoc. apply NS.
      destruct (Val (tok l)); discriminate.
    + rewrite T3. cbn [Val set_Val]. intros E0.
      apply app_eq_nil in E0. destruct E0 as [_ E0]. discriminate.
    + simpl in Fu. simpl. lia.
    + exists l'. split; [rewrite Step; exact R'|].
      destruct D as (D1 & D2 & D3 & D4 & D5).
      unfold textDone. rewrite T3 in D1. cbn [Val set_Val] in D1.
      rewrite <- app_assoc in D1. rewrite D1, D2, D3, D4, I3, L3.
      destruct (tok l); repeat split; auto.
Qed.

Lemma sentence_facts (s : gostring) :
  sentence s = true ->
  exists c t,
    s = c :: t /\ plainByte c = true /\ markerByte c = false /\
    spacedWords s = true.
Proof.
  destruct s as [|c t]; [discriminate|]. cbn [sentence]. intros H.
  apply andb_true_iff in H. destruct H as [H W].
  apply andb_true_iff in H. destruct H as [Pc M].
  apply negb_true_iff in M. exists c, t. auto.
Qed.

(** [lexGlobal] on an input that starts with a character of plain text
    that is no heading character and no hyphen. *)
Lemma lexGlobal_plain (fuel : nat) (c : byte) (t : gostring) :
  plainByte c = true -> markerByte c = false ->
  lexGlobal (S (S fuel)) (lex (c :: t)) =
  Ok (mkLexer (c :: t) 1 0 emptyToken (b2z c) (Some fnText) 0 0 [] true 0).
Proof.
  intros Pc M. destruct (plainByte_facts c Pc) as (Rg & N1 & _ & _ & Sp).
  unfold markerByte in M. apply orb_false_iff in M. destruct M as [M M3].
  apply orb_false_iff in M. destruct M as [M1 M2].
  unfold lexGlobal.
  rewrite (next_nonspace fuel (resetToken (lex (c :: t))) [] t c)
    by (try reflexivity; try assumption; lia).
  cbn [bind].
  set (x := mkLexer (c :: t) 1 1 emptyToken (b2z c) (Some fnGlobal)
                    0 0 [] false 0).
  change (set_skippedNewlines _ 0) with x.
  change (char x) with (b2z c). unfold isHeadingChar.
  change (char x) with (b2z c).
  replace (b2z c =? eof) with false
    by (symmetry; apply Z.eqb_neq; unfold eof; lia).
  rewrite Sp.
  replace (b2z c =? charBackslash) with false
    by (symmetry; apply Z.eqb_neq; exact N1).
  rewrite M1, M2, M3. cbn [orb].
  rewrite (backup_ascii x [] t c)
    by (try reflexivity; try lia; unfold charNewline; cbn [char x]; lia).
  reflexivity.
Qed.

Lemma nextToken_step (fuel : nat) (l : lexer) :
  nextToken (S fuel) l =
  match lexNext l with
  | Some f =>
    l' <- runLex f fuel l ;;
    if tokenType_eqb (Typ (tok l')) typeNone
    then nextToken fuel l'
    else Ok (true, l')
  | None => Ok (false, l)
  end.
Proof. reflexivity. Qed.

Lemma sentence_first_token (s : gostring) (a : nat) :
  sentence s = true -> (List.length s + 5 <= a)%nat ->
  exists l1,
    nextToken a (lex s) = Ok (true, l1) /\
    tok l1 = mkTok typeText s 1 0 0 /\ lexNext l1 = Some fnGlobal /\
    pos l1 = len (input l1) /\ line l1 = 1.
Proof.
  intros St Fu. destruct (sentence_facts s St) as (c & t & -> & Pc & M & W).
  destruct a as [|[|[|[|a]]]]; try (cbn [List.length] in Fu; lia).
  set (g := mkLexer (c :: t) 1 0 emptyToken (b2z c) (Some fnText)
                    0 0 [] true 0).
  pose proof (lexGlobal_plain (S a) c t Pc M) as G. fold g in G.
  set (g1 := set_tok g (mkToken g typeText [])).
  destruct (lexTextLoop_words (c :: t) [] g1 (S (S a)) W) as (l1 & R & D).
  - reflexivity.
  - reflexivity.
  - reflexivity.
  - intros _. vm_compute. discriminate.
  - intros _. apply (spacedWords_last [] (c :: t) W). discriminate.
  - intros _. exact Pc.
  - cbn [List.length] in *. lia.
  - destruct D as (D1 & D2 & D3 & D4 & D5).
    cbn [Val tok g1 set_tok mkToken app] in D1.
    assert (lexText (S (S a)) g = Ok l1) as LT.
    { unfold lexText. fold g1. rewrite R. cbn [bind]. rewrite D1.
      cbn [Val set_Val]. rewrite len_cons.
      replace (1 + len t =? 0) with false
        by (symmetry; apply Z.eqb_neq; pose proof (len_nonneg t); lia).
      reflexivity. }
    exists l1. rewrite nextToken_step. cbn [lexNext lex runLex].
    rewrite G. cbn [bind]. cbn [tok g Typ emptyToken tokenType_eqb].
    rewrite nextToken_step. cbn [lexNext g runLex]. rewrite LT.
    cbn [bind]. rewrite D1. cbn [Typ set_Val mkToken tokenType_eqb].
    split; [reflexivity|]. split; [reflexivity|].
    split; [exact D5|]. split; [|exact D4].
    rewrite D3, D2. reflexivity.
Qed.

Lemma eof_token (l1 : lexer) (a : nat) :
  lexNext l1 = Some fnGlobal -> pos l1 = len (input l1) ->
  (2 <= a)%nat ->
  exists l2,
    nextToken a l1 = Ok (true, l2) /\
    tok l2 = mkTok typeEOF [] (line l1) (pos l1) 0 /\ lexNext l2 = None.
Proof.
  intros N P Fu. destruct a as [|[|a]]; try lia.
  destruct (lexGlobal_eof a l1 P) as (l2 & R & T & N2).
  exists l2. cbn [nextToken]. rewrite N. cbn [runLex]. rewrite R.
  cbn [bind]. rewrite T. cbn [Typ tokenType_eqb]. auto.
Qed.

Lemma after_eof (l2 : lexer) (a : nat) :
  lexNext l2 = None -> (1 <= a)%nat -> nextToken a l2 = Ok (false, l2).
Proof.
  intros N Fu. destruct a as [|a]; [lia|]. cbn [nextToken]. rewrite N.
  reflexivity.
Qed.

Lemma plain_not_reSpace (b : byte) : plainByte b = true -> reSpace b = false.
Proof.
  intros H. destruct (plainByte_facts b H) as (Rg & _).
  unfold reSpace. cbv zeta.
  repeat (apply orb_false_iff; split); apply Z.eqb_neq; lia.
Qed.

Lemma spacedWords_oneLine (s : gostring) :
  spacedWords s = true -> ReplaceAll s x0a (str "<br>") = s.
Proof.
  induction s as [|b t IH]; intros W; [reflexivity|].
  cbn [ReplaceAll]. cbn [spacedWords] in W.
  assert (Byte.eqb b x0a = false /\ spacedWords t = true) as [E W'].
  { destruct (plainByte b) eqn:Pb.
    - split; [|exact W]. destruct (Byte.eqb b x0a) eqn:E; [|reflexivity].
      apply Byte.byte_dec_bl in E. subst b. discriminate.
    - apply andb_true_iff in W. destruct W as [W W'].
      apply andb_true_iff in W. destruct W as [E _].
      split; [|exact W']. destruct (Byte.eqb b x0a) eqn:E'; [|reflexivity].
      apply Byte.byte_dec_bl in E'. subst b. discriminate. }
  rewrite E, (IH W'). reflexivity.
Qed.

Lemma replaceAllSpace_words (fuel : nat) :
  forall atStart s repl,
    spacedWords s = true -> (atStart = true -> plainByte (hd x21 s) = true) ->
    (List.length s <= fuel)%nat ->
    replaceAllSpace fuel atStart s repl = s.
Proof.
  induction fuel as [|fuel IH]; intros atStart s repl W A L;
    [reflexivity|].
  destruct s as [|b t]; [reflexivity|]. cbn [replaceAllSpace].
  cbn [spacedWords] in W.
  assert (matchAt atStart (b :: t) = None /\ spacedWords t = true)
    as [M W'].
  { unfold matchAt. destruct (plainByte b) eqn:Pb.
    - rewrite (plain_not_reSpace b Pb). auto.
    - apply andb_true_iff in W. destruct W as [W W'].
      apply andb_true_iff in W. destruct W as [_ Pn].
      split; [|exact W'].
      destruct atStart; [specialize (A eq_refl); cbn in A; congruence|].
      destruct t as [|c t]; [discriminate|].
      rewrite (plain_not_reSpace c Pn).
      destruct (reSpace b); reflexivity. }
  rewrite M. f_equal. apply IH; [exact W'|discriminate|].
  cbn [List.length] in L. lia.
Qed.

Lemma sanitise_sentence (s : gostring) :
  sentence s = true -> htmlSanitiseSlice s 0 (len s) = Ok s.
Proof.
  intros St. destruct (sentence_facts s St) as (c & t & E & Pc & M & W).
  unfold htmlSanitiseSlice.
  destruct (slice_cases s 0 (len s)) as [S1 _].
  rewrite S1 by (pose proof (len_nonneg s); lia). cbn [bind].
  replace (Z.to_nat (len s - 0)) with (List.length s) by (unfold len; lia).
  cbn [Z.to_nat skipn]. rewrite firstn_all, (spacedWords_oneLine s W).
  rewrite replaceAllSpace_words; auto.
  intros _. rewrite E. exact Pc.
Qed.

Lemma trimRight_space (n : nat) (w : gostring) :
  trimRight (S n) (w ++ [x20]) = trimRight n w.
Proof.
  cbn [trimRight]. destruct (w ++ [x20]) as [|h r] eqn:E;
    [destruct w; discriminate|].
  rewrite <- E. rewrite decodeLast_ascii by (vm_compute; reflexivity).
  change (unicode.IsSpace (b2z x20)) with true. cbv iota.
  rewrite length_app. cbn [List.length]. change (Z.to_nat 1) with 1%nat.
  replace (List.length w + 1 - 1)%nat with (List.length w) by lia.
  rewrite firstn_app, Nat.sub_diag, firstn_all. cbn [firstn].
  rewrite app_nil_r. reflexivity.
Qed.

Lemma trimRight_stop (n : nat) (w : gostring) (z : byte) :
  b2z z < 0x80 -> unicode.IsSpace (b2z z) = false ->
  trimRight n (w ++ [z]) = w ++ [z].
Proof.
  intros Az Sz. destruct n as [|n]; [reflexivity|]. cbn [trimRight].
  destruct (w ++ [z]) as [|h r] eqn:E; [reflexivity|].
  rewrite <- E. rewrite decodeLast_ascii by exact Az. rewrite Sz.
  reflexivity.
Qed.

Lemma TrimSpace_tail_space (y : gostring) (a z : byte) (y0 y1 : gostring) :
  y = a :: y0 -> y = y1 ++ [z] ->
  b2z a < 0x80 -> unicode.IsSpace (b2z a) = false ->
  b2z z < 0x80 -> unicode.IsSpace (b2z z) = false ->
  TrimSpace (y ++ str " ") = y.
Proof.
  intros Ea Ez Aa Sa Az Sz. unfold TrimSpace.
  assert (trimLeft (List.length (y ++ str " ")) (y ++ str " ") =
          y ++ str " ") as TL.
  { rewrite Ea. cbn [app List.length trimLeft].
    rewrite decode_ascii by exact Aa. rewrite Sa. reflexivity. }
  rewrite TL. change (str " ") with [x20].
  rewrite length_app. cbn [List.length].
  replace (List.length y + 1)%nat with (S (List.length y)) by lia.
  rewrite trimRight_space, Ez. apply trimRight_stop; assumption.
Qed.

Lemma parser_nextToken_eq (a : nat) (p : parser) (r : bool) (l' : lexer) :
  nextToken a (lexer_ p) = Ok (r, l') ->
  parser_nextToken a p =
  Ok (set_collectedTokens (set_lexer p l') (collectedTokens p ++ [tok l'])).
Proof. intros H. unfold parser_nextToken. rewrite H. reflexivity. Qed.

Lemma Parse_sentence (s : gostring) (fuel : nat) :
  sentence s = true -> (List.length s + 5 <= fuel)%nat ->
  Parse fuel s =
  Ok (mkNode nodeRoot []
        [mkNode nodeParagraph [] [mkNode nodeText s []]]).
Proof.
  intros St Fu.
  destruct (sentence_first_token s fuel St Fu)
    as (l1 & R1 & T1 & N1 & P1 & L1).
  destruct fuel as [|[|[|[|f3]]]]; try lia.
  destruct (eof_token l1 (S (S f3)) N1 P1 ltac:(lia))
    as (l2 & R2 & T2 & N2).
  pose proof (after_eof l2 (S (S (S f3))) N2 ltac:(lia)) as R3.
  set (root := mkFrame nodeRoot [] []).
  set (text := mkNode nodeText s []).
  set (p1 := mkParser l1 [root] false 0 [tok l1]).
  set (pA := mkParser l1 [mkFrame nodeParagraph [] []; root] false 0
                      [tok l1]).
  set (pB := mkParser l1 [mkFrame nodeParagraph [] [text]; root] false 0
                      [tok l1]).
  set (pC := mkParser l2 [mkFrame nodeParagraph [] [text]; root] false 0
                      [tok l1; tok l2]).
  set (pD := mkParser l2 [mkFrame nodeRoot [] [mkNode nodeParagraph [] [text]]]
                      false 0 [tok l1; tok l2]).
  set (pE := mkParser l2 [mkFrame nodeRoot [] [mkNode nodeParagraph [] [text]]]
                      false 0 [tok l1; tok l2; tok l2]).
  assert (Typ (cur p1) = typeText /\ Typ (cur pA) = typeText /\
          Val (cur pA) = s /\ Typ (cur pC) = typeEOF /\
          Typ (cur pE) = typeEOF) as (C1 & CA & VA & CC & CE)
      by (unfold cur; cbn [lexer_ p1 pA pC pE]; rewrite T1, T2;
          repeat split).
  assert (parseText pA = Ok pB) as HB.
  { unfold parseText, previousSibling, addNewNode, returnNode.
    rewrite VA. reflexivity. }
  assert (parser_nextToken (S (S f3)) pB = Ok pC) as HC
      by (rewrite (parser_nextToken_eq _ pB true l2 R2); reflexivity).
  assert (parseRichText (S (S f3)) pC = Ok pC) as HR2.
  { cbn [parseRichText]. unfold isOneOf. rewrite CC. reflexivity. }
  assert (parseRichText (S (S (S f3))) pA = Ok pC) as HR1.
  { cbn [parseRichText]. unfold isOneOf at 1. rewrite CA.
    cbn [existsb tokenType_eqb orb]. rewrite HB. cbn [bind].
    rewrite HC. cbn [bind]. exact HR2. }
  assert (parseParagraph (S (S (S f3))) p1 = Ok pD) as HP.
  { unfold parseParagraph, addNewNode. cbn [isNil p1 bind].
    change (set_path p1 (mkFrame nodeParagraph [] [] :: path p1)) with pA.
    rewrite HR1. reflexivity. }
  assert (parser_nextToken (S (S (S f3))) pD = Ok pE) as HE
      by (rewrite (parser_nextToken_eq _ pD false l2 R3); reflexivity).
  unfold Parse, parseGlobal.
  match goal with
  | |- context [parser_nextToken ?a ?p] =>
    rewrite (parser_nextToken_eq a p true l1 R1)
  end.
  cbn [bind].
  change (set_collectedTokens _ _) with p1.
  cbn [parseGlobalLoop]. unfold isOneOf at 1. rewrite C1.
  cbn [existsb tokenType_eqb orb]. rewrite HP. cbn [bind].
  rewrite HE. cbn [bind]. unfold isOneOf at 1. rewrite CE. reflexivity.
Qed.

Lemma spacedWords_ends_plain (rest : gostring) :
  spacedWords rest = true -> rest <> [] ->
  exists y z, rest = y ++ [z] /\ plainByte z = true.
Proof.
  induction rest as [|b t IH]; intros W N; [congruence|].
  destruct t as [|c t].
  - cbn [spacedWords] in W. destruct (plainByte b) eqn:Pb.
    + exists [], b. auto.
    + rewrite andb_false_r in W. discriminate.
  - assert (spacedWords (c :: t) = true) as W'.
    { cbn [spacedWords] in W. destruct (plainByte b); [exact W|].
      apply andb_true_iff in W. destruct W as [_ W]. exact W. }
    destruct (IH W' ltac:(discriminate)) as (y & z & E & Pz).
    exists (b :: y), z. rewrite E. auto.
Qed.

Lemma Html_sentence (s : gostring) :
  sentence s = true ->
  toHtml (mkNode nodeRoot []
            [mkNode nodeParagraph [] [mkNode nodeText s []]])
         [] htmlCtxNone = str "<p>" ++ s ++ str "</p>".
Proof.
  intros St. destruct (sentence_facts s St) as (c & t & E & Pc & M & W).
  destruct (spacedWords_ends_plain s W) as (y & z & Ez & Pz);
    [rewrite E; discriminate|].
  destruct (plainByte_facts z Pz) as (Rz & _ & _ & _ & Sz).
  rewrite toHtml_cons, toHtml_nil. unfold renderChild.
  cbn [NodeTyp NodeVal Children].
  change (streq nodeParagraph nodeParagraph) with true.
  change (streq nodeParagraph nodeText) with false.
  cbv iota zeta. rewrite toHtml_cons, toHtml_nil. unfold renderChild.
  cbn [NodeTyp NodeVal Children].
  change (streq nodeText nodeText) with true.
  change (streq nodeText nodeParagraph) with false.
  cbv iota zeta.
  change (openingTag nodeText) with (@nil byte).
  change (closingTag nodeText) with (@nil byte).
  change (openingTag nodeParagraph) with (str "<p>").
  change (closingTag nodeParagraph) with (str "</p>").
  rewrite !app_nil_r, (app_nil_l (str "<p>")).
  rewrite (app_assoc (str "<p>") s (str " ")).
  rewrite (TrimSpace_tail_space (str "<p>" ++ s) x3c z
             (tl (str "<p>") ++ s) (str "<p>" ++ y)).
  - rewrite <- app_assoc. reflexivity.
  - reflexivity.
  - rewrite Ez, app_assoc. reflexivity.
  - vm_compute. reflexivity.
  - vm_compute. reflexivity.
  - lia.
  - exact Sz.
Qed.

(** X12. A sentence, plain words with single spaces between them that do not
    start with a heading character or a hyphen, is lexed into one Text
    token and the EOF token, parsed into one paragraph with one text
    node, written as one [<p>] element and highlighted as one span of
    class [runic__text], the sentence itself unchanged in all four. *)
Theorem a_sentence_is_one_paragraph (s : gostring) (fuel : nat) :
  sentence s = true -> (List.length s + 6 <= fuel)%nat ->
  collectTokens fuel s =
    Ok [mkTok typeText s 1 0 0; mkTok typeEOF [] 1 (len s) 0] /\
  Parse fuel s =
    Ok (mkNode nodeRoot []
          [mkNode nodeParagraph [] [mkNode nodeText s []]]) /\
  Html fuel s = Ok (str "<p>" ++ s ++ str "</p>") /\
  HighlightText fuel s = Ok (span (str "text") s).
Proof.
  intros St Fu.
  pose proof (Parse_sentence s fuel St ltac:(lia)) as HP.
  destruct fuel as [|[|[|f]]]; try lia.
  destruct (sentence_first_token s (S (S f)) St ltac:(lia))
    as (l1 & R1 & T1 & N1 & P1 & L1).
  destruct (eof_token l1 (S f) N1 P1 ltac:(lia)) as (l2 & R2 & T2 & N2).
  pose proof (after_eof l2 f N2 ltac:(lia)) as R3.
  assert (pos l1 = len s) as P1'.
  { rewrite P1. destruct (nextToken_rewritten _ _ _ _ R1) as [Ln _].
    unfold len. cbn [input lex] in Ln. rewrite Ln. reflexivity. }
  rewrite L1, P1' in T2.
  split; [|split; [exact HP|split]].
  - unfold collectTokens. cbn [collectLoop]. rewrite R1. cbn [bind].
    rewrite R2. cbn [bind]. rewrite R3. cbn [bind app fst].
    rewrite T1, T2. reflexivity.
  - unfold Html. rewrite HP. cbn [bind]. rewrite (Html_sentence s St).
    reflexivity.
  - unfold HighlightText. cbn [highlightLoop]. rewrite R1. cbn [bind].
    cbn [Typ emptyToken tokenType_eqb]. rewrite R2. cbn [bind].
    rewrite T1, T2. cbn [set_Pos Typ Pos tokenType_eqb].
    rewrite (sanitise_sentence s St). cbn [bind]. rewrite R3.
    cbn [bind app highlight]. reflexivity.
Qed.

(** *** Termination of the lexer *)

Lemma finishes_bind {A B : Type} (m : result A) (k : A -> result B)
      (Q : A -> Prop) (P : B -> Prop) :
  finishes m Q -> (forall a, Q a -> finishes (k a) P) ->
  finishes (bind m k) P.
Proof. destruct m; simpl; auto. Qed.

Lemma finishes_impl {A : Type} (r : result A) (P Q : A -> Prop) :
  finishes r P -> (forall a, P a -> Q a) -> finishes r Q.
Proof. destruct r; simpl; auto. Qed.

Lemma finishes_Ok {A : Type} (r : result A) (P : A -> Prop) :
  r <> OutOfFuel -> (forall a, r = Ok a -> P a) -> finishes r P.
Proof. destruct r; simpl; auto. Qed.

Lemma sliceFrom_live (s : gostring) (a : Z) : sliceFrom s a <> OutOfFuel.
Proof. unfold sliceFrom. destruct (_ && _); discriminate. Qed.

Lemma sliceTo_live (s : gostring) (a : Z) : sliceTo s a <> OutOfFuel.
Proof. unfold sliceTo. destruct (_ && _); discriminate. Qed.

Lemma bind_live {A B : Type} (m : result A) (k : A -> result B) :
  m <> OutOfFuel -> (forall a, m = Ok a -> k a <> OutOfFuel) ->
  bind m k <> OutOfFuel.
Proof.
  destruct m; simpl; intros N H;
    [apply H; reflexivity | discriminate | congruence].
Qed.

Lemma peek_live (l : lexer) : peek l <> OutOfFuel.
Proof.
  unfold peek. destruct (pos l =? len (input l)); [discriminate|].
  apply bind_live; [apply sliceFrom_live | discriminate].
Qed.

Lemma peekBehind_live (l : lexer) : peekBehind l <> OutOfFuel.
Proof.
  unfold peekBehind. destruct (pos l =? 0); [discriminate|].
  destruct (pos l =? len (input l)); [discriminate|].
  apply bind_live; [apply sliceTo_live | discriminate].
Qed.

Lemma peekNextNonSpace_live (l : lexer) : peekNextNonSpace l <> OutOfFuel.
Proof.
  unfold peekNextNonSpace.
  destruct (pos l =? len (input l)); [discriminate|].
  apply bind_live; [apply sliceFrom_live | discriminate].
Qed.

Lemma backup_live (l : lexer) : backup l <> OutOfFuel.
Proof.
  unfold backup. destruct (pos l =? 0); [discriminate|].
  apply bind_live; [apply sliceTo_live|]. intros b _.
  destruct (utf8.DecodeLastRuneInString b). discriminate.
Qed.

Lemma backupN_live (n : nat) : forall l, backupN n l <> OutOfFuel.
Proof.
  induction n as [|n IH]; intros l; cbn [backupN]; [discriminate|].
  apply bind_live; [apply backup_live | intros; apply IH].
Qed.

Lemma truncateToken_live (l : lexer) (n : Z) :
  truncateToken l n <> OutOfFuel.
Proof.
  unfold truncateToken. apply bind_live; [apply sliceTo_live|discriminate].
Qed.

Lemma trimTrailingSpace_live (l : lexer) : trimTrailingSpace l <> OutOfFuel.
Proof.
  unfold trimTrailingSpace. destruct (_ =? 0); [discriminate|].
  apply bind_live; [apply peekBehind_live|]. intros b _.
  destruct (unicode.IsSpace b); [|discriminate].
  apply bind_live; [apply sliceTo_live|discriminate].
Qed.

(** [next] comes to an end: it reads at most every byte that is left,
    and two units of fuel pay for a byte. *)
Lemma next_skipSpace_live (fuel : nat) :
  forall l,
    (inBounds l -> (2 * bytesLeft l + 1 <= fuel)%nat ->
     next fuel l <> OutOfFuel) /\
    (1 <= pos l <= len (input l) -> (2 * bytesLeft l + 2 <= fuel)%nat ->
     skipSpace fuel l <> OutOfFuel).
Proof.
  induction fuel as [|fuel IH]; intros l; (split; [intros B Fu|intros B Fu]);
    try lia.
  - cbn [next].
    destruct ((len (input l) <=? pos l) || (len (input l) =? 0)) eqn:E;
      [discriminate|].
    apply orb_false_iff in E. destruct E as [E1 E2].
    apply Z.leb_gt in E1. unfold inBounds in B.
    rewrite (sliceFrom_in (input l) (pos l)) by lia. cbn [bind].
    pose proof (decode_facts (skipn (Z.to_nat (pos l)) (input l))) as (_ & D).
    assert (skipn (Z.to_nat (pos l)) (input l) <> []) as NE.
    { intros Q. apply (f_equal len) in Q.
      rewrite len_skipn in Q by lia. change (len []) with 0 in Q. lia. }
    specialize (D NE). rewrite len_skipn in D by lia.
    destruct (utf8.DecodeRuneInString (skipn (Z.to_nat (pos l)) (input l)))
      as [c w].
    cbn [snd] in D.
    match goal with
    | |- skipSpace fuel ?x <> _ =>
      assert (input x = input l /\ pos x = pos l + w) as (I & P)
    end.
    { destruct (addToTag_fields
                  (set_char (if c =? charNewline
                             then set_skippedSpace
                                    (set_line (set_pos l (pos l + w))
                                              (line (set_pos l (pos l + w))
                                               + 1)) 0
                             else set_pos l (pos l + w)) c))
        as (I & P & _).
      rewrite I, P. destruct (c =? charNewline); split; reflexivity. }
    apply (proj2 (IH _)).
    + rewrite I, P. lia.
    + unfold bytesLeft in *. rewrite I, P. lia.
  - cbn [skipSpace].
    apply bind_live.
    { destruct (unicode.IsSpace (char l)); [|discriminate].
      apply bind_live; [apply peek_live | discriminate]. }
    intros both _. destruct both.
    + match goal with
      | |- next fuel ?x <> _ =>
        assert (input x = input l /\ pos x = pos l) as (I & P)
          by (destruct (char (set_skippedSpace l (skippedSpace l + 1))
                        =? charNewline); split; reflexivity)
      end.
      apply (proj1 (IH _)).
      * unfold inBounds. rewrite I, P. lia.
      * unfold bytesLeft in *. rewrite I, P. lia.
    + destruct ((0 <? skippedNewlines l) && unicode.IsSpace (char l));
        [|discriminate].
      apply bind_live; [apply sliceTo_live|]. intros b _.
      apply bind_live; [apply sliceFrom_live | discriminate].
Qed.

Lemma next_live (fuel : nat) (l : lexer) :
  inBounds l -> (2 * bytesLeft l + 1 <= fuel)%nat ->
  next fuel l <> OutOfFuel.
Proof. apply next_skipSpace_live. Qed.

(** Before the end of the buffer [next] moves on. *)
Lemma next_advance (fuel : nat) (l l' : lexer) :
  inBounds l -> pos l < len (input l) -> next fuel l = Ok l' ->
  pos l < pos l'.
Proof.
  intros B Lt H. destruct fuel as [|fuel]; [discriminate|].
  cbn [next] in H.
  destruct ((len (input l) <=? pos l) || (len (input l) =? 0)) eqn:E.
  { apply orb_true_iff in E. destruct E as [E | E];
      [apply Z.leb_le in E | apply Z.eqb_eq in E]; unfold inBounds in B; lia. }
  unfold inBounds in B.
  rewrite (sliceFrom_in (input l) (pos l)) in H by lia. cbn [bind] in H.
  pose proof (decode_facts (skipn (Z.to_nat (pos l)) (input l))) as (C & D).
  assert (skipn (Z.to_nat (pos l)) (input l) <> []) as NE.
  { intros Q. apply (f_equal len) in Q.
    rewrite len_skipn in Q by lia. change (len []) with 0 in Q. lia. }
  specialize (D NE). rewrite len_skipn in D by lia.
  destruct (utf8.DecodeRuneInString (skipn (Z.to_nat (pos l)) (input l)))
    as [c w].
  cbn [fst snd] in C, D.
  match type of H with
  | skipSpace fuel ?x = _ => remember x as y eqn:Y
  end.
  assert (input y = input l /\ pos y = pos l + w /\ char y = c)
    as (I & P & Ch).
  { subst y.
    destruct (addToTag_fields
                (set_char (if c =? charNewline
                           then set_skippedSpace
                                  (set_line (set_pos l (pos l + w))
                                            (line (set_pos l (pos l + w))
                                             + 1)) 0
                           else set_pos l (pos l + w)) c))
      as (I & P & Ch & _).
    rewrite I, P, Ch. destruct (c =? charNewline); repeat split. }
  pose proof (proj2 (next_skipSpace_safe fuel y)) as S.
  rewrite I, P, Ch in S. specialize (S ltac:(lia) C).
  rewrite H in S. cbn [safe] in S. lia.
Qed.

Lemma rewritten_ascii (s s' : gostring) :
  rewritten s s' -> ascii s = true -> ascii s' = true.
Proof.
  intros (L & R) A. unfold ascii in *. rewrite forallb_forall in *.
  intros b Hb. destruct (In_nth _ _ x00 Hb) as (i & Li & E).
  destruct (R i) as [Q | Q]; rewrite Q in E.
  - apply A. rewrite <- E. apply nth_In. lia.
  - subst b. reflexivity.
Qed.

Lemma rewritten_len (s s' : gostring) : rewritten s s' -> len s' = len s.
Proof. intros (L & _). unfold len. rewrite L. reflexivity. Qed.

(** On ASCII [backup] steps back by one byte. *)
Lemma backup_ascii_pos (l l' : lexer) :
  inBounds l -> ascii (input l) = true -> backup l = Ok l' ->
  pos l' = Z.max 0 (pos l - 1).
Proof.
  intros B A H. unfold backup in H. destruct (pos l =? 0) eqn:E.
  - apply Z.eqb_eq in E. inv_ok H. cbn. lia.
  - apply Z.eqb_neq in E. unfold inBounds in B.
    match type of H with
    | bind (sliceTo (input ?x) (pos ?x)) _ = _ =>
      assert (input x = input l /\ pos x = pos l) as (I & P)
        by (destruct (char l =? charNewline); split; reflexivity);
        rewrite I, P in H
    end.
    rewrite (sliceTo_in (input l) (pos l)) in H by lia. cbn [bind] in H.
    assert (utf8.DecodeLastRuneInString (firstn (Z.to_nat (pos l)) (input l))
            = (b2z (nth (Z.to_nat (pos l - 1)) (input l) x00), 1)) as D.
    { unfold utf8.DecodeLastRuneInString. rewrite len_firstn by lia.
      replace (pos l =? 0) with false by (symmetry; apply Z.eqb_neq; lia).
      cbv zeta.
      assert (nth (Z.to_nat (pos l - 1))
                  (firstn (Z.to_nat (pos l)) (input l)) x00 =
              nth (Z.to_nat (pos l - 1)) (input l) x00) as N.
      { rewrite <- (firstn_skipn (Z.to_nat (pos l)) (input l)) at 2.
        rewrite app_nth1; [reflexivity|].
        rewrite length_firstn. unfold len in B. lia. }
      rewrite N.
      assert ((b2z (nth (Z.to_nat (pos l - 1)) (input l) x00)
               <? utf8.RuneSelf) = true) as Lt.
      { unfold ascii in A. rewrite forallb_forall in A. apply A.
        apply nth_In. unfold len in B. lia. }
      rewrite Lt. reflexivity. }
    rewrite D in H. inv_ok H.
    destruct (char l =? charNewline); cbn; lia.
Qed.

Lemma backupN_ascii_pos (n : nat) :
  forall l l',
    inBounds l -> ascii (input l) = true -> backupN n l = Ok l' ->
    pos l - Z.of_nat n <= pos l'.
Proof.
  induction n as [|n IH]; cbn [backupN]; intros l l' B A H.
  - inv_ok H. lia.
  - bind_inv H as l1 K.
    pose proof (backup_ascii_pos _ _ B A K) as P1.
    destruct (backup_Ok _ _ B K) as (B1 & _ & I1 & _).
    rewrite <- I1 in A. specialize (IH _ _ B1 A H). lia.
Qed.

Lemma nextN_advance (fuel n : nat) :
  forall l l',
    inBounds l -> nextN fuel n l = Ok l' ->
    Z.min (len (input l)) (pos l + Z.of_nat n) <= pos l'.
Proof.
  induction n as [|n IH]; cbn [nextN]; intros l l' B H.
  - inv_ok H. lia.
  - bind_inv H as l1 K.
    pose proof (safe_Ok _ _ _ (next_safe fuel l B) K) as (B1 & P1 & _).
    pose proof (rewritten_len _ _ (next_rewritten _ _ _ K)) as L1.
    specialize (IH _ _ B1 H). rewrite L1 in IH.
    destruct (Z.eq_dec (pos l) (len (input l))) as [Q | Q]; [lia|].
    unfold inBounds in B.
    pose proof (next_advance _ _ _ B ltac:(lia) K). lia.
Qed.

Lemma nextN_live (n : nat) :
  forall fuel l,
    inBounds l -> (2 * bytesLeft l + 1 <= fuel)%nat ->
    nextN fuel n l <> OutOfFuel.
Proof.
  induction n as [|n IH]; cbn [nextN]; intros fuel l B Fu; [discriminate|].
  apply bind_live; [apply next_live; assumption|]. intros l1 K.
  pose proof (safe_Ok _ _ _ (next_safe fuel l B) K) as (B1 & P1 & _).
  pose proof (rewritten_len _ _ (next_rewritten _ _ _ K)) as L1.
  apply IH; [exact B1|]. unfold bytesLeft in *. rewrite L1. lia.
Qed.

(** [next] moves forward: unless the end of the input is reached, which
    the character [eof] tells, the position grows. *)
Lemma next_moves (fuel : nat) (l l1 : lexer) :
  inBounds l -> next fuel l = Ok l1 ->
  inBounds l1 /\ len (input l1) = len (input l) /\
  pos l <= pos l1 /\ tok l1 = tok l /\
  (char l1 = eof -> pos l1 = len (input l1)) /\
  (char l1 <> eof -> pos l < pos l1).
Proof.
  intros B K.
  pose proof (safe_Ok _ _ _ (next_safe fuel l B) K) as (B1 & P1 & C & E).
  pose proof (next_rewritten _ _ _ K) as R.
  pose proof (rewritten_len _ _ R) as L1.
  pose proof (next_same _ _ _ K) as (T & _).
  split; [exact B1|].
  split; [exact L1|]. split; [exact P1|]. split; [exact T|].
  unfold inBounds in B.
  destruct (Z.eq_dec (pos l) (len (input l))) as [Q | Q].
  - rewrite (E Q). cbn [char pos input set_char]. split; [auto|].
    intros X. exfalso. apply X. reflexivity.
  - assert (pos l < len (input l)) as Lt by lia. split.
    + intros X. specialize (C Lt). rewrite X in C. unfold eof in C. lia.
    + intros _. exact (next_advance _ _ _ B Lt K).
Qed.

(** What [next], [backup] and [backupN] do to the position in a buffer
    of ASCII. *)
Lemma next_facts (fuel : nat) (l l1 : lexer) :
  asciiBuffer l -> next fuel l = Ok l1 ->
  asciiBuffer l1 /\ len (input l1) = len (input l) /\
  pos l <= pos l1 /\ tok l1 = tok l /\
  (char l1 = eof -> pos l1 = len (input l1)) /\
  (char l1 <> eof -> pos l < pos l1).
Proof.
  intros (B & A) K.
  destruct (next_moves _ _ _ B K) as (B1 & M).
  split; [split; [exact B1|]|exact M].
  exact (rewritten_ascii _ _ (next_rewritten _ _ _ K) A).
Qed.

Lemma backup_facts (l l1 : lexer) :
  asciiBuffer l -> backup l = Ok l1 ->
  asciiBuffer l1 /\ input l1 = input l /\ tag l1 = tag l /\
  tok l1 = tok l /\ pos l1 = Z.max 0 (pos l - 1).
Proof.
  intros (B & A) K.
  destruct (backup_Ok _ _ B K) as (B1 & _ & I & T & G & _).
  pose proof (backup_ascii_pos _ _ B A K) as P.
  split; [split; [exact B1 | rewrite I; exact A]|]. auto.
Qed.

Lemma backupN_facts (n : nat) (l l1 : lexer) :
  asciiBuffer l -> backupN n l = Ok l1 ->
  asciiBuffer l1 /\ input l1 = input l /\ tag l1 = tag l /\
  tok l1 = tok l /\ pos l - Z.of_nat n <= pos l1.
Proof.
  intros (B & A) K.
  destruct (backupN_Ok _ _ _ B K) as (B1 & _ & I & T & G & _).
  pose proof (backupN_ascii_pos _ _ _ B A K) as P.
  split; [split; [exact B1 | rewrite I; exact A]|]. auto.
Qed.

Lemma asciiBuffer_set_tok (l : lexer) (t : token) :
  asciiBuffer l -> asciiBuffer (set_tok l t).
Proof. intros H; exact H. Qed.

Lemma asciiBuffer_set_tag (l : lexer) (t : gostring) :
  asciiBuffer l -> asciiBuffer (set_tag l t).
Proof. intros H; exact H. Qed.

(** The bound of a state in which [f] runs next at position [p] of a
    buffer of length [n]. *)
Lemma stepsLeft_at (l : lexer) (f : lexFn) :
  lexNext l = Some f -> f <> fnTag ->
  stepsLeft l =
  9 * (len (input l) - pos l) + rankOf f (pos l =? len (input l)).
Proof.
  intros N T. unfold stepsLeft, reach. rewrite N.
  destruct f; try reflexivity. congruence.
Qed.

(** The loop of [lexText] leaves the lexer further on than it was, or
    where it was with a lex function of lower rank to run next. *)
Lemma lexTextLoop_progress (fuel : nat) :
  forall l l',
    asciiBuffer l -> lexTextLoop fuel l = Ok l' ->
    asciiBuffer l' /\ len (input l') = len (input l) /\
    stepsLeft l' <
    9 * (len (input l) - pos l) + rankOf fnText (pos l =? len (input l)).
Proof.
  induction fuel as [|fuel IH]; cbn [lexTextLoop]; intros l l' A H;
    try discriminate.
  bind_inv H as l1 N.
  destruct (next_facts _ _ _ A N) as (A1 & L1 & P1 & _ & E1 & NE1).
  pose proof A as (B & _). pose proof A1 as (B1 & _).
  unfold inBounds in B, B1.
  assert (forall l2,
             asciiBuffer l2 -> input l2 = input l1 -> pos l2 = pos l1 ->
             lexTextLoop fuel l2 = Ok l' ->
             asciiBuffer l' /\ len (input l') = len (input l) /\
             stepsLeft l' <
             9 * (len (input l) - pos l) +
             rankOf fnText (pos l =? len (input l))) as Again.
  { intros l2 A2 I2 P2 H2. destruct (IH _ _ A2 H2) as (A' & L' & S').
    rewrite I2, P2 in *. split; [exact A'|]. split; [lia|].
    rewrite L1 in S'. revert S'. unfold rankOf.
    destruct (Z.eqb_spec (pos l) (len (input l)));
      destruct (Z.eqb_spec (pos l1) (len (input l))); lia. }
  split_if H.
  { apply Z.eqb_eq in Heqb. specialize (E1 Heqb).
    bind_inv H as l2 K. inv_ok H.
    destruct (trimTrailingSpace_tok _ _ K) as (v & -> & _).
    split; [exact A1|]. split; [exact L1|].
    rewrite (stepsLeft_at _ fnGlobal) by first [reflexivity | discriminate].
    cbn [input pos set_lexNext set_tok]. rewrite E1, Z.eqb_refl.
    unfold rankOf. destruct (pos l =? len (input l)); lia. }
  apply Z.eqb_neq in Heqb. specialize (NE1 Heqb).
  assert ((pos l =? len (input l)) = false) as Q by (apply Z.eqb_neq; lia).
  bind_inv H as esc E. split_if H.
  { apply Again in H; first [exact H | exact A1 | reflexivity]. }
  bind_inv H as b Bh. split_if H.
  { apply Again in H; first [exact H | exact A1 | reflexivity]. }
  split_if H.
  { bind_inv H as q Qh. split; [|split; [|]].
    - split_if H; inv_ok H; exact A1.
    - split_if H; inv_ok H; exact L1.
    - split_if H; inv_ok H;
        first [ rewrite (stepsLeft_at _ fnHypen)
                  by first [reflexivity | discriminate]
              | rewrite (stepsLeft_at _ fnTerminator)
                  by first [reflexivity | discriminate] ];
        cbn [input pos set_lexNext]; rewrite L1, Q; unfold rankOf;
        destruct (pos l1 =? len (input l)); lia. }
  split_if H.
  { inv_ok H. split; [exact A1|]. split; [exact L1|].
    rewrite (stepsLeft_at _ fnTerminator) by first [reflexivity | discriminate].
    cbn [input pos set_lexNext]. rewrite L1, Q. unfold rankOf.
    destruct (pos l1 =? len (input l)); lia. }
  split_if H.
  { apply Again in H; first [exact H | exact A1 | reflexivity]. }
  split_if H.
  { split_if H.
    - bind_inv H as l2 K2. bind_inv H as l3 K3. inv_ok H.
      destruct (trimTrailingSpace_tok _ _ K2) as (v & -> & _).
      destruct (backup_facts _ _ (asciiBuffer_set_tok _ _ A1) K3)
        as (A3 & I3 & _ & _ & P3).
      cbn [input pos set_tok] in I3, P3.
      split; [exact A3|]. split; [cbn [input set_lexNext]; rewrite I3; lia|].
      rewrite (stepsLeft_at _ fnOpeningSquare)
        by first [reflexivity | discriminate].
      cbn [input pos set_lexNext]. rewrite I3, P3, L1, Q.
      replace (Z.max 0 (pos l1 - 1) =? len (input l)) with false
        by (symmetry; apply Z.eqb_neq; lia).
      unfold rankOf. lia.
    - bind_inv H as l2 K2. bind_inv H as l3 K3.
      bind_inv H as l4 K4. bind_inv H as l5 K5. inv_ok H.
      destruct (backupN_facts _ _ _ A1 K2) as (A2 & I2 & G2 & _ & P2).
      destruct (truncateToken_tok _ _ _ K3) as (v3 & ->).
      destruct (trimTrailingSpace_tok _ _ K4) as (v4 & -> & _).
      destruct (backup_facts _ _ (asciiBuffer_set_tok _ _
                                    (asciiBuffer_set_tok _ _ A2)) K5)
        as (A5 & I5 & G5 & _ & P5).
      cbn [input pos tag set_tok] in I5, G5, P5.
      split; [exact A5|].
      split; [cbn [input set_lexNext]; rewrite I5, I2; lia|].
      unfold stepsLeft, reach. cbn [lexNext input pos tag set_lexNext].
      rewrite I5, I2, G5, G2, P5, L1, Q.
      assert (len (tag l1) = Z.of_nat (List.length (tag l1))) as Lt
          by reflexivity.
      unfold rankOf.
      destruct (Z.eqb_spec
                  (Z.min (len (input l))
                         (Z.max 0 (pos l2 - 1) + len (tag l1)))
                  (len (input l))); lia. }
  split_if H.
  { bind_inv H as l2 K2. bind_inv H as l3 K3. inv_ok H.
    destruct (trimTrailingSpace_tok _ _ K2) as (v & -> & _).
    destruct (backup_facts _ _ (asciiBuffer_set_tok _ _ A1) K3)
      as (A3 & I3 & _ & _ & P3).
    cbn [input pos set_tok] in I3, P3.
    split; [exact A3|]. split; [cbn [input set_lexNext]; rewrite I3; lia|].
    rewrite (stepsLeft_at _ fnClosingSquare)
      by first [reflexivity | discriminate].
    cbn [input pos set_lexNext]. rewrite I3, P3, L1, Q.
    replace (Z.max 0 (pos l1 - 1) =? len (input l)) with false
      by (symmetry; apply Z.eqb_neq; lia).
    unfold rankOf. lia. }
  split_if H; apply Again in H; first [exact H | exact A1 | reflexivity].
Qed.

Lemma nextN_facts (fuel n : nat) (l l1 : lexer) :
  asciiBuffer l -> nextN fuel n l = Ok l1 ->
  asciiBuffer l1 /\ len (input l1) = len (input l) /\
  Z.min (len (input l)) (pos l + Z.of_nat n) <= pos l1.
Proof.
  intros (B & A) K.
  pose proof (safe_Ok _ _ _ (nextN_safe fuel n l B) K) as (B1 & _).
  pose proof (nextN_rewritten _ _ _ _ K) as R.
  split; [split; [exact B1 | exact (rewritten_ascii _ _ R A)]|].
  split; [exact (rewritten_len _ _ R)|].
  exact (nextN_advance _ _ _ _ B K).
Qed.

Lemma lexHeadingLoop_progress (fuel : nat) :
  forall l l',
    asciiBuffer l -> lexHeadingLoop fuel l = Ok l' ->
    asciiBuffer l' /\ len (input l') = len (input l) /\
    stepsLeft l' <
    9 * (len (input l) - pos l) +
    rankOf fnHeading (pos l =? len (input l)).
Proof.
  induction fuel as [|fuel IH]; cbn [lexHeadingLoop]; intros l l' A H;
    try discriminate.
  bind_inv H as l1 N.
  destruct (next_facts _ _ _ A N) as (A1 & L1 & P1 & _ & E1 & NE1).
  pose proof A as (B & _). pose proof A1 as (B1 & _).
  unfold inBounds in B, B1.
  split_if H.
  { apply Z.eqb_eq in Heqb. specialize (E1 Heqb). inv_ok H.
    split; [exact A1|]. split; [exact L1|].
    rewrite (stepsLeft_at _ fnGlobal) by first [reflexivity | discriminate].
    cbn [input pos set_lexNext]. rewrite E1, Z.eqb_refl.
    unfold rankOf. destruct (pos l =? len (input l)); lia. }
  apply Z.eqb_neq in Heqb. specialize (NE1 Heqb).
  assert ((pos l =? len (input l)) = false) as Q by (apply Z.eqb_neq; lia).
  split_if H.
  { bind_inv H as l2 K. inv_ok H.
    destruct (backup_facts _ _ A1 K) as (A2 & I2 & _ & _ & P2).
    split; [exact A2|]. split; [cbn [input set_lexNext]; rewrite I2; lia|].
    rewrite (stepsLeft_at _ fnText) by first [reflexivity | discriminate].
    cbn [input pos set_lexNext]. rewrite I2, P2, L1, Q.
    replace (Z.max 0 (pos l1 - 1) =? len (input l)) with false
      by (symmetry; apply Z.eqb_neq; lia).
    unfold rankOf. lia. }
  apply IH in H; [|exact A1]. destruct H as (A' & L' & S').
  cbn [input pos set_tok] in L', S'.
  split; [exact A'|]. split; [lia|].
  rewrite L1 in S'. revert S'. rewrite Q. unfold rankOf.
  destruct (Z.eqb_spec (pos l1) (len (input l))); lia.
Qed.

(** Every lex function lowers the bound: it leaves the lexer further on
    than it was, or where it was with a lex function of lower rank to
    run next. *)
Lemma runLex_progress (f : lexFn) (fuel : nat) (l l' : lexer) :
  asciiBuffer l -> lexNext l = Some f -> runLex f fuel l = Ok l' ->
  asciiBuffer l' /\ len (input l') = len (input l) /\
  stepsLeft l' < stepsLeft l.
Proof.
  intros A F H. pose proof A as (B & _). unfold inBounds in B.
  destruct f; cbn [runLex] in H.
  - rewrite (stepsLeft_at l fnGlobal F) by discriminate.
    unfold lexGlobal in H. bind_inv H as l1 N.
    assert (asciiBuffer (resetToken l)) as A0 by exact A.
    destruct (next_facts _ _ _ A0 N) as (A1 & L1 & P1 & _ & E1 & NE1).
    cbn [input pos resetToken set_ctx set_continuousNewline set_tok]
      in L1, P1, NE1.
    pose proof A1 as (B1 & _). unfold inBounds in B1.
    split_if H.
    { inv_ok H. split; [exact A1|]. split; [exact L1|].
      unfold stepsLeft. cbn [lexNext set_lexNext]. unfold rankOf.
      destruct (pos l =? len (input l)); lia. }
    apply Z.eqb_neq in Heqb. specialize (NE1 Heqb).
    assert ((pos l =? len (input l)) = false) as Q
        by (apply Z.eqb_neq; lia).
    rewrite Q.
    assert (forall g l2,
               g <> fnTag -> g <> fnGlobal -> g <> fnTerminator ->
               backup l1 = Ok l2 ->
               asciiBuffer l2 /\ len (input l2) = len (input l) /\
               9 * (len (input l2) - pos l2) +
               rankOf g (pos l2 =? len (input l2)) <
               9 * (len (input l) - pos l) + rankOf fnGlobal false) as Back.
    { intros g l2 G1 G2 G3 K.
      destruct (backup_facts _ _ A1 K) as (A2 & I2 & _ & _ & P2).
      split; [exact A2|]. rewrite I2, P2, L1. split; [reflexivity|].
      replace (Z.max 0 (pos l1 - 1) =? len (input l)) with false
        by (symmetry; apply Z.eqb_neq; lia).
      unfold rankOf. destruct g; try congruence; lia. }
    split_if H.
    { inv_ok H. split; [exact A1|]. split; [exact L1|].
      rewrite (stepsLeft_at _ fnGlobal) by first [reflexivity | discriminate].
      cbn [input pos set_lexNext]. rewrite L1. unfold rankOf.
      destruct (pos l1 =? len (input l)); lia. }
    split_if H; [|split_if H; [|split_if H]];
      bind_inv H as l2 K; inv_ok H;
      match goal with
      | |- context [set_lexNext _ (Some ?g)] =>
        destruct (Back g l2 ltac:(discriminate) ltac:(discriminate)
                       ltac:(discriminate) K) as (A2 & L2 & S2);
          split; [exact A2|]; split; [exact L2|];
          rewrite (stepsLeft_at _ g) by first [reflexivity | discriminate];
          exact S2
      end.
  - rewrite (stepsLeft_at l fnText F) by discriminate.
    unfold lexText in H. bind_inv H as l1 N.
    apply lexTextLoop_progress in N; [|exact A].
    cbn [input pos set_tok] in N. destruct N as (A1 & L1 & S1).
    split_if H; inv_ok H; auto.
  - rewrite (stepsLeft_at l fnHeading F) by discriminate.
    unfold lexHeading in H.
    apply lexHeadingLoop_progress in H; [|exact A]. exact H.
  - rewrite (stepsLeft_at l fnTerminator F) by discriminate.
    unfold lexTerminator in H. bind_inv H as l1 K1. bind_inv H as l2 K2.
    inv_ok H.
    destruct (backup_facts _ _ A K1) as (A1 & I1 & _ & _ & P1).
    destruct (next_facts _ _ _ (asciiBuffer_set_tok _ _ A1) K2)
      as (A2 & L2 & P2 & _ & E2 & NE2).
    cbn [input pos set_tok] in L2, P2, NE2.
    pose proof A2 as (B2 & _). unfold inBounds in B2.
    split; [exact A2|]. rewrite I1 in L2. split; [exact L2|].
    rewrite (stepsLeft_at _ fnGlobal) by first [reflexivity | discriminate].
    cbn [input pos set_lexNext]. rewrite L2.
    assert (pos l <= pos l2) as Ge.
    { destruct (Z.eq_dec (char l2) eof) as [X | X];
        [specialize (E2 X) | specialize (NE2 X)]; lia. }
    unfold rankOf.
    destruct (Z.eqb_spec (pos l) (len (input l)));
      destruct (Z.eqb_spec (pos l2) (len (input l))); lia.
  - unfold lexTag in H. bind_inv H as l1 K1. inv_ok H.
    destruct (nextN_facts _ _ _ _ (asciiBuffer_set_tok _ _ A) K1)
      as (A1 & L1 & P1).
    cbn [input pos tag set_tok] in L1, P1.
    pose proof A1 as (B1 & _). unfold inBounds in B1.
    split; [exact A1|]. split; [exact L1|].
    rewrite (stepsLeft_at _ fnOpeningSquare)
      by first [reflexivity | discriminate].
    cbn [input pos set_lexNext set_tag]. rewrite L1.
    unfold stepsLeft, reach. rewrite F.
    change (len (tag l)) with (Z.of_nat (List.length (tag l))).
    unfold rankOf.
    destruct (Z.eqb_spec (pos l1) (len (input l)));
      destruct (Z.eqb_spec
                  (Z.min (len (input l))
                         (pos l + Z.of_nat (List.length (tag l))))
                  (len (input l))); lia.
  - rewrite (stepsLeft_at l fnOpeningSquare F) by discriminate.
    unfold lexOpeningSquare in H. bind_inv H as l1 K1. inv_ok H.
    destruct (next_facts _ _ _ (asciiBuffer_set_tok _ _ A) K1)
      as (A1 & L1 & P1 & _ & E1 & NE1).
    cbn [input pos set_tok] in L1, P1, NE1.
    pose proof A1 as (B1 & _). unfold inBounds in B1.
    split; [exact A1|]. split; [exact L1|].
    rewrite (stepsLeft_at _ fnText) by first [reflexivity | discriminate].
    cbn [input pos set_lexNext]. rewrite L1.
    assert (pos l < len (input l) -> pos l < pos l1) as Gt.
    { destruct (Z.eq_dec (char l1) eof) as [X | X];
        [specialize (E1 X) | specialize (NE1 X)]; lia. }
    unfold rankOf.
    destruct (Z.eqb_spec (pos l) (len (input l)));
      destruct (Z.eqb_spec (pos l1) (len (input l))); lia.
  - rewrite (stepsLeft_at l fnClosingSquare F) by discriminate.
    unfold lexClosingSquare in H. bind_inv H as l1 K1. inv_ok H.
    destruct (next_facts _ _ _ (asciiBuffer_set_tok _ _ A) K1)
      as (A1 & L1 & P1 & _ & E1 & NE1).
    cbn [input pos set_tok] in L1, P1, NE1.
    pose proof A1 as (B1 & _). unfold inBounds in B1.
    split; [exact A1|]. split; [exact L1|].
    rewrite (stepsLeft_at _ fnText) by first [reflexivity | discriminate].
    cbn [input pos set_lexNext]. rewrite L1.
    assert (pos l < len (input l) -> pos l < pos l1) as Gt.
    { destruct (Z.eq_dec (char l1) eof) as [X | X];
        [specialize (E1 X) | specialize (NE1 X)]; lia. }
    unfold rankOf.
    destruct (Z.eqb_spec (pos l) (len (input l)));
      destruct (Z.eqb_spec (pos l1) (len (input l))); lia.
  - rewrite (stepsLeft_at l fnHypen F) by discriminate.
    unfold lexHypen in H. bind_inv H as l1 K1. bind_inv H as l2 K2.
    inv_ok H.
    assert (asciiBuffer
              (set_tok (set_tok l (mkToken l typeBulletpoint
                                     [z2b charHyphen]))
                 (set_indent
                    (tok (set_tok l (mkToken l typeBulletpoint
                                       [z2b charHyphen])))
                    (skippedSpace
                       (set_tok l (mkToken l typeBulletpoint
                                     [z2b charHyphen])))))) as A0
        by exact A.
    destruct (next_facts _ _ _ A0 K1) as (A1 & L1 & P1 & _ & E1 & NE1).
    cbn [input pos set_tok] in L1, P1, NE1.
    pose proof A1 as (B1 & _). unfold inBounds in B1.
    assert (pos l < len (input l) -> pos l < pos l1) as Gt.
    { destruct (Z.eq_dec (char l1) eof) as [X | X];
        [specialize (E1 X) | specialize (NE1 X)]; lia. }
    assert (asciiBuffer l2 /\ len (input l2) = len (input l1) /\
            pos l1 <= pos l2) as (A2 & L2 & P2).
    { split_if K2.
      - destruct (next_facts _ _ _ A1 K2) as (A2 & L2 & P2 & _). auto.
      - inv_ok K2. split; [exact A1|]. split; [reflexivity | lia]. }
    pose proof A2 as (B2 & _). unfold inBounds in B2.
    split; [exact A2|]. split; [cbn [input set_lexNext set_ctx]; lia|].
    rewrite (stepsLeft_at _ fnText) by first [reflexivity | discriminate].
    cbn [input pos set_lexNext set_ctx]. rewrite L2, L1.
    unfold rankOf.
    destruct (Z.eqb_spec (pos l) (len (input l)));
      destruct (Z.eqb_spec (pos l2) (len (input l))); lia.
Qed.

Create HintDb live.
#[local] Hint Resolve sliceFrom_live sliceTo_live peek_live peekBehind_live
  peekNextNonSpace_live backup_live backupN_live truncateToken_live
  trimTrailingSpace_live : live.

(** Takes a computation apart down to the calls that need fuel. *)
Ltac live :=
  lazymatch goal with
  | |- Ok _ <> OutOfFuel => discriminate
  | |- bind _ _ <> OutOfFuel => apply bind_live; [live | intros ? ?; live]
  | |- (if ?c then _ else _) <> OutOfFuel => destruct c eqn:?; live
  | |- _ => first [ solve [auto with live] | idtac ]
  end.

Lemma bytesLeft_le (l : lexer) :
  inBounds l -> (bytesLeft l <= List.length (input l))%nat.
Proof. unfold inBounds, bytesLeft, len. lia. Qed.

Lemma lexTextLoop_live (fuel : nat) :
  forall l,
    inBounds l -> (2 * bytesLeft l + 2 <= fuel)%nat ->
    lexTextLoop fuel l <> OutOfFuel.
Proof.
  induction fuel as [|fuel IH]; intros l B Fu; [lia|].
  cbn [lexTextLoop].
  apply bind_live; [apply next_live; [exact B | lia]|]. intros l1 N.
  destruct (next_moves _ _ _ B N) as (B1 & L1 & P1 & _ & E1 & NE1).
  destruct (char l1 =? eof) eqn:X; [live|].
  apply Z.eqb_neq in X. specialize (NE1 X).
  assert (forall l2, input l2 = input l1 -> pos l2 = pos l1 ->
                     lexTextLoop fuel l2 <> OutOfFuel) as Again.
  { intros l2 I2 P2. apply IH.
    - unfold inBounds. rewrite I2, P2. exact B1.
    - unfold bytesLeft in *. rewrite I2, P2, L1.
      unfold inBounds in B, B1. lia. }
  live; apply Again; reflexivity.
Qed.

Lemma lexHeadingLoop_live (fuel : nat) :
  forall l,
    inBounds l -> (2 * bytesLeft l + 2 <= fuel)%nat ->
    lexHeadingLoop fuel l <> OutOfFuel.
Proof.
  induction fuel as [|fuel IH]; intros l B Fu; [lia|].
  cbn [lexHeadingLoop].
  apply bind_live; [apply next_live; [exact B | lia]|]. intros l1 N.
  destruct (next_moves _ _ _ B N) as (B1 & L1 & P1 & _ & E1 & NE1).
  destruct (char l1 =? eof) eqn:X; [live|].
  apply Z.eqb_neq in X. specialize (NE1 X).
  live. apply IH.
  - exact B1.
  - unfold bytesLeft in *. cbn [input pos set_tok]. rewrite L1.
    unfold inBounds in B, B1. lia.
Qed.

(** A lex function comes to an end on two units of fuel for each byte
    of the buffer, and three more. *)
Lemma runLex_live (f : lexFn) (fuel : nat) (l : lexer) :
  inBounds l -> (2 * List.length (input l) + 3 <= fuel)%nat ->
  runLex f fuel l <> OutOfFuel.
Proof.
  intros B Fu. pose proof (bytesLeft_le l B) as Le.
  assert (forall l2, inBounds l2 ->
                     List.length (input l2) = List.length (input l) ->
                     next fuel l2 <> OutOfFuel) as Next.
  { intros l2 B2 I2. apply next_live; [exact B2|].
    pose proof (bytesLeft_le l2 B2). lia. }
  destruct f; cbn [runLex].
  - unfold lexGlobal. apply bind_live; [apply Next; [exact B|reflexivity]|].
    intros l1 _. live.
  - unfold lexText. apply bind_live; [|intros l1 _; live].
    apply lexTextLoop_live; [exact B|]. unfold bytesLeft in *.
    cbn [input pos set_tok]. lia.
  - unfold lexHeading. apply lexHeadingLoop_live; [exact B|].
    unfold bytesLeft in *. cbn [input pos set_tok]. lia.
  - unfold lexTerminator. apply bind_live; [apply backup_live|].
    intros l1 K. destruct (backup_Ok _ _ B K) as (B1 & _ & I1 & _).
    apply bind_live; [|intros l2 _; live].
    apply Next; [exact B1|]. cbn [input set_tok]. rewrite I1. reflexivity.
  - unfold lexTag. apply bind_live; [|intros l1 _; live].
    apply nextN_live; [exact B|]. unfold bytesLeft in *.
    cbn [input pos set_tok]. lia.
  - unfold lexOpeningSquare. apply bind_live; [|intros l1 _; live].
    apply Next; [exact B | reflexivity].
  - unfold lexClosingSquare. apply bind_live; [|intros l1 _; live].
    apply Next; [exact B | reflexivity].
  - unfold lexHypen. apply bind_live; [apply Next; [exact B|reflexivity]|].
    intros l1 K. apply bind_live; [|intros l2 _; live].
    destruct (unicode.IsSpace (char l1)); [|discriminate].
    match type of K with
    | next _ ?x = _ =>
      assert (inBounds x) as B0 by exact B;
        destruct (next_moves _ _ _ B0 K) as (B1 & L1 & _)
    end.
    apply Next; [exact B1|]. cbn [input set_tok] in L1.
    unfold len in L1. lia.
Qed.

Lemma stepsLeft_nonneg (l : lexer) : inBounds l -> 0 <= stepsLeft l.
Proof.
  unfold inBounds, stepsLeft, reach. intros B.
  pose proof (len_nonneg (tag l)).
  destruct (lexNext l) as [f|]; [|lia].
  unfold rankOf. destruct f;
    match goal with
    | |- context [?a =? ?b] => destruct (Z.eqb_spec a b)
    end; lia.
Qed.

Lemma stepsLeft_none (l : lexer) :
  inBounds l -> (lexNext l = None <-> stepsLeft l = 0).
Proof.
  unfold inBounds, stepsLeft, reach. intros B.
  pose proof (len_nonneg (tag l)).
  destruct (lexNext l) as [f|]; [|tauto].
  split; [discriminate|]. unfold rankOf. destruct f;
    match goal with
    | |- context [?a =? ?b] => destruct (Z.eqb_spec a b)
    end; lia.
Qed.

(** [nextToken] lowers the bound, unless the lexer has stopped. *)
Lemma nextToken_progress (fuel : nat) :
  forall l l' running,
    asciiState l -> nextToken fuel l = Ok (running, l') ->
    asciiState l' /\ len (input l') = len (input l) /\
    stepsLeft l' <= Z.max 0 (stepsLeft l - 1) /\
    (running = false -> l' = l /\ lexNext l = None).
Proof.
  induction fuel as [|fuel IH]; cbn [nextToken]; intros l l' running A H;
    try discriminate.
  destruct (lexNext l) as [f|] eqn:F.
  - bind_inv H as l1 K. destruct A as (A & _).
    destruct (runLex_progress _ _ _ _ A F K) as (A1 & L1 & S1).
    pose proof (runLex_eof _ _ _ _ K) as E1.
    assert (asciiState l1) as AS1.
    { split; [exact A1|]. intros N. destruct E1 as [[T _] | [_ T]];
        [exact T | contradiction]. }
    split_if H.
    + destruct (IH _ _ _ AS1 H) as (A' & L' & S' & R').
      split; [exact A'|]. split; [lia|]. split; [lia|].
      intros ->. destruct (R' eq_refl) as (-> & N1).
      exfalso. destruct E1 as [[T _] | [_ T]]; [|contradiction].
      rewrite T in Heqb. discriminate.
    + inv_ok H. split; [exact AS1|]. split; [exact L1|].
      split; [lia | discriminate].
  - inv_ok H. split; [exact A|]. split; [reflexivity|].
    destruct A as ((B & _) & _).
    pose proof (proj1 (stepsLeft_none l' B) F). split; [lia | auto].
Qed.

(** [nextToken] comes to an end: a unit of fuel for each lex function
    that may still run, and what one lex function needs. *)
Lemma nextToken_live (fuel : nat) :
  forall l,
    asciiBuffer l ->
    (Z.to_nat (stepsLeft l) + 2 * List.length (input l) + 4 <= fuel)%nat ->
    nextToken fuel l <> OutOfFuel.
Proof.
  induction fuel as [|fuel IH]; intros l A Fu; [lia|].
  cbn [nextToken]. destruct (lexNext l) as [f|] eqn:F; [|discriminate].
  pose proof A as (B & _).
  apply bind_live; [apply runLex_live; [exact B | lia]|]. intros l1 K.
  destruct (runLex_progress _ _ _ _ A F K) as (A1 & L1 & S1).
  destruct (tokenType_eqb (Typ (tok l1)) typeNone); [|discriminate].
  apply IH; [exact A1|]. pose proof A1 as (B1 & _).
  pose proof (stepsLeft_nonneg l1 B1). unfold len in L1. lia.
Qed.

Lemma asciiState_lex (s : gostring) : ascii s = true -> asciiState (lex s).
Proof.
  intros A. split; [split; [|exact A]|discriminate].
  unfold inBounds. cbn. pose proof (len_nonneg s). lia.
Qed.

Lemma stepsLeft_lex (s : gostring) : stepsLeft (lex s) <= 9 * len s + 7.
Proof.
  unfold stepsLeft, reach. cbn [lexNext lex input pos]. unfold rankOf.
  pose proof (len_nonneg s). destruct (0 =? len s); lia.
Qed.

Lemma collectLoop_ends (fuel : nat) :
  forall l tokens,
    asciiState l ->
    (tokens = [] -> lexNext l <> None) ->
    (tokens <> [] -> last tokens emptyToken = tok l) ->
    (2 * Z.to_nat (stepsLeft l) + 2 * List.length (input l) + 5
     <= fuel)%nat ->
    finishes (collectLoop fuel l tokens)
             (fun r => exists ts t,
                  fst r = ts ++ [t] /\ Typ t = typeEOF /\
                  (List.length (fst r) <=
                   List.length tokens + Z.to_nat (stepsLeft l))%nat).
Proof.
  induction fuel as [|fuel IH]; intros l tokens A T0 T1 Fu; [lia|].
  cbn [collectLoop].
  pose proof (nextToken_live fuel l (proj1 A) ltac:(lia)) as Lv.
  destruct (nextToken fuel l) as [[running l1]| |] eqn:N; cbn [bind finishes];
    [|exact I|congruence].
  destruct (nextToken_progress _ _ _ _ A N) as (A1 & L1 & S1 & R1).
  pose proof (stepsLeft_nonneg l (proj1 (proj1 A))) as P0.
  pose proof (stepsLeft_nonneg l1 (proj1 (proj1 A1))) as P1.
  destruct running.
  - assert (lexNext l <> None) as NN.
    { intros X. cbn [nextToken] in N. destruct fuel; [discriminate|].
      cbn [nextToken] in N. rewrite X in N. discriminate. }
    assert (1 <= stepsLeft l) as Ge.
    { destruct (Z.eq_dec (stepsLeft l) 0) as [Q | Q]; [|lia].
      apply (stepsLeft_none l (proj1 (proj1 A))) in Q. contradiction. }
    eapply finishes_impl.
    + apply IH; [exact A1| | |].
      * intros X. destruct tokens; discriminate.
      * intros _. apply last_snoc.
      * unfold len in L1. lia.
    + cbv beta. intros r (ts & t & E & Te & Ln). exists ts, t.
      split; [exact E|]. split; [exact Te|].
      rewrite length_app in Ln. cbn [List.length] in Ln. lia.
  - destruct (R1 eq_refl) as (-> & X). cbn [fst].
    destruct tokens as [|t0 tokens']; [exfalso; apply T0; auto|].
    destruct (exists_last (l := t0 :: tokens') ltac:(discriminate))
      as (ts & t & E).
    exists ts, t. split; [exact E|]. split; [|cbn [fst]; lia].
    specialize (T1 ltac:(discriminate)). rewrite E, last_snoc in T1.
    rewrite T1. exact (proj2 A X).
Qed.

(** X13. On an input of ASCII the lexer comes to an end. With twenty
    units of fuel for each byte of the input, and nineteen more, the
    lexing of the whole input does not run out of fuel: it panics, or
    it returns the tokens, at most nine for each byte of the input and
    seven more, of which the last one is the end-of-input token. *)
Theorem lexing_ascii_input_ends (s : gostring) (fuel : nat) :
  ascii s = true -> (20 * List.length s + 19 <= fuel)%nat ->
  collectTokens fuel s = Panic \/
  exists ts t,
    collectTokens fuel s = Ok (ts ++ [t]) /\ Typ t = typeEOF /\
    (List.length (ts ++ [t]) <= 9 * List.length s + 7)%nat.
Proof.
  intros A Fu. pose proof (stepsLeft_lex s) as S0.
  pose proof (stepsLeft_nonneg (lex s) (proj1 (proj1 (asciiState_lex s A))))
    as P0.
  pose proof (collectLoop_ends fuel (lex s) [] (asciiState_lex s A)) as C.
  unfold collectTokens.
  destruct (collectLoop fuel (lex s) []) as [[ts0 l]| |]; cbn [bind fst].
  - right. destruct C as (ts & t & E & T & Ln).
    + discriminate.
    + intros X. exfalso. apply X. reflexivity.
    + cbn [input lex]. unfold len in S0. lia.
    + cbn [fst] in E, Ln. subst ts0. exists ts, t.
      split; [reflexivity|]. split; [exact T|].
      cbn [List.length] in Ln. unfold len in S0. lia.
  - left. reflexivity.
  - exfalso. apply C.
    + discriminate.
    + intros X. exfalso. apply X. reflexivity.
    + cbn [input lex]. unfold len in S0. lia.
Qed.

(** *** Termination of the parser *)

Lemma withinSteps_lexer (n : nat) (m : Z) (p p' : parser) :
  lexer_ p' = lexer_ p -> withinSteps n m p -> withinSteps n m p'.
Proof. unfold withinSteps. intros ->. auto. Qed.

Lemma withinSteps_more (n : nat) (m m' : Z) (p : parser) :
  m <= m' -> withinSteps n m p -> withinSteps n m' p.
Proof.
  unfold withinSteps. intros Le (A & L & S).
  split; [exact A|]. split; [exact L | lia].
Qed.

Lemma withinSteps_running (n : nat) (m : Z) (p : parser) :
  withinSteps n m p -> Typ (cur p) <> typeEOF -> 1 <= m.
Proof.
  intros (A & L & S) T. destruct A as ((B & _) & E).
  pose proof (stepsLeft_nonneg _ B).
  destruct (Z.eq_dec (stepsLeft (lexer_ p)) 0) as [Q | Q]; [|lia].
  apply (stepsLeft_none _ B) in Q. apply E in Q. contradiction.
Qed.

Lemma addNewNode_ends (n : nat) (m : Z) (p : parser) (typ val : gostring) :
  withinSteps n m p -> finishes (addNewNode p typ val) (withinSteps n m).
Proof.
  intros W. unfold addNewNode. destruct (isNil p); cbn [finishes]; auto.
Qed.

Lemma returnNode_ends (n : nat) (m : Z) (p : parser) :
  withinSteps n m p -> finishes (returnNode p) (withinSteps n m).
Proof.
  intros W. unfold returnNode. destruct (isNil p); cbn [finishes]; auto.
  destruct (path p) as [|f [|g rest]]; cbn [finishes]; auto.
Qed.

Lemma parseText_ends (n : nat) (m : Z) (p : parser) :
  withinSteps n m p -> finishes (parseText p) (withinSteps n m).
Proof.
  intros W. unfold parseText. eapply finishes_bind.
  - unfold previousSibling. destruct (isNil p); cbn [finishes]; [exact I|].
    destruct (path p); cbn [finishes]; [exact I|].
    instantiate (1 := fun _ => True). exact I.
  - intros prev _. destruct (streq (NodeTyp prev) nodeText).
    + destruct (path p); cbn [finishes]; auto.
    + eapply finishes_bind; [apply addNewNode_ends; exact W|].
      intros q Wq. apply returnNode_ends. exact Wq.
Qed.

Lemma parser_nextToken_ends (fuel n : nat) (m : Z) (p : parser) :
  withinSteps n m p -> (Z.to_nat m + 2 * n + 4 <= fuel)%nat ->
  finishes (parser_nextToken fuel p) (withinSteps n (Z.max 0 (m - 1))).
Proof.
  intros (A & L & S) Fu. unfold parser_nextToken.
  pose proof (stepsLeft_nonneg _ (proj1 (proj1 A))) as P0.
  pose proof (nextToken_live fuel (lexer_ p) (proj1 A) ltac:(lia)) as Lv.
  destruct (nextToken fuel (lexer_ p)) as [[r l1]| |] eqn:N;
    cbn [bind finishes]; [|exact I|congruence].
  destruct (nextToken_progress _ _ _ _ A N) as (A1 & L1 & S1 & _).
  unfold withinSteps. cbn [lexer_ set_collectedTokens set_lexer snd].
  split; [exact A1|]. split; [unfold len in L1; lia | lia].
Qed.

Lemma isOneOf_stop (p : parser) :
  isOneOf p [typeBulletpoint; typeTerminator; typeEOF] = false ->
  Typ (cur p) <> typeEOF.
Proof.
  unfold isOneOf. intros H T. rewrite T in H. discriminate.
Qed.

Lemma isOneOf_eof (p : parser) :
  isOneOf p [typeEOF] = false -> Typ (cur p) <> typeEOF.
Proof.
  unfold isOneOf. intros H T. rewrite T in H. discriminate.
Qed.

Lemma isOneOf_bullet (p : parser) :
  isOneOf p [typeBulletpoint] = true -> Typ (cur p) <> typeEOF.
Proof.
  intros H T. apply isOneOf_one in H. congruence.
Qed.

(** [nextToken] and then a loop that needs [c] units of fuel besides
    two for each lex function still to run. *)
Lemma next_then (fuel n c : nat) (m : Z) (p : parser)
      (loop : parser -> result parser) :
  withinSteps n m p -> 1 <= m ->
  (Z.to_nat m + 2 * n + 4 <= fuel)%nat ->
  (forall q, withinSteps n (m - 1) q ->
             finishes (loop q) (withinSteps n (m - 1))) ->
  finishes (q <- parser_nextToken fuel p ;; loop q) (withinSteps n m).
Proof.
  intros W Ge Fu Loop.
  eapply finishes_bind; [apply (parser_nextToken_ends fuel n m); assumption|].
  intros q Wq. rewrite Z.max_r in Wq by lia.
  eapply finishes_impl; [apply Loop; exact Wq|].
  intros r. apply withinSteps_more. lia.
Qed.

Lemma richText_ends (n : nat) (fuel : nat) :
  forall m p,
    withinSteps n m p ->
    ((2 * Z.to_nat m + 2 * n + 5 <= fuel)%nat ->
     finishes (parseRichText fuel p) (withinSteps n m)) /\
    (Typ (cur p) <> typeEOF ->
     (2 * Z.to_nat m + 2 * n + 4 <= fuel)%nat ->
     finishes (parseTag fuel p) (withinSteps n m)).
Proof.
  induction fuel as [|fuel IH]; intros m p W;
    (split; [intros Fu | intros T Fu]); try lia.
  - cbn [parseRichText].
    destruct (isOneOf p [typeBulletpoint; typeTerminator; typeEOF]) eqn:Stop;
      [exact W|].
    pose proof (withinSteps_running _ _ _ W (isOneOf_stop _ Stop)) as Ge.
    assert (forall q, withinSteps n m q ->
                      finishes (q' <- parser_nextToken fuel q ;;
                                parseRichText fuel q')
                               (withinSteps n m)) as Next.
    { intros q Wq. apply (next_then fuel n 0); [exact Wq | exact Ge | lia|].
      intros q' Wq'. apply (proj1 (IH _ _ Wq')). lia. }
    destruct (Typ (cur p)) eqn:T; try (apply Next; exact W).
    + eapply finishes_bind; [apply parseText_ends; exact W|].
      intros q Wq. apply Next. exact Wq.
    + eapply finishes_bind.
      * apply (proj2 (IH _ _ W)); [congruence | lia].
      * intros q Wq. cbv beta.
        destruct ((0 <? tagDepth q) &&
                  isOneOf q [typeBulletpoint; typeTerminator]);
          [exact Wq | apply Next; exact Wq].
    + destruct (0 <? tagDepth p); [exact W | apply Next; exact W].
  - cbn [parseTag].
    pose proof (withinSteps_running _ _ _ W T) as Ge.
    eapply finishes_bind; [apply addNewNode_ends; exact W|].
    intros q Wq. cbv beta.
    eapply finishes_bind;
      [apply (parser_nextToken_ends fuel n m); [exact Wq | lia]|].
    intros q1 W1. rewrite Z.max_r in W1 by lia. cbv beta.
    eapply finishes_bind.
    + apply (proj1 (IH (m - 1) (set_tagDepth q1 (tagDepth q1 + 1)) W1)).
      lia.
    + intros q2 W2. apply returnNode_ends.
      apply (withinSteps_more n (m - 1)); [lia | exact W2].
Qed.

Lemma wrapped_ends (n fuel : nat) (m : Z) (p : parser) (typ val : gostring) :
  withinSteps n m p -> (2 * Z.to_nat m + 2 * n + 5 <= fuel)%nat ->
  finishes (q <- addNewNode p typ val ;; q <- parseRichText fuel q ;;
            returnNode q)
           (withinSteps n m).
Proof.
  intros W Fu. eapply finishes_bind; [apply addNewNode_ends; exact W|].
  intros q Wq. cbv beta.
  eapply finishes_bind; [apply (proj1 (richText_ends n fuel m q Wq)); lia|].
  intros q1 W1. apply returnNode_ends. exact W1.
Qed.

Lemma parseHeading_ends (n fuel : nat) (m : Z) (p : parser) :
  withinSteps n m p -> Typ (cur p) <> typeEOF ->
  (2 * Z.to_nat m + 2 * n + 5 <= fuel)%nat ->
  finishes (parseHeading fuel p) (withinSteps n m).
Proof.
  intros W T Fu. unfold parseHeading.
  pose proof (withinSteps_running _ _ _ W T) as Ge.
  eapply finishes_bind; [apply addNewNode_ends; exact W|].
  intros q Wq. cbv beta.
  eapply finishes_bind;
    [apply (parser_nextToken_ends fuel n m); [exact Wq | lia]|].
  intros q1 W1. rewrite Z.max_r in W1 by lia. cbv beta.
  eapply finishes_bind.
  - apply (proj1 (richText_ends n fuel (m - 1) q1 W1)). lia.
  - intros q2 W2. apply returnNode_ends.
    apply (withinSteps_more n (m - 1)); [lia | exact W2].
Qed.

Lemma parseList_ends (n : nat) (fuel : nat) :
  forall m p,
    withinSteps n m p ->
    (forall d, (2 * Z.to_nat m + 2 * n + 7 <= fuel)%nat ->
               finishes (parseList fuel d p) (withinSteps n m)) /\
    ((2 * Z.to_nat m + 2 * n + 6 <= fuel)%nat ->
     finishes (parseListLoop fuel p) (withinSteps n m)).
Proof.
  induction fuel as [|fuel IH]; intros m p W;
    (split; [intros d Fu | intros Fu]); try lia.
  - cbn [parseList].
    destruct (isOneOf p [typeBulletpoint] &&
              (getListItemDepth (cur p) <? d));
      [apply returnNode_ends; exact W|].
    eapply finishes_bind; [apply addNewNode_ends; exact W|].
    intros q Wq. apply (proj2 (IH _ _ Wq)). lia.
  - cbn [parseListLoop].
    destruct (isOneOf p [typeBulletpoint]) eqn:Bu;
      [|apply returnNode_ends; exact W].
    pose proof (withinSteps_running _ _ _ W (isOneOf_bullet _ Bu)) as Ge.
    eapply finishes_bind;
      [apply (parser_nextToken_ends fuel n m); [exact W | lia]|].
    intros q1 W1. rewrite Z.max_r in W1 by lia. cbv beta.
    eapply finishes_bind;
      [apply (wrapped_ends n fuel (m - 1)); [exact W1 | lia]|].
    intros q2 W2. cbv beta.
    assert (withinSteps n (m - 1) (set_tagDepth q2 0)) as W3 by exact W2.
    eapply finishes_bind.
    + instantiate (1 := withinSteps n (m - 1)).
      destruct (isOneOf (set_tagDepth q2 0) [typeBulletpoint] &&
                (getListItemDepth (cur p) <?
                 getListItemDepth (cur (set_tagDepth q2 0))));
        [|exact W3].
      apply (proj1 (IH _ _ W3)). lia.
    + intros q4 W4. cbv beta.
      destruct (isOneOf q4 [typeBulletpoint] &&
                (getListItemDepth (cur q4) <? getListItemDepth (cur p))).
      * apply returnNode_ends.
        apply (withinSteps_more n (m - 1)); [lia | exact W4].
      * eapply finishes_impl; [apply (proj2 (IH _ _ W4)); lia|].
        intros r. apply withinSteps_more. lia.
Qed.

Lemma parseGlobalLoop_ends (n : nat) (fuel : nat) :
  forall m p,
    withinSteps n m p -> (2 * Z.to_nat m + 2 * n + 8 <= fuel)%nat ->
    finishes (parseGlobalLoop fuel p) (withinSteps n m).
Proof.
  induction fuel as [|fuel IH]; intros m p W Fu; [lia|].
  cbn [parseGlobalLoop].
  destruct (isOneOf p [typeEOF]) eqn:Stop; [exact W|].
  pose proof (isOneOf_eof _ Stop) as T.
  pose proof (withinSteps_running _ _ _ W T) as Ge.
  eapply finishes_bind.
  - instantiate (1 := withinSteps n m).
    destruct (Typ (cur p)) eqn:Ty;
      try (apply wrapped_ends; [exact W | lia]).
    + apply parseHeading_ends; [exact W | rewrite Ty; discriminate | lia].
    + apply (proj1 (parseList_ends n fuel m p W)). lia.
  - intros q Wq. cbv beta.
    apply (next_then fuel n 0); [exact Wq | exact Ge | lia|].
    intros q' Wq'. apply IH; [exact Wq' | lia].
Qed.

Lemma parseGlobal_ends (fuel : nat) (s : gostring) :
  ascii s = true -> (20 * List.length s + 22 <= fuel)%nat ->
  parseGlobal fuel (newParser s) <> OutOfFuel.
Proof.
  intros A Fu. pose proof (stepsLeft_lex s) as S0.
  pose proof (len_nonneg s) as Ln.
  assert (withinSteps (List.length s) (9 * len s + 7)
                      (set_tagDepth (newParser s) 0)) as W.
  { split; [exact (asciiState_lex s A)|]. split; [reflexivity | exact S0]. }
  assert (finishes (parseGlobal fuel (newParser s))
                   (withinSteps (List.length s) (9 * len s + 7))) as F.
  { unfold parseGlobal.
    eapply finishes_bind;
      [apply (parser_nextToken_ends fuel _ _ _ W); unfold len; lia|].
    intros q Wq. cbv beta.
    eapply finishes_impl;
      [apply (parseGlobalLoop_ends _ fuel _ q Wq); unfold len; lia|].
    intros r. apply withinSteps_more. lia. }
  intros E. rewrite E in F. exact F.
Qed.

(** X14. On an input of ASCII the parser comes to an end. With twenty
    units of fuel for each byte of the input, and twenty-two more,
    [Parse] and [Html] do not run out of fuel: both panic, or [Parse]
    returns a document of the grammar and [Html] the HTML of that
    document. *)
Theorem parsing_ascii_input_ends (s : gostring) (fuel : nat) :
  ascii s = true -> (20 * List.length s + 22 <= fuel)%nat ->
  (Parse fuel s = Panic /\ Html fuel s = Panic) \/
  exists t, Parse fuel s = Ok t /\ document t = true /\
            Html fuel s = Ok (toHtml t [] htmlCtxNone).
Proof.
  intros A Fu. pose proof (parseGlobal_ends fuel s A Fu) as E.
  pose proof (parseGlobal_outcome s fuel) as O.
  unfold Html, Parse. fold (newParser s).
  destruct (parseGlobal fuel (newParser s)) as [p| |]; cbn [bind];
    [right | left; auto | congruence].
  exists (tree p). split; [reflexivity|]. split; [|reflexivity].
  destruct O as ((N & S & cs & P & F) & _).
  unfold tree. rewrite P. cbn. exact F.
Qed.

Lemma highlightLoop_ends (fuel : nat) (input0 : gostring) :
  forall l prev acc,
    asciiState l ->
    (2 * Z.to_nat (stepsLeft l) + 2 * List.length (input l) + 5
     <= fuel)%nat ->
    highlightLoop fuel input0 l prev acc <> OutOfFuel.
Proof.
  induction fuel as [|fuel IH]; intros l prev acc A Fu; [lia|].
  cbn [highlightLoop].
  apply bind_live; [apply nextToken_live; [exact (proj1 A) | lia]|].
  intros [running l1] N.
  destruct (nextToken_progress _ _ _ _ A N) as (A1 & L1 & S1 & R1).
  pose proof (stepsLeft_nonneg l (proj1 (proj1 A))) as P0.
  pose proof (stepsLeft_nonneg l1 (proj1 (proj1 A1))) as P1.
  destruct running; [|discriminate].
  assert (1 <= stepsLeft l) as Ge.
  { destruct (Z.eq_dec (stepsLeft l) 0) as [Q | Q]; [|lia].
    apply (stepsLeft_none l (proj1 (proj1 A))) in Q.
    destruct fuel; [discriminate|]. cbn [nextToken] in N.
    rewrite Q in N. discriminate. }
  assert (forall prev' acc',
             highlightLoop fuel input0 l1 prev' acc' <> OutOfFuel) as Again.
  { intros prev' acc'. apply IH; [exact A1|]. unfold len in L1. lia. }
  destruct (tokenType_eqb (Typ prev) typeNone); [apply Again|].
  apply bind_live; [|intros; apply Again].
  unfold htmlSanitiseSlice. apply bind_live; [|discriminate].
  unfold slice. destruct (_ && _); discriminate.
Qed.

(** X15. On an input of ASCII the editor data are computed to the end.
    With twenty units of fuel for each byte of the input, and
    twenty-two more, [HighlightText] and [EditorData] do not run out of
    fuel: [EditorData] panics, or it returns the HTML that [Html]
    returns and the highlighted text that [HighlightText] returns,
    which is one line. *)
Theorem editor_data_of_ascii_input (s : gostring) (fuel : nat) :
  ascii s = true -> (20 * List.length s + 22 <= fuel)%nat ->
  HighlightText fuel s <> OutOfFuel /\
  (EditorData fuel s = Panic \/
   exists h o,
     EditorData fuel s = Ok (mkEditorData h o) /\
     Html fuel s = Ok h /\ HighlightText fuel s = Ok o /\
     oneLine o = true).
Proof.
  intros A Fu. pose proof (parseGlobal_ends fuel s A Fu) as E.
  pose proof (stepsLeft_lex s) as S0.
  pose proof (stepsLeft_nonneg (lex s) (proj1 (proj1 (asciiState_lex s A))))
    as P0.
  assert (HighlightText fuel s <> OutOfFuel) as Hl.
  { unfold HighlightText. apply highlightLoop_ends;
      [exact (asciiState_lex s A)|].
    cbn [input lex]. unfold len in S0. lia. }
  split; [exact Hl|].
  unfold EditorData, Html, Parse. fold (newParser s).
  destruct (parseGlobal fuel (newParser s)) as [p| |]; cbn [bind];
    [|left; reflexivity|congruence].
  destruct (HighlightText fuel s) as [o| |] eqn:Ho; cbn [bind];
    [|left; reflexivity|congruence].
  right. exists (toHtml (tree p) [] htmlCtxNone), o.
  split; [reflexivity|]. split; [reflexivity|]. split; [reflexivity|].
  unfold HighlightText in Ho.
  apply (highlightLoop_oneLine _ _ _ _ _ _ (eq_refl : oneLine [] = true) Ho).
Qed.

(** *** The order of the tokens of an input of ASCII *)

Lemma ascii_nth (s : gostring) (i : nat) :
  ascii s = true -> (i < List.length s)%nat ->
  b2z (nth i s x00) < utf8.RuneSelf.
Proof.
  intros A Lt. unfold ascii in A. rewrite forallb_forall in A.
  apply Z.ltb_lt. apply A. apply nth_In. exact Lt.
Qed.

(** In a buffer of ASCII the current character is of ASCII or [eof]. *)
Lemma next_skipSpace_char (fuel : nat) :
  forall l l',
    asciiBuffer l ->
    (next fuel l = Ok l' -> char l' = eof \/ 0 <= char l' < utf8.RuneSelf) /\
    (0 <= char l < utf8.RuneSelf -> skipSpace fuel l = Ok l' ->
     char l' = eof \/ 0 <= char l' < utf8.RuneSelf).
Proof.
  induction fuel as [|fuel IH]; intros l l' (B & A);
    (split; [intros H | intros C H]); try discriminate.
  - cbn [next] in H.
    destruct ((len (input l) <=? pos l) || (len (input l) =? 0)) eqn:E;
      [inv_ok H; left; reflexivity|].
    apply orb_false_iff in E. destruct E as [E1 E2].
    apply Z.leb_gt in E1. unfold inBounds in B.
    rewrite (sliceFrom_in (input l) (pos l)) in H by lia. cbn [bind] in H.
    destruct (skipn (Z.to_nat (pos l)) (input l)) as [|b t] eqn:Sk.
    { exfalso. apply (f_equal len) in Sk. rewrite len_skipn in Sk by lia.
      change (len []) with 0 in Sk. lia. }
    assert (b2z b < utf8.RuneSelf) as Ab.
    { assert (b = nth (Z.to_nat (pos l)) (input l) x00) as ->.
      { rewrite <- (firstn_skipn (Z.to_nat (pos l)) (input l)) at 1.
        rewrite Sk. rewrite app_nth2; rewrite length_firstn;
          unfold len in *; [|lia].
        replace (Z.to_nat (pos l) -
                 Nat.min (Z.to_nat (pos l)) (List.length (input l)))%nat
          with 0%nat by lia.
        reflexivity. }
      apply ascii_nth; [exact A | unfold len in *; lia]. }
    rewrite (decode_ascii b t Ab) in H.
    match type of H with
    | skipSpace fuel ?x = _ => remember x as y eqn:Y
    end.
    assert (input y = input l /\ pos y = pos l + 1 /\ char y = b2z b)
      as (I & P & Ch).
    { subst y.
      destruct (addToTag_fields
                  (set_char (if b2z b =? charNewline
                             then set_skippedSpace
                                    (set_line (set_pos l (pos l + 1))
                                              (line (set_pos l (pos l + 1))
                                               + 1)) 0
                             else set_pos l (pos l + 1)) (b2z b)))
        as (I & P & Ch & _).
      rewrite I, P, Ch. destruct (b2z b =? charNewline); repeat split. }
    apply (proj2 (IH y l' ltac:(split; [unfold inBounds|];
                                 rewrite I, ?P; [lia | exact A]))).
    + rewrite Ch. pose proof (b2z_nonneg b). lia.
    + exact H.
  - cbn [skipSpace] in H. bind_inv H as both E. destruct both.
    + match type of H with
      | next fuel ?x = _ =>
        assert (asciiBuffer x) as Ax
            by (destruct (char (set_skippedSpace l (skippedSpace l + 1))
                          =? charNewline); split; assumption);
          exact (proj1 (IH x l' Ax) H)
      end.
    + split_if H.
      * bind_inv H as before K1. bind_inv H as after K2. inv_ok H.
        right. cbn [char set_char]. unfold charNewline, utf8.RuneSelf. lia.
      * inv_ok H. right. exact C.
Qed.

Lemma next_char (fuel : nat) (l l' : lexer) :
  asciiBuffer l -> next fuel l = Ok l' ->
  char l' = eof \/ 0 <= char l' < utf8.RuneSelf.
Proof. intros A. apply (proj1 (next_skipSpace_char fuel l l' A)). Qed.

Lemma EncodeRune_one (c : Z) :
  0 <= c < utf8.RuneSelf -> len (utf8.EncodeRune c) = 1.
Proof.
  intros C. unfold utf8.EncodeRune, utf8.RuneSelf in *.
  replace ((0 <=? c) && (c <? 128)) with true; [reflexivity|].
  symmetry. apply andb_true_iff. split; [apply Z.leb_le | apply Z.ltb_lt]; lia.
Qed.

Lemma truncateToken_len (l l' : lexer) (n : Z) :
  truncateToken l n = Ok l' ->
  n <= len (Val (tok l)) /\ exists v, l' = set_tok l (set_Val (tok l) v).
Proof.
  unfold truncateToken. intros H. bind_inv H as v K. inv_ok H.
  apply sliceTo_Ok in K. destruct K as (K & _).
  split; [lia | exists v; reflexivity].
Qed.

(** In the loop of [lexText] the value of the token is no longer than
    the text read for it, so that the token starts before the state
    the loop leaves the lexer in. *)
Lemma lexTextLoop_order (fuel : nat) :
  forall l l',
    asciiBuffer l -> Pos (tok l) + len (Val (tok l)) <= pos l ->
    lexTextLoop fuel l = Ok l' ->
    Pos (tok l) <= Pos (tok l') /\ Pos (tok l') <= tokenFloor l'.
Proof.
  induction fuel as [|fuel IH]; cbn [lexTextLoop]; intros l l' A J H;
    try discriminate.
  bind_inv H as l1 N.
  destruct (next_facts _ _ _ A N) as (A1 & L1 & P1 & T1 & E1 & NE1).
  pose proof (next_char _ _ _ A N) as C1.
  pose proof (len_nonneg (Val (tok l))) as V0.
  pose proof A as (B & _). pose proof A1 as (B1 & _).
  unfold inBounds in B, B1.
  assert (forall l2,
             asciiBuffer l2 -> Pos (tok l) <= Pos (tok l2) ->
             Pos (tok l2) + len (Val (tok l2)) <= pos l2 ->
             lexTextLoop fuel l2 = Ok l' ->
             Pos (tok l) <= Pos (tok l') /\ Pos (tok l') <= tokenFloor l')
    as Again.
  { intros l2 A2 Le J2 H2. destruct (IH _ _ A2 J2 H2). split; lia. }
  split_if H.
  { bind_inv H as l2 K. inv_ok H.
    destruct (trimTrailingSpace_tok _ _ K) as (v & -> & _).
    unfold tokenFloor.
    cbn [lexNext set_lexNext pos set_tok tok Pos set_Val]. rewrite T1. lia. }
  apply Z.eqb_neq in Heqb. specialize (NE1 Heqb).
  destruct C1 as [C1 | C1]; [contradiction|].
  assert (forall c, 0 <= c < utf8.RuneSelf ->
                    lexTextLoop fuel (addToToken l1 c) = Ok l' ->
                    Pos (tok l) <= Pos (tok l') /\
                    Pos (tok l') <= tokenFloor l') as Add.
  { intros c Cc H2. apply (Again (addToToken l1 c)); [exact A1| | |exact H2];
      unfold addToToken; cbn [tok set_tok Pos Val set_Val pos];
      rewrite ?len_app, ?(EncodeRune_one c Cc), T1; lia. }
  bind_inv H as esc E. split_if H.
  { apply (Again (set_tag l1 [])); [exact A1| | |exact H];
      cbn [tok set_tag pos]; rewrite T1; lia. }
  bind_inv H as b Bh. split_if H.
  { apply (Add _ C1 H). }
  split_if H.
  { bind_inv H as q Qh. split_if H; inv_ok H; unfold tokenFloor;
      cbn [lexNext set_lexNext pos tok]; rewrite T1; lia. }
  split_if H.
  { inv_ok H. unfold tokenFloor.
    cbn [lexNext set_lexNext pos tok]. rewrite T1. lia. }
  split_if H.
  { apply (Add charSpace); [unfold charSpace, utf8.RuneSelf; lia | exact H]. }
  split_if H.
  { split_if H.
    - bind_inv H as l2 K2. bind_inv H as l3 K3. inv_ok H.
      destruct (trimTrailingSpace_tok _ _ K2) as (v & -> & _).
      destruct (backup_facts _ _ (asciiBuffer_set_tok _ _ A1) K3)
        as (A3 & I3 & _ & T3 & P3).
      cbn [input pos tok set_tok] in I3, P3, T3.
      unfold tokenFloor. cbn [lexNext set_lexNext pos tok].
      rewrite T3, P3. cbn [Pos set_Val]. rewrite T1. lia.
    - bind_inv H as l2 K2. bind_inv H as l3 K3.
      bind_inv H as l4 K4. bind_inv H as l5 K5. inv_ok H.
      destruct (backupN_facts _ _ _ A1 K2) as (A2 & I2 & G2 & T2 & P2).
      destruct (truncateToken_len _ _ _ K3) as (Ln & v3 & ->).
      destruct (trimTrailingSpace_tok _ _ K4) as (v4 & -> & _).
      destruct (backup_facts _ _ (asciiBuffer_set_tok _ _
                                    (asciiBuffer_set_tok _ _ A2)) K5)
        as (A5 & I5 & G5 & T5 & P5).
      cbn [input pos tag tok set_tok] in I5, G5, P5, T5.
      unfold tokenFloor. cbn [lexNext set_lexNext pos tok].
      rewrite T5, P5. cbn [Pos set_Val tok set_tok].
      rewrite T2, T1 in *. rewrite G2 in Ln.
      change (len (tag l1)) with (Z.of_nat (List.length (tag l1))) in Ln.
      lia. }
  split_if H.
  { bind_inv H as l2 K2. bind_inv H as l3 K3. inv_ok H.
    destruct (trimTrailingSpace_tok _ _ K2) as (v & -> & _).
    destruct (backup_facts _ _ (asciiBuffer_set_tok _ _ A1) K3)
      as (A3 & I3 & _ & T3 & P3).
    cbn [input pos tok set_tok] in I3, P3, T3.
    unfold tokenFloor. cbn [lexNext set_lexNext pos tok].
    rewrite T3, P3. cbn [Pos set_Val]. rewrite T1. lia. }
  split_if H.
  - apply (Again (set_tok l1 (mkToken l1 typeText [])));
      [exact A1| | |exact H];
      cbn [tok set_tok Pos Val mkToken pos]; change (len []) with 0; lia.
  - apply (Add _ C1 H).
Qed.

Lemma tokenFloor_bounds (l : lexer) :
  inBounds l -> 0 <= tokenFloor l <= pos l.
Proof.
  unfold inBounds, tokenFloor. intros B.
  destruct (lexNext l) as [[]|]; lia.
Qed.

(** A lex function leaves a token that starts at or behind the floor,
    and moves the floor behind the start of the token. *)
Lemma runLex_order (f : lexFn) (fuel : nat) (l l' : lexer) :
  asciiBuffer l -> lexNext l = Some f -> runLex f fuel l = Ok l' ->
  tokenFloor l <= tokenFloor l' /\
  (Typ (tok l') <> typeNone ->
   tokenFloor l <= Pos (tok l') <= tokenFloor l').
Proof.
  intros A F H. pose proof A as (B & _). unfold inBounds in B.
  unfold tokenFloor at 1 3. rewrite F.
  destruct f; cbn [runLex] in H.
  - unfold lexGlobal in H. bind_inv H as l1 N.
    assert (asciiBuffer (resetToken l)) as A0 by exact A.
    destruct (next_facts _ _ _ A0 N) as (A1 & L1 & P1 & T1 & E1 & NE1).
    cbn [input pos tok resetToken set_ctx set_continuousNewline set_tok]
      in L1, P1, NE1, T1.
    pose proof A1 as (B1 & _). unfold inBounds in B1.
    split_if H.
    { inv_ok H. unfold tokenFloor.
      cbn [lexNext set_lexNext pos tok set_tok mkToken Pos]. lia. }
    apply Z.eqb_neq in Heqb. specialize (NE1 Heqb).
    split_if H.
    { inv_ok H. unfold tokenFloor. cbn [lexNext set_lexNext pos tok].
      rewrite T1. split; [lia|]. intros X. exfalso. apply X. reflexivity. }
    assert (forall g l2,
               g <> fnTerminator -> backup l1 = Ok l2 ->
               pos l <= tokenFloor (set_lexNext l2 (Some g)) /\
               Typ (tok (set_lexNext l2 (Some g))) = typeNone) as Back.
    { intros g l2 G K.
      destruct (backup_facts _ _ A1 K) as (A2 & I2 & _ & T2 & P2).
      unfold tokenFloor.
      cbn [lexNext set_lexNext pos tok set_continuousNewline].
      rewrite T2, T1, P2. split; [|reflexivity].
      destruct g; try congruence; lia. }
    split_if H; [|split_if H; [|split_if H]];
      bind_inv H as l2 K; inv_ok H;
      match goal with
      | |- context [set_lexNext ?x (Some ?g)] =>
        first [ destruct (Back g l2 ltac:(discriminate) K) as (S2 & N2)
              | destruct (Back g x ltac:(discriminate) K) as (S2 & N2) ]
      end;
      (split; [exact S2 | intros X; contradiction]).
  - unfold lexText in H. bind_inv H as l1 N.
    apply lexTextLoop_order in N;
      [|exact A | cbn [tok set_tok Pos Val mkToken pos];
                  change (len []) with 0; lia].
    cbn [tok set_tok Pos mkToken] in N. destruct N as (N1 & N2).
    assert (tokenFloor (set_tok l1 (set_Typ (tok l1) typeNone))
            = tokenFloor l1) as Fl by reflexivity.
    split_if H; inv_ok H; rewrite ?Fl; cbn [tok set_tok Pos set_Typ]; lia.
  - unfold lexHeading in H.
    assert (forall fuel0 l0 l0',
               asciiBuffer l0 -> lexHeadingLoop fuel0 l0 = Ok l0' ->
               Pos (tok l0) <= pos l0 ->
               Pos (tok l0') = Pos (tok l0) /\
               Pos (tok l0) <= tokenFloor l0') as Loop.
    { induction fuel0 as [|fuel0 IH]; cbn [lexHeadingLoop];
        intros l0 l0' A0 H0 J; try discriminate.
      bind_inv H0 as l1 N.
      destruct (next_facts _ _ _ A0 N) as (A1 & L1 & P1 & T1 & E1 & NE1).
      split_if H0.
      { inv_ok H0. unfold tokenFloor. cbn [lexNext set_lexNext pos tok].
        rewrite T1. split; [reflexivity | lia]. }
      apply Z.eqb_neq in Heqb. specialize (NE1 Heqb).
      split_if H0.
      { bind_inv H0 as l2 K. inv_ok H0.
        destruct (backup_facts _ _ A1 K) as (A2 & I2 & _ & T2 & P2).
        unfold tokenFloor. cbn [lexNext set_lexNext pos tok].
        rewrite T2, T1, P2. split; [reflexivity | lia]. }
      apply IH in H0; [|exact A1|cbn [tok set_tok Pos set_Val pos];
                                rewrite T1; lia].
      cbn [tok set_tok Pos set_Val] in H0. rewrite T1 in H0. exact H0. }
    destruct (Loop _ _ _ (asciiBuffer_set_tok _ _ A) H) as (Q1 & Q2).
    { cbn [tok set_tok Pos mkToken pos]. lia. }
    cbn [tok set_tok Pos mkToken] in Q1, Q2. rewrite Q1. lia.
  - unfold lexTerminator in H. bind_inv H as l1 K1. bind_inv H as l2 K2.
    inv_ok H.
    destruct (backup_facts _ _ A K1) as (A1 & I1 & _ & _ & P1).
    destruct (next_facts _ _ _ (asciiBuffer_set_tok _ _ A1) K2)
      as (A2 & L2 & P2 & T2 & _).
    cbn [input pos tok set_tok] in L2, P2, T2.
    unfold tokenFloor. cbn [lexNext set_lexNext pos tok].
    rewrite T2. cbn [Pos mkToken]. lia.
  - unfold lexTag in H. bind_inv H as l1 K1. inv_ok H.
    destruct (nextN_facts _ _ _ _ (asciiBuffer_set_tok _ _ A) K1)
      as (A1 & L1 & _).
    pose proof (safe_Ok _ _ _
                  (nextN_safe fuel _ (set_tok l (mkToken l typeTag (tag l)))
                              (proj1 A)) K1) as (_ & P1).
    pose proof (nextN_same _ _ _ _ K1) as (T1 & _).
    cbn [input pos tok set_tok] in P1, T1.
    unfold tokenFloor. cbn [lexNext set_lexNext pos tok set_tag].
    rewrite T1. cbn [Pos mkToken]. lia.
  - unfold lexOpeningSquare in H. bind_inv H as l1 K1. inv_ok H.
    destruct (next_facts _ _ _ (asciiBuffer_set_tok _ _ A) K1)
      as (A1 & L1 & P1 & T1 & _).
    cbn [input pos tok set_tok] in P1, T1.
    unfold tokenFloor. cbn [lexNext set_lexNext pos tok].
    rewrite T1. cbn [Pos mkToken]. lia.
  - unfold lexClosingSquare in H. bind_inv H as l1 K1. inv_ok H.
    destruct (next_facts _ _ _ (asciiBuffer_set_tok _ _ A) K1)
      as (A1 & L1 & P1 & T1 & _).
    cbn [input pos tok set_tok] in P1, T1.
    unfold tokenFloor. cbn [lexNext set_lexNext pos tok].
    rewrite T1. cbn [Pos mkToken]. lia.
  - unfold lexHypen in H. bind_inv H as l1 K1. bind_inv H as l2 K2.
    inv_ok H.
    match type of K1 with
    | next _ ?x = _ => assert (asciiBuffer x) as A0 by exact A
    end.
    destruct (next_facts _ _ _ A0 K1) as (A1 & L1 & P1 & T1 & _).
    cbn [input pos tok set_tok] in P1, T1.
    assert (pos l1 <= pos l2 /\ tok l2 = tok l1) as (P2 & T2).
    { split_if K2.
      - destruct (next_facts _ _ _ A1 K2) as (_ & _ & P2 & T2 & _). auto.
      - inv_ok K2. split; [lia | reflexivity]. }
    unfold tokenFloor. cbn [lexNext set_lexNext set_ctx pos tok].
    rewrite T2, T1. cbn [Pos set_indent mkToken]. lia.
Qed.

Lemma nextToken_order (fuel : nat) :
  forall l l',
    asciiState l -> nextToken fuel l = Ok (true, l') ->
    tokenFloor l <= Pos (tok l') <= tokenFloor l'.
Proof.
  induction fuel as [|fuel IH]; cbn [nextToken]; intros l l' A H;
    try discriminate.
  destruct (lexNext l) as [f|] eqn:F; [|discriminate].
  bind_inv H as l1 K. destruct A as (A & _).
  destruct (runLex_progress _ _ _ _ A F K) as (A1 & _).
  destruct (runLex_order _ _ _ _ A F K) as (O1 & O2).
  pose proof (runLex_eof _ _ _ _ K) as E1.
  split_if H.
  - assert (asciiState l1) as AS1.
    { split; [exact A1|]. intros N. destruct E1 as [[T _] | [_ T]];
        [exact T | contradiction]. }
    specialize (IH _ _ AS1 H). lia.
  - inv_ok H. apply O2. intros T. rewrite T in Heqb. discriminate.
Qed.

(** The states of the lexer on an input of ASCII, and where their
    tokens start. *)
Lemma steps_order (s : gostring) (l : lexer) :
  ascii s = true -> steps (lex s) l ->
  asciiState l /\ len (input l) = len s /\ Pos (tok l) <= tokenFloor l.
Proof.
  intros A. induction 1 as [|fuel l l' running S IH H].
  - split; [exact (asciiState_lex s A)|]. split; [reflexivity|].
    unfold tokenFloor. cbn. lia.
  - destruct IH as (AS & L & O).
    destruct (nextToken_progress _ _ _ _ AS H) as (A1 & L1 & _ & R1).
    split; [exact A1|]. split; [lia|]. destruct running.
    + pose proof (nextToken_order _ _ _ AS H). lia.
    + destruct (R1 eq_refl) as (-> & _). exact O.
Qed.

Lemma highlight_collect (s0 : gostring) (fuel : nat) :
  forall l prev acc tokens,
    asciiState l -> len (input l) = len s0 ->
    (Typ prev <> typeNone -> 0 <= Pos prev <= tokenFloor l) ->
    (highlightLoop fuel s0 l prev acc = Panic <->
     collectLoop fuel l tokens = Panic).
Proof.
  induction fuel as [|fuel IH]; intros l prev acc tokens A L O;
    cbn [highlightLoop collectLoop]; [split; discriminate|].
  destruct (nextToken fuel l) as [[running l1]| |] eqn:N; cbn [bind];
    [|tauto|split; discriminate].
  destruct running; [|split; discriminate].
  destruct (nextToken_progress _ _ _ _ A N) as (A1 & L1 & _).
  pose proof (nextToken_order _ _ _ A N) as O1.
  pose proof (tokenFloor_bounds l (proj1 (proj1 A))) as F0.
  pose proof (tokenFloor_bounds l1 (proj1 (proj1 A1))) as F1.
  pose proof (proj1 (proj1 A1)) as B1. unfold inBounds in B1.
  destruct (tokenType_eqb (Typ prev) typeNone) eqn:T.
  - apply IH; [exact A1 | lia|]. intros _. cbn [Pos set_Pos]. lia.
  - assert (Typ prev <> typeNone) as Tn
        by (intros X; rewrite X in T; discriminate).
    specialize (O Tn).
    unfold htmlSanitiseSlice.
    rewrite (proj1 (slice_cases s0 (Pos prev) (Pos (tok l1)))) by lia.
    cbn [bind]. apply IH; [exact A1 | lia|]. intros _. lia.
Qed.

(** X16. On an input of ASCII the tokens come in the order of the
    input: the token [nextToken] delivers never starts before the token
    delivered before it. The slices [HighlightText] takes of the input
    are therefore slices of it, and [HighlightText] panics exactly when
    the lexer does, that is when [collectTokens] panics. *)
Theorem tokens_of_ascii_input_are_in_order (s : gostring) :
  ascii s = true ->
  (forall l l' fuel, steps (lex s) l -> nextToken fuel l = Ok (true, l') ->
                     Pos (tok l) <= Pos (tok l')) /\
  (forall fuel, HighlightText fuel s = Panic <->
                collectTokens fuel s = Panic).
Proof.
  intros A. split.
  - intros l l' fuel S H.
    destruct (steps_order s l A S) as (AS & _ & O).
    pose proof (nextToken_order _ _ _ AS H). lia.
  - intros fuel. unfold HighlightText, collectTokens.
    rewrite (highlight_collect s fuel (lex s) emptyToken [] []
               (asciiState_lex s A) eq_refl).
    + destruct (collectLoop fuel (lex s) []); cbn [bind];
        split; congruence.
    + intros X. exfalso. apply X. reflexivity.
Qed.

End Lexer.

(** ** Instances *)

(** The end-of-input state of the empty input. *)
Lemma nextToken_after_eof_witness :
  let l := mkLexer [] 1 0 (mkTok typeEOF [] 1 0 0) eof None 0 0 [] false 0 in
  nextToken noLetterAboveLatin1 8 (lex []) = Ok (true, l) /\
  nextToken noLetterAboveLatin1 1 l = Ok (false, l) /\
  (forall l', steps noLetterAboveLatin1 l l' ->
     l' = l /\ Typ (tok l') = typeEOF).
Proof.
  intros l.
  assert (nextToken noLetterAboveLatin1 8 (lex []) = Ok (true, l)) as E
      by (vm_compute; reflexivity).
  assert (steps noLetterAboveLatin1 (lex []) l) as S
      by (eapply steps_next; [apply steps_refl | exact E]).
  destruct (nextToken_after_eof noLetterAboveLatin1 [] l S eq_refl)
    as [A B].
  split; [exact E|]. split; [exact (A O) | exact B].
Defined.

(** [the [quick] fox]: the three texts are merged into one. *)
Lemma no_consecutive_Text_siblings_witness :
  merged (mkNode nodeRoot []
            [mkNode nodeParagraph []
               [mkNode nodeText (str "the quick fox") []]]) = true /\
  let f := mkFrame nodeParagraph [] [mkNode nodeText (str "the") []] in
  let p := mkParser
             (set_tok (lex []) (mkTok typeText (str "quick") 1 5 0))
             [f; mkFrame nodeRoot [] []] false 0 [] in
  parseText p =
  Ok (set_path p
        [mkFrame nodeParagraph [] [mkNode nodeText (str "the quick") []];
         mkFrame nodeRoot [] []]).
Proof.
  destruct (no_consecutive_Text_siblings noLetterAboveLatin1) as [A B].
  split.
  - apply (A 32%nat (str "the [quick] fox")). vm_compute. reflexivity.
  - intros f p.
    apply (B p f [mkFrame nodeRoot [] []] [] (str "the") []);
      reflexivity.
Defined.

(** The buffer of [a  b] and of [a], two newlines, [b] after lexing:
    both still hold their run of white space. *)
Lemma whitespace_not_collapsed_in_buffer :
  canonicalBuffer noLetterAboveLatin1 32 (str "a  b") = Ok (str "a  b") /\
  collapsed (str "a  b") = false /\
  canonicalBuffer noLetterAboveLatin1 32 (str "a" ++ nl ++ nl ++ str "b") =
  Ok (str "a" ++ nl ++ nl ++ str "b") /\
  collapsed (str "a" ++ nl ++ nl ++ str "b") = false.
Proof. repeat split; vm_compute; reflexivity. Qed.

(** The run of a space, a newline and a space in [a], the run, [b]. *)
Lemma whitespace_runs_are_passed_over_witness :
  let s := str "a " ++ nl ++ str " b" in
  let l1 := okOr (r <- nextToken noLetterAboveLatin1 32 (lex s) ;;
                  Ok (snd r)) (lex []) in
  List.length (input l1) = List.length s /\
  input l1 = str "a " ++ nl ++ nl ++ str "b" /\
  (forall l', steps noLetterAboveLatin1 l1 l' ->
     nth 3 (input l') x00 = x0a) /\
  exists l',
    next noLetterAboveLatin1 6 (set_pos (lex s) 1) = Ok l' /\
    pos l' = 4 /\
    input l' = str "a " ++ nl ++ nl ++ str "b" /\
    char l' = charNewline.
Proof.
  intros s l1.
  destruct (whitespace_runs_are_passed_over noLetterAboveLatin1)
    as (A & B & C).
  split; [|split; [|split]].
  - apply A. eapply steps_next with (fuel := 32%nat) (running := true);
      [apply steps_refl | vm_compute; reflexivity].
  - vm_compute. reflexivity.
  - intros l' S. apply (B l1 l' 3%nat S). vm_compute. reflexivity.
  - destruct (C x20 [x0a; x20] (str "a") (str "b") (set_pos (lex s) 1)
                6%nat) as (l' & R & P & K & _).
    + repeat constructor.
    + reflexivity.
    + reflexivity.
    + reflexivity.
    + reflexivity.
    + simpl. lia.
    + destruct K as [I E]; [reflexivity|].
      exists l'. repeat split; assumption.
Defined.

(** After the heading marker of [. h], newline, [p], the single newline
    ends the text with a Terminator token. *)
Lemma single_newline_after_heading_terminates :
  newlines (str ". h" ++ nl ++ str "p") = 1 /\
  collectTokens noLetterAboveLatin1 32 (str ". h" ++ nl ++ str "p") =
  Ok [mkTok typeHeading (str ".") 1 0 0;
      mkTok typeText (str "h") 1 2 0;
      mkTok typeTerminator nl 1 3 0;
      mkTok typeText (str "p") 2 4 0;
      mkTok typeEOF [] 2 5 0].
Proof. split; vm_compute; reflexivity. Qed.

(** The newline of [a], newline, [b], with and without
    [continuousNewline], and the two newlines of [a], two newlines,
    [b]. *)
Lemma newline_in_running_text_witness :
  let s := str "a" ++ nl ++ str "b" in
  let l := set_continuousNewline (set_pos (lex s) 1) true in
  let h := set_pos (lex s) 1 in
  let s2 := str "a" ++ nl ++ nl ++ str "b" in
  let l2 := set_continuousNewline (set_pos (lex s2) 1) true in
  let t := set_char (set_pos (lex s) 2) charNewline in
  (exists l1,
     next noLetterAboveLatin1 2 l = Ok l1 /\
     lexTextLoop noLetterAboveLatin1 3 l =
     lexTextLoop noLetterAboveLatin1 2 (addToToken l1 charSpace)) /\
  (exists l1,
     next noLetterAboveLatin1 2 h = Ok l1 /\
     lexTextLoop noLetterAboveLatin1 3 h =
     Ok (set_lexNext l1 (Some fnTerminator))) /\
  (exists l1,
     next noLetterAboveLatin1 4 l2 = Ok l1 /\
     lexTextLoop noLetterAboveLatin1 5 l2 =
     Ok (set_lexNext l1 (Some fnTerminator))) /\
  Typ (tok (okOr (lexTerminator noLetterAboveLatin1 4 t) t)) =
  typeTerminator.
Proof.
  intros s l h s2 l2 t.
  destruct (newline_in_running_text noLetterAboveLatin1)
    as (A & B & _).
  split; [|split; [|split]].
  - destruct (A x0a [] (str "a") (str "b") l 2%nat)
      as (l1 & R & _ & K & _ & _);
      try reflexivity; try (repeat constructor; fail);
      try discriminate; try (simpl; lia).
    exists l1. split; [exact R|]. apply K; reflexivity.
  - destruct (A x0a [] (str "a") (str "b") h 2%nat)
      as (l1 & R & _ & _ & _ & K);
      try reflexivity; try (repeat constructor; fail);
      try discriminate; try (simpl; lia).
    exists l1. split; [exact R|]. apply K; reflexivity.
  - destruct (A x0a [x0a] (str "a") (str "b") l2 4%nat)
      as (l1 & R & _ & _ & K & _);
      try reflexivity; try (repeat constructor; fail);
      try discriminate; try (simpl; lia).
    exists l1. split; [exact R|]. apply K; [reflexivity|].
    vm_compute. discriminate.
  - apply (B 4%nat t). vm_compute. reflexivity.
Defined.

Ltac by_computation := vm_compute; reflexivity.

(** The invalid heading of [..], newline, [a]. *)
Lemma invalid_heading_yields_Error_witness :
  let p0 := newParser (str ".." ++ nl ++ str "a") in
  let p := okOr (parser_nextToken noLetterAboveLatin1 32 p0) p0 in
  let p' := okOr (parseHeading noLetterAboveLatin1 32 p) p0 in
  let msg := str "Invalid heading value: .." in
  Typ (cur p) = typeHeading /\ Val (cur p) = str ".." /\
  exists p1 p2 cs,
    parser_nextToken noLetterAboveLatin1 32
      (set_path p [mkFrame nodeError msg []; mkFrame nodeRoot [] []])
    = Ok p1 /\
    parseRichText noLetterAboveLatin1 32 p1 = Ok p2 /\
    path p2 = [mkFrame nodeError msg cs; mkFrame nodeRoot [] []] /\
    path p' = [addChild (mkFrame nodeRoot [] []) (mkNode nodeError msg cs)].
Proof.
  intros p0 p p' msg.
  destruct (invalid_heading_yields_Error noLetterAboveLatin1) as (A & _).
  pose proof (A 32%nat p p' (mkFrame nodeRoot [] []) []) as H.
  assert (isNil p = false) as H1 by by_computation.
  assert (path p = [mkFrame nodeRoot [] []]) as H2 by by_computation.
  assert (Typ (cur p) = typeHeading) as H3 by by_computation.
  assert (validHeading (Val (cur p)) = false) as H4 by by_computation.
  assert (parseHeading noLetterAboveLatin1 32 p = Ok p') as H5
      by by_computation.
  split; [exact H3|]. split; [by_computation|].
  exact (H H1 H2 H3 H4 H5).
Defined.

(** The tag left open in the first item of [- The bold[quick], newline,
    [- brown fox] jumps]. *)
Lemma unterminated_tag_closes_implicitly_witness :
  let s := str "- The bold[quick" ++ nl ++ str "- brown fox] jumps" in
  let p0 := newParser s in
  let b := okOr (q <- parser_nextToken noLetterAboveLatin1 32 p0 ;;
                 addNewNode q nodeList []) p0 in
  let b1 := okOr (parser_nextToken noLetterAboveLatin1 32 b) p0 in
  let b2 := okOr (parseListItem noLetterAboveLatin1 32 b1) p0 in
  let p := okOr (q <- addNewNode b1 nodeListItem [] ;;
                 q <- parseText q ;;
                 parser_nextToken noLetterAboveLatin1 32 q) p0 in
  let p1 := okOr (parseTag noLetterAboveLatin1 32 p) p0 in
  (Typ (cur p) = typeTag /\ Typ (cur p1) = typeBulletpoint /\
   tagDepth p1 = 1 /\
   parseRichText noLetterAboveLatin1 33 p = Ok p1 /\
   path p1 =
   [mkFrame nodeListItem []
      [mkNode nodeText (str "The") [];
       mkNode nodeBoldTag [] [mkNode nodeText (str "quick") []]];
    mkFrame nodeList [] []; mkFrame nodeRoot [] []]) /\
  appended nodeListItem [] (mkFrame nodeList [] [])
           [mkFrame nodeRoot [] []] b2.
Proof.
  intros s p0 b b1 b2 p p1.
  destruct (unterminated_tag_closes_implicitly noLetterAboveLatin1)
    as (A & B & _).
  split.
  - pose proof (A 32%nat p p1
                (mkFrame nodeListItem [] [mkNode nodeText (str "The") []])
                [mkFrame nodeList [] []; mkFrame nodeRoot [] []]) as H.
    assert (isNil p = false) as H1 by by_computation.
    assert (path p = [mkFrame nodeListItem [] [mkNode nodeText (str "The") []];
                      mkFrame nodeList [] []; mkFrame nodeRoot [] []])
      as H2 by by_computation.
    assert (Typ (cur p) = typeTag) as H3 by by_computation.
    assert (parseTag noLetterAboveLatin1 32 p = Ok p1) as H4 by by_computation.
    assert (0 < tagDepth p1) as H5 by by_computation.
    assert (isOneOf p1 [typeBulletpoint; typeTerminator] = true)
      as H6 by by_computation.
    destruct (H H1 H2 H3 H4 H5 H6) as (R & _ & _).
    split; [exact H3|]. split; [by_computation|].
    split; [by_computation|]. split; [exact R | by_computation].
  - pose proof (B 32%nat b b1 b2 (mkFrame nodeList [] [])
                [mkFrame nodeRoot [] []]) as H.
    assert (isNil b = false) as H1 by by_computation.
    assert (path b =
              [mkFrame nodeList [] []; mkFrame nodeRoot [] []])
      as H2 by by_computation.
    assert (isOneOf b [typeBulletpoint] = true) as H3 by by_computation.
    assert (parser_nextToken noLetterAboveLatin1 32 b
            = Ok b1) as H4 by by_computation.
    assert (parseListItem noLetterAboveLatin1 32 b1
            = Ok b2) as H5 by by_computation.
    destruct (H H1 H2 H3 H4 H5) as (R & _).
    exact R.
Defined.

(** The brackets of [the [quick] fox]. *)
Lemma stray_brackets_are_discarded_witness :
  let s := str "the [quick] fox" in
  let p0 := newParser s in
  let o := okOr (q <- parser_nextToken noLetterAboveLatin1 32 p0 ;;
                 q <- addNewNode q nodeParagraph [] ;;
                 q <- parseText q ;;
                 parser_nextToken noLetterAboveLatin1 32 q) p0 in
  let o' := okOr (parser_nextToken noLetterAboveLatin1 32 o) p0 in
  let c := okOr (q <- parseText o' ;;
                 parser_nextToken noLetterAboveLatin1 32 q) p0 in
  let t := mkNode nodeRoot []
             [mkNode nodeParagraph []
                [mkNode nodeText (str "the quick fox") []]] in
  (Typ (cur o) = typeOpeningSquare /\
   parseRichText noLetterAboveLatin1 33 o =
   (q <- parser_nextToken noLetterAboveLatin1 32 o ;;
    parseRichText noLetterAboveLatin1 32 q)) /\
  (Typ (cur c) = typeClosingSquare /\ tagDepth c = 0 /\
   parseRichText noLetterAboveLatin1 33 c =
   (q <- parser_nextToken noLetterAboveLatin1 32 c ;;
    parseRichText noLetterAboveLatin1 32 q)) /\
  (path o' = path o /\ isNil o' = isNil o /\ tagDepth o' = tagDepth o) /\
  (exists p,
     parseGlobal noLetterAboveLatin1 32 (newParser s) = Ok p /\
     t = tree p /\
     Forall (joined (textTokenValues (collectedTokens p))) (textValues t)).
Proof.
  intros s p0 o o' c t.
  destruct (stray_brackets_are_discarded noLetterAboveLatin1)
    as (A & B & C & D & _).
  assert (Typ (cur o) = typeOpeningSquare) as H1 by by_computation.
  assert (Typ (cur c) = typeClosingSquare) as H2 by by_computation.
  assert (tagDepth c = 0) as H3 by by_computation.
  assert (parser_nextToken noLetterAboveLatin1 32 o = Ok o') as H4
      by by_computation.
  assert (Parse noLetterAboveLatin1 32 s = Ok t) as H5 by by_computation.
  split; [|split; [|split]].
  - split; [exact H1|]. exact (A 32%nat o H1).
  - split; [exact H2|]. split; [exact H3|]. exact (B 32%nat c H2 H3).
  - exact (C 32%nat o o' H4).
  - exact (D 32%nat s t H5).
Defined.

(** The bullets of [- a], [  - b] and [- c], one to a line: a deeper
    bullet follows the first item. *)
Lemma list_nesting_by_depth_witness :
  let s := str "- a" ++ nl ++ str "  - b" ++ nl ++ str "- c" in
  let p0 := newParser s in
  let b := okOr (q <- parser_nextToken noLetterAboveLatin1 32 p0 ;;
                 addNewNode q nodeList []) p0 in
  let b1 := okOr (parser_nextToken noLetterAboveLatin1 32 b) p0 in
  let b2 := okOr (parseListItem noLetterAboveLatin1 32 b1) p0 in
  let q := set_tagDepth b2 0 in
  (getListItemDepth (mkTok typeBulletpoint (str "-") 1 0 3) = 3 / 2) /\
  (getListItemDepth (cur b) = 0 /\ getListItemDepth (cur q) = 1 /\
   (exists item,
      path q =
      [addChild (mkFrame nodeList [] []) (mkNode nodeListItem [] item);
       mkFrame nodeRoot [] []]) /\
   parseListLoop noLetterAboveLatin1 33 b =
   (p3 <- parseList noLetterAboveLatin1 32 (getListItemDepth (cur q)) q ;;
    if isOneOf p3 [typeBulletpoint] &&
       (getListItemDepth (cur p3) <? getListItemDepth (cur b))
    then returnNode p3
    else parseListLoop noLetterAboveLatin1 32 p3)).
Proof.
  intros s p0 b b1 b2 q.
  destruct (list_nesting_by_depth noLetterAboveLatin1) as (A & B & _).
  split.
  - destruct (A (mkTok typeBulletpoint (str "-") 1 0 3)) as [E _];
      [simpl; lia | exact E].
  - pose proof (B 32%nat b b1 b2 (mkFrame nodeList [] [])
                [mkFrame nodeRoot [] []]) as H.
    assert (isNil b = false) as H1 by by_computation.
    assert (path b =
              [mkFrame nodeList [] []; mkFrame nodeRoot [] []])
      as H2 by by_computation.
    assert (isOneOf b [typeBulletpoint] = true) as H3 by by_computation.
    assert (parser_nextToken noLetterAboveLatin1 32 b
            = Ok b1) as H4 by by_computation.
    assert (parseListItem noLetterAboveLatin1 32 b1
            = Ok b2) as H5 by by_computation.
    assert (isOneOf q [typeBulletpoint] = true) as H6 by by_computation.
    assert (getListItemDepth (cur b) <
       getListItemDepth (cur q)) as H7 by by_computation.
    destruct (H H1 H2 H3 H4 H5 H6) as (I & D & _).
    destruct (D H7) as [E _].
    split; [by_computation|].
    split; [by_computation|]. split; [exact I | exact E].
Defined.

(** A backslash, a dot and the plain text [heading]. *)
Lemma escaped_characters_are_literal_witness :
  collectTokens noLetterAboveLatin1 16 (str "\.heading") =
  Ok [mkTok typeText (str ".heading") 1 0 0; mkTok typeEOF [] 1 9 0].
Proof.
  destruct (escaped_characters_are_literal noLetterAboveLatin1) as (A & _).
  apply (A (str "heading") 16%nat).
  - repeat constructor.
  - simpl. lia.
Defined.

(** The state after the first token of [a b]. *)
Lemma positions_stay_within_the_input_witness :
  let s := str "a b" in
  let l := okOr (r <- nextToken noLetterAboveLatin1 16 (lex s) ;;
                 Ok (snd r)) (lex []) in
  steps noLetterAboveLatin1 (lex s) l /\
  0 <= pos l <= len s /\ 0 <= Pos (tok l) <= len s /\
  (Typ (tok l) = typeEOF -> Pos (tok l) = len s /\ pos l = len s).
Proof.
  intros s l.
  assert (nextToken noLetterAboveLatin1 16 (lex s) = Ok (true, l)) as E
      by by_computation.
  assert (steps noLetterAboveLatin1 (lex s) l) as S
      by (eapply steps_next; [apply steps_refl | exact E]).
  split; [exact S|].
  exact (positions_stay_within_the_input noLetterAboveLatin1 s l S).
Defined.

(** The bullet point of [  - a], with its indent of two. *)
Lemma delivered_tokens_have_their_values_witness :
  let l := lex (str "  - a") in
  let l' := okOr (r <- nextToken noLetterAboveLatin1 16 l ;;
                  Ok (snd r)) (lex []) in
  nextToken noLetterAboveLatin1 16 l = Ok (true, l') /\
  Typ (tok l') = typeBulletpoint /\
  (Typ (tok l') = typeBulletpoint -> Val (tok l') = str "-").
Proof.
  intros l l'.
  assert (nextToken noLetterAboveLatin1 16 l = Ok (true, l')) as E
      by by_computation.
  destruct (delivered_tokens_have_their_values noLetterAboveLatin1
              16 l l' E) as (_ & _ & _ & _ & _ & B & _).
  split; [exact E|]. split; [by_computation | exact B].
Defined.

(** The heading of [:. Title]. *)
Lemma text_tokens_are_not_empty_witness :
  let l := lex (str ":. Title") in
  let l' := okOr (r <- nextToken noLetterAboveLatin1 16 l ;;
                  Ok (snd r)) (lex []) in
  nextToken noLetterAboveLatin1 16 l = Ok (true, l') /\
  Typ (tok l') = typeHeading /\
  len (Val (tok l')) <= 3 /\
  Forall (fun b => b = x2e \/ b = x3a) (Val (tok l')).
Proof.
  intros l l'.
  assert (nextToken noLetterAboveLatin1 16 l = Ok (true, l')) as E
      by by_computation.
  assert (Typ (tok l') = typeHeading) as T by by_computation.
  destruct (text_tokens_are_not_empty noLetterAboveLatin1 16 l l' E)
    as (_ & H).
  split; [exact E|]. split; [exact T | exact (H T)].
Defined.

(** [a][]: after the text and the closing bracket the tag still holds
    [a], and [lexText] panics. *)
Lemma lexer_panics_only_on_a_stale_tag_witness :
  let s := str "a][" in
  let l1 := okOr (r <- nextToken noLetterAboveLatin1 16 (lex s) ;;
                  Ok (snd r)) (lex []) in
  let l := okOr (r <- nextToken noLetterAboveLatin1 16 l1 ;;
                 Ok (snd r)) (lex []) in
  steps noLetterAboveLatin1 (lex s) l /\
  runLex noLetterAboveLatin1 fnText 8 l = Panic /\
  fnText = fnText /\ tag l <> [].
Proof.
  intros s l1 l.
  assert (nextToken noLetterAboveLatin1 16 (lex s) = Ok (true, l1)) as E1
      by by_computation.
  assert (nextToken noLetterAboveLatin1 16 l1 = Ok (true, l)) as E2
      by by_computation.
  assert (steps noLetterAboveLatin1 (lex s) l) as S.
  { eapply steps_next; [|exact E2].
    eapply steps_next; [apply steps_refl | exact E1]. }
  assert (runLex noLetterAboveLatin1 fnText 8 l = Panic) as P
      by by_computation.
  split; [exact S|]. split; [exact P|].
  exact (lexer_panics_only_on_a_stale_tag noLetterAboveLatin1
           (fun r _ => eq_refl) s l fnText 8%nat S P).
Defined.

(** [The bold[quick] fox]. *)
Lemma Parse_builds_documents_witness :
  let t := mkNode nodeRoot []
             [mkNode nodeParagraph []
                [mkNode nodeText (str "The") [];
                 mkNode nodeBoldTag [] [mkNode nodeText (str "quick") []];
                 mkNode nodeText (str "fox") []]] in
  Parse noLetterAboveLatin1 32 (str "The bold[quick] fox") = Ok t /\
  document t = true.
Proof.
  intros t.
  assert (Parse noLetterAboveLatin1 32 (str "The bold[quick] fox") = Ok t)
    as E by by_computation.
  split; [exact E|].
  exact (Parse_builds_documents noLetterAboveLatin1 32
           (str "The bold[quick] fox") t E).
Defined.

(** [a][]: the panic of [Parse] is one of [nextToken]. *)
Lemma Parse_panics_in_the_lexer_only_witness :
  Parse noLetterAboveLatin1 32 (str "a][") = Panic /\
  exists l fuel',
    steps noLetterAboveLatin1 (lex (str "a][")) l /\
    nextToken noLetterAboveLatin1 fuel' l = Panic.
Proof.
  assert (Parse noLetterAboveLatin1 32 (str "a][") = Panic) as E
      by by_computation.
  split; [exact E|].
  exact (Parse_panics_in_the_lexer_only noLetterAboveLatin1 32
           (str "a][") E).
Defined.

(** The list of [- a], newline, [- b]. *)
Lemma Parse_reads_the_input_to_its_end_witness :
  let s := str "- a" ++ nl ++ str "- b" in
  let t := mkNode nodeRoot []
             [mkNode nodeList []
                [mkNode nodeListItem [] [mkNode nodeText (str "a") []];
                 mkNode nodeListItem [] [mkNode nodeText (str "b") []]]] in
  Parse noLetterAboveLatin1 32 s = Ok t /\
  exists p,
    parseGlobal noLetterAboveLatin1 32 (newParser s) = Ok p /\
    t = tree p /\ Typ (cur p) = typeEOF /\ Pos (cur p) = len s /\
    pos (lexer_ p) = len s.
Proof.
  intros s t.
  assert (Parse noLetterAboveLatin1 32 s = Ok t) as E by by_computation.
  split; [exact E|].
  exact (Parse_reads_the_input_to_its_end noLetterAboveLatin1 32 s t E).
Defined.

(** The slice [1:6] of [xa], two spaces, [b], newline, [y], and the
    slice [2:9] that does not exist. *)
Lemma htmlSanitiseSlice_tidies_witness :
  let s := str "xa  b" ++ nl ++ str "y" in
  (exists o, htmlSanitiseSlice s 1 6 = Ok o /\
             oneLine o = true /\ tidy o = true) /\
  htmlSanitiseSlice s 2 9 = Panic.
Proof.
  intros s. destruct (htmlSanitiseSlice_tidies s 1 6) as [A _].
  destruct (htmlSanitiseSlice_tidies s 2 9) as [_ B].
  split.
  - apply A. change (len s) with 7. lia.
  - apply B. change (len s) with 7. lia.
Defined.

(** The highlighted text of [. Title], newline, [- item]. *)
Lemma HighlightText_is_one_line_witness :
  let s := str ". Title" ++ nl ++ str "- item" in
  let o := okOr (HighlightText noLetterAboveLatin1 32 s) [] in
  HighlightText noLetterAboveLatin1 32 s = Ok o /\ o <> [] /\
  oneLine o = true.
Proof.
  intros s o.
  assert (HighlightText noLetterAboveLatin1 32 s = Ok o) as E
      by by_computation.
  split; [exact E|]. split; [vm_compute; discriminate|].
  exact (HighlightText_is_one_line noLetterAboveLatin1 32 s o E).
Defined.

(** A space, a newline and a tab. *)
Lemma blank_input_is_an_empty_document_witness :
  let s := [x20; x0a; x09] in
  Forall (fun b => asciiSpace b = true) s /\
  (exists ln, collectTokens noLetterAboveLatin1 10 s =
              Ok [mkTok typeEOF [] ln (len s) 0]) /\
  Parse noLetterAboveLatin1 10 s = Ok (mkNode nodeRoot [] []) /\
  Html noLetterAboveLatin1 10 s = Ok [] /\
  HighlightText noLetterAboveLatin1 10 s = Ok [].
Proof.
  intros s.
  assert (Forall (fun b => asciiSpace b = true) s) as F
      by (repeat constructor).
  split; [exact F|].
  apply (blank_input_is_an_empty_document noLetterAboveLatin1 s 10 F).
  cbn [List.length s]. lia.
Defined.

(** [the quick fox]. *)
Lemma a_sentence_is_one_paragraph_witness :
  let s := str "the quick fox" in
  sentence s = true /\
  collectTokens noLetterAboveLatin1 19 s =
    Ok [mkTok typeText s 1 0 0; mkTok typeEOF [] 1 (len s) 0] /\
  Parse noLetterAboveLatin1 19 s =
    Ok (mkNode nodeRoot []
          [mkNode nodeParagraph [] [mkNode nodeText s []]]) /\
  Html noLetterAboveLatin1 19 s = Ok (str "<p>" ++ s ++ str "</p>") /\
  HighlightText noLetterAboveLatin1 19 s = Ok (span (str "text") s).
Proof.
  intros s.
  assert (sentence s = true) as St by by_computation.
  split; [exact St|].
  apply (a_sentence_is_one_paragraph noLetterAboveLatin1 s 19 St).
  change (List.length s) with 13%nat. lia.
Defined.

(** [a b c]: three bytes more than one token. *)
Lemma lexing_ascii_input_ends_witness :
  let s := str "a b c" in
  ascii s = true /\
  (collectTokens noLetterAboveLatin1 119 s = Panic \/
   exists ts t,
     collectTokens noLetterAboveLatin1 119 s = Ok (ts ++ [t]) /\
     Typ t = typeEOF /\
     (List.length (ts ++ [t]) <= 9 * List.length s + 7)%nat).
Proof.
  intros s. assert (ascii s = true) as A by by_computation.
  split; [exact A|].
  apply (lexing_ascii_input_ends noLetterAboveLatin1 s 119 A).
  change (List.length s) with 5%nat. lia.
Defined.

(** The list of [- a], newline, [- b]. *)
Lemma parsing_ascii_input_ends_witness :
  let s := str "- a" ++ nl ++ str "- b" in
  ascii s = true /\
  ((Parse noLetterAboveLatin1 162 s = Panic /\
    Html noLetterAboveLatin1 162 s = Panic) \/
   exists t, Parse noLetterAboveLatin1 162 s = Ok t /\
             document t = true /\
             Html noLetterAboveLatin1 162 s =
             Ok (toHtml t [] htmlCtxNone)).
Proof.
  intros s. assert (ascii s = true) as A by by_computation.
  split; [exact A|].
  apply (parsing_ascii_input_ends noLetterAboveLatin1 s 162 A).
  change (List.length s) with 7%nat. lia.
Defined.

(** The heading of [. Title]. *)
Lemma editor_data_of_ascii_input_witness :
  let s := str ". Title" in
  ascii s = true /\
  HighlightText noLetterAboveLatin1 162 s <> OutOfFuel /\
  (EditorData noLetterAboveLatin1 162 s = Panic \/
   exists h o,
     EditorData noLetterAboveLatin1 162 s = Ok (mkEditorData h o) /\
     Html noLetterAboveLatin1 162 s = Ok h /\
     HighlightText noLetterAboveLatin1 162 s = Ok o /\
     oneLine o = true).
Proof.
  intros s. assert (ascii s = true) as A by by_computation.
  split; [exact A|].
  apply (editor_data_of_ascii_input noLetterAboveLatin1 s 162 A).
  change (List.length s) with 7%nat. lia.
Defined.

(** [a][]: the lexer panics, and so does the highlighter. *)
Lemma tokens_of_ascii_input_are_in_order_witness :
  let s := str "a][" in
  ascii s = true /\
  collectTokens noLetterAboveLatin1 32 s = Panic /\
  HighlightText noLetterAboveLatin1 32 s = Panic.
Proof.
  intros s. assert (ascii s = true) as A by by_computation.
  assert (collectTokens noLetterAboveLatin1 32 s = Panic) as C
      by by_computation.
  destruct (tokens_of_ascii_input_are_in_order noLetterAboveLatin1 s A)
    as (_ & H).
  split; [exact A|]. split; [exact C|]. apply (H 32%nat). exact C.
Defined.

(** The hypothesis of ASCII is needed: in four closing brackets, two
    letters of two bytes each and an opening bracket, the Tag token
    starts two bytes before the token delivered before it, and
    [HighlightText] panics where the lexer and [Parse] do not. *)
Example tokens_out_of_order_beyond_ascii :
  let s := [x5d; x5d; x5d; x5d; xc3; xa9; xc3; xa9; x5b] in
  ascii s = false /\
  (r <- collectTokens noLetterAboveLatin1 64 s ;;
   Ok (map (fun t => (Typ t, Pos t)) r)) =
  Ok [(typeClosingSquare, 0); (typeClosingSquare, 1);
      (typeClosingSquare, 2); (typeClosingSquare, 3);
      (typeTag, 2); (typeOpeningSquare, 8); (typeEOF, 9)] /\
  HighlightText noLetterAboveLatin1 64 s = Panic /\
  (r <- Parse noLetterAboveLatin1 64 s ;; Ok tt) = Ok tt.
Proof. repeat split; vm_compute; reflexivity. Qed.
